(** * phylojs: extended-Newick reader and Tree algorithms

    A shallow embedding of [src/Reader.ts] (lexer, recursive-descent
    parser, [readNewick]) and of [src/tree/tree.ts] (class [Tree]), with
    the properties of the specification stated and proved over it.

    Nodes are mutable objects linked by [parent] back-references, so the
    object graph is modelled as a store ([heap]) of node records addressed
    by references; methods are state-passing functions over that store.
    Numbers are exact rationals extended with the special values of
    JavaScript numbers ([NaN], [Infinity], [-Infinity]); strings are
    sequences of UTF-16 code units. *)

From Stdlib Require Import Ascii String QArith Qcanon.
From stdpp Require Import base option list numbers strings pretty gmap sorting.

Set Default Proof Using "Type".
Set Warnings "-register-all".
Local Open Scope Z_scope.
Local Open Scope Qc_scope.
Local Open Scope nat_scope.

(* ================================================================= *)
(** ** JavaScript numbers *)

Module JS.

(** A number is [NaN], an infinity, or a finite value held exactly. *)
Inductive num : Type :=
| NaN
| PInf
| NInf
| Fin (q : Qc).

#[global] Instance num_eq_dec : EqDecision num.
Proof. solve_decision. Defined.

#[global] Instance num_inhabited : Inhabited num := populate NaN.

Definition num_to_sum (x : num) : nat + Qc :=
  match x with
  | NaN => inl 0 | PInf => inl 1 | NInf => inl 2 | Fin q => inr q
  end.

Definition num_of_sum (s : nat + Qc) : num :=
  match s with
  | inl 0 => NaN | inl 1 => PInf | inl _ => NInf | inr q => Fin q
  end.

Lemma num_of_to_sum x : num_of_sum (num_to_sum x) = x.
Proof. by destruct x. Qed.

#[global] Instance num_countable : Countable num :=
  inj_countable' num_to_sum num_of_sum num_of_to_sum.

Definition isNaN (x : num) : bool :=
  match x with NaN => true | _ => false end.

Definition isFinite (x : num) : bool :=
  match x with Fin _ => true | _ => false end.

Definition zero : num := Fin 0%Qc.

Definition of_nat (n : nat) : num := Fin (Q2Qc (inject_Z (Z.of_nat n))).

Definition neg (x : num) : num :=
  match x with
  | NaN => NaN
  | PInf => NInf
  | NInf => PInf
  | Fin q => Fin (- q)%Qc
  end.

(** [x + y] *)
Definition add (x y : num) : num :=
  match x, y with
  | NaN, _ | _, NaN => NaN
  | PInf, NInf | NInf, PInf => NaN
  | PInf, _ | _, PInf => PInf
  | NInf, _ | _, NInf => NInf
  | Fin a, Fin b => Fin (a + b)%Qc
  end.

(** [x - y] *)
Definition sub (x y : num) : num := add x (neg y).

(** Sign of a finite rational: [Lt], [Eq] or [Gt] with respect to 0. *)
Definition sgn (q : Qc) : comparison := (q ?= 0)%Qc.

Definition inf_of (c : comparison) : num :=
  match c with Eq => NaN | Gt => PInf | Lt => NInf end.

(** [x * y] *)
Definition mul (x y : num) : num :=
  match x, y with
  | NaN, _ | _, NaN => NaN
  | Fin a, Fin b => Fin (a * b)%Qc
  | PInf, PInf | NInf, NInf => PInf
  | PInf, NInf | NInf, PInf => NInf
  | PInf, Fin b | Fin b, PInf => inf_of (sgn b)
  | NInf, Fin b | Fin b, NInf => inf_of (CompOpp (sgn b))
  end.

(** [x / 2] *)
Definition half (x : num) : num :=
  match x with
  | Fin a => Fin (a / Q2Qc 2)%Qc
  | other => other
  end.

(** [x <= y]; every comparison with [NaN] is false. *)
Definition le (x y : num) : bool :=
  match x, y with
  | NaN, _ | _, NaN => false
  | NInf, _ | _, PInf => true
  | PInf, _ | _, NInf => false
  | Fin a, Fin b => bool_decide (a ≤ b)%Qc
  end.

(** [x >= y] *)
Definition ge (x y : num) : bool := le y x.

(** [x === y] on numbers: [NaN] is not equal to itself. *)
Definition strict_eq (x y : num) : bool :=
  match x with
  | NaN => false
  | _ => bool_decide (x = y)
  end.

(** The binary step of [Math.min]: [NaN] is absorbing. *)
Definition min2 (x y : num) : num :=
  match x, y with
  | NaN, _ | _, NaN => NaN
  | _, _ => if le x y then x else y
  end.

(** [Math.min(...xs)]; the minimum of no argument is [Infinity]. *)
Definition Math_min (xs : list num) : num := foldr min2 PInf xs.

(** Object keys are the string forms of numbers.  Two numbers give the
    same key exactly when they are the same value ([NaN] included), so
    a number-keyed object is modelled as an association on [num]. *)
Definition same_key (x y : num) : bool := bool_decide (x = y).

(** Equality test that evaluates: compares the reduced fractions. *)
Definition eqb (x y : num) : bool :=
  match x, y with
  | NaN, NaN | PInf, PInf | NInf, NInf => true
  | Fin a, Fin b => Qeq_bool a b
  | _, _ => false
  end.


End JS.

(* ================================================================= *)
(** ** Results of calls: normal return, a thrown value, or exhaustion of
    the recursion budget (the call stack). *)

Inductive TokenKind : Type :=
| OPENP | CLOSEP | COLON | COMMA | SEMI | OPENA | CLOSEA
| OPENV | CLOSEV | EQ | HASH | STRING.

#[export] Instance TokenKind_eq_dec : EqDecision TokenKind.
Proof. solve_decision. Defined.

(** A string is the sequence of its UTF-16 code units, each a number
    below 65536. *)
Abbreviation jsstring := (list N) (only parsing).

(** The code unit of a character of a literal of the source, and the
    string of such a literal. *)
Definition cu (c : ascii) : N := N_of_ascii c.
Definition str (s : string) : jsstring := cu <$> list_ascii_of_string s.

(** [Token = [string, string, number]]: kind, text, offset in the input. *)
Abbreviation Token := (TokenKind * jsstring * nat)%type (only parsing).

Definition tok_kind (t : Token) : TokenKind := t.1.1.
Definition tok_text (t : Token) : jsstring := t.1.2.
Definition tok_pos (t : Token) : nat := t.2.

(** The messages of [ParseException], kept structured. *)
Inductive ParseMessage : Type :=
| ErrorReadingCharacter (c : N) (position : nat)
| ExpectedTokenButFound (expected : TokenKind) (found : Token)
| TerminatedEarly (expected : TokenKind)
| MultipleRoots
| ExpectedNumericalBranchLength (found : jsstring).

(** Thrown values: a [ParseException], a thrown string literal, or the
    [TypeError] raised by a property access on [undefined]. *)
Inductive exn : Type :=
| ParseException (m : ParseMessage)
| ThrownString (s : string)
| TypeError.

Inductive result (A : Type) : Type :=
| Ok (a : A)
| Throw (e : exn)
| OutOfFuel.
Arguments Ok {A} a.
Arguments Throw {A} e.
Arguments OutOfFuel {A}.

Definition is_Ok {A} (r : result A) : bool :=
  match r with Ok _ => true | _ => false end.

(** State-and-exception monad over a state type [S]. *)
Definition M (S A : Type) : Type := S → result (A * S).

Definition ret {S A} (a : A) : M S A := λ s, Ok (a, s).

Definition bind {S A B} (m : M S A) (k : A → M S B) : M S B :=
  λ s, match m s with
       | Ok (a, s') => k a s'
       | Throw e => Throw e
       | OutOfFuel => OutOfFuel
       end.

Definition throw {S A} (e : exn) : M S A := λ _, Throw e.
Definition out_of_fuel {S A} : M S A := λ _, OutOfFuel.
Definition get {S} : M S S := λ s, Ok (s, s).
Definition put {S} (s : S) : M S unit := λ _, Ok (tt, s).
Definition modify {S} (f : S → S) : M S unit := λ s, Ok (tt, f s).

Declare Scope monad_scope.
Delimit Scope monad_scope with monad.
Notation "'let*' x ':=' m 'in' k" := (bind m (λ x, k))
  (at level 10, x pattern, m at level 100, k at level 200) : monad_scope.
Notation "m ';;' k" := (bind m (λ _, k))
  (at level 100, k at level 200, right associativity) : monad_scope.
Local Open Scope monad_scope.

(** [for (x of xs)] with a body in the monad, collecting the results. *)
Fixpoint mapM {S A B} (f : A → M S B) (xs : list A) : M S (list B) :=
  match xs with
  | [] => ret []
  | x :: xs' => let* y := f x in let* ys := mapM f xs' in ret (y :: ys)
  end.

Fixpoint forM_ {S A} (xs : list A) (f : A → M S unit) : M S unit :=
  match xs with
  | [] => ret tt
  | x :: xs' => f x ;; forM_ xs' f
  end.

(** How a call ends that may throw after it has changed the object it
    is called on: with the value returned or with the value thrown.  A
    method that does so returns its completion together with the
    object as the call leaves it. *)
Inductive completion (A : Type) : Type :=
| Returned (a : A)
| Thrown (e : exn).
Arguments Returned {A} a.
Arguments Thrown {A} e.

(** The completion of a call, for a caller that does not catch. *)
Definition propagate {S A} (c : completion A) : M S A :=
  match c with
  | Returned a => ret a
  | Thrown e => throw e
  end.

(* ================================================================= *)
(** ** Nodes and the object store *)

(** A reference to a [Node] object. *)
Abbreviation ref := nat (only parsing).

(** Annotation values: [type RuleQResult = string | RuleQResult[] | null]. *)
Inductive RuleQResult : Type :=
| QString (s : jsstring)
| QList (l : list RuleQResult)
| QNull.

(** Modelled from the spec: the [Node] class (file [tree/node.ts]) is not
    part of the sources at hand; its fields follow section 3 of the
    specification ([rttDist] is left out: no method embedded here reads
    it).  [undefined] is [None]. *)
Record Node : Type := mkNode {
  id : nat;
  label : option jsstring;
  branchLength : option JS.num;
  height : option JS.num;
  children : list ref;
  parent : option ref;
  hybridID : option JS.num;
  annotation : gmap jsstring RuleQResult;
}.

(** Modelled from the spec: [new Node(id)] -- only the id is set. *)
Definition new_Node (i : nat) : Node :=
  {| id := i; label := None; branchLength := None; height := None;
     children := []; parent := None; hybridID := None; annotation := ∅ |}.

#[export] Instance Node_inhabited : Inhabited Node := populate (new_Node 0).

Definition set_id (v : nat) (n : Node) : Node :=
  mkNode v (label n) (branchLength n) (height n) (children n) (parent n)
         (hybridID n) (annotation n).
Definition set_label (v : option jsstring) (n : Node) : Node :=
  mkNode (id n) v (branchLength n) (height n) (children n) (parent n)
         (hybridID n) (annotation n).
Definition set_branchLength (v : option JS.num) (n : Node) : Node :=
  mkNode (id n) (label n) v (height n) (children n) (parent n)
         (hybridID n) (annotation n).
Definition set_height (v : option JS.num) (n : Node) : Node :=
  mkNode (id n) (label n) (branchLength n) v (children n) (parent n)
         (hybridID n) (annotation n).
Definition set_children (v : list ref) (n : Node) : Node :=
  mkNode (id n) (label n) (branchLength n) (height n) v (parent n)
         (hybridID n) (annotation n).
Definition set_parent (v : option ref) (n : Node) : Node :=
  mkNode (id n) (label n) (branchLength n) (height n) (children n) v
         (hybridID n) (annotation n).
Definition set_hybridID (v : option JS.num) (n : Node) : Node :=
  mkNode (id n) (label n) (branchLength n) (height n) (children n) (parent n)
         v (annotation n).
Definition set_annotation (v : gmap jsstring RuleQResult) (n : Node) : Node :=
  mkNode (id n) (label n) (branchLength n) (height n) (children n) (parent n)
         (hybridID n) v.

(** The store: the node objects allocated so far; a reference is an index. *)
Abbreviation heap := (list Node) (only parsing).

(** The object behind a reference. *)
Definition node_at (h : heap) (r : ref) : Node := h !!! r.

(** In-place update of one object. *)
Definition update (r : ref) (f : Node → Node) (h : heap) : heap := alter f r h.

(** [new Node(i)]: a fresh object, distinct from all existing ones. *)
Definition alloc (i : nat) (h : heap) : ref * heap :=
  (length h, h ++ [new_Node i]).

(** Removes the first occurrence of [c], as [indexOf] then [splice]. *)
Fixpoint remove_first (c : ref) (l : list ref) : list ref :=
  match l with
  | [] => []
  | x :: l' => if decide (x = c) then l' else x :: remove_first c l'
  end.

(** Modelled from the spec: [Node.addChild] sets the parent reference
    of the child and appends it to the children sequence. *)
Definition addChild (p c : ref) (h : heap) : heap :=
  update c (set_parent (Some p))
    (update p (λ n, set_children (children n ++ [c]) n) h).

(** Modelled from the spec: [Node.removeChild] clears the parent reference
    of the child and deletes it from the children sequence. *)
Definition removeChild (p c : ref) (h : heap) : heap :=
  update c (set_parent None)
    (update p (λ n, set_children (remove_first c (children n)) n) h).

(** Modelled from the spec: [isLeaf] = no children. *)
Definition isLeaf (h : heap) (r : ref) : bool :=
  bool_decide (children (node_at h r) = []).

(** Modelled from the spec: [isHybrid] = [hybridID] defined. *)
Definition isHybrid (h : heap) (r : ref) : bool :=
  bool_decide (is_Some (hybridID (node_at h r))).

(** Modelled from the spec: [Node.applyPreOrder(f)] visits the node, then
    its children left to right (read after [f] has run on the node), each
    recursively, and collects the outputs of [f] that are not [null], in
    visit order.  The recursion depth is bounded by [fuel]. *)
Fixpoint applyPreOrder {A} (fuel : nat) (f : ref → M heap (option A))
    (r : ref) : M heap (list A) :=
  match fuel with
  | O => out_of_fuel
  | S fuel' =>
      let* thisRes := f r in
      let* h := get in
      let* rest := mapM (applyPreOrder fuel' f) (children (node_at h r)) in
      ret (option_list thisRes ++ concat rest)
  end.

(* ================================================================= *)
(** ** The class [Tree] *)

Record Tree : Type := mkTree {
  root : ref;
  _nodeList : option (list ref);
  nodeIDMap : option (gmap nat ref);
  labelNodeMap : option (gmap jsstring ref);
  _leafList : option (list ref);
  recombEdgeMap : option (gmap JS.num (list ref));
  isTimeTree : bool;
}.

Definition set_root (v : ref) (t : Tree) : Tree :=
  mkTree v (_nodeList t) (nodeIDMap t) (labelNodeMap t) (_leafList t)
         (recombEdgeMap t) (isTimeTree t).
Definition set__nodeList (v : option (list ref)) (t : Tree) : Tree :=
  mkTree (root t) v (nodeIDMap t) (labelNodeMap t) (_leafList t)
         (recombEdgeMap t) (isTimeTree t).
Definition set__leafList (v : option (list ref)) (t : Tree) : Tree :=
  mkTree (root t) (_nodeList t) (nodeIDMap t) (labelNodeMap t) v
         (recombEdgeMap t) (isTimeTree t).
Definition set_recombEdgeMap (v : option (gmap JS.num (list ref)))
    (t : Tree) : Tree :=
  mkTree (root t) (_nodeList t) (nodeIDMap t) (labelNodeMap t) (_leafList t)
         v (isTimeTree t).
Definition set_isTimeTree (v : bool) (t : Tree) : Tree :=
  mkTree (root t) (_nodeList t) (nodeIDMap t) (labelNodeMap t) (_leafList t)
         (recombEdgeMap t) v.

(** [clearCaches] *)
Definition clearCaches (t : Tree) : Tree :=
  mkTree (root t) None None None None None (isTimeTree t).

Section TreeMethods.

(** Bound on the depth of recursive calls and on the rounds of loops
    that follow [parent] links. *)
Variable fuel : nat.

(** [get nodeList]: computed on first use, then cached. *)
Definition nodeList (t : Tree) : M heap (list ref * Tree) :=
  match _nodeList t with
  | Some l => ret (l, t)
  | None =>
      let* l := applyPreOrder fuel (λ node, ret (Some node)) (root t) in
      ret (l, set__nodeList (Some l) t)
  end.

(** [get leafList] *)
Definition leafList (t : Tree) : M heap (list ref * Tree) :=
  match _leafList t with
  | Some l => ret (l, t)
  | None =>
      let* l := applyPreOrder fuel
                  (λ node, let* h := get in
                           ret (if isLeaf h node then Some node else None))
                  (root t) in
      ret (l, set__leafList (Some l) t)
  end.

(** The callback of the heights pass of [computeNodeAges]. *)
Definition setHeight (node : ref) : M heap (option JS.num) :=
  let* h := get in
  let v :=
    match parent (node_at h node) with
    | None => JS.zero
    | Some p =>
        match branchLength (node_at h node), height (node_at h p) with
        | Some bl, Some ph => JS.sub ph bl
        | _, _ => JS.NaN
        end
    end in
  modify (update node (set_height (Some v))) ;;
  ret (Some v).

(** The body of the shifting loop of [computeNodeAges]. *)
Definition shiftHeight (youngestHeight : JS.num) (node : ref) : M heap unit :=
  let* h := get in
  match height (node_at h node) with
  | Some x =>
      modify (update node (set_height (Some (JS.sub x youngestHeight))))
  | None => ret tt
  end.

(** [computeNodeAges] *)
Definition computeNodeAges (t : Tree) : M heap Tree :=
  let* heights := applyPreOrder fuel setHeight (root t) in
  let youngestHeight := JS.Math_min heights in
  let* h := get in
  let t1 :=
    set_isTimeTree
      (negb (JS.isNaN youngestHeight)
       && (bool_decide (1 < length heights)
           || bool_decide (is_Some (branchLength (node_at h (root t))))))
      t in
  let* (nl, t2) := nodeList t1 in
  forM_ nl (shiftHeight youngestHeight) ;;
  ret t2.

(** [constructor(root)] *)
Definition new_Tree (r : ref) : M heap Tree :=
  computeNodeAges (mkTree r None None None None None false).

(** [getSubtree] *)
Definition getSubtree (node : ref) : M heap Tree := new_Tree node.

(** [e.label ?? e.id.toString()] *)
Definition tipLabel (h : heap) (e : ref) : jsstring :=
  match label (node_at h e) with
  | Some l => l
  | None => str (pretty (id (node_at h e)))
  end.

(** [getTipLabels(node?)] *)
Definition getTipLabels (t : Tree) (node : option ref)
    : M heap (list jsstring * Tree) :=
  match node with
  | Some n =>
      let* st := getSubtree n in
      let* (ll, _) := leafList st in
      let* h := get in
      ret (tipLabel h <$> ll, t)
  | None =>
      let* (ll, t') := leafList t in
      let* h := get in
      ret (tipLabel h <$> ll, t')
  end.

(** [getBranchLengths] *)
Definition getBranchLengths (t : Tree)
    : M heap (list (option JS.num) * Tree) :=
  let* (nl, t') := nodeList t in
  let* h := get in
  ret ((λ e, branchLength (node_at h e)) <$> nl, t').

(** [getTotalBranchLength] *)
Definition getTotalBranchLength (t : Tree) : M heap (JS.num * Tree) :=
  let* (nl, t') := nodeList t in
  let* h := get in
  ret (foldl (λ totalLength node,
                match branchLength (node_at h node) with
                | Some bl => JS.add totalLength bl
                | None => totalLength
                end) JS.zero nl, t').

(** [reassignNodeIDs] *)
Definition reassignNodeIDs (t : Tree) : M heap Tree :=
  let* (nl, t') := nodeList t in
  forM_ (imap (λ i node, (i, node)) nl)
        (λ '(i, node), modify (update node (set_id i))) ;;
  ret t'.

(** The comparator of [ladderise]: [-1], [0], [1] as [Lt], [Eq], [Gt].
    Each call builds two subtree views, whose constructor recomputes the
    heights below [a] and [b]. *)
Definition ladderCompare (a b : ref) : M heap comparison :=
  let* ta := getSubtree a in
  let* (tipsA, _) := getTipLabels ta None in
  let* tb := getSubtree b in
  let* (tipsB, _) := getTipLabels tb None in
  ret (Nat.compare (length tipsA) (length tipsB)).

(** [Array.prototype.sort(cmp)] is stable and orders by [cmp]; the
    language leaves the sequence of calls to [cmp] to the engine.  The
    calls are made here in the order of a stable insertion sort. *)
Fixpoint insertM (cmp : ref → ref → M heap comparison) (x : ref)
    (l : list ref) : M heap (list ref) :=
  match l with
  | [] => ret [x]
  | y :: l' =>
      let* c := cmp x y in
      match c with
      | Gt => let* r := insertM cmp x l' in ret (y :: r)
      | _ => ret (x :: y :: l')
      end
  end.

Fixpoint sortM (cmp : ref → ref → M heap comparison) (l : list ref)
    : M heap (list ref) :=
  match l with
  | [] => ret []
  | x :: l' => let* s := sortM cmp l' in insertM cmp x s
  end.

(** The callback of [ladderise]: sorts the children array in place. *)
Definition sortChildren (node : ref) : M heap (option unit) :=
  let* h := get in
  let* sorted := sortM ladderCompare (children (node_at h node)) in
  modify (update node (set_children sorted)) ;;
  ret (Some tt).

(** [ladderise] *)
Definition ladderise (t : Tree) : M heap unit :=
  applyPreOrder fuel sortChildren (root t) ;; ret tt.

(** The filing loop of [getRecombEdgeMap]: a hybrid leaf is pushed on the
    destination list of its id, any other hybrid node is recorded as the
    source of its id. *)
Definition fileHybrid (h : heap)
    (maps : gmap JS.num ref * gmap JS.num (list ref)) (node : ref)
    : gmap JS.num ref * gmap JS.num (list ref) :=
  let '(srcHybridIDMap, destHybridIDMap) := maps in
  match hybridID (node_at h node) with
  | None => maps
  | Some hid =>
      if isLeaf h node then
        match destHybridIDMap !! hid with
        | Some dests => (srcHybridIDMap, <[hid := dests ++ [node]]> destHybridIDMap)
        | None => (srcHybridIDMap, <[hid := [node]]> destHybridIDMap)
        end
      else (<[hid := node]> srcHybridIDMap, destHybridIDMap)
  end.

(** The keys of [srcHybridIDMap] in the order in which the filing loop
    creates them: the ids of the hybrid nodes that are not leaves, each
    where it occurs first. *)
Definition fileSourceKey (h : heap) (keys : list JS.num) (node : ref)
    : list JS.num :=
  match hybridID (node_at h node) with
  | Some hid =>
      if isLeaf h node then keys
      else if bool_decide (hid ∈ keys) then keys else keys ++ [hid]
  | None => keys
  end.

(** A key that is an array index: the string form of an integer from 0
    to 2^32 - 2. *)
Definition arrayIndex (k : JS.num) : option Z :=
  match k with
  | JS.Fin q =>
      if ((Qden q =? 1)%positive && (0 <=? Qnum q)%Z
          && (Qnum q <=? 4294967294)%Z)%bool
      then Some (Qnum q) else None
  | _ => None
  end.

Fixpoint insertIndex (k : JS.num) (l : list JS.num) : list JS.num :=
  match l with
  | [] => [k]
  | y :: l' =>
      if (default 0 (arrayIndex k) <=? default 0 (arrayIndex y))%Z
      then k :: l else y :: insertIndex k l'
  end.

(** [for (key in object)] on an object whose keys were created in the
    order [created]: the array indices in increasing order, then the
    other keys in the order of their creation. *)
Definition forInOrder (created : list JS.num) : list JS.num :=
  foldr insertIndex [] (filter (λ k, is_Some (arrayIndex k)) created)
  ++ filter (λ k, arrayIndex k = None) created.

(** [for (hybridID in srcHybridIDMap)] over the keys still to visit,
    [m] being [this.recombEdgeMap]: the loop ends or throws, and leaves
    the map as it has filled it.  (Every key visited is a key of
    [srcHybridIDMap].) *)
Fixpoint groupSources (srcHybridIDMap : gmap JS.num ref)
    (destHybridIDMap : gmap JS.num (list ref)) (keys : list JS.num)
    (m : gmap JS.num (list ref))
    : completion unit * gmap JS.num (list ref) :=
  match keys with
  | [] => (Returned tt, m)
  | hid :: keys' =>
      match destHybridIDMap !! hid with
      | Some dests =>
          groupSources srcHybridIDMap destHybridIDMap keys'
            (<[hid := option_list (srcHybridIDMap !! hid) ++ dests]> m)
      | None =>
          (Thrown (ThrownString
             "Extended Newick error: hybrid nodes must come in groups of 2 or more."),
           m)
      end
  end.

(** The body of [for (hybridID in destHybridIDMap)]: the leaf-only
    groups. *)
Definition leafGroupStep (entry : JS.num * list ref)
    (acc : gmap JS.num (list ref)) : gmap JS.num (list ref) :=
  let '(hid, dests) := entry in
  match acc !! hid with
  | Some _ => acc
  | None => <[hid := dests]> acc
  end.

Definition addLeafGroups (destHybridIDMap : gmap JS.num (list ref))
    (m : gmap JS.num (list ref)) : gmap JS.num (list ref) :=
  foldr leafGroupStep m (map_to_list destHybridIDMap).

(** The list of hybrid nodes in pre-order. *)
Definition hybridNodeList (t : Tree) : M heap (list ref) :=
  applyPreOrder fuel
    (λ node, let* h := get in
             ret (if isHybrid h node then Some node else None))
    (root t).

(** [getRecombEdgeMap]: the map is computed on first use and cached.
    The cache is assigned before the loop that may throw, so that a
    call that throws leaves in it the groups built until then. *)
Definition getRecombEdgeMap (t : Tree)
    : M heap (completion (gmap JS.num (list ref)) * Tree) :=
  match recombEdgeMap t with
  | Some m => ret (Returned m, t)
  | None =>
      let* hybrids := hybridNodeList t in
      let* h := get in
      let '(srcHybridIDMap, destHybridIDMap) :=
        foldl (fileHybrid h) (∅, ∅) hybrids in
      let created := foldl (fileSourceKey h) [] hybrids in
      match groupSources srcHybridIDMap destHybridIDMap
                         (forInOrder created) ∅ with
      | (Returned _, m0) =>
          let m := addLeafGroups destHybridIDMap m0 in
          ret (Returned m, set_recombEdgeMap (Some m) t)
      | (Thrown e, m0) => ret (Thrown e, set_recombEdgeMap (Some m0) t)
      end
  end.

(** One round of the ascent of [getMRCA]: the [for] loop over
    [nodesToCheck].  [inl node] is the early [return node]. *)
Fixpoint mrcaRound (h : heap) (leafCount : nat) (nodesToCheck : list ref)
    (visitCounts : gmap ref nat) (nextNodes : list ref)
    : ref + (gmap ref nat * list ref) :=
  match nodesToCheck with
  | [] => inr (visitCounts, nextNodes)
  | node :: rest =>
      let count := default 0 (visitCounts !! node) + 1 in
      if decide (count = leafCount) then inl node
      else
        mrcaRound h leafCount rest (<[node := count]> visitCounts)
          (match parent (node_at h node) with
           | Some p => nextNodes ++ [p]
           | None => nextNodes
           end)
  end.

(** The [while (nodesToCheck.length > 0)] loop of [getMRCA]. *)
Fixpoint mrcaLoop (n : nat) (h : heap) (leafCount : nat)
    (nodesToCheck : list ref) (visitCounts : gmap ref nat)
    : result (option ref) :=
  match nodesToCheck with
  | [] => Ok None
  | _ =>
      match n with
      | O => OutOfFuel
      | S n' =>
          match mrcaRound h leafCount nodesToCheck visitCounts [] with
          | inl node => Ok (Some node)
          | inr (visitCounts', nextNodes) =>
              mrcaLoop n' h leafCount nextNodes visitCounts'
          end
      end
  end.

(** [getMRCA]; [None] is [null]. *)
Definition getMRCA (nodes : list ref) : M heap (option ref) :=
  λ h,
    match nodes with
    | [] => Ok (None, h)
    | [x] =>
        Ok (Some (match parent (node_at h x) with Some p => p | None => x end),
            h)
    | _ =>
        match mrcaLoop fuel h (length nodes) nodes ∅ with
        | Ok r => Ok (r, h)
        | Throw e => Throw e
        | OutOfFuel => OutOfFuel
        end
    end.

(** *** [reroot] *)

(** The mutable objects shared by the calls of the closure
    [recurseReroot]: the store, [usedHybridIDs] and [seenNodes]. *)
Record RerootState : Type := mkRS {
  rs_heap : heap;
  usedHybridIDs : gset JS.num;
  seenNodes : gset nat;
}.

Definition onHeap (f : heap → heap) : M RerootState unit :=
  modify (λ s, mkRS (f (rs_heap s)) (usedHybridIDs s) (seenNodes s)).

(** [while (newHybridID in usedHybridIDs) newHybridID += 1], unrolled at
    most [k] times; [k] above the size of [usedHybridIDs] suffices. *)
Fixpoint freshHybridID (k : nat) (used : gset JS.num) (newHybridID : nat)
    : nat :=
  match k with
  | O => newHybridID
  | S k' =>
      if decide (JS.of_nat newHybridID ∈ used)
      then freshHybridID k' used (S newHybridID)
      else newHybridID
  end.

(** The branch of [recurseReroot] taken on a node already seen: a new
    hybrid node stands for it below [prevNode]. *)
Definition closeCycle (node prevNode : ref) (BL : option JS.num)
    (s : RerootState) : RerootState :=
  let '(newHybrid, h1) := alloc 0 (rs_heap s) in
  let '(h2, used2) :=
    if isHybrid h1 node then
      (update newHybrid (set_hybridID (hybridID (node_at h1 node))) h1,
       usedHybridIDs s)
    else
      let newHybridID :=
        JS.of_nat (freshHybridID (S (size (usedHybridIDs s)))
                                 (usedHybridIDs s) 0) in
      (update newHybrid (set_hybridID (Some newHybridID))
         (update node (set_hybridID (Some newHybridID)) h1),
       {[newHybridID]} ∪ usedHybridIDs s) in
  let h3 := update newHybrid (set_branchLength BL) h2 in
  mkRS (addChild prevNode newHybrid h3) used2 (seenNodes s).

Section Closure.

(** The snapshot of the hybrid-edge map taken before any mutation. *)
Variable currentRecombEdgeMap : gmap JS.num (list ref).

Fixpoint recurseReroot (n : nat) (node : option ref) (prevNode : ref)
    (BL : option JS.num) : M RerootState unit :=
  match n with
  | O => out_of_fuel
  | S n' =>
      match node with
      | None => ret tt
      | Some node =>
          let* s := get in
          if decide (id (node_at (rs_heap s) node) ∈ seenNodes s) then
            put (closeCycle node prevNode BL s)
          else
            put (mkRS (rs_heap s) (usedHybridIDs s)
                      ({[id (node_at (rs_heap s) node)]} ∪ seenNodes s)) ;;
            let nodeP := parent (node_at (rs_heap s) node) in
            match nodeP with
            | Some p => onHeap (removeChild p node)
            | None => ret tt
            end ;;
            onHeap (addChild prevNode node) ;;
            let* s1 := get in
            let tmpBL := branchLength (node_at (rs_heap s1) node) in
            onHeap (update node (set_branchLength BL)) ;;
            recurseReroot n' nodeP node tmpBL ;;
            let* s2 := get in
            match hybridID (node_at (rs_heap s2) node) with
            | None => ret tt
            | Some hid =>
                match currentRecombEdgeMap !! hid with
                | None => throw TypeError
                | Some group =>
                    let destNodes := drop 1 group in
                    let destNodePs :=
                      (λ destNode, parent (node_at (rs_heap s2) destNode))
                        <$> destNodes in
                    onHeap (update node (set_hybridID None)) ;;
                    forM_ (zip destNodes destNodePs)
                      (λ '(destNode, destNodeP),
                         match destNodeP with
                         | Some p => onHeap (removeChild p destNode)
                         | None => ret tt
                         end ;;
                         let* s3 := get in
                         recurseReroot n' destNodeP node
                           (branchLength (node_at (rs_heap s3) destNode)))
                end
            end
      end
  end.

End Closure.

(** Runs the closure on the store, with its two local objects. *)
Definition runClosure (m : M RerootState unit) (used : gset JS.num)
    : M heap unit :=
  λ h, match m (mkRS h used ∅) with
       | Ok (_, s) => Ok (tt, rs_heap s)
       | Throw e => Throw e
       | OutOfFuel => OutOfFuel
       end.

(** Splits the branch of [edgeBaseNode] according to [prop]; returns the
    part carried towards the old root. *)
Definition splitBranch (edgeBaseNode : ref) (prop : option JS.num)
    : M heap (option JS.num) :=
  let* h := get in
  match branchLength (node_at h edgeBaseNode) with
  | None => ret None
  | Some totalBL =>
      match prop with
      | Some p =>
          if JS.ge p JS.zero && JS.le p (JS.of_nat 1) then
            let kept := JS.mul totalBL p in
            modify (update edgeBaseNode (set_branchLength (Some kept))) ;;
            ret (Some (JS.sub totalBL kept))
          else
            modify (update edgeBaseNode
                      (set_branchLength (Some (JS.half totalBL)))) ;;
            ret (Some (JS.half totalBL))
      | None =>
          modify (update edgeBaseNode
                    (set_branchLength (Some (JS.half totalBL)))) ;;
          ret (Some (JS.half totalBL))
      end
  end.

(** Deletes the singleton node left by the old root. *)
Definition spliceOldRoot (oldRoot : ref) : M heap unit :=
  let* h := get in
  match children (node_at h oldRoot) with
  | [child] =>
      if isHybrid h oldRoot then ret tt
      else
        match parent (node_at h oldRoot) with
        | None => throw (ThrownString "root with single child?")
        | Some parent =>
            modify (removeChild parent oldRoot) ;;
            modify (removeChild oldRoot child) ;;
            modify (addChild parent child) ;;
            let* h' := get in
            match branchLength (node_at h' child),
                  branchLength (node_at h' oldRoot) with
            | Some cbl, Some rbl =>
                modify (update child (set_branchLength (Some (JS.add cbl rbl))))
            | _, _ => throw (ThrownString "branchLength === undefined")
            end
        end
  | _ => ret tt
  end.

(** The final loop of [reroot]: the branch of every destination leaf is
    adjusted by the difference of its height to that of its source. *)
Definition matchHybridHeights (group : list ref) : M heap unit :=
  match group with
  | [] => ret tt
  | srcNode :: dests =>
      forM_ dests
        (λ destNode,
           let* h := get in
           match branchLength (node_at h destNode) with
           | None => throw (ThrownString "branchLength === undefined")
           | Some bl =>
               match height (node_at h destNode), height (node_at h srcNode) with
               | Some dh, Some sh =>
                   modify (update destNode
                     (set_branchLength (Some (JS.add bl (JS.sub dh sh)))))
               | _, _ => throw (ThrownString "height === undefined")
               end
           end)
  end.

(** [reroot(edgeBaseNode, prop)] *)
Definition reroot (t : Tree) (edgeBaseNode : ref) (prop : option JS.num)
    : M heap Tree :=
  let* (called, t1) := getRecombEdgeMap (set_recombEdgeMap None t) in
  let* currentRecombEdgeMap := propagate called in
  let oldRoot := root t1 in
  let* h := get in
  let '(newRoot, h') := alloc 0 h in
  put h' ;;
  let t2 := set_root newRoot t1 in
  match parent (node_at h' edgeBaseNode) with
  | None => throw (ThrownString "edgeBaseNodeP === undefined")
  | Some edgeBaseNodeP =>
      modify (removeChild edgeBaseNodeP edgeBaseNode) ;;
      modify (addChild newRoot edgeBaseNode) ;;
      let* BL := splitBranch edgeBaseNode prop in
      runClosure
        (recurseReroot currentRecombEdgeMap fuel (Some edgeBaseNodeP)
                       newRoot BL)
        (dom currentRecombEdgeMap) ;;
      spliceOldRoot oldRoot ;;
      let* t3 := computeNodeAges (clearCaches t2) in
      let* t4 := reassignNodeIDs t3 in
      let* (called, t5) := getRecombEdgeMap t4 in
      let* m := propagate called in
      forM_ (map_to_list m) (λ '(_, group), matchHybridHeights group) ;;
      ret t5
  end.

End TreeMethods.

(* ================================================================= *)
(** ** The lexer ([doLex])

    The patterns of the source carry no [u] flag, so they read the
    input code unit by code unit. *)

Module Lexer.

Local Open Scope char_scope.

(** [\s]: tab, line feed, vertical tab, form feed, carriage return,
    space, no-break space, U+1680, U+2000 to U+200A, the line and the
    paragraph separator U+2028 and U+2029, U+202F, U+205F, U+3000 and
    the byte order mark U+FEFF. *)
Definition isWhitespace (c : N) : bool :=
  bool_decide (c ∈ [9; 10; 11; 12; 13; 32; 160; 5760;
                    8192; 8193; 8194; 8195; 8196; 8197; 8198; 8199; 8200;
                    8201; 8202; 8232; 8233; 8239; 8287; 12288; 65279]%N).

(** The characters that [.] does not match: line feed, carriage return,
    U+2028 and U+2029. *)
Definition isLineTerminator (c : N) : bool :=
  bool_decide (c ∈ [10; 13; 8232; 8233]%N).

Fixpoint dropString (n : nat) (s : jsstring) : jsstring :=
  match n, s with
  | S n', _ :: s' => dropString n' s'
  | _, _ => s
  end.

Fixpoint takeString (n : nat) (s : jsstring) : jsstring :=
  match n, s with
  | S n', c :: s' => c :: takeString n' s'
  | _, _ => []
  end.

Fixpoint startsWith (lit s : jsstring) : bool :=
  match lit, s with
  | [], _ => true
  | a :: lit', b :: s' => N.eqb a b && startsWith lit' s'
  | _ :: _, [] => false
  end.

(** A literal at the start of the input. *)
Definition matchLiteral (lit : jsstring) (s : jsstring) : option nat :=
  if startsWith lit s then Some (length lit) else None.

(** The two patterns for quoted strings are [/^q(?:[^q]|qq)+q/] with [q]
    the double or the single quote.  [quotedBody] matches what follows the
    opening quote: [items] pieces have been taken so far; the repetition
    is greedy and gives pieces back until a closing quote fits. *)
Fixpoint quotedBody (q : N) (items : nat) (s : jsstring) : option nat :=
  match s with
  | [] => None
  | c :: s' =>
      if N.eqb c q then
        let close := match items with O => None | S _ => Some 1 end in
        match s' with
        | c2 :: s'' =>
            if N.eqb c2 q then
              match quotedBody q (S items) s'' with
              | Some k => Some (2 + k)
              | None => close
              end
            else close
        | [] => close
        end
      else S <$> quotedBody q (S items) s'
  end.

Definition matchQuoted (q : N) (s : jsstring) : option nat :=
  match s with
  | c :: s' => if N.eqb c q then S <$> quotedBody q 0 s' else None
  | [] => None
  end.

(** Length of the longest prefix of characters satisfying [P]. *)
Fixpoint spanLength (P : N → bool) (s : jsstring) : nat :=
  match s with
  | c :: s' => if P c then S (spanLength P s') else 0
  | [] => 0
  end.

(** Offset of the first character satisfying [P], if any. *)
Fixpoint findChar (P : N → bool) (s : jsstring) : option nat :=
  match s with
  | c :: s' => if P c then Some 0 else S <$> findChar P s'
  | [] => None
  end.

(** The double-quote character. *)
Definition dquote : N := 34%N.

Definition charIn (cs : jsstring) (c : N) : bool :=
  bool_decide (c ∈ cs).

(** [/^[^,():;[\]#]+(?:\([^)]*\))?/] *)
Definition matchBareDefault (s : jsstring) : option nat :=
  let n := spanLength (λ c, negb (charIn (str ",():;[]#") c)) s in
  match n with
  | O => None
  | S _ =>
      match dropString n s with
      | c :: rest =>
          if N.eqb c (cu "(") then
            match findChar (N.eqb (cu ")")) rest with
            | Some k => Some (n + 1 + k + 1)
            | None => Some n
            end
          else Some n
      | [] => Some n
      end
  end.

(** [/^[^,[\]{}=]+/] *)
Definition matchBareAnnotation (s : jsstring) : option nat :=
  match spanLength (λ c, negb (charIn (str ",[]{}=") c)) s with
  | O => None
  | n => Some n
  end.

(** One row of the table [tokens]: kind, pattern, whether the text is
    post-processed, and the lexer mode the rule is restricted to. *)
Record Rule : Type := mkRule {
  rule_kind : TokenKind;
  rule_match : jsstring → option nat;
  rule_value : bool;
  rule_mode : option nat;
}.

Local Open Scope string_scope.

Definition tokens : list Rule :=
  [ mkRule OPENP (matchLiteral (str "(")) false None;
    mkRule CLOSEP (matchLiteral (str ")")) false None;
    mkRule COLON (matchLiteral (str ":")) false None;
    mkRule COMMA (matchLiteral (str ",")) false None;
    mkRule SEMI (matchLiteral (str ";")) false None;
    mkRule OPENA (matchLiteral (str "[&")) false None;
    mkRule CLOSEA (matchLiteral (str "]")) false None;
    mkRule OPENV (matchLiteral (str "{")) false None;
    mkRule CLOSEV (matchLiteral (str "}")) false None;
    mkRule EQ (matchLiteral (str "=")) false None;
    mkRule HASH (matchLiteral (str "#")) false None;
    mkRule STRING (matchQuoted dquote) true None;
    mkRule STRING (matchQuoted (cu "'")) true None;
    mkRule STRING matchBareDefault true (Some 0);
    mkRule STRING matchBareAnnotation true (Some 1) ].

(** [splitLast] and [allChars] serve [stripQuotes]. *)
Fixpoint splitLast (s : jsstring) : option (jsstring * N) :=
  match s with
  | [] => None
  | [c] => Some ([], c)
  | c :: s' =>
      match splitLast s' with
      | Some (init, last) => Some (c :: init, last)
      | None => None
      end
  end.

Fixpoint allChars (P : N → bool) (s : jsstring) : bool :=
  match s with
  | [] => true
  | c :: s' => P c && allChars P s'
  end.

(** The first two [replace] calls on a [STRING] text: a text that opens
    and closes with the quote [q] and holds no line terminator in between
    loses the two quotes; any other text is kept. *)
Definition stripQuotes (q : N) (v : jsstring) : jsstring :=
  match v with
  | c :: rest =>
      if N.eqb c q then
        match splitLast rest with
        | Some (mid, last) =>
            if N.eqb last q && allChars (λ c, negb (isLineTerminator c)) mid
            then mid else v
        | None => v
        end
      else v
  | [] => v
  end.

(** [value.replace(qq, q)] with a string pattern: the first occurrence of
    the doubled quote is replaced. *)
Fixpoint undouble (q : N) (s : jsstring) : jsstring :=
  match s with
  | c :: s' =>
      match s' with
      | c2 :: r =>
          if N.eqb c q && N.eqb c2 q then q :: r
          else c :: undouble q s'
      | [] => s
      end
  | [] => s
  end.

Definition stringValue (v : jsstring) : jsstring :=
  undouble dquote
    (undouble (cu "'") (stripQuotes (cu "'") (stripQuotes dquote v))).

(** The [for] loop over the rules at one input position: the first rule
    of the current mode whose pattern matches at offset 0. *)
Fixpoint firstMatch (rules : list Rule) (lexMode : nat) (s : jsstring)
    : option (Rule * nat) :=
  match rules with
  | [] => None
  | r :: rules' =>
      if bool_decide (rule_mode r = None ∨ rule_mode r = Some lexMode) then
        match rule_match r s with
        | Some len => Some (r, len)
        | None => firstMatch rules' lexMode s
        end
      else firstMatch rules' lexMode s
  end.

Definition nextMode (k : TokenKind) (lexMode : nat) : nat :=
  match k with
  | OPENA => 1
  | CLOSEA => 0
  | _ => lexMode
  end.

(** The [while (idx < newick.length)] loop.  [rest] is [newick.slice(idx)];
    [skip] counts the characters of the current token still to pass. *)
Fixpoint lexLoop (rest : jsstring) (skip idx lexMode : nat)
    (tokenList : list Token) : result (list Token) :=
  match rest with
  | [] => Ok tokenList
  | c :: rest' =>
      match skip with
      | S skip' => lexLoop rest' skip' (S idx) lexMode tokenList
      | O =>
          if isWhitespace c then lexLoop rest' 0 (S idx) lexMode tokenList
          else
            match firstMatch tokens lexMode rest with
            | Some (r, len) =>
                let text := takeString len rest in
                let value :=
                  if rule_value r && bool_decide (rule_kind r = STRING)
                  then stringValue text else text in
                lexLoop rest' (pred len) (S idx)
                        (nextMode (rule_kind r) lexMode)
                        (tokenList ++ [(rule_kind r, value, idx)])
            | None => Throw (ParseException (ErrorReadingCharacter c idx))
            end
      end
  end.

Definition doLex (newick : jsstring) : result (list Token) :=
  lexLoop newick 0 0 0 [].

End Lexer.

(* ================================================================= *)
(** ** The parser ([doParse]) and [readNewick] *)

Section Parser.

(** [Number(text)]: the conversion of a string to a number is a builtin
    of the language; the parser is embedded over any such conversion. *)
Variable Number : jsstring → JS.num.

Variable tokenList : list Token.

(** The variables shared by the rules: the cursor [idx], the counter
    [thisNodeID], and the store. *)
Record PState : Type := mkPS {
  idx : nat;
  thisNodeID : nat;
  ps_heap : heap;
}.

Definition onNodes (f : heap → heap) : M PState unit :=
  modify (λ s, mkPS (idx s) (thisNodeID s) (f (ps_heap s))).

(** [acceptToken(token, mandatory)].  The context excerpt that the
    exception appends to its message is a function of the offending
    token's offset, which the structured message carries. *)
Definition acceptToken (token : TokenKind) (mandatory : bool)
    : M PState bool :=
  λ s,
    match tokenList !! idx s with
    | Some t =>
        if decide (tok_kind t = token) then
          Ok (true, mkPS (S (idx s)) (thisNodeID s) (ps_heap s))
        else if mandatory then
          Throw (ParseException (ExpectedTokenButFound token t))
        else Ok (false, s)
    | None =>
        if mandatory then Throw (ParseException (TerminatedEarly token))
        else Ok (false, s)
    end.

(** [tokenList[idx - 1][1]] *)
Definition lastText : M PState jsstring :=
  λ s, match tokenList !! pred (idx s) with
       | Some t => Ok (tok_text t, s)
       | None => Throw TypeError
       end.

Definition ruleL (node : ref) : M PState unit :=
  let* found := acceptToken STRING false in
  if found then
    let* text := lastText in
    onNodes (update node (set_label (Some text)))
  else ret tt.

Definition ruleH (node : ref) : M PState unit :=
  let* found := acceptToken HASH false in
  if found then
    acceptToken STRING true ;;
    let* text := lastText in
    onNodes (update node (set_hybridID (Some (Number text))))
  else ret tt.

Fixpoint ruleQ (n : nat) : M PState RuleQResult :=
  match n with
  | O => out_of_fuel
  | S n' =>
      let* isString := acceptToken STRING false in
      if isString then
        let* text := lastText in ret (QString text)
      else
        let* isList := acceptToken OPENV false in
        if isList then
          let* first := ruleQ n' in
          let* others := ruleW n' in
          acceptToken CLOSEV true ;;
          ret (QList (first :: others))
        else ret QNull
  end
with ruleW (n : nat) : M PState (list RuleQResult) :=
  match n with
  | O => out_of_fuel
  | S n' =>
      let* more := acceptToken COMMA false in
      if more then
        let* first := ruleQ n' in
        let* others := ruleW n' in
        ret (first :: others)
      else ret []
  end.

Definition isStringOrStringArrayOrNull (value : RuleQResult) : bool :=
  match value with
  | QString _ => true
  | QList items =>
      forallb (λ item, match item with QString _ => true | _ => false end)
              items
  | QNull => true
  end.

Definition ruleD (n : nat) (node : ref) : M PState unit :=
  acceptToken STRING true ;;
  let* key := lastText in
  acceptToken EQ true ;;
  let* value := ruleQ n in
  if isStringOrStringArrayOrNull value then
    onNodes (update node (λ nd, set_annotation (<[key := value]> (annotation nd)) nd))
  else ret tt.

Fixpoint ruleE (n : nat) (node : ref) : M PState unit :=
  match n with
  | O => out_of_fuel
  | S n' =>
      let* more := acceptToken COMMA false in
      if more then ruleD n' node ;; ruleE n' node else ret tt
  end.

Definition ruleA (n : nat) (node : ref) : M PState unit :=
  let* found := acceptToken OPENA false in
  if found then
    ruleD n node ;;
    ruleE n node ;;
    acceptToken CLOSEA true ;;
    ret tt
  else ret tt.

Fixpoint ruleR (n : nat) : M PState unit :=
  match n with
  | O => out_of_fuel
  | S n' =>
      let* found := acceptToken COLON false in
      if found then acceptToken STRING false ;; ruleR n' else ret tt
  end.

Definition ruleB (n : nat) (node : ref) : M PState unit :=
  let* found := acceptToken COLON false in
  if found then
    acceptToken STRING true ;;
    let* text := lastText in
    let length := Number text in
    (if JS.isNaN length
     then throw (ParseException (ExpectedNumericalBranchLength text))
     else onNodes (update node (set_branchLength (Some length)))) ;;
    ruleR n ;;
    ruleA n node
  else ret tt.

(** [new Node(thisNodeID++)] *)
Definition newNode : M PState ref :=
  λ s, let '(r, h) := alloc (thisNodeID s) (ps_heap s) in
       Ok (r, mkPS (idx s) (S (thisNodeID s)) h).

Fixpoint ruleN (n : nat) (parent : option ref) : M PState ref :=
  match n with
  | O => out_of_fuel
  | S n' =>
      let* node := newNode in
      match parent with
      | Some p => onNodes (addChild p node)
      | None => ret tt
      end ;;
      ruleC n' node ;;
      ruleL node ;;
      ruleH node ;;
      ruleA n' node ;;
      ruleB n' node ;;
      ret node
  end
with ruleC (n : nat) (node : ref) : M PState unit :=
  match n with
  | O => out_of_fuel
  | S n' =>
      let* found := acceptToken OPENP false in
      if found then
        ruleN n' (Some node) ;;
        ruleM n' node ;;
        acceptToken CLOSEP true ;;
        ret tt
      else ret tt
  end
with ruleM (n : nat) (node : ref) : M PState unit :=
  match n with
  | O => out_of_fuel
  | S n' =>
      let* found := acceptToken COMMA false in
      if found then ruleN n' (Some node) ;; ruleM n' node else ret tt
  end.

Definition ruleT (n : nat) : M PState ref :=
  let* node := ruleN n None in
  let* semi := acceptToken SEMI false in
  let* comma := if semi then ret false else acceptToken COMMA false in
  if comma then throw (ParseException MultipleRoots) else ret node.

(** Every recursive call of a rule follows the acceptance of a token, and
    the calls between two acceptances nest at most three deep, so this
    budget is never exhausted. *)
Definition parseBudget : nat := 3 * S (length tokenList).

(** [doParse]: the rules run from [idx = 0] and [thisNodeID = 0]. *)
Definition doParse : M heap ref :=
  λ h, match ruleT parseBudget (mkPS 0 0 h) with
       | Ok (r, s) => Ok (r, ps_heap s)
       | Throw e => Throw e
       | OutOfFuel => OutOfFuel
       end.

End Parser.

Section Reader.

Variable Number : jsstring → JS.num.
Variable fuel : nat.

(** [readNewick] *)
Definition readNewick (newick : jsstring) : M heap Tree :=
  match Lexer.doLex newick with
  | Ok tokenList =>
      let* rootNode := doParse Number tokenList in
      let* tree := new_Tree fuel rootNode in
      let* h := get in
      match branchLength (node_at h (root tree)) with
      | Some bl =>
          if JS.strict_eq bl JS.zero
          then modify (update (root tree) (set_branchLength None))
          else ret tt
      | None => ret tt
      end ;;
      ret tree
  | Throw e => throw e
  | OutOfFuel => out_of_fuel
  end.

End Reader.

(** A conversion for the examples: plain decimal literals
    [-?digits(.digits)?]; anything else is [NaN]. *)
Module Decimal.

Definition digit (c : N) : option nat :=
  let n := N.to_nat c in
  if bool_decide (48 ≤ n ≤ 57) then Some (n - 48) else None.

(** Reads digits into [acc]; returns the value and the digit count. *)
Fixpoint digits (s : jsstring) (acc count : nat)
    : option (nat * nat * jsstring) :=
  match s with
  | c :: s' =>
      match digit c with
      | Some d => digits s' (10 * acc + d) (S count)
      | None => Some (acc, count, s)
      end
  | [] => Some (acc, count, s)
  end.

Definition unsigned (s : jsstring) : JS.num :=
  match digits s 0 0 with
  | Some (whole, S _, []) => JS.of_nat whole
  | Some (whole, S _, c :: frac) =>
      if N.eqb c (cu ".") then
        match digits frac 0 0 with
        | Some (f, S k, []) =>
            JS.Fin (Q2Qc (Qplus (inject_Z (Z.of_nat whole))
                                 (Qmake (Z.of_nat f) (Pos.of_nat (10 ^ S k)))))
        | _ => JS.NaN
        end
      else JS.NaN
  | _ => JS.NaN
  end.

Definition Number (s : jsstring) : JS.num :=
  match s with
  | c :: s' => if N.eqb c (cu "-") then JS.neg (unsigned s') else unsigned s
  | [] => unsigned s
  end.

End Decimal.

(* ================================================================= *)
(** ** Tree-shaped stores

    The shape of the object graph below a node, as a rose tree of
    references.  It is used to say which stores hold a tree. *)

Inductive rtree : Type := RT (r : ref) (cs : list rtree).

Definition rroot (t : rtree) : ref := match t with RT r _ => r end.
Definition subtrees (t : rtree) : list rtree := match t with RT _ cs => cs end.

(** The nodes in pre-order. *)
Fixpoint flatten (t : rtree) : list ref :=
  match t with RT r cs => r :: flat_map flatten cs end.

(** The leaves in pre-order. *)
Fixpoint leaves (t : rtree) : list ref :=
  match t with
  | RT r [] => [r]
  | RT r cs => flat_map leaves cs
  end.

Fixpoint depth (t : rtree) : nat :=
  match t with RT _ cs => S (foldr (λ c d, Nat.max (depth c) d) 0 cs) end.

(** [wf_at h p t]: in the store [h], the node at the root of [t] has
    parent [p] and its children array lists the roots of the subtrees of
    [t], which are well-formed below it. *)
Fixpoint wf_at (h : heap) (p : option ref) (t : rtree) : Prop :=
  match t with
  | RT r cs =>
      r < length h
      ∧ parent (node_at h r) = p
      ∧ children (node_at h r) = rroot <$> cs
      ∧ (fix all (l : list rtree) : Prop :=
           match l with
           | [] => True
           | c :: l' => wf_at h (Some r) c ∧ all l'
           end) cs
  end.

(** The store holds the tree [t], rooted at a node without parent, and
    no node occurs twice. *)
Definition is_tree (h : heap) (t : rtree) : Prop :=
  wf_at h None t ∧ NoDup (flatten t).

(** The pre-shift heights as the specification words them: 0 at the
    root; below, the height of the parent minus the branch length, or
    [NaN] when the branch length is undefined. *)
Fixpoint heightsBelow (h : heap) (ph : JS.num) (t : rtree) : list JS.num :=
  match t with
  | RT r cs =>
      let v := match branchLength (node_at h r) with
               | Some bl => JS.sub ph bl
               | None => JS.NaN
               end in
      v :: flat_map (heightsBelow h v) cs
  end.

Definition specHeights (h : heap) (t : rtree) : list JS.num :=
  JS.zero :: flat_map (heightsBelow h JS.zero) (subtrees t).

(** The heights stored on the nodes of [t], in pre-order. *)
Definition storedHeights (h : heap) (t : rtree) : list (option JS.num) :=
  (λ x, height (node_at h x)) <$> flatten t.

(** The minimum over all nodes of [node.height]. *)
Definition minHeight (h : heap) (t : rtree) : JS.num :=
  JS.Math_min ((λ x, default JS.NaN (height (node_at h x))) <$> flatten t).

(** ** Auxiliary notions for the proofs *)

(** Two stores that agree on everything but the [height] fields. *)
Definition heights_only (h h' : list Node) : Prop :=
  length h' = length h
  ∧ ∀ x, node_at h' x = set_height (height (node_at h' x)) (node_at h x).

(** What the pass does below a node [r] whose height is already set. *)
Definition pass_below (t : rtree) : Prop :=
  ∀ fuel h r ph,
    wf_at h (Some r) t → NoDup (flatten t) → r ∉ flatten t →
    height (node_at h r) = Some ph → depth t ≤ fuel →
    ∃ h',
      applyPreOrder fuel setHeight (rroot t) h = Ok (heightsBelow h ph t, h')
      ∧ heights_only h h'
      ∧ (∀ y, y ∉ flatten t → height (node_at h' y) = height (node_at h y))
      ∧ (λ y, height (node_at h' y)) <$> flatten t
        = Some <$> heightsBelow h ph t.

(** The height given to the root of a traversal. *)
Definition startHeight (h : list Node) (r : nat) : JS.num :=
  match parent (node_at h r) with
  | None => JS.zero
  | Some p =>
      match branchLength (node_at h r), height (node_at h p) with
      | Some bl, Some ph => JS.sub ph bl
      | _, _ => JS.NaN
      end
  end.

(** The list returned by the heights pass started at the root of [t]. *)
Definition passHeights (h : list Node) (t : rtree) : list JS.num :=
  startHeight h (rroot t)
  :: flat_map (heightsBelow h (startHeight h (rroot t))) (subtrees t).

(** The [isTimeTree] flag as [computeNodeAges] sets it. *)
Definition timeTreeFlag (h : list Node) (rt : rtree) : bool :=
  negb (JS.isNaN (JS.Math_min (passHeights h rt)))
  && (bool_decide (1 < length (flatten rt))
      || bool_decide (is_Some (branchLength (node_at h (rroot rt))))).

Fixpoint wf_atb (h : list Node) (p : option nat) (t : rtree) : bool :=
  match t with
  | RT r cs =>
      bool_decide (r < length h)
      && bool_decide (parent (node_at h r) = p)
      && bool_decide (children (node_at h r) = rroot <$> cs)
      && forallb (wf_atb h (Some r)) cs
  end.

Definition is_treeb (h : list Node) (t : rtree) : bool :=
  wf_atb h None t && bool_decide (NoDup (flatten t)).

(** The number of tokens taken by [ruleR] from a list of token kinds: a
    run of colons, each with the string that may follow it. *)
Fixpoint suffixRun (kinds : list TokenKind) : nat :=
  match kinds with
  | COLON :: rest =>
      match rest with
      | STRING :: rest' => 2 + suffixRun rest'
      | _ => 1 + suffixRun rest
      end
  | _ => 0
  end.

(** Two stores that agree on everything but the [annotation] fields. *)
Definition annotations_only (h h' : list Node) : Prop :=
  length h' = length h
  ∧ ∀ x, node_at h' x = set_annotation (annotation (node_at h' x)) (node_at h x).

(** The leaves of a list of nodes that carry the hybrid id [hid]. *)
Definition destGroup (h : list Node) (hid : JS.num) (l : list nat) : list nat :=
  filter (λ x, hybridID (node_at h x) = Some hid ∧ isLeaf h x = true) l.

(** Some node of [l] that is not a leaf carries the hybrid id [hid]. *)
Definition hasSource (h : list Node) (hid : JS.num) (l : list nat) : Prop :=
  ∃ x, x ∈ l ∧ hybridID (node_at h x) = Some hid ∧ isLeaf h x = false.

(** ** Ladderised shapes *)

(** The number of tips below a node. *)
Definition tipCount (t : rtree) : nat := length (leaves t).

(** Stable insertion sort, ascending by [key]. *)
Fixpoint insertBy {A} (key : A → nat) (x : A) (l : list A) : list A :=
  match l with
  | [] => [x]
  | y :: l' =>
      match Nat.compare (key x) (key y) with
      | Gt => y :: insertBy key x l'
      | _ => x :: y :: l'
      end
  end.

Fixpoint sortBy {A} (key : A → nat) (l : list A) : list A :=
  match l with
  | [] => []
  | x :: l' => insertBy key x (sortBy key l')
  end.

(** The shape in which every node has its children stably sorted by
    ascending tip count. *)
Fixpoint ladder (t : rtree) : rtree :=
  match t with
  | RT r cs => RT r (sortBy tipCount (ladder <$> cs))
  end.

(** What [ladderise] does below a node. *)
Definition ladder_pass (t : rtree) : Prop :=
  ∀ n fuel h p,
    wf_at h p t → NoDup (flatten t) → depth t ≤ n → depth t ≤ fuel →
    ∃ res h',
      applyPreOrder n (sortChildren fuel) (rroot t) h = Ok (res, h')
      ∧ wf_at h' p (ladder t)
      ∧ length h' = length h
      ∧ (∀ y, y ∉ flatten t → node_at h' y = node_at h y).

(** Sorted ascending by [key]. *)
Definition sortedBy {A} (key : A → nat) (l : list A) : Prop :=
  StronglySorted (λ a b, key a ≤ key b) l.

(** Two stores that differ at most in the heights of the nodes in [S]. *)
Definition heights_within (S : list nat) (h h' : list Node) : Prop :=
  heights_only h h' ∧ ∀ y, y ∉ S → node_at h' y = node_at h y.

(** ** Ancestor chains *)

(** For every leaf of [t], in pre-order, the path from the leaf up to
    the root of [t]. *)
Fixpoint chains (t : rtree) : list (list nat) :=
  match t with
  | RT r [] => [[r]]
  | RT r cs => (λ ch, ch ++ [r]) <$> flat_map chains cs
  end.

(** The number of chains that pass through [x] within their first [k]
    nodes. *)
Definition visits (x : nat) (k : nat) (chs : list (list nat)) : nat :=
  length (filter (λ ch, x ∈ take k ch) chs).

(** ** Concrete inputs *)

Module Examples.

Local Open Scope string_scope.

(** The store left by the parser on an input, from the empty store. *)
Definition parsed (newick : string) : list Node :=
  match Lexer.doLex (str newick) with
  | Ok tokenList =>
      match doParse Decimal.Number tokenList [] with
      | Ok (_, h) => h
      | _ => []
      end
  | _ => []
  end.

Definition tokensOf (newick : string) : list (TokenKind * jsstring * nat) :=
  match Lexer.doLex (str newick) with
  | Ok tokenList => tokenList
  | _ => []
  end.

(** A [Tree] object whose caches are empty. *)
Definition treeAt (r : nat) : Tree := mkTree r None None None None None false.

(** A tree with all branch lengths, and its shape. *)
Definition timed : string := "(A:1,(B:1,C:1):1);".
Definition timedShape : rtree := RT 0 [RT 1 []; RT 2 [RT 3 []; RT 4 []]].

(** A tree without branch lengths. *)
Definition bare : string := "(A,B);".
Definition bareShape : rtree := RT 0 [RT 1 []; RT 2 []].

(** A tree whose root has a single child. *)
Definition unaryRoot : string := "((A,B));".
Definition unaryRootShape : rtree := RT 0 [RT 1 [RT 2 []; RT 3 []]].

(** A tree to ladderise: the larger clade comes first. *)
Definition unladdered : string := "((A,B,C),(D,E),F);".
Definition unladderedShape : rtree :=
  RT 0 [RT 1 [RT 2 []; RT 3 []; RT 4 []]; RT 5 [RT 6 []; RT 7 []]; RT 8 []].

Definition leafHybridsShape : rtree :=
  RT 0 [RT 1 [RT 2 []; RT 3 []]; RT 4 [RT 5 []; RT 6 []]].

(** The same with a third clade that carries a hybrid id of its own,
    which no leaf carries. *)
Definition strandedSource : string := "((A,X#7),(B,Y#7),(C,D)#3);".
Definition strandedSourceShape : rtree :=
  RT 0 [RT 1 [RT 2 []; RT 3 []]; RT 4 [RT 5 []; RT 6 []];
        RT 7 [RT 8 []; RT 9 []]].

(** Two trees given as siblings. *)
Definition twoRoots : string := "(A,B),C;".

(** A branch length followed by a support value, and one that is not a
    number. *)
Definition suffixed : string := "(A:1.5:80,B:x);".

(** Inputs for [reroot]: a root with a branch length, tips without
    label, a root with a single child, and a network. *)
Definition rootBranch : string := "(A:1,(B:1,C:1):1):5;".
Definition unlabelled : string := "(,,(,));".
Definition unlabelledShape : rtree :=
  RT 0 [RT 1 []; RT 2 []; RT 3 [RT 4 []; RT 5 []]].
Definition unaryTimed : string := "((A:1,B:1):1);".
Definition network : string := "((A:1,X#1:1):1,(B:1,C:1)#1:1);".

End Examples.

(** ** Shapes around an edge: contexts and spines *)

(** One step of the path from a node up to the root: the node [x] on the
    path, with the subtrees on the left and on the right of the child
    through which the path comes. *)
Inductive frame : Type := Frame (x : nat) (ls rs : list rtree).

Definition fnode (f : frame) : nat := match f with Frame x _ _ => x end.
Definition fkids (f : frame) : list rtree :=
  match f with Frame _ ls rs => ls ++ rs end.

(** The tree around [t]: the frames from the parent of [t] up to the
    root. *)
Fixpoint plug (t : rtree) (c : list frame) : rtree :=
  match c with
  | [] => t
  | Frame x ls rs :: c' => plug (RT x (ls ++ t :: rs)) c'
  end.

(** The nodes of a frame: the path node and the subtrees hanging off it. *)
Definition frameNodes (f : frame) : list nat :=
  fnode f :: flat_map flatten (fkids f).

(** [ctx_ok h below c]: the path nodes of [c] are linked upwards as in
    [c]; the first one has the child [below] between its left and right
    subtrees (or no such child when [below] is [None]); the last one has
    no parent. *)
Fixpoint ctx_ok (h : list Node) (below : option nat) (c : list frame) : Prop :=
  match c with
  | [] => True
  | Frame x ls rs :: c' =>
      x < length h
      ∧ parent (node_at h x) = fnode <$> head c'
      ∧ children (node_at h x)
        = (rroot <$> ls) ++ option_list below ++ (rroot <$> rs)
      ∧ Forall (wf_at h (Some x)) (ls ++ rs)
      ∧ ctx_ok h (Some x) c'
  end.

(** A spine: a chain of nodes, each the last child of the one before,
    every node with the subtrees that come before that last child. *)
Definition spineNodes (e : nat * list rtree) : list nat :=
  e.1 :: flat_map flatten e.2.

Fixpoint wf_spine (h : list Node) (p : option nat)
    (sp : list (nat * list rtree)) : Prop :=
  match sp with
  | [] => True
  | (x, ks) :: rest =>
      x < length h
      ∧ parent (node_at h x) = p
      ∧ children (node_at h x) = (rroot <$> ks) ++ option_list (fst <$> head rest)
      ∧ Forall (wf_at h (Some x)) ks
      ∧ wf_spine h (Some x) rest
  end.

(** The tree that a spine below [x] with subtrees [ks] stands for. *)
Fixpoint spineShape (x : nat) (ks : list rtree)
    (rest : list (nat * list rtree)) : rtree :=
  match rest with
  | [] => RT x ks
  | (y, ks') :: rest' => RT x (ks ++ [spineShape y ks' rest'])
  end.

(** The spine entries that the frames of a context become once the edges
    of the path are reversed. *)
Definition asSpine (c : list frame) : list (nat * list rtree) :=
  (λ f, (fnode f, fkids f)) <$> c.

(** The steps of [recurseReroot] on a path without hybrid node: the node
    of the frame leaves its parent [pnext], becomes the last child of
    [prev] and takes the branch length [BL]; its own is carried on. *)
Definition upStep (x : nat) (pnext : option nat) (prev : nat)
    (BL : option JS.num) (h : list Node) : list Node * option JS.num :=
  let h1 := match pnext with Some p => removeChild p x h | None => h end in
  let h2 := addChild prev x h1 in
  (update x (set_branchLength BL) h2, branchLength (node_at h2 x)).

Fixpoint upHeap (c : list frame) (prev : nat) (BL : option JS.num)
    (h : list Node) : list Node * option JS.num :=
  match c with
  | [] => (h, BL)
  | f :: c' =>
      let '(h3, tmpBL) := upStep (fnode f) (fnode <$> head c') prev BL h in
      upHeap c' (fnode f) tmpBL h3
  end.

(** The rational value of a branch length that is defined and finite,
    and 0 otherwise. *)
Definition blQ (h : list Node) (x : nat) : Qc :=
  match branchLength (node_at h x) with
  | Some (JS.Fin q) => q
  | _ => 0%Qc
  end.

Definition optQ (v : option JS.num) : Qc :=
  match v with Some (JS.Fin q) => q | _ => 0%Qc end.

Definition sumQ (h : list Node) (l : list nat) : Qc :=
  foldr (λ x acc, (blQ h x + acc)%Qc) 0%Qc l.

(** A branch length is undefined or finite. *)
Definition finiteOrNone (v : option JS.num) : Prop :=
  match v with Some x => JS.isFinite x = true | None => True end.

(** Two stores that agree on the fields that a reversal of edges leaves
    alone: all but [children], [parent] and [branchLength]. *)
Definition links_only (h h' : list Node) : Prop :=
  length h' = length h
  ∧ ∀ x, node_at h' x
         = set_children (children (node_at h' x))
             (set_parent (parent (node_at h' x))
                (set_branchLength (branchLength (node_at h' x)) (node_at h x))).

(** The sum computed by [getTotalBranchLength] over a list of nodes. *)
Definition totalOver (h : list Node) (l : list nat) : JS.num :=
  foldl (λ totalLength node,
           match branchLength (node_at h node) with
           | Some bl => JS.add totalLength bl
           | None => totalLength
           end) JS.zero l.

(** The new branch length of [edgeBaseNode] and the part carried towards
    the old root, as [reroot] computes them from the branch length [a]
    and [prop]. *)
Definition splitOf (a : option JS.num) (prop : option JS.num)
    : option JS.num * option JS.num :=
  match a with
  | None => (None, None)
  | Some totalBL =>
      match prop with
      | Some p =>
          if JS.ge p JS.zero && JS.le p (JS.of_nat 1) then
            (Some (JS.mul totalBL p),
             Some (JS.sub totalBL (JS.mul totalBL p)))
          else (Some (JS.half totalBL), Some (JS.half totalBL))
      | None => (Some (JS.half totalBL), Some (JS.half totalBL))
      end
  end.

(** Two stores that agree on all fields but [id] and [height]. *)
Definition meta_only (h h' : list Node) : Prop :=
  length h' = length h
  ∧ ∀ x, node_at h' x
         = set_id (id (node_at h' x))
             (set_height (height (node_at h' x)) (node_at h x)).

(** The caches of a tree object are empty or hold the lists of the
    shape [rt]. *)
Definition caches_agree (rt : rtree) (t : Tree) : Prop :=
  (_nodeList t = None ∨ _nodeList t = Some (flatten rt))
  ∧ (_leafList t = None ∨ _leafList t = Some (leaves rt)).

(** The store after [spliceOldRoot] has removed [oldRoot] between
    [parent] and [child] and given [child] the branch length [v]. *)
Definition spliceHeap (oldRoot child parent : nat) (v : option JS.num)
    (h : list Node) : list Node :=
  update child (set_branchLength v)
    (addChild parent child
       (removeChild oldRoot child (removeChild parent oldRoot h))).

(** ** Auxiliary notions for further properties *)

(** Two stores that agree on all fields but [height] and the order of
    [children]. *)
Definition reordered (h h' : list Node) : Prop :=
  length h' = length h
  ∧ ∀ x, node_at h' x
         = set_children (children (node_at h' x))
             (set_height (height (node_at h' x)) (node_at h x))
         ∧ children (node_at h' x) ≡ₚ children (node_at h x).

(** At every node the children come by increasing number of tips. *)
Fixpoint laddered (t : rtree) : Prop :=
  match t with
  | RT _ cs =>
      sortedBy tipCount cs
      ∧ (fix all (l : list rtree) : Prop :=
           match l with
           | [] => True
           | c :: l' => laddered c ∧ all l'
           end) cs
  end.

(** The source of a hybrid id among the nodes [l]: the last node of [l]
    that carries the id and is not a leaf. *)
Definition srcNode (h : list Node) (hid : JS.num) (l : list nat) : option nat :=
  last (filter (λ x, hybridID (node_at h x) = Some hid ∧ isLeaf h x = false) l).

(** The group of a hybrid id: its source, if any, then its leaves. *)
Definition groupOf (h : list Node) (hid : JS.num) (l : list nat)
    : option (list nat) :=
  match srcNode h hid l, destGroup h hid l with
  | Some s, ds => Some (s :: ds)
  | None, [] => None
  | None, ds => Some ds
  end.

(** ** [getNode] *)



Section TreeLookups.

Variable fuel : nat.


End TreeLookups.

(** Two stores that agree on all fields but [id]. *)
Definition ids_only (h h' : list Node) : Prop :=
  length h' = length h
  ∧ ∀ x, node_at h' x = set_id (id (node_at h' x)) (node_at h x).

(** The characters that end or start something in the default mode of
    the lexer, and the two quotes. *)
Definition plainChar (c : N) : bool :=
  negb (Lexer.charIn (str ",():;[]#'" ++ [Lexer.dquote]) c).

(** The characters that may stand between two quotes and come out
    unchanged: no quote and no line terminator. *)
Definition quotableChar (c : N) : bool :=
  negb (Lexer.charIn [cu "'"; Lexer.dquote] c) && negb (Lexer.isLineTerminator c).

(** An outcome of a parser rule run from the state [s]: a result with
    the cursor moved forward within the token list, or a
    [ParseException]. *)
Definition advances {A} (tokenList : list Token) (s : PState)
    (res : result (A * PState)) : Prop :=
  match res with
  | Ok (_, s') => idx s ≤ idx s' ≤ length tokenList
  | Throw (ParseException _) => True
  | _ => False
  end.

(** Two stores that differ at most in the fields of [node] that the
    links between the nodes do not use: the label, the branch length,
    the hybrid id and the annotations. *)
Definition decorates (node : nat) (h h' : list Node) : Prop :=
  length h' = length h
  ∧ (∀ x, x ≠ node → node_at h' x = node_at h x)
  ∧ id (node_at h' node) = id (node_at h node)
  ∧ children (node_at h' node) = children (node_at h node)
  ∧ parent (node_at h' node) = parent (node_at h node)
  ∧ height (node_at h' node) = height (node_at h node).

(** The store [h'] is [h] with the nodes [new] added at its end, in
    this order, their ids counted from [i]. *)
Definition allocated (h h' : list Node) (i : nat) (new : list nat) : Prop :=
  new = seq (length h) (length new)
  ∧ length h' = length h + length new
  ∧ (λ x, id (node_at h' x)) <$> new = seq i (length new).

(** The nodes of [h] are in [h'] what they were, but for the node [p],
    if any, whose children sequence has the nodes [cs] appended. *)
Definition adopted (h h' : list Node) (p : option nat) (cs : list nat) : Prop :=
  ∀ x, x < length h →
    node_at h' x
    = if decide (p = Some x)
      then set_children (children (node_at h x) ++ cs) (node_at h x)
      else node_at h x.

(* ================================================================= *)
(** ** Several trees in one text ([readTreesFromNewick]) *)

Section MultiReader.

Variable Number : jsstring → JS.num.
Variable fuel : nat.

Local Open Scope char_scope.

(** The pattern [/;\s*\n/] of the separator.  [sepRun s], for the text
    [s] after a semicolon, is the length of what [\s*\n] matches at the
    start of [s]: the whitespace up to the last line feed of the run of
    whitespace [s] starts with, the repetition being greedy. *)
Fixpoint sepRun (s : jsstring) : option nat :=
  match s with
  | c :: s' =>
      if Lexer.isWhitespace c then
        match sepRun s' with
        | Some k => Some (S k)
        | None => if N.eqb c 10 then Some 1 else None
        end
      else None
  | [] => None
  end.

(** [newick.split(/;\s*\n/)]: [rest] is the text still to scan, [skip]
    counts the characters of a separator still to pass, [cur] is the
    piece being collected. *)
Fixpoint splitLines (rest : jsstring) (skip : nat) (cur : jsstring)
    : list jsstring :=
  match rest with
  | [] => [cur]
  | c :: rest' =>
      match skip with
      | S skip' => splitLines rest' skip' cur
      | O =>
          if N.eqb c (cu ";") then
            match sepRun rest' with
            | Some k => cur :: splitLines rest' k []
            | None => splitLines rest' 0 (cur ++ [c])
            end
          else splitLines rest' 0 (cur ++ [c])
      end
  end.

(** [String.prototype.trim]: the characters it takes off are those of
    [\s]. *)
Fixpoint trimStart (s : jsstring) : jsstring :=
  match s with
  | c :: s' => if Lexer.isWhitespace c then trimStart s' else s
  | [] => []
  end.

Fixpoint trimEnd (s : jsstring) : jsstring :=
  match s with
  | c :: s' =>
      match trimEnd s' with
      | [] => if Lexer.isWhitespace c then [] else [c]
      | r => c :: r
      end
  | [] => []
  end.

Definition trim (s : jsstring) : jsstring := trimEnd (trimStart s).

(** [e instanceof SkipTreeException]: none of the values thrown by the
    code embedded here is one ([ParseException] is a class of its own,
    [Reader.ts], lines 6-7). *)
Definition isSkipTreeException (e : exn) : bool :=
  match e with
  | ParseException _ => false
  | ThrownString _ => false
  | TypeError => false
  end.

(** The loop over the lines; [trees] is the array filled so far. *)
Fixpoint readLines (lines : list jsstring) (trees : list Tree)
    : M heap (list Tree) :=
  match lines with
  | [] => ret trees
  | thisLine :: lines' =>
      let thisLine := trim thisLine in
      if Nat.eqb (length thisLine) 0 then readLines lines' trees
      else
        λ h, match readNewick Number fuel thisLine h with
             | Ok (t, h') => readLines lines' (trees ++ [t]) h'
             | Throw e =>
                 if isSkipTreeException e then readLines lines' trees h
                 else Throw e
             | OutOfFuel => OutOfFuel
             end
  end.

(** [readTreesFromNewick] *)
Definition readTreesFromNewick (newick : jsstring) : M heap (list Tree) :=
  readLines (splitLines newick 0 []) [].

End MultiReader.

(* ================================================================= *)
(** * Proofs *)

(** ** Monad laws used in the proofs *)

Lemma bind_Ok {S A B} (m : M S A) (k : A → M S B) s a s' :
  m s = Ok (a, s') → bind m k s = k a s'.
Proof. unfold bind. by intros ->. Qed.

Lemma bind_Throw {S A B} (m : M S A) (k : A → M S B) s e :
  m s = Throw e → bind m k s = Throw e.
Proof. unfold bind. by intros ->. Qed.

Lemma bind_inv_Ok {S A B} (m : M S A) (k : A → M S B) s b s'' :
  bind m k s = Ok (b, s'') →
  ∃ a s', m s = Ok (a, s') ∧ k a s' = Ok (b, s'').
Proof.
  unfold bind. destruct (m s) as [[a s']| |]; [eauto | done | done].
Qed.

(** ** The store *)

Lemma length_update r f h : length (update r f h) = length h.
Proof. apply length_alter. Qed.

Lemma node_at_update r f h :
  r < length h → node_at (update r f h) r = f (node_at h r).
Proof.
  intros Hr. unfold node_at, update.
  destruct (lookup_lt_is_Some_2 h r Hr) as [n Hn].
  rewrite (list_lookup_total_correct _ _ _ Hn).
  apply list_lookup_total_correct. rewrite list_lookup_alter_eq, Hn. done.
Qed.

Lemma node_at_update_ne r r' f h :
  r ≠ r' → node_at (update r f h) r' = node_at h r'.
Proof.
  intros Hne. unfold node_at, update.
  rewrite !list_lookup_total_alt. by rewrite list_lookup_alter_ne.
Qed.

Lemma node_at_alloc h n : node_at (h ++ [n]) (length h) = n.
Proof.
  unfold node_at. apply list_lookup_total_correct.
  rewrite lookup_app_r by lia. by rewrite Nat.sub_diag.
Qed.

Lemma node_at_alloc_old h n r :
  r < length h → node_at (h ++ [n]) r = node_at h r.
Proof.
  intros Hr. unfold node_at. rewrite !list_lookup_total_alt.
  by rewrite lookup_app_l.
Qed.

Lemma update_alloc h n f : update (length h) f (h ++ [n]) = h ++ [f n].
Proof.
  unfold update. rewrite alter_app_r_alt by lia. by rewrite Nat.sub_diag.
Qed.

Lemma heap_ext (h1 h2 : list Node) :
  length h2 = length h1 → (∀ y, node_at h2 y = node_at h1 y) → h2 = h1.
Proof.
  intros Hlen Hsame. apply list_eq. intros i.
  destruct (decide (i < length h1)) as [Hlt|Hge].
  - rewrite (list_lookup_lookup_total_lt h1 i Hlt).
    rewrite (list_lookup_lookup_total_lt h2 i) by lia.
    f_equal. apply Hsame.
  - rewrite !lookup_ge_None_2 by lia. done.
Qed.

(** ** Rose trees *)

Lemma rtree_ind' (P : rtree → Prop) :
  (∀ r cs, Forall P cs → P (RT r cs)) → ∀ t, P t.
Proof.
  intros HP. fix IH 1. intros [r cs]. apply HP.
  induction cs as [|c cs IHcs]; constructor; [apply IH | exact IHcs].
Qed.

Lemma wf_at_unfold h p r cs :
  wf_at h p (RT r cs) ↔
  r < length h ∧ parent (node_at h r) = p
  ∧ children (node_at h r) = rroot <$> cs
  ∧ Forall (wf_at h (Some r)) cs.
Proof.
  simpl. do 3 (apply and_iff_compat_l).
  induction cs as [|c cs IH]; [by split; [constructor|]|].
  rewrite Forall_cons. by rewrite IH.
Qed.

Lemma depth_unfold r cs : depth (RT r cs) = S (max_list (depth <$> cs)).
Proof.
  simpl. f_equal. induction cs as [|c cs IH]; [done|]. simpl. by rewrite IH.
Qed.

Lemma depth_child r cs c fuel :
  depth (RT r cs) ≤ S fuel → c ∈ cs → depth c ≤ fuel.
Proof.
  rewrite depth_unfold. intros Hd Hc.
  assert (depth c ≤ max_list (depth <$> cs)); [|lia].
  apply max_list_elem_of_le. by apply list_elem_of_fmap_2.
Qed.

Lemma flatten_unfold r cs : flatten (RT r cs) = r :: flat_map flatten cs.
Proof. done. Qed.

Lemma rroot_in_flatten t : rroot t ∈ flatten t.
Proof. destruct t. simpl. left. Qed.

(** ** Stores that differ in heights only *)

Lemma heights_only_refl h : heights_only h h.
Proof. split; [done|]. intros x. by destruct (node_at h x). Qed.

Lemma heights_only_trans h1 h2 h3 :
  heights_only h1 h2 → heights_only h2 h3 → heights_only h1 h3.
Proof.
  intros [L1 H1] [L2 H2]. split; [congruence|].
  intros x. rewrite (H2 x) at 1. rewrite (H1 x). done.
Qed.

Lemma heights_only_update h x v : heights_only h (update x (set_height v) h).
Proof.
  split; [apply length_update|]. intros y.
  destruct (decide (x = y)) as [->|Hne].
  - destruct (decide (y < length h)) as [Hy|Hy].
    + rewrite node_at_update by done. done.
    + unfold node_at, update. rewrite !list_lookup_total_alt.
      rewrite list_lookup_alter_eq, lookup_ge_None_2 by lia. done.
  - rewrite node_at_update_ne by done. by destruct (node_at h y).
Qed.

Section HeightsOnly.
Context (h h' : list Node) (Hh : heights_only h h').

Lemma heights_only_length : length h' = length h.
Proof using Hh. apply Hh. Qed.
Lemma heights_only_children x : children (node_at h' x) = children (node_at h x).
Proof using Hh. destruct Hh as [_ H]. by rewrite (H x). Qed.
Lemma heights_only_parent x : parent (node_at h' x) = parent (node_at h x).
Proof using Hh. destruct Hh as [_ H]. by rewrite (H x). Qed.
Lemma heights_only_branchLength x :
  branchLength (node_at h' x) = branchLength (node_at h x).
Proof using Hh. destruct Hh as [_ H]. by rewrite (H x). Qed.
Lemma heights_only_label x : label (node_at h' x) = label (node_at h x).
Proof using Hh. destruct Hh as [_ H]. by rewrite (H x). Qed.
Lemma heights_only_id x : id (node_at h' x) = id (node_at h x).
Proof using Hh. destruct Hh as [_ H]. by rewrite (H x). Qed.
Lemma heights_only_hybridID x : hybridID (node_at h' x) = hybridID (node_at h x).
Proof using Hh. destruct Hh as [_ H]. by rewrite (H x). Qed.

Lemma heights_only_isLeaf x : isLeaf h' x = isLeaf h x.
Proof using Hh. unfold isLeaf. by rewrite heights_only_children. Qed.

Lemma heights_only_wf_at p t : wf_at h p t → wf_at h' p t.
Proof using Hh.
  revert p. induction t as [r cs IH] using rtree_ind'. intros p.
  rewrite !wf_at_unfold. intros (Hr & Hp & Hc & Hcs).
  rewrite heights_only_length, heights_only_parent, heights_only_children.
  repeat split; try done.
  rewrite Forall_forall in *. intros c Hc'. by apply IH, Hcs.
Qed.

Lemma heights_only_heightsBelow ph t :
  heightsBelow h' ph t = heightsBelow h ph t.
Proof using Hh.
  revert ph. induction t as [r cs IH] using rtree_ind'. intros ph. simpl.
  rewrite heights_only_branchLength. f_equal.
  induction IH as [|c cs Hc _ IHcs]; [done|]. simpl. by rewrite Hc, IHcs.
Qed.

End HeightsOnly.

Lemma heights_only_sym h h' : heights_only h h' → heights_only h' h.
Proof.
  intros [L H]. split; [done|]. intros x. rewrite (H x).
  by destruct (node_at h x).
Qed.


(** ** Pre-order traversal of a tree-shaped store *)

Lemma mapM_fmap_Ok {S A B C} (F : A → M S B) (proj : C → A) (G : C → B)
    (cs : list C) s :
  Forall (λ c, F (proj c) s = Ok (G c, s)) cs →
  mapM F (proj <$> cs) s = Ok (G <$> cs, s).
Proof.
  induction 1 as [|c cs Hc _ IH]; [done|].
  simpl. rewrite (bind_Ok _ _ _ _ _ Hc). rewrite (bind_Ok _ _ _ _ _ IH). done.
Qed.

Lemma omap_flat_map {A B C} (g : A → option B) (F : C → list A) (cs : list C) :
  omap g (flat_map F cs) = concat ((λ c, omap g (F c)) <$> cs).
Proof.
  induction cs as [|c cs IH]; [done|]. simpl. by rewrite omap_app, IH.
Qed.

Lemma omap_Some_id {A} (l : list A) : omap Some l = l.
Proof. induction l as [|x l IH]; [done|]. simpl. f_equal. exact IH. Qed.

Lemma omap_cons_option_list {A B} (g : A → option B) x l :
  omap g (x :: l) = option_list (g x) ++ omap g l.
Proof. simpl. by destruct (g x). Qed.

(** A callback that only reads: the traversal returns the outputs on the
    nodes of the tree, in pre-order, and leaves the store as it is. *)
Lemma applyPreOrder_pure {A} (f : nat → M (list Node) (option A))
    (g : nat → option A) (h : list Node) :
  (∀ r, f r h = Ok (g r, h)) →
  ∀ t fuel p, wf_at h p t → depth t ≤ fuel →
    applyPreOrder fuel f (rroot t) h = Ok (omap g (flatten t), h).
Proof.
  intros Hf. induction t as [r cs IH] using rtree_ind'.
  intros fuel p Hwf Hd. apply wf_at_unfold in Hwf as (Hr & Hp & Hc & Hcs).
  destruct fuel as [|fuel]; [rewrite depth_unfold in Hd; lia|].
  simpl applyPreOrder. simpl rroot.
  rewrite (bind_Ok _ _ _ _ _ (Hf r)).
  rewrite (bind_Ok _ _ _ h h) by done.
  rewrite Hc.
  erewrite bind_Ok; cycle 1.
  { apply (mapM_fmap_Ok _ rroot (λ c, omap g (flatten c))).
    rewrite Forall_forall in *. intros c Hin.
    eapply IH; [done|by apply Hcs|]. by eapply depth_child. }
  unfold ret. rewrite flatten_unfold, omap_cons_option_list.
  by rewrite omap_flat_map.
Qed.

Lemma nodeList_fresh fuel t h rt p :
  wf_at h p rt → root t = rroot rt → depth rt ≤ fuel → _nodeList t = None →
  nodeList fuel t h = Ok ((flatten rt, set__nodeList (Some (flatten rt)) t), h).
Proof.
  intros Hwf Hroot Hd Hc. unfold nodeList. rewrite Hc, Hroot.
  erewrite bind_Ok; cycle 1.
  { apply (applyPreOrder_pure _ Some) with (p := p); done. }
  unfold ret. by rewrite omap_Some_id.
Qed.

Lemma leafList_fresh fuel t h rt p :
  wf_at h p rt → root t = rroot rt → depth rt ≤ fuel → _leafList t = None →
  leafList fuel t h =
    Ok ((filter (λ x, isLeaf h x = true) (flatten rt),
         set__leafList (Some (filter (λ x, isLeaf h x = true) (flatten rt))) t), h).
Proof.
  intros Hwf Hroot Hd Hc. unfold leafList. rewrite Hc, Hroot.
  erewrite bind_Ok; cycle 1.
  { apply (applyPreOrder_pure _ (λ x, if isLeaf h x then Some x else None))
      with (p := p); done. }
  unfold ret.
  assert (omap (λ x, if isLeaf h x then Some x else None) (flatten rt)
          = filter (λ x, isLeaf h x = true) (flatten rt)) as ->; [|done].
  clear. induction (flatten rt) as [|x l IH]; [done|].
  rewrite omap_cons_option_list, IH, filter_cons.
  destruct (decide (isLeaf h x = true)) as [E|E].
  - by rewrite E.
  - apply not_true_is_false in E. by rewrite E.
Qed.

(** ** The heights pass of [computeNodeAges] *)

Lemma height_update_eq h x v :
  x < length h → height (node_at (update x (set_height v) h) x) = v.
Proof. intros Hx. by rewrite node_at_update. Qed.

Lemma height_update_ne h x y v :
  x ≠ y → height (node_at (update x (set_height v) h) y) = height (node_at h y).
Proof. intros Hx. by rewrite node_at_update_ne. Qed.

Lemma concat_fmap_flat_map {A B} (F : A → list B) (l : list A) :
  concat (F <$> l) = flat_map F l.
Proof. induction l as [|x l IH]; [done|]. simpl. f_equal. exact IH. Qed.

Lemma pass_forest cs :
  Forall pass_below cs →
  ∀ fuel h r ph,
    Forall (wf_at h (Some r)) cs → NoDup (flat_map flatten cs) →
    r ∉ flat_map flatten cs → height (node_at h r) = Some ph →
    Forall (λ c, depth c ≤ fuel) cs →
    ∃ h',
      mapM (applyPreOrder fuel setHeight) (rroot <$> cs) h
        = Ok (heightsBelow h ph <$> cs, h')
      ∧ heights_only h h'
      ∧ (∀ y, y ∉ flat_map flatten cs →
              height (node_at h' y) = height (node_at h y))
      ∧ (λ y, height (node_at h' y)) <$> flat_map flatten cs
        = Some <$> flat_map (heightsBelow h ph) cs.
Proof.
  induction 1 as [|c cs Hc _ IH]; intros fuel h r ph Hwf Hnd Hr Hph Hd.
  { exists h. split; [done|]. split; [apply heights_only_refl|]. done. }
  apply Forall_cons in Hwf as [Hwfc Hwf]. apply Forall_cons in Hd as [Hdc Hd].
  simpl in Hnd, Hr. apply NoDup_app in Hnd as (Hndc & Hdisj & Hnd).
  rewrite elem_of_app in Hr.
  destruct (Hc fuel h r ph) as (h1 & E1 & Ho1 & Hout1 & Hin1); try done; [tauto|].
  destruct (IH fuel h1 r ph) as (h2 & E2 & Ho2 & Hout2 & Hin2); try done.
  { eapply Forall_impl; [exact Hwf|]. intros c'. by apply heights_only_wf_at. }
  { tauto. }
  { rewrite Hout1 by tauto. done. }
  exists h2. split; [|split; [|split]].
  - simpl. rewrite (bind_Ok _ _ _ _ _ E1), (bind_Ok _ _ _ _ _ E2). unfold ret.
    do 3 f_equal. apply list_fmap_ext. intros _ c' _.
    by apply heights_only_heightsBelow.
  - by eapply heights_only_trans.
  - intros y Hy. simpl in Hy. rewrite elem_of_app in Hy.
    rewrite Hout2, Hout1 by tauto. done.
  - simpl. rewrite !fmap_app. f_equal.
    + rewrite <- Hin1. apply list_fmap_ext. intros i y Hy.
      apply Hout2. intros Hy'. apply (Hdisj y); [|done].
      by eapply list_elem_of_lookup_2.
    + rewrite Hin2. f_equal. clear -Ho1.
      induction cs as [|c' cs IHcs]; [done|]. simpl.
      by rewrite IHcs, (heights_only_heightsBelow _ _ Ho1).
Qed.

Lemma pass_below_all t : pass_below t.
Proof.
  induction t as [x cs IH] using rtree_ind'.
  intros fuel h r ph Hwf Hnd Hr Hph Hd.
  apply wf_at_unfold in Hwf as (Hx & Hp & Hc & Hcs).
  destruct fuel as [|fuel]; [rewrite depth_unfold in Hd; lia|].
  rewrite flatten_unfold in Hnd, Hr. apply NoDup_cons in Hnd as [Hxcs Hnd].
  apply not_elem_of_cons in Hr as [Hrx Hr].
  set (v := match branchLength (node_at h x) with
            | Some bl => JS.sub ph bl
            | None => JS.NaN
            end).
  set (h1 := update x (set_height (Some v)) h).
  assert (Ho1 : heights_only h h1) by apply heights_only_update.
  assert (E0 : setHeight x h = Ok (Some v, h1)).
  { unfold setHeight, bind, get, modify, ret. rewrite Hp, Hph. subst v h1.
    by destruct (branchLength (node_at h x)). }
  destruct (pass_forest cs IH fuel h1 x v) as (h2 & E2 & Ho2 & Hout2 & Hin2).
  { eapply Forall_impl; [exact Hcs|]. intros c'. by apply heights_only_wf_at. }
  { done. }
  { done. }
  { by apply height_update_eq. }
  { rewrite Forall_forall. intros c' Hc'. by eapply depth_child. }
  assert (Hb : ∀ c', heightsBelow h1 v c' = heightsBelow h v c')
    by (intros c'; by apply heights_only_heightsBelow).
  exists h2. split; [|split; [|split]].
  - simpl applyPreOrder. simpl rroot.
    rewrite (bind_Ok _ _ _ _ _ E0).
    rewrite (bind_Ok _ _ _ h1 h1) by done.
    rewrite (heights_only_children _ _ Ho1), Hc.
    rewrite (bind_Ok _ _ _ _ _ E2). unfold ret. simpl.
    fold v. rewrite concat_fmap_flat_map. do 3 f_equal.
    clear -Hb. induction cs as [|c' cs IHcs]; [done|]. simpl.
    by rewrite Hb, IHcs.
  - by eapply heights_only_trans.
  - intros y Hy. rewrite flatten_unfold in Hy.
    apply not_elem_of_cons in Hy as [Hyx Hy].
    rewrite Hout2 by done. subst h1. by rewrite height_update_ne.
  - rewrite flatten_unfold.
    change (heightsBelow h ph (RT x cs))
      with (v :: flat_map (heightsBelow h v) cs).
    rewrite !fmap_cons. f_equal.
    + rewrite Hout2 by done. by apply height_update_eq.
    + rewrite Hin2. f_equal. clear -Hb.
      induction cs as [|c' cs IHcs]; [done|]. simpl. by rewrite Hb, IHcs.
Qed.

Lemma elem_of_flat_map {A B} (F : A → list B) (l : list A) (y : B) :
  y ∈ flat_map F l ↔ ∃ c, c ∈ l ∧ y ∈ F c.
Proof.
  rewrite list_elem_of_In, in_flat_map. apply exist_proper. intros c.
  by rewrite !list_elem_of_In.
Qed.

Lemma wf_at_in_range h p t x : wf_at h p t → x ∈ flatten t → x < length h.
Proof.
  revert p. induction t as [r cs IH] using rtree_ind'. intros p.
  rewrite wf_at_unfold, flatten_unfold. intros (Hr & _ & _ & Hcs) Hx.
  apply elem_of_cons in Hx as [->|Hx]; [done|].
  apply elem_of_flat_map in Hx as (c & Hc & Hx).
  rewrite Forall_forall in IH, Hcs.
  by eapply IH; [|apply Hcs|].
Qed.

Lemma length_heightsBelow h ph t :
  length (heightsBelow h ph t) = length (flatten t).
Proof.
  revert ph. induction t as [r cs IH] using rtree_ind'. intros ph.
  simpl. f_equal. generalize (match branchLength (node_at h r) with
                              | Some bl => JS.sub ph bl
                              | None => JS.NaN
                              end). intros v.
  induction IH as [|c cs Hc _ IHcs]; [done|]. simpl.
  by rewrite !length_app, Hc, IHcs.
Qed.

Lemma passHeights_is_tree h t : is_tree h t → passHeights h t = specHeights h t.
Proof.
  intros [Hwf _]. destruct t as [r cs]. apply wf_at_unfold in Hwf as (_ & Hp & _).
  unfold passHeights, specHeights, startHeight. simpl. by rewrite Hp.
Qed.

Lemma length_passHeights h t : length (passHeights h t) = length (flatten t).
Proof.
  destruct t as [r cs]. unfold passHeights. simpl. f_equal.
  generalize (startHeight h r). intros v.
  induction cs as [|c cs IH]; [done|]. simpl.
  by rewrite !length_app, length_heightsBelow, IH.
Qed.

Lemma heights_pass fuel h p t :
  wf_at h p t → NoDup (flatten t) → depth t ≤ fuel →
  ∃ h',
    applyPreOrder fuel setHeight (rroot t) h = Ok (passHeights h t, h')
    ∧ heights_only h h'
    ∧ (λ y, height (node_at h' y)) <$> flatten t = Some <$> passHeights h t
    ∧ (∀ y, y ∉ flatten t → height (node_at h' y) = height (node_at h y)).
Proof.
  destruct t as [x cs]. intros Hwf Hnd Hd.
  apply wf_at_unfold in Hwf as (Hx & Hp & Hc & Hcs).
  destruct fuel as [|fuel]; [rewrite depth_unfold in Hd; lia|].
  rewrite flatten_unfold in Hnd. apply NoDup_cons in Hnd as [Hxcs Hnd].
  unfold passHeights. simpl rroot. simpl subtrees.
  set (v := startHeight h x).
  set (h1 := update x (set_height (Some v)) h).
  assert (Ho1 : heights_only h h1) by apply heights_only_update.
  assert (E0 : setHeight x h = Ok (Some v, h1)) by done.
  destruct (pass_forest cs) with (fuel := fuel) (h := h1) (r := x) (ph := v)
    as (h2 & E2 & Ho2 & Hout2 & Hin2).
  { rewrite Forall_forall. intros c _. apply pass_below_all. }
  { eapply Forall_impl; [exact Hcs|]. intros c'. by apply heights_only_wf_at. }
  { done. }
  { done. }
  { by apply height_update_eq. }
  { rewrite Forall_forall. intros c' Hc'. by eapply depth_child. }
  assert (Hb : ∀ c', heightsBelow h1 v c' = heightsBelow h v c')
    by (intros c'; by apply heights_only_heightsBelow).
  assert (Hfm : flat_map (heightsBelow h1 v) cs = flat_map (heightsBelow h v) cs).
  { clear -Hb. induction cs as [|c' cs IHcs]; [done|]. simpl. by rewrite Hb, IHcs. }
  exists h2. split; [|split; [|split]].
  - simpl applyPreOrder.
    rewrite (bind_Ok _ _ _ _ _ E0).
    rewrite (bind_Ok _ _ _ h1 h1) by done.
    rewrite (heights_only_children _ _ Ho1), Hc.
    rewrite (bind_Ok _ _ _ _ _ E2). unfold ret. simpl.
    by rewrite concat_fmap_flat_map, Hfm.
  - by eapply heights_only_trans.
  - rewrite flatten_unfold, !fmap_cons. f_equal.
    + rewrite Hout2 by done. by apply height_update_eq.
    + by rewrite Hin2, Hfm.
  - intros y Hy. rewrite flatten_unfold in Hy.
    apply not_elem_of_cons in Hy as [Hyx Hy].
    rewrite Hout2 by done. unfold h1. by rewrite height_update_ne.
Qed.

(** The shifting loop. *)
Lemma shift_loop m l : ∀ h,
  NoDup l → Forall (λ x, x < length h) l →
  ∃ h', forM_ l (shiftHeight m) h = Ok (tt, h')
    ∧ heights_only h h'
    ∧ (λ y, height (node_at h' y)) <$> l
      = (λ y, (λ v, JS.sub v m) <$> height (node_at h y)) <$> l
    ∧ (∀ y, y ∉ l → height (node_at h' y) = height (node_at h y)).
Proof.
  induction l as [|x l IH]; intros h Hnd Hl.
  { exists h. split; [done|]. split; [apply heights_only_refl|]. done. }
  apply NoDup_cons in Hnd as [Hx Hnd]. apply Forall_cons in Hl as [Hxl Hl].
  set (h1 := update x (set_height ((λ v, JS.sub v m) <$> height (node_at h x))) h).
  assert (E1 : shiftHeight m x h = Ok (tt, h1)).
  { unfold shiftHeight, bind, get, modify, h1.
    destruct (height (node_at h x)) eqn:E; simpl; [done|]. unfold ret.
    do 2 f_equal. apply list_eq. intros i. unfold update.
    destruct (decide (x = i)) as [->|Hne].
    - rewrite list_lookup_alter_eq.
      destruct (lookup_lt_is_Some_2 h i Hxl) as [n Hn]. rewrite Hn. simpl.
      f_equal. unfold node_at in E.
      rewrite (list_lookup_total_correct _ _ _ Hn) in E. destruct n; simpl in *.
      by subst.
    - by rewrite list_lookup_alter_ne. }
  assert (Ho1 : heights_only h h1) by apply heights_only_update.
  destruct (IH h1) as (h2 & E2 & Ho2 & Hin2 & Hout2); [done| |].
  { eapply Forall_impl; [exact Hl|]. intros y. simpl.
    by rewrite (heights_only_length _ _ Ho1). }
  exists h2. split; [|split; [|split]].
  - simpl. by rewrite (bind_Ok _ _ _ _ _ E1).
  - by eapply heights_only_trans.
  - rewrite !fmap_cons. f_equal.
    + rewrite Hout2 by done. by apply height_update_eq.
    + rewrite Hin2. apply list_fmap_ext. intros i y Hy.
      unfold h1. rewrite height_update_ne; [done|].
      intros ->. apply Hx. by eapply list_elem_of_lookup_2.
  - intros y Hy. apply not_elem_of_cons in Hy as [Hyx Hy].
    rewrite Hout2 by done. unfold h1. by rewrite height_update_ne.
Qed.

Lemma computeNodeAges_spec fuel t h p rt :
  wf_at h p rt → NoDup (flatten rt) → depth rt ≤ fuel →
  root t = rroot rt → _nodeList t = None →
  ∃ h',
    computeNodeAges fuel t h
      = Ok (set__nodeList (Some (flatten rt))
              (set_isTimeTree (timeTreeFlag h rt) t), h')
    ∧ heights_only h h'
    ∧ (λ y, height (node_at h' y)) <$> flatten rt
      = (λ v, Some (JS.sub v (JS.Math_min (passHeights h rt))))
          <$> passHeights h rt
    ∧ (∀ y, y ∉ flatten rt → node_at h' y = node_at h y).
Proof.
  intros Hwf Hnd Hd Hroot Hcache.
  destruct (heights_pass fuel h p rt) as (h1 & E1 & Ho1 & Hs1 & Hout1);
    try done.
  destruct (shift_loop (JS.Math_min (passHeights h rt)) (flatten rt) h1)
    as (h2 & E2 & Ho2 & Hin2 & Hout2); [done| |].
  { rewrite Forall_forall. intros x Hx.
    rewrite (heights_only_length _ _ Ho1). by eapply wf_at_in_range. }
  exists h2. split; [|split; [|split]]; cycle 3.
  { intros y Hy.
    destruct (heights_only_trans _ _ _ Ho1 Ho2) as [_ Hall].
    rewrite (Hall y), Hout2, Hout1 by done. by destruct (node_at h y). }
  - unfold computeNodeAges. rewrite Hroot.
    rewrite (bind_Ok _ _ _ _ _ E1).
    rewrite (bind_Ok _ _ _ h1 h1) by done.
    erewrite bind_Ok; cycle 1.
    { apply nodeList_fresh with (p := p) (rt := rt); try done.
      by apply (heights_only_wf_at _ _ Ho1). }
    cbv beta iota.
    rewrite (length_passHeights h rt), (heights_only_branchLength _ _ Ho1).
    rewrite (bind_Ok _ _ _ _ _ E2). done.
  - by eapply heights_only_trans.
  - rewrite Hin2.
    transitivity (fmap (M := option)
                    (λ v, JS.sub v (JS.Math_min (passHeights h rt)))
                  <$> ((λ y, height (node_at h1 y)) <$> flatten rt)).
    { by rewrite <- list_fmap_compose. }
    by rewrite Hs1, <- list_fmap_compose.
Qed.

(** ** [Math.min] *)

Module MinFacts.
Import JS.

Lemma min2_NaN_r x : min2 x NaN = NaN.
Proof. by destruct x. Qed.

Lemma le_refl x : x ≠ NaN → le x x = true.
Proof. destruct x; try done. intros _. simpl. by apply bool_decide_eq_true. Qed.

Lemma le_trans x y z : le x y = true → le y z = true → le x z = true.
Proof.
  destruct x, y, z; simpl; try done.
  rewrite !bool_decide_eq_true. apply Qcle_trans.
Qed.

Lemma le_total x y : x ≠ NaN → y ≠ NaN → le x y = false → le y x = true.
Proof.
  destruct x, y; simpl; try done. intros _ _.
  rewrite bool_decide_eq_false, bool_decide_eq_true.
  intros H. apply Qcnot_le_lt in H. by apply Qclt_le_weak.
Qed.

Lemma le_antisym x y : le x y = true → le y x = true → x = y.
Proof.
  destruct x, y; simpl; try done.
  rewrite !bool_decide_eq_true. intros H1 H2. f_equal. by apply Qcle_antisym.
Qed.

Lemma le_not_NaN x y : le x y = true → x ≠ NaN ∧ y ≠ NaN.
Proof. by destruct x, y. Qed.

Lemma Math_min_NaN l : NaN ∈ l → Math_min l = NaN.
Proof.
  induction l as [|x l IH]; [by intros ?%elem_of_nil|].
  intros [<-|Hin]%elem_of_cons; [done|].
  unfold Math_min in *. simpl. rewrite IH by done. apply min2_NaN_r.
Qed.

(** Without [NaN] among the arguments, the result is a lower bound, and
    it is one of the arguments or [Infinity]. *)
Lemma Math_min_spec l :
  NaN ∉ l →
  (∀ x, x ∈ l → le (Math_min l) x = true)
  ∧ (Math_min l ∈ l ∨ Math_min l = PInf)
  ∧ Math_min l ≠ NaN.
Proof.
  induction l as [|x l IH]; intros Hl.
  { split; [by intros x ?%elem_of_nil|]. split; [by right|done]. }
  apply not_elem_of_cons in Hl as [Hx Hl].
  destruct (IH Hl) as (Hlb & Hmem & Hnn).
  change (Math_min (x :: l)) with (min2 x (Math_min l)).
  assert (Hm : min2 x (Math_min l) = if le x (Math_min l) then x else Math_min l).
  { destruct x; try done; by destruct (Math_min l). }
  rewrite Hm. destruct (le x (Math_min l)) eqn:E.
  - split; [|split; [left; left|congruence]].
    intros y [->|Hy]%elem_of_cons; [apply le_refl; congruence|].
    eapply le_trans; [exact E|by apply Hlb].
  - split; [|split; [|done]].
    + intros y [->|Hy]%elem_of_cons; [|by apply Hlb].
      apply le_total; [congruence|done|done].
    + destruct Hmem as [Hmem|Hmem]; [left; by right|by right].
Qed.

Lemma Math_min_Fin l z :
  Math_min l = Fin z ↔ Fin z ∈ l ∧ ∀ x, x ∈ l → le (Fin z) x = true.
Proof.
  split.
  - intros Hm.
    assert (Hnn : NaN ∉ l).
    { intros Hin. apply Math_min_NaN in Hin. congruence. }
    destruct (Math_min_spec l Hnn) as (Hlb & Hmem & _). rewrite Hm in *.
    split; [by destruct Hmem|done].
  - intros [Hin Hlb].
    assert (Hnn : NaN ∉ l).
    { intros Hn. by apply Hlb in Hn. }
    destruct (Math_min_spec l Hnn) as (Hlb' & Hmem & _).
    apply le_antisym; [by apply Hlb'|].
    destruct Hmem as [Hmem|Hmem]; [by apply Hlb|].
    apply Hlb' in Hin. rewrite Hmem in Hin. done.
Qed.

Lemma sub_self_Fin q : sub (Fin q) (Fin q) = zero.
Proof. unfold sub, zero. simpl. f_equal. apply Qcplus_opp_r. Qed.

Lemma sub_NaN_r x : sub x NaN = NaN.
Proof. by destruct x. Qed.

(** After the shift by the minimum [m] of a non-empty list, the minimum
    is 0 exactly when [m] is finite. *)
Lemma shifted_min_zero l :
  l ≠ [] →
  Math_min ((λ v, sub v (Math_min l)) <$> l) = zero
  ↔ isFinite (Math_min l) = true.
Proof.
  intros Hne. split.
  - destruct (Math_min l) as [| | |q] eqn:Hm; [| | |done]; intros Hz; exfalso.
    + destruct l as [|x l]; [done|].
      rewrite fmap_cons, sub_NaN_r in Hz.
      rewrite Math_min_NaN in Hz by left. done.
    + assert (Hnn : NaN ∉ l).
      { intros Hin. apply Math_min_NaN in Hin. congruence. }
      destruct (Math_min_spec l Hnn) as (Hlb & _ & _). rewrite Hm in Hlb.
      destruct l as [|x l]; [done|].
      assert (x = PInf) as ->.
      { specialize (Hlb x (list_elem_of_here _ _)). by destruct x. }
      rewrite fmap_cons in Hz. rewrite Math_min_NaN in Hz by left. done.
    + assert (Hnn : NaN ∉ l).
      { intros Hin. apply Math_min_NaN in Hin. congruence. }
      destruct (Math_min_spec l Hnn) as (_ & [Hmem|Hmem] & _); [|congruence].
      rewrite Hm in Hmem. rewrite Math_min_NaN in Hz; [done|].
      apply list_elem_of_fmap. by exists NInf.
  - destruct (Math_min l) as [| | |q] eqn:Hm; try done. intros _.
    apply Math_min_Fin in Hm as [Hin Hlb]. apply Math_min_Fin. split.
    + apply list_elem_of_fmap. exists (Fin q). by rewrite sub_self_Fin.
    + intros y (x & -> & Hx)%list_elem_of_fmap. apply Hlb in Hx.
      destruct x as [| | |q']; try done. simpl in *.
      apply bool_decide_eq_true. apply bool_decide_eq_true in Hx.
      rewrite <- (Qcplus_opp_r q). by apply Qcplus_le_mono_r.
Qed.

End MinFacts.

(** ** Checking that a store holds a tree *)

Lemma wf_atb_correct h t : ∀ p, wf_atb h p t = true → wf_at h p t.
Proof.
  induction t as [r cs IH] using rtree_ind'. intros p. rewrite wf_at_unfold.
  simpl. rewrite !andb_true_iff, !bool_decide_eq_true.
  intros (((Hr & Hp) & Hc) & Hcs). repeat split; try done.
  rewrite forallb_forall in Hcs. rewrite Forall_forall in *.
  intros c Hc'. apply IH; [done|]. apply Hcs. by apply list_elem_of_In.
Qed.

Lemma is_treeb_correct h t : is_treeb h t = true → is_tree h t.
Proof.
  unfold is_treeb, is_tree. rewrite andb_true_iff, bool_decide_eq_true.
  intros [H1 H2]. split; [by apply wf_atb_correct|done].
Qed.

(** ** The age invariant and the time-tree flag (C3, C4) *)

Lemma minHeight_after (h' : list Node) rt l :
  (λ y, height (node_at h' y)) <$> flatten rt = Some <$> l →
  minHeight h' rt = JS.Math_min l.
Proof.
  intros H. unfold minHeight. f_equal.
  transitivity (default JS.NaN <$> ((λ y, height (node_at h' y)) <$> flatten rt)).
  { by rewrite <- list_fmap_compose. }
  rewrite H, <- list_fmap_compose. apply list_fmap_id.
Qed.

Lemma heightsBelow_finite h t : ∀ ph,
  JS.isFinite ph = true →
  (∀ x, x ∈ flatten t → ∃ q, branchLength (node_at h x) = Some (JS.Fin q)) →
  Forall (λ v, JS.isFinite v = true) (heightsBelow h ph t).
Proof.
  induction t as [r cs IH] using rtree_ind'. intros ph Hph Hbl.
  destruct (Hbl r) as [q Hq]; [apply rroot_in_flatten with (t := RT r cs)|].
  change (heightsBelow h ph (RT r cs))
    with (let v := match branchLength (node_at h r) with
                   | Some bl => JS.sub ph bl
                   | None => JS.NaN
                   end in v :: flat_map (heightsBelow h v) cs).
  rewrite Hq. cbv zeta.
  assert (Hv : JS.isFinite (JS.sub ph (JS.Fin q)) = true) by by destruct ph.
  constructor; [done|].
  assert (Hbl' : ∀ x, x ∈ flat_map flatten cs →
                      ∃ q, branchLength (node_at h x) = Some (JS.Fin q)).
  { intros x Hx. apply Hbl. rewrite flatten_unfold. by right. }
  clear Hbl Hq. revert Hv. generalize (JS.sub ph (JS.Fin q)).
  intros v Hv. induction IH as [|c cs Hc _ IHcs]; [constructor|].
  simpl. apply Forall_app. split.
  - apply Hc; [done|]. intros x Hx. apply Hbl'. simpl. apply elem_of_app. by left.
  - apply IHcs. intros x Hx. apply Hbl'. simpl. apply elem_of_app. by right.
Qed.

Lemma Math_min_finite l :
  l ≠ [] → Forall (λ v, JS.isFinite v = true) l →
  JS.isFinite (JS.Math_min l) = true.
Proof.
  intros Hne Hl. rewrite Forall_forall in Hl.
  assert (Hnn : JS.NaN ∉ l) by (intros Hin; by apply Hl in Hin).
  destruct (MinFacts.Math_min_spec l Hnn) as (Hlb & [Hmem|Hmem] & _).
  - by apply Hl.
  - destruct l as [|x l]; [done|].
    specialize (Hlb x (list_elem_of_here _ _)). rewrite Hmem in Hlb.
    specialize (Hl x (list_elem_of_here _ _)). by destruct x.
Qed.

(** A node without branch length has the pre-shift height [NaN]. *)
Lemma heightsBelow_NaN h t : ∀ ph x,
  x ∈ flatten t → branchLength (node_at h x) = None →
  JS.NaN ∈ heightsBelow h ph t.
Proof.
  induction t as [r cs IH] using rtree_ind'. intros ph x Hx Hbl.
  change (heightsBelow h ph (RT r cs))
    with (let v := match branchLength (node_at h r) with
                   | Some bl => JS.sub ph bl
                   | None => JS.NaN
                   end in v :: flat_map (heightsBelow h v) cs).
  cbv zeta. rewrite flatten_unfold in Hx.
  apply elem_of_cons in Hx as [->|Hx]; [rewrite Hbl; left|].
  right. apply elem_of_flat_map in Hx as (c & Hc & Hx).
  apply elem_of_flat_map. exists c. split; [done|].
  rewrite Forall_forall in IH. by apply (IH c Hc _ x).
Qed.

Lemma computeNodeAges_cached fuel t h p rt :
  wf_at h p rt → NoDup (flatten rt) → depth rt ≤ fuel →
  root t = rroot rt →
  _nodeList t = None ∨ _nodeList t = Some (flatten rt) →
  ∃ h',
    computeNodeAges fuel t h
      = Ok (set__nodeList (Some (flatten rt))
              (set_isTimeTree (timeTreeFlag h rt) t), h')
    ∧ heights_only h h'
    ∧ (λ y, height (node_at h' y)) <$> flatten rt
      = (λ v, Some (JS.sub v (JS.Math_min (passHeights h rt))))
          <$> passHeights h rt
    ∧ (∀ y, y ∉ flatten rt → node_at h' y = node_at h y).
Proof.
  intros Hwf Hnd Hd Hroot [Hcache|Hcache];
    [by apply (computeNodeAges_spec fuel t h p rt)|].
  destruct (heights_pass fuel h p rt) as (h1 & E1 & Ho1 & Hs1 & Hout1);
    try done.
  destruct (shift_loop (JS.Math_min (passHeights h rt)) (flatten rt) h1)
    as (h2 & E2 & Ho2 & Hin2 & Hout2); [done| |].
  { rewrite Forall_forall. intros x Hx.
    rewrite (heights_only_length _ _ Ho1). by eapply wf_at_in_range. }
  exists h2. split; [|split; [|split]]; cycle 3.
  { intros y Hy.
    destruct (heights_only_trans _ _ _ Ho1 Ho2) as [_ Hall].
    rewrite (Hall y), Hout2, Hout1 by done. by destruct (node_at h y). }
  - unfold computeNodeAges. rewrite Hroot.
    rewrite (bind_Ok _ _ _ _ _ E1).
    rewrite (bind_Ok _ _ _ h1 h1) by done.
    unfold nodeList at 1. cbn [_nodeList set_isTimeTree]. rewrite Hcache.
    unfold bind at 1, ret at 1.
    rewrite (length_passHeights h rt), (heights_only_branchLength _ _ Ho1).
    rewrite (bind_Ok _ _ _ _ _ E2). unfold ret. do 2 f_equal.
    unfold timeTreeFlag. destruct t; cbn in *. by subst.
  - by eapply heights_only_trans.
  - rewrite Hin2.
    transitivity (fmap (M := option)
                    (λ v, JS.sub v (JS.Math_min (passHeights h rt)))
                  <$> ((λ y, height (node_at h1 y)) <$> flatten rt)).
    { by rewrite <- list_fmap_compose. }
    by rewrite Hs1, <- list_fmap_compose.
Qed.

(** C3 (amended): after [computeNodeAges] on a tree whose cached node
    list is empty or holds the nodes of the tree in pre-order, with
    exact arithmetic, the minimum of the node heights is exactly 0 if and
    only if the minimum of the pre-shift heights is a finite number; this
    is the case whenever every node but the root has a defined, finite
    branch length.  When some node other than the root has no branch
    length, the height of every node is [NaN], and so is their
    minimum. *)
Theorem min_height_zero_iff (fuel : nat) (t : Tree) (h : list Node)
    (rt : rtree) :
  is_tree h rt → root t = rroot rt →
  _nodeList t = None ∨ _nodeList t = Some (flatten rt) →
  depth rt ≤ fuel →
  ∃ t' h',
    computeNodeAges fuel t h = Ok (t', h')
    ∧ (minHeight h' rt = JS.zero
       ↔ JS.isFinite (JS.Math_min (specHeights h rt)) = true)
    ∧ ((∀ x, x ∈ flat_map flatten (subtrees rt) →
             ∃ q, branchLength (node_at h x) = Some (JS.Fin q)) →
       minHeight h' rt = JS.zero)
    ∧ ((∃ x, x ∈ flat_map flatten (subtrees rt)
             ∧ branchLength (node_at h x) = None) →
       minHeight h' rt = JS.NaN
       ∧ ∀ y, y ∈ flatten rt → height (node_at h' y) = Some JS.NaN).
Proof.
  intros Htree Hroot Hcache Hd. pose proof Htree as [Hwf Hnd].
  destruct (computeNodeAges_cached fuel t h None rt)
    as (h' & E & Ho & Hh & _); try done.
  rewrite (passHeights_is_tree _ _ Htree) in Hh.
  eexists _, h'. split; [exact E|].
  assert (Hh' : (λ y, height (node_at h' y)) <$> flatten rt
                 = Some <$> ((λ v, JS.sub v (JS.Math_min (specHeights h rt)))
                               <$> specHeights h rt)).
  { rewrite Hh. by rewrite <- list_fmap_compose. }
  rewrite (minHeight_after _ _ _ Hh').
  assert (Hiff : JS.Math_min
                   ((λ v, JS.sub v (JS.Math_min (specHeights h rt)))
                      <$> specHeights h rt) = JS.zero
                 ↔ JS.isFinite (JS.Math_min (specHeights h rt)) = true).
  { by apply MinFacts.shifted_min_zero. }
  split; [exact Hiff|]. split.
  - intros Hbl. apply Hiff.
    apply Math_min_finite; [done|]. unfold specHeights.
    constructor; [done|]. destruct rt as [r cs]. simpl subtrees in *.
    clear -Hbl. induction cs as [|c cs IH]; [constructor|].
    simpl. apply Forall_app. split.
    + apply heightsBelow_finite; [done|]. intros x Hx. apply Hbl.
      simpl. apply elem_of_app. by left.
    + apply IH. intros x Hx. apply Hbl. simpl. apply elem_of_app. by right.
  - intros (x & Hx & Hbl).
    assert (JS.Math_min (specHeights h rt) = JS.NaN) as Hmin.
    { apply MinFacts.Math_min_NaN. unfold specHeights. right.
      apply elem_of_flat_map in Hx as (c & Hc & Hx).
      apply elem_of_flat_map. exists c. split; [done|].
      by apply (heightsBelow_NaN h c JS.zero x). }
    rewrite Hmin in Hh'. rewrite Hmin.
    assert (∀ v : JS.num, JS.sub v JS.NaN = JS.NaN) as Hsub
      by apply MinFacts.sub_NaN_r.
    split.
    + apply MinFacts.Math_min_NaN. unfold specHeights.
      rewrite fmap_cons, Hsub. left.
    + intros y Hy.
      assert (height (node_at h' y)
              ∈ (λ y, height (node_at h' y)) <$> flatten rt) as Hin.
      { by apply (list_elem_of_fmap_2 (λ y, height (node_at h' y))). }
      rewrite Hh' in Hin.
      apply list_elem_of_fmap in Hin as (w & -> & Hw).
      apply list_elem_of_fmap in Hw as (v & -> & _). by rewrite Hsub.
Qed.

(** C4: after [computeNodeAges], [isTimeTree] holds if and only if the
    minimum of the pre-shift heights is not [NaN] and the tree has more
    than one node or its root has a defined branch length. *)
Theorem isTimeTree_iff (fuel : nat) (t : Tree) (h : list Node) (rt : rtree) :
  is_tree h rt → root t = rroot rt → _nodeList t = None → depth rt ≤ fuel →
  ∃ t' h',
    computeNodeAges fuel t h = Ok (t', h')
    ∧ _nodeList t' = Some (flatten rt)
    ∧ (isTimeTree t' = true
       ↔ JS.isNaN (JS.Math_min (specHeights h rt)) = false
         ∧ (1 < length (flatten rt)
            ∨ is_Some (branchLength (node_at h (root t))))).
Proof.
  intros Htree Hroot Hcache Hd. pose proof Htree as [Hwf Hnd].
  destruct (computeNodeAges_spec fuel t h None rt) as (h' & E & Ho & Hh & _);
    try done.
  eexists _, h'. split; [exact E|]. split; [done|].
  simpl. unfold timeTreeFlag.
  rewrite (passHeights_is_tree _ _ Htree), Hroot.
  rewrite andb_true_iff, negb_true_iff, orb_true_iff, !bool_decide_eq_true.
  done.
Qed.

(** ** getMRCA on zero or one node (C6) *)

(** C6: [getMRCA([])] returns [null], and [getMRCA([x])] returns the
    parent of [x], or [x] itself when [x] has no parent. *)
Theorem getMRCA_empty_and_single (fuel : nat) (h : list Node) (x : nat) :
  getMRCA fuel [] h = Ok (None, h)
  ∧ getMRCA fuel [x] h =
      Ok (Some (match parent (node_at h x) with
                | Some p => p
                | None => x
                end), h).
Proof. split; reflexivity. Qed.

(** ** The reader on blank input (C10) *)

Lemma lexLoop_blank s idx lexMode tokenList :
  Lexer.allChars Lexer.isWhitespace s = true →
  Lexer.lexLoop s 0 idx lexMode tokenList = Ok tokenList.
Proof.
  revert idx. induction s as [|c s IH]; intros idx Hs; [done|].
  simpl in *. apply andb_true_iff in Hs as [-> Hs]. by apply IH.
Qed.

Lemma doLex_blank s :
  Lexer.allChars Lexer.isWhitespace s = true → Lexer.doLex s = Ok [].
Proof. apply lexLoop_blank. Qed.

Lemma doParse_no_token Number (h : list Node) :
  doParse Number [] h = Ok (length h, h ++ [new_Node 0]).
Proof. reflexivity. Qed.

(** C10: on the empty string, and on any string of whitespace only,
    [readNewick] returns normally.  It adds one node to the store, the
    root of the tree it returns: this node has id 0, no label, no
    children, no branch length and no parent, and the height 0; the
    nodes that were in the store are untouched. *)
Theorem readNewick_blank (Number : jsstring → JS.num) (fuel : nat)
    (newick : jsstring) (h : list Node) :
  Lexer.allChars Lexer.isWhitespace newick = true →
  0 < fuel →
  ∃ t h',
    readNewick Number fuel newick h = Ok (t, h')
    ∧ h' = h ++ [set_height (Some JS.zero) (new_Node 0)]
    ∧ root t = length h
    ∧ root t < length h'
    ∧ _nodeList t = Some [root t]
    ∧ id (node_at h' (root t)) = 0
    ∧ label (node_at h' (root t)) = None
    ∧ children (node_at h' (root t)) = []
    ∧ branchLength (node_at h' (root t)) = None
    ∧ parent (node_at h' (root t)) = None
    ∧ (∀ x, x < length h → node_at h' x = node_at h x).
Proof.
  intros Hs Hfuel.
  set (h0 := h ++ [new_Node 0]).
  assert (Hwf : wf_at h0 None (RT (length h) [])).
  { apply wf_at_unfold. unfold h0. rewrite node_at_alloc, length_app. simpl.
    split; [lia|]. split; [done|]. split; [done|]. constructor. }
  destruct (computeNodeAges_spec fuel
              (mkTree (length h) None None None None None false)
              h0 None (RT (length h) []))
    as (h' & E & Ho & Hh & Hout);
    [done|apply NoDup_singleton|simpl; lia|done|done|].
  assert (Hbl : branchLength (node_at h' (length h)) = None).
  { rewrite (heights_only_branchLength _ _ Ho). unfold h0.
    by rewrite node_at_alloc. }
  assert (Hheight : height (node_at h' (length h)) = Some JS.zero).
  { assert (startHeight h0 (length h) = JS.zero) as Hstart.
    { unfold startHeight, h0. by rewrite node_at_alloc. }
    unfold passHeights in Hh. cbn [rroot subtrees flatten flat_map] in Hh.
    rewrite Hstart in Hh. cbn [fmap list_fmap] in Hh.
    injection Hh as ->. f_equal. }
  assert (Hstore : h' = h ++ [set_height (Some JS.zero) (new_Node 0)]).
  { destruct Ho as [Hlen Hnodes]. apply heap_ext.
    - rewrite Hlen. unfold h0. by rewrite !length_app.
    - intros y. destruct (decide (y = length h)) as [->|Hne].
      + rewrite node_at_alloc, (Hnodes (length h)), Hheight. unfold h0.
        by rewrite node_at_alloc.
      + rewrite Hout by (cbn; rewrite list_elem_of_singleton; lia).
        unfold h0, node_at. rewrite !list_lookup_total_alt.
        destruct (decide (y < length h)) as [Hlt|Hge].
        * by rewrite !lookup_app_l.
        * rewrite !lookup_ge_None_2; [done|rewrite length_app; cbn; lia..]. }
  eexists _, h'. split.
  - unfold readNewick. rewrite (doLex_blank _ Hs).
    rewrite (bind_Ok _ _ _ _ _ (doParse_no_token Number h)).
    unfold new_Tree. rewrite (bind_Ok _ _ _ _ _ E).
    rewrite (bind_Ok _ _ _ h' h') by done.
    simpl root. rewrite Hbl. reflexivity.
  - simpl root. simpl _nodeList. split; [exact Hstore|].
    rewrite (heights_only_id _ _ Ho), (heights_only_label _ _ Ho),
      (heights_only_children _ _ Ho), (heights_only_parent _ _ Ho), Hbl.
    unfold h0. rewrite node_at_alloc. repeat split; try done.
    + rewrite Hstore, length_app. cbn. lia.
    + intros x Hx. rewrite Hout.
      * by apply node_at_alloc_old.
      * simpl. rewrite list_elem_of_singleton. lia.
Qed.

(** ** The parser: multiple roots (C7) *)

Lemma acceptToken_miss tokenList token s t :
  tokenList !! idx s = Some t → tok_kind t ≠ token →
  acceptToken tokenList token false s = Ok (false, s).
Proof. intros Ht Hk. unfold acceptToken. rewrite Ht. by rewrite decide_False. Qed.

Lemma acceptToken_hit tokenList token mandatory s t :
  tokenList !! idx s = Some t → tok_kind t = token →
  acceptToken tokenList token mandatory s
  = Ok (true, mkPS (S (idx s)) (thisNodeID s) (ps_heap s)).
Proof. intros Ht Hk. unfold acceptToken. rewrite Ht. by rewrite decide_True. Qed.

Lemma acceptToken_end tokenList token s :
  tokenList !! idx s = None →
  acceptToken tokenList token false s = Ok (false, s).
Proof. intros Ht. unfold acceptToken. by rewrite Ht. Qed.

(** C7: when the top-level [Node] production is followed by a comma, the
    rule [T] throws the [ParseException] for multiple roots, and so do
    [doParse] and [readNewick]. *)
Theorem multiple_roots_rejected (Number : jsstring → JS.num) (fuel : nat)
    (newick : jsstring) (tokenList : list Token) (h : list Node)
    (node : nat) (st : PState) :
  Lexer.doLex newick = Ok tokenList →
  ruleN Number tokenList (parseBudget tokenList) None (mkPS 0 0 h)
    = Ok (node, st) →
  tok_kind <$> tokenList !! idx st = Some COMMA →
  ruleT Number tokenList (parseBudget tokenList) (mkPS 0 0 h)
    = Throw (ParseException MultipleRoots)
  ∧ doParse Number tokenList h = Throw (ParseException MultipleRoots)
  ∧ readNewick Number fuel newick h = Throw (ParseException MultipleRoots).
Proof.
  intros Hlex HN Hcomma.
  destruct (tokenList !! idx st) as [t|] eqn:Ht; [|done].
  injection Hcomma as Hk.
  assert (HT : ruleT Number tokenList (parseBudget tokenList) (mkPS 0 0 h)
               = Throw (ParseException MultipleRoots)).
  { unfold ruleT. rewrite (bind_Ok _ _ _ _ _ HN).
    rewrite (bind_Ok _ _ _ _ _ (acceptToken_miss _ SEMI _ _ Ht ltac:(congruence))).
    rewrite (bind_Ok _ _ _ _ _ (acceptToken_hit _ COMMA false _ _ Ht Hk)).
    done. }
  split; [done|]. split.
  - unfold doParse. by rewrite HT.
  - unfold readNewick. rewrite Hlex. unfold bind, doParse. by rewrite HT.
Qed.

(** ** The parser: branch-length blocks (C8) *)

Lemma annotations_only_refl h : annotations_only h h.
Proof. split; [done|]. intros x. by destruct (node_at h x). Qed.

Lemma annotations_only_trans h1 h2 h3 :
  annotations_only h1 h2 → annotations_only h2 h3 → annotations_only h1 h3.
Proof.
  intros [L1 H1] [L2 H2]. split; [congruence|].
  intros x. rewrite (H2 x) at 1. rewrite (H1 x). done.
Qed.

Lemma annotations_only_update h x f :
  annotations_only h (update x (λ nd, set_annotation (f nd) nd) h).
Proof.
  split; [apply length_update|]. intros y.
  destruct (decide (x = y)) as [->|Hne].
  - destruct (decide (y < length h)) as [Hy|Hy].
    + rewrite node_at_update by done. done.
    + unfold node_at, update. rewrite !list_lookup_total_alt.
      rewrite list_lookup_alter_eq, lookup_ge_None_2 by lia. done.
  - rewrite node_at_update_ne by done. by destruct (node_at h y).
Qed.

Lemma annotations_only_branchLength h h' x :
  annotations_only h h' →
  branchLength (node_at h' x) = branchLength (node_at h x).
Proof. intros [_ H]. by rewrite (H x). Qed.

Lemma acceptToken_heap tokenList token mandatory s b s' :
  acceptToken tokenList token mandatory s = Ok (b, s') →
  ps_heap s' = ps_heap s.
Proof.
  unfold acceptToken. intros H.
  destruct (tokenList !! idx s); repeat case_match; by simplify_eq.
Qed.

Lemma lastText_state tokenList s x s' :
  lastText tokenList s = Ok (x, s') → s' = s.
Proof. unfold lastText. intros H. case_match; by simplify_eq. Qed.

Ltac inv_bind H :=
  repeat (let a := fresh "a" in let s := fresh "s" in let E := fresh "E" in
          apply bind_inv_Ok in H as (a & s & E & H)).

Lemma ruleQW_heap tokenList n :
  (∀ s q s', ruleQ tokenList n s = Ok (q, s') → ps_heap s' = ps_heap s)
  ∧ (∀ s q s', ruleW tokenList n s = Ok (q, s') → ps_heap s' = ps_heap s).
Proof.
  induction n as [|n [IHQ IHW]]; [done|]. split; intros s q s' H; simpl in H.
  - apply bind_inv_Ok in H as ([] & s1 & E1 & H).
    + apply bind_inv_Ok in H as (x & s2 & E2 & H).
      apply lastText_state in E2 as ->. unfold ret in H. simplify_eq.
      by eapply acceptToken_heap.
    + apply bind_inv_Ok in H as ([] & s2 & E2 & H).
      * inv_bind H. unfold ret in H. simplify_eq.
        apply acceptToken_heap in E1, E2, E3. apply IHQ in E. apply IHW in E0.
        congruence.
      * unfold ret in H. simplify_eq.
        apply acceptToken_heap in E1, E2. congruence.
  - apply bind_inv_Ok in H as ([] & s1 & E1 & H).
    + inv_bind H. unfold ret in H. simplify_eq.
      apply acceptToken_heap in E1. apply IHQ in E. apply IHW in E0. congruence.
    + unfold ret in H. simplify_eq. by eapply acceptToken_heap.
Qed.

Lemma ruleD_heap tokenList n node s u s' :
  ruleD tokenList n node s = Ok (u, s') →
  annotations_only (ps_heap s) (ps_heap s').
Proof.
  unfold ruleD. intros H. inv_bind H.
  apply acceptToken_heap in E, E1. apply lastText_state in E0 as ->.
  apply (proj1 (ruleQW_heap tokenList n)) in E2.
  destruct (isStringOrStringArrayOrNull a2).
  - unfold onNodes, modify in H. simplify_eq. simpl.
    rewrite E2, E1, E. apply annotations_only_update.
  - unfold ret in H. simplify_eq. rewrite E2, E1, E.
    apply annotations_only_refl.
Qed.

Lemma ruleE_heap tokenList n : ∀ node s u s',
  ruleE tokenList n node s = Ok (u, s') →
  annotations_only (ps_heap s) (ps_heap s').
Proof.
  induction n as [|n IH]; [done|]. intros node s u s' H. simpl in H.
  apply bind_inv_Ok in H as ([] & s1 & E1 & H).
  - inv_bind H. apply acceptToken_heap in E1. apply ruleD_heap in E.
    apply IH in H. rewrite E1 in E. by eapply annotations_only_trans.
  - unfold ret in H. simplify_eq. apply acceptToken_heap in E1. rewrite E1.
    apply annotations_only_refl.
Qed.

Lemma ruleA_heap tokenList n node s u s' :
  ruleA tokenList n node s = Ok (u, s') →
  annotations_only (ps_heap s) (ps_heap s').
Proof.
  unfold ruleA. intros H.
  apply bind_inv_Ok in H as ([] & s1 & E1 & H).
  - inv_bind H. unfold ret in H. simplify_eq.
    apply acceptToken_heap in E1, E2. apply ruleD_heap in E.
    apply ruleE_heap in E0. rewrite E2. rewrite E1 in E.
    by eapply annotations_only_trans.
  - unfold ret in H. simplify_eq. apply acceptToken_heap in E1. rewrite E1.
    apply annotations_only_refl.
Qed.

Lemma drop_lookup_cons {A} (l : list A) i x :
  l !! i = Some x → drop i l = x :: drop (S i) l.
Proof. intros H. by apply drop_S. Qed.

(** [ruleR] takes the run of colon-delimited tokens and stores nothing. *)
Lemma ruleR_spec tokenList n : ∀ s,
  length tokenList - idx s < n →
  ruleR tokenList n s
  = Ok (tt, mkPS (idx s + suffixRun (tok_kind <$> drop (idx s) tokenList))
                 (thisNodeID s) (ps_heap s)).
Proof.
  induction n as [|n IH]; intros s Hn; [lia|]. simpl.
  destruct (tokenList !! idx s) as [t|] eqn:Ht.
  - pose proof (lookup_lt_Some _ _ _ Ht) as Hlt.
    rewrite (drop_lookup_cons _ _ _ Ht), fmap_cons.
    destruct (decide (tok_kind t = COLON)) as [Hk|Hk].
    + rewrite (bind_Ok _ _ _ _ _ (acceptToken_hit _ COLON false _ _ Ht Hk)).
      rewrite Hk. set (s1 := mkPS (S (idx s)) (thisNodeID s) (ps_heap s)).
      destruct (tokenList !! S (idx s)) as [t2|] eqn:Ht2.
      * pose proof (lookup_lt_Some _ _ _ Ht2) as Hlt2.
        rewrite (drop_lookup_cons _ _ _ Ht2), fmap_cons.
        destruct (decide (tok_kind t2 = STRING)) as [Hk2|Hk2].
        -- rewrite (bind_Ok _ _ _ _ _
                      (acceptToken_hit _ STRING false s1 _ Ht2 Hk2)).
           rewrite IH by (simpl; lia). rewrite Hk2. simpl.
           do 3 f_equal. lia.
        -- rewrite (bind_Ok _ _ _ _ _ (acceptToken_miss _ STRING s1 _ Ht2 Hk2)).
           rewrite IH by (simpl; lia). subst s1. simpl idx.
           rewrite (drop_lookup_cons _ _ _ Ht2), fmap_cons.
           simpl. destruct (tok_kind t2); try done; do 3 f_equal; lia.
      * rewrite (bind_Ok _ _ _ _ _ (acceptToken_end _ STRING s1 Ht2)).
        rewrite IH by (simpl; lia). subst s1. simpl idx.
        rewrite (drop_ge _ (S (idx s))) by (by apply lookup_ge_None).
        simpl. do 3 f_equal. lia.
    + rewrite (bind_Ok _ _ _ _ _ (acceptToken_miss _ COLON _ _ Ht Hk)).
      unfold ret. destruct s; simpl in *.
      destruct (tok_kind t); try done; do 3 f_equal; lia.
  - rewrite (bind_Ok _ _ _ _ _ (acceptToken_end _ COLON _ Ht)).
    rewrite drop_ge by (by apply lookup_ge_None).
    unfold ret. destruct s; simpl. do 3 f_equal. lia.
Qed.

(** C8: in a branch-length block, a text that [Number] cannot read makes
    the parser throw the [ParseException] for a non-numeric branch
    length; otherwise the number becomes the [branchLength] of the node,
    and the colon-delimited tokens that follow are taken without anything
    being stored. *)
Theorem branch_length_block (Number : jsstring → JS.num)
    (tokenList : list Token) (n : nat) (node : nat) (s : PState)
    (text : jsstring) (pos : nat) :
  node < length (ps_heap s) →
  tok_kind <$> tokenList !! idx s = Some COLON →
  tokenList !! S (idx s) = Some (STRING, text, pos) →
  length tokenList - idx s ≤ n →
  let s1 := mkPS (S (S (idx s))) (thisNodeID s)
              (update node (set_branchLength (Some (Number text))) (ps_heap s)) in
  let s2 := mkPS (idx s1 + suffixRun (tok_kind <$> drop (idx s1) tokenList))
              (thisNodeID s) (ps_heap s1) in
  (JS.isNaN (Number text) = true →
     ruleB Number tokenList n node s
     = Throw (ParseException (ExpectedNumericalBranchLength text)))
  ∧ (JS.isNaN (Number text) = false →
       ruleR tokenList n s1 = Ok (tt, s2)
       ∧ ruleB Number tokenList n node s = ruleA tokenList n node s2
       ∧ ∀ s', ruleB Number tokenList n node s = Ok (tt, s') →
               branchLength (node_at (ps_heap s') node) = Some (Number text)).
Proof.
  intros Hnode Hcolon Hstr Hn s1 s2.
  destruct (tokenList !! idx s) as [t|] eqn:Ht; [|done]. injection Hcolon as Hk.
  pose proof (lookup_lt_Some _ _ _ Hstr) as Hlt.
  assert (HB : ruleB Number tokenList n node s
    = bind (if JS.isNaN (Number text)
            then throw (ParseException (ExpectedNumericalBranchLength text))
            else onNodes (update node (set_branchLength (Some (Number text)))))
           (λ _, bind (ruleR tokenList n) (λ _, ruleA tokenList n node))
           (mkPS (S (S (idx s))) (thisNodeID s) (ps_heap s))).
  { unfold ruleB.
    rewrite (bind_Ok _ _ _ _ _ (acceptToken_hit _ COLON false _ _ Ht Hk)).
    erewrite bind_Ok; cycle 1.
    { apply (acceptToken_hit _ STRING true _ (STRING, text, pos)); done. }
    erewrite bind_Ok; cycle 1.
    { unfold lastText. cbn [idx Nat.pred]. by rewrite Hstr. }
    done. }
  split.
  - intros Hnan. rewrite HB, Hnan. done.
  - intros Hnum.
    assert (HR : ruleR tokenList n s1 = Ok (tt, s2)).
    { apply ruleR_spec. simpl. lia. }
    rewrite HB, Hnum.
    assert (HB2 : bind (onNodes (update node (set_branchLength (Some (Number text)))))
                    (λ _, bind (ruleR tokenList n) (λ _, ruleA tokenList n node))
                    (mkPS (S (S (idx s))) (thisNodeID s) (ps_heap s))
                  = ruleA tokenList n node s2).
    { unfold bind at 1. unfold onNodes, modify. simpl.
      fold s1. by rewrite (bind_Ok _ _ _ _ _ HR). }
    split; [done|]. split; [done|].
    intros s' Hs'. rewrite HB2 in Hs'. apply ruleA_heap in Hs'.
    rewrite (annotations_only_branchLength _ _ _ Hs'). simpl.
    by rewrite node_at_update.
Qed.

(** ** Hybrid groups (C2) *)

Lemma hybridNodeList_spec fuel t h rt p :
  wf_at h p rt → root t = rroot rt → depth rt ≤ fuel →
  hybridNodeList fuel t h
  = Ok (filter (λ x, isHybrid h x = true) (flatten rt), h).
Proof.
  intros Hwf Hroot Hd. unfold hybridNodeList. rewrite Hroot.
  erewrite (applyPreOrder_pure _ (λ x, if isHybrid h x then Some x else None))
    by done.
  do 2 f_equal. induction (flatten rt) as [|x l IH]; [done|].
  rewrite omap_cons_option_list, IH, filter_cons.
  destruct (decide (isHybrid h x = true)) as [E|E].
  - by rewrite E.
  - apply not_true_is_false in E. by rewrite E.
Qed.

Lemma fileHybrid_not_hybrid h maps x :
  isHybrid h x = false → fileHybrid h maps x = maps.
Proof.
  unfold isHybrid, fileHybrid. rewrite bool_decide_eq_false.
  destruct maps as [src dest]. destruct (hybridID (node_at h x)); [|done].
  intros []. eauto.
Qed.

Lemma foldl_fileHybrid_filter h l : ∀ maps,
  foldl (fileHybrid h) maps (filter (λ x, isHybrid h x = true) l)
  = foldl (fileHybrid h) maps l.
Proof.
  induction l as [|x l IH]; intros maps; [done|].
  rewrite filter_cons. destruct (decide (isHybrid h x = true)) as [E|E].
  - simpl. apply IH.
  - simpl. apply not_true_is_false in E.
    by rewrite (fileHybrid_not_hybrid _ _ _ E).
Qed.

Lemma destGroup_snoc h k l x :
  destGroup h k (l ++ [x])
  = destGroup h k l
    ++ (if decide (hybridID (node_at h x) = Some k ∧ isLeaf h x = true)
        then [x] else []).
Proof.
  unfold destGroup. by rewrite filter_app.
Qed.

Lemma hasSource_snoc h k l x :
  hasSource h k (l ++ [x])
  ↔ hasSource h k l ∨ (hybridID (node_at h x) = Some k ∧ isLeaf h x = false).
Proof.
  unfold hasSource. split.
  - intros (y & Hy & H1 & H2). apply elem_of_app in Hy as [Hy|Hy].
    + left. eauto.
    + apply list_elem_of_singleton in Hy as ->. by right.
  - intros [(y & Hy & H)|H].
    + exists y. split; [|done]. apply elem_of_app. by left.
    + exists x. split; [|done]. apply elem_of_app. right. by left.
Qed.

(** The two maps built by the filing loop. *)
Lemma fileHybrid_maps h l :
  ∀ src dest, foldl (fileHybrid h) (∅, ∅) l = (src, dest) →
  (∀ k, dest !! k = match destGroup h k l with
                    | [] => None
                    | ds => Some ds
                    end)
  ∧ (∀ k, is_Some (src !! k) ↔ hasSource h k l).
Proof.
  induction l as [|x l IH] using rev_ind; intros src dest Hf.
  { simpl in Hf. simplify_eq. split; intros k.
    - by rewrite lookup_empty.
    - rewrite lookup_empty. split; [by intros []|].
      by intros (y & ?%elem_of_nil & _). }
  rewrite foldl_app in Hf. simpl in Hf.
  destruct (foldl (fileHybrid h) (∅, ∅) l) as [src0 dest0].
  destruct (IH _ _ eq_refl) as [Hd Hs]. clear IH.
  unfold fileHybrid in Hf.
  destruct (hybridID (node_at h x)) as [hid|] eqn:Ehid.
  2:{ simplify_eq. split; intros k.
      - rewrite destGroup_snoc, Hd.
        rewrite decide_False by (intros [? ?]; congruence).
        by rewrite app_nil_r.
      - rewrite hasSource_snoc, Hs. split; [by left|].
        intros [?|[? ?]]; [done|congruence]. }
  destruct (isLeaf h x) eqn:Eleaf.
  - assert (Hf' : src = src0 ∧ dest = <[hid := default [] (dest0 !! hid) ++ [x]]> dest0).
    { destruct (dest0 !! hid); by simplify_eq. }
    destruct Hf' as [-> ->]. clear Hf. split; intros k.
    + rewrite destGroup_snoc. destruct (decide (hid = k)) as [<-|Hne].
      * rewrite lookup_insert_eq, Hd.
        rewrite decide_True by done.
        by destruct (destGroup h hid l).
      * rewrite lookup_insert_ne by done. rewrite Hd.
        rewrite decide_False by (intros [? ?]; congruence).
        by rewrite app_nil_r.
    + rewrite hasSource_snoc, Hs. split; [by left|].
      intros [?|[? ?]]; [done|congruence].
  - simplify_eq. split; intros k.
    + rewrite destGroup_snoc, Hd.
      rewrite decide_False by (intros [? ?]; congruence). by rewrite app_nil_r.
    + rewrite hasSource_snoc. destruct (decide (hid = k)) as [<-|Hne].
      * rewrite lookup_insert_eq. split; [by right|by eauto].
      * rewrite lookup_insert_ne by done. rewrite Hs.
        split; [by left|]. intros [?|[? ?]]; [done|congruence].
Qed.

Lemma fileSourceKey_not_hybrid h keys x :
  isHybrid h x = false → fileSourceKey h keys x = keys.
Proof.
  unfold isHybrid, fileSourceKey. rewrite bool_decide_eq_false.
  destruct (hybridID (node_at h x)); [|done]. intros []. eauto.
Qed.

Lemma foldl_fileSourceKey_filter h l : ∀ keys,
  foldl (fileSourceKey h) keys (filter (λ x, isHybrid h x = true) l)
  = foldl (fileSourceKey h) keys l.
Proof.
  induction l as [|x l IH]; intros keys; [done|].
  rewrite filter_cons. destruct (decide (isHybrid h x = true)) as [E|E].
  - simpl. apply IH.
  - simpl. apply not_true_is_false in E.
    by rewrite (fileSourceKey_not_hybrid _ _ _ E).
Qed.

(** The keys of [srcHybridIDMap]: each id with a source, once. *)
Lemma sourceKeys_spec h l :
  NoDup (foldl (fileSourceKey h) [] l)
  ∧ ∀ k, k ∈ foldl (fileSourceKey h) [] l ↔ hasSource h k l.
Proof.
  induction l as [|x l [IHn IHk]] using rev_ind.
  { split; [constructor|]. intros k. split; [by intros ?%elem_of_nil|].
    by intros (y & ?%elem_of_nil & _). }
  rewrite foldl_app. cbn [foldl].
  set (keys := foldl (fileSourceKey h) [] l) in *.
  assert (∀ k, hybridID (node_at h x) = Some k → isLeaf h x = false →
               k ∈ keys →
               (∀ k', k' ∈ keys ↔ hasSource h k' (l ++ [x]))) as Hsame.
  { intros k Hk Hl Hin k'. rewrite hasSource_snoc, IHk. split; [by left|].
    intros [?|[E ?]]; [done|]. apply IHk. congruence. }
  unfold fileSourceKey.
  destruct (hybridID (node_at h x)) as [hid|] eqn:Ehid.
  2:{ split; [done|]. intros k. rewrite hasSource_snoc, IHk.
      split; [by left|]. intros [?|[? ?]]; [done|congruence]. }
  destruct (isLeaf h x) eqn:El.
  { split; [done|]. intros k. rewrite hasSource_snoc, IHk.
    split; [by left|]. intros [?|[? ?]]; [done|congruence]. }
  case_bool_decide as Hin.
  - split; [done|]. by apply (Hsame hid).
  - split.
    + apply NoDup_app. split_and!; [done| |apply NoDup_singleton].
      by intros y Hy ->%list_elem_of_singleton.
    + intros k. rewrite elem_of_app, list_elem_of_singleton.
      rewrite hasSource_snoc, IHk. split.
      * intros [? | ->]; [by left|by right].
      * intros [?|[E ?]]; [by left|right; congruence].
Qed.

Lemma insertIndex_perm k l : insertIndex k l ≡ₚ k :: l.
Proof.
  induction l as [|y l IH]; [done|]. cbn [insertIndex].
  case_match; [done|]. rewrite IH. apply Permutation_swap.
Qed.

(** [for ... in] visits every key, once. *)
Lemma forInOrder_perm created : forInOrder created ≡ₚ created.
Proof.
  unfold forInOrder.
  assert (∀ l, foldr insertIndex [] l ≡ₚ l) as Hs.
  { induction l as [|k l IH]; [done|]. cbn [foldr].
    by rewrite insertIndex_perm, IH. }
  rewrite Hs. induction created as [|k l IH]; [done|].
  rewrite !filter_cons. destruct (arrayIndex k) as [i|] eqn:E.
  - rewrite decide_True by (by eexists). rewrite decide_False by done.
    cbn [app]. by rewrite IH.
  - rewrite decide_False by (by intros []). rewrite decide_True by done.
    rewrite <- Permutation_middle. by rewrite IH.
Qed.

(** The loop over the sources.  When it ends, every key has its group;
    when it throws, a key without destination has been met, and the
    keys visited before it have their groups. *)
Lemma groupSources_run (src : gmap JS.num nat)
    (dest : gmap JS.num (list nat)) keys : ∀ m,
  NoDup keys →
  match groupSources src dest keys m with
  | (Returned _, m') =>
      (∀ k, k ∈ keys → is_Some (dest !! k))
      ∧ ∀ k, m' !! k
             = if decide (k ∈ keys)
               then (λ ds, option_list (src !! k) ++ ds) <$> dest !! k
               else m !! k
  | (Thrown e, m') =>
      e = ThrownString
            "Extended Newick error: hybrid nodes must come in groups of 2 or more."
      ∧ (∃ k, k ∈ keys ∧ dest !! k = None)
      ∧ ∀ k, m' !! k = m !! k
             ∨ (k ∈ keys ∧ is_Some (dest !! k)
                ∧ m' !! k
                  = (λ ds, option_list (src !! k) ++ ds) <$> dest !! k)
  end.
Proof.
  induction keys as [|hid keys IH]; intros m Hnd.
  { cbn. split; [by intros k ?%elem_of_nil|]. intros k.
    by rewrite decide_False by apply not_elem_of_nil. }
  apply NoDup_cons in Hnd as [Hhid Hnd]. cbn [groupSources].
  destruct (dest !! hid) as [ds|] eqn:Ed.
  - specialize (IH (<[hid := option_list (src !! hid) ++ ds]> m) Hnd).
    destruct (groupSources src dest keys _) as [[u|e] m'].
    + destruct IH as [Hall Hm]. split.
      * intros k [->|Hk]%elem_of_cons; [by eauto|by apply Hall].
      * intros k. rewrite Hm. destruct (decide (k ∈ keys)) as [Hk|Hk].
        -- by rewrite decide_True by (by right).
        -- destruct (decide (k = hid)) as [->|Hne].
           ++ rewrite lookup_insert_eq, decide_True by left. by rewrite Ed.
           ++ rewrite lookup_insert_ne by done.
              rewrite decide_False; [done|].
              by intros [?|?]%elem_of_cons.
    + destruct IH as (-> & (k & Hk & Hkd) & Hm).
      split_and!; [done|exists k; split; [by right|done]|].
      intros k'. destruct (Hm k') as [E|(Hk' & Hs & E)].
      * destruct (decide (k' = hid)) as [->|Hne].
        -- right. rewrite E, lookup_insert_eq, Ed.
           split_and!; [left|by eauto|done].
        -- left. by rewrite E, lookup_insert_ne.
      * right. split_and!; [by right|done|done].
  - split_and!; [done|exists hid; split; [left|done]|]. intros k. by left.
Qed.

(** The loop over the destinations keeps the entries already there and
    adds the groups of the other ids. *)
Lemma addLeafGroups_list (l : list (JS.num * list nat)) :
  NoDup l.*1 →
  ∀ (m : gmap JS.num (list nat)) k,
    foldr leafGroupStep m l !! k
    = match m !! k with
      | Some v => Some v
      | None => (list_to_map l : gmap JS.num (list nat)) !! k
      end.
Proof.
  induction l as [|[k0 ds] l IH]; intros Hnd m k.
  { simpl. rewrite lookup_empty. by destruct (m !! k). }
  rewrite fmap_cons in Hnd. apply NoDup_cons in Hnd as [Hk0 Hnd].
  simpl.
  match goal with
  | |- context [foldr ?f m l] => set (acc := foldr f m l)
  end.
  assert (Hacc : ∀ k, acc !! k = match m !! k with
                                 | Some v => Some v
                                 | None => (list_to_map l : gmap _ _) !! k
                                 end) by (intros; by apply IH).
  assert (Hl0 : (list_to_map l : gmap JS.num (list nat)) !! k0 = None)
    by (by apply not_elem_of_list_to_map_1).
  destruct (decide (k0 = k)) as [<-|Hne].
  - rewrite lookup_insert_eq. pose proof (Hacc k0) as H0. rewrite Hl0 in H0.
    destruct (m !! k0) as [v|].
    + rewrite H0. by rewrite H0.
    + rewrite H0. by rewrite lookup_insert_eq.
  - rewrite (lookup_insert_ne (list_to_map l)) by done.
    destruct (acc !! k0); [by rewrite Hacc|].
    rewrite lookup_insert_ne by done. by rewrite Hacc.
Qed.

Lemma addLeafGroups_spec (dest m : gmap JS.num (list nat)) k :
  addLeafGroups dest m !! k
  = match m !! k with Some v => Some v | None => dest !! k end.
Proof.
  unfold addLeafGroups.
  rewrite addLeafGroups_list by apply NoDup_fst_map_to_list.
  by rewrite list_to_map_to_list.
Qed.

Lemma srcNode_snoc h k l x :
  srcNode h k (l ++ [x])
  = if decide (hybridID (node_at h x) = Some k ∧ isLeaf h x = false)
    then Some x else srcNode h k l.
Proof.
  unfold srcNode. rewrite filter_app, filter_cons, filter_nil.
  case_decide; [by rewrite last_snoc|by rewrite app_nil_r].
Qed.

Lemma fileHybrid_sources h l :
  ∀ src dest, foldl (fileHybrid h) (∅, ∅) l = (src, dest) →
  ∀ k, src !! k = srcNode h k l.
Proof.
  induction l as [|x l IH] using rev_ind; intros src dest Hf k.
  { cbn in Hf. simplify_eq. by rewrite lookup_empty. }
  rewrite foldl_app in Hf. cbn [foldl] in Hf.
  destruct (foldl (fileHybrid h) (∅, ∅) l) as [src0 dest0].
  specialize (IH _ _ eq_refl). rewrite srcNode_snoc.
  unfold fileHybrid in Hf.
  destruct (hybridID (node_at h x)) as [hid|] eqn:Ehid.
  2:{ simplify_eq. rewrite decide_False by (by intros [? ?]). apply IH. }
  destruct (isLeaf h x) eqn:Eleaf.
  - assert (src = src0) as -> by (destruct (dest0 !! hid); by simplify_eq).
    rewrite decide_False by (by intros [? ?]). apply IH.
  - simplify_eq. destruct (decide (hid = k)) as [<-|Hne].
    + rewrite lookup_insert_eq. by rewrite decide_True.
    + rewrite lookup_insert_ne by done.
      rewrite decide_False by (intros [? ?]; congruence). apply IH.
Qed.

(** The two ways in which [getRecombEdgeMap] ends on a tree whose cached
    map is empty: it returns the groups of all hybrid ids and caches
    them, or it throws and leaves in the cache groups of ids that have
    a source. *)
Lemma getRecombEdgeMap_cases fuel t h rt :
  is_tree h rt → root t = rroot rt → depth rt ≤ fuel →
  recombEdgeMap t = None →
  (∃ m, getRecombEdgeMap fuel t h
        = Ok ((Returned m, set_recombEdgeMap (Some m) t), h)
        ∧ (∀ k, m !! k = groupOf h k (flatten rt))
        ∧ ∀ k, hasSource h k (flatten rt) → destGroup h k (flatten rt) ≠ [])
  ∨ (∃ partial,
       getRecombEdgeMap fuel t h
       = Ok ((Thrown (ThrownString
                "Extended Newick error: hybrid nodes must come in groups of 2 or more."),
              set_recombEdgeMap (Some partial) t), h)
       ∧ (∃ k, hasSource h k (flatten rt) ∧ destGroup h k (flatten rt) = [])
       ∧ (∀ k, ¬ hasSource h k (flatten rt) → partial !! k = None)
       ∧ ∀ k v, partial !! k = Some v → groupOf h k (flatten rt) = Some v).
Proof.
  intros [Hwf Hnd] Hroot Hd Hc. unfold getRecombEdgeMap. rewrite Hc.
  erewrite bind_Ok by (by eapply hybridNodeList_spec).
  unfold bind, get. cbv beta iota.
  rewrite foldl_fileHybrid_filter, foldl_fileSourceKey_filter.
  destruct (foldl (fileHybrid h) (∅, ∅) (flatten rt)) as [src dest] eqn:Ef.
  destruct (fileHybrid_maps h _ _ _ Ef) as [Hdest Hsrc].
  pose proof (fileHybrid_sources h _ _ _ Ef) as Hval.
  destruct (sourceKeys_spec h (flatten rt)) as [Hkn Hkk].
  set (created := foldl (fileSourceKey h) [] (flatten rt)) in *.
  assert (∀ k, k ∈ forInOrder created ↔ hasSource h k (flatten rt)) as Hkeys.
  { intros k. by rewrite forInOrder_perm. }
  assert (NoDup (forInOrder created)) as Hnk by (by rewrite forInOrder_perm).
  assert (∀ k ds, hasSource h k (flatten rt) → dest !! k = Some ds →
            (λ ds, option_list (src !! k) ++ ds) <$> dest !! k
            = groupOf h k (flatten rt)) as Hgroup.
  { intros k ds Hk Hds. rewrite Hds. cbn. unfold groupOf. rewrite <- Hval.
    apply Hsrc in Hk as [s Hs]. rewrite Hs. cbn.
    rewrite Hdest in Hds. by destruct (destGroup h k (flatten rt)); simplify_eq. }
  pose proof (groupSources_run src dest (forInOrder created) ∅ Hnk) as Hrun.
  destruct (groupSources src dest (forInOrder created) ∅) as [[u|e] m0].
  - destruct Hrun as [Hall Hm]. left. eexists. split; [done|]. split.
    + intros k. rewrite addLeafGroups_spec, Hm.
      destruct (decide (k ∈ forInOrder created)) as [Hin|Hin].
      * destruct (Hall k Hin) as [ds Hds]. apply Hkeys in Hin.
        rewrite (Hgroup k ds Hin Hds).
        by destruct (groupOf h k (flatten rt)) eqn:Eg;
          [|rewrite <- (Hgroup k ds Hin Hds), Hds in Eg].
      * rewrite lookup_empty. unfold groupOf. rewrite <- Hval.
        assert (src !! k = None) as ->.
        { apply eq_None_not_Some. rewrite Hsrc. by rewrite <- Hkeys. }
        rewrite Hdest. by destruct (destGroup h k (flatten rt)).
    + intros k Hk Hnil. apply Hkeys in Hk. destruct (Hall k Hk) as [ds Hds].
      by rewrite Hdest, Hnil in Hds.
  - destruct Hrun as (-> & (k & Hk & Hkd) & Hm). right. eexists.
    split; [done|]. split_and!.
    + exists k. split; [by apply Hkeys|]. rewrite Hdest in Hkd.
      by destruct (destGroup h k (flatten rt)).
    + intros k' Hns. destruct (Hm k') as [E|(Hin & _)];
        [by rewrite E, lookup_empty|].
      by apply Hkeys in Hin.
    + intros k' v Hv. destruct (Hm k') as [E|(Hin & [ds Hds] & E)];
        [by rewrite E, lookup_empty in Hv|].
      apply Hkeys in Hin. rewrite (Hgroup k' ds Hin Hds) in E. congruence.
Qed.


(** ** Ladderise (C9) *)

(** *** The pure sort *)

Lemma insertBy_perm {A} (key : A → nat) x l : insertBy key x l ≡ₚ x :: l.
Proof.
  induction l as [|y l IH]; [done|]. simpl.
  destruct (Nat.compare (key x) (key y)); try done.
  rewrite IH. apply Permutation_swap.
Qed.

Lemma sortBy_perm {A} (key : A → nat) l : sortBy key l ≡ₚ l.
Proof.
  induction l as [|x l IH]; [done|]. simpl.
  by rewrite insertBy_perm, IH.
Qed.

Lemma insertBy_fmap {A B} (f : A → B) (kA : A → nat) (kB : B → nat) x l :
  (∀ a, kB (f a) = kA a) →
  insertBy kB (f x) (f <$> l) = f <$> insertBy kA x l.
Proof.
  intros Hk. induction l as [|y l IH]; [done|].
  rewrite fmap_cons. simpl. rewrite !Hk.
  destruct (Nat.compare (kA x) (kA y)); try done.
  rewrite fmap_cons. f_equal. exact IH.
Qed.

Lemma sortBy_fmap {A B} (f : A → B) (kA : A → nat) (kB : B → nat) l :
  (∀ a, kB (f a) = kA a) →
  sortBy kB (f <$> l) = f <$> sortBy kA l.
Proof.
  intros Hk. induction l as [|x l IH]; [done|].
  rewrite fmap_cons. simpl. rewrite IH. by apply insertBy_fmap.
Qed.

Lemma insertBy_sorted {A} (key : A → nat) x l :
  sortedBy key l → sortedBy key (insertBy key x l).
Proof.
  unfold sortedBy. induction 1 as [|y l Hs IH Hy]; simpl.
  { repeat constructor. }
  destruct (Nat.compare_spec (key x) (key y)) as [E|E|E].
  - constructor; [by constructor|]. constructor; [lia|].
    eapply Forall_impl; [exact Hy|]. simpl. intros; lia.
  - constructor; [by constructor|]. constructor; [lia|].
    eapply Forall_impl; [exact Hy|]. simpl. intros; lia.
  - constructor; [done|]. rewrite insertBy_perm. constructor; [lia|done].
Qed.

Lemma sortBy_sorted {A} (key : A → nat) l : sortedBy key (sortBy key l).
Proof.
  induction l as [|x l IH]; [constructor|]. simpl. by apply insertBy_sorted.
Qed.

Lemma sortBy_of_sorted {A} (key : A → nat) l :
  sortedBy key l → sortBy key l = l.
Proof.
  unfold sortedBy. induction 1 as [|x l Hs IH Hx]; [done|].
  simpl. rewrite IH. destruct l as [|y l]; [done|]. simpl.
  apply Forall_cons in Hx as [Hxy _].
  destruct (Nat.compare_spec (key x) (key y)); try done. lia.
Qed.

Lemma sortBy_idemp {A} (key : A → nat) l :
  sortBy key (sortBy key l) = sortBy key l.
Proof. apply sortBy_of_sorted, sortBy_sorted. Qed.

(** *** Ladderised shapes *)

Lemma rroot_ladder t : rroot (ladder t) = rroot t.
Proof. by destruct t. Qed.

Lemma ladder_unfold r cs :
  ladder (RT r cs) = RT r (sortBy tipCount (ladder <$> cs)).
Proof. done. Qed.

Lemma leaves_unfold r cs :
  leaves (RT r cs) = match cs with [] => [r] | _ => flat_map leaves cs end.
Proof. by destruct cs. Qed.

Lemma flat_map_perm {A B} (f : A → list B) l l' :
  l ≡ₚ l' → flat_map f l ≡ₚ flat_map f l'.
Proof.
  induction 1 as [|x l l' _ IH|x y l|l1 l2 l3 _ IH1 _ IH2]; simpl.
  - done.
  - by rewrite IH.
  - rewrite !app_assoc. f_equiv. apply Permutation_app_comm.
  - by rewrite IH1.
Qed.

Lemma flat_map_fmap {A B C} (f : A → B) (g : B → list C) l :
  flat_map g (f <$> l) = flat_map (g ∘ f) l.
Proof. induction l as [|x l IH]; [done|]. simpl. f_equal. exact IH. Qed.

Lemma flat_map_perm_ext {A B} (f g : A → list B) l :
  Forall (λ x, f x ≡ₚ g x) l → flat_map f l ≡ₚ flat_map g l.
Proof. induction 1 as [|x l Hx _ IH]; [done|]. simpl. by rewrite Hx, IH. Qed.

Lemma leaves_nonempty r cs :
  cs ≠ [] → leaves (RT r cs) = flat_map leaves cs.
Proof. by destruct cs. Qed.

Lemma leaves_ladder t : leaves (ladder t) ≡ₚ leaves t.
Proof.
  induction t as [r cs IH] using rtree_ind'.
  rewrite ladder_unfold.
  destruct (decide (cs = [])) as [->|Hne]; [done|].
  assert (Hp : sortBy tipCount (ladder <$> cs) ≡ₚ ladder <$> cs)
    by apply sortBy_perm.
  rewrite !leaves_nonempty; [|done|].
  - rewrite (flat_map_perm _ _ _ Hp).
    rewrite flat_map_fmap. by apply flat_map_perm_ext.
  - intros E. rewrite E in Hp. apply Permutation_nil_l in Hp.
    symmetry in Hp. by apply fmap_nil_inv in Hp.
Qed.

Lemma tipCount_ladder t : tipCount (ladder t) = tipCount t.
Proof. unfold tipCount. by rewrite leaves_ladder. Qed.

Lemma flatten_ladder t : flatten (ladder t) ≡ₚ flatten t.
Proof.
  induction t as [r cs IH] using rtree_ind'.
  rewrite ladder_unfold, !flatten_unfold. f_equiv.
  rewrite (flat_map_perm _ _ _ (sortBy_perm _ _)).
  rewrite flat_map_fmap. by apply flat_map_perm_ext.
Qed.

Lemma ladder_sorted_fmap cs :
  sortBy tipCount (ladder <$> cs) = ladder <$> sortBy tipCount cs.
Proof. apply sortBy_fmap. apply tipCount_ladder. Qed.

Lemma ladder_idemp t : ladder (ladder t) = ladder t.
Proof.
  induction t as [r cs IH] using rtree_ind'.
  rewrite !ladder_unfold. f_equal.
  rewrite (ladder_sorted_fmap (sortBy _ _)), sortBy_idemp.
  rewrite ladder_sorted_fmap, <- list_fmap_compose.
  apply list_fmap_ext. intros i c Hc. simpl.
  rewrite Forall_forall in IH. apply IH.
  apply list_elem_of_lookup_2 in Hc.
  by rewrite sortBy_perm in Hc.
Qed.

Lemma depth_le r cs fuel :
  depth (RT r cs) ≤ S fuel ↔ Forall (λ c, depth c ≤ fuel) cs.
Proof.
  rewrite depth_unfold, Forall_forall. split.
  - intros Hd c Hc.
    assert (depth c ≤ max_list (depth <$> cs)); [|lia].
    apply max_list_elem_of_le. by apply list_elem_of_fmap_2.
  - intros Hall. assert (max_list (depth <$> cs) ≤ fuel); [|lia].
    induction cs as [|c cs IH]; simpl; [lia|].
    apply Nat.max_lub; [apply Hall; left|].
    apply IH. intros c' Hc'. apply Hall. by right.
Qed.

Lemma depth_ladder t : depth (ladder t) = depth t.
Proof.
  assert (H : ∀ t fuel, depth t ≤ fuel ↔ depth (ladder t) ≤ fuel).
  { clear t. induction t as [r cs IH] using rtree_ind'. intros [|fuel].
    { rewrite ladder_unfold, !depth_unfold. lia. }
    rewrite ladder_unfold, !depth_le, sortBy_perm, Forall_fmap.
    rewrite !Forall_forall in *. split; intros H c Hc.
    - simpl. apply (IH c Hc). by apply H.
    - apply (IH c Hc). by apply (H c Hc). }
  apply Nat.le_antisymm.
  - by apply (proj1 (H t (depth t))).
  - by apply (proj2 (H t (depth (ladder t)))).
Qed.

(** *** The comparator of [ladderise] *)

Lemma heights_within_refl S h : heights_within S h h.
Proof. split; [apply heights_only_refl|done]. Qed.

Lemma heights_within_trans S h1 h2 h3 :
  heights_within S h1 h2 → heights_within S h2 h3 → heights_within S h1 h3.
Proof.
  intros [H1 F1] [H2 F2]. split; [by eapply heights_only_trans|].
  intros y Hy. by rewrite F2, F1.
Qed.

Lemma heights_within_mono S S' h h' :
  S ⊆ S' → heights_within S h h' → heights_within S' h h'.
Proof. intros HS [H F]. split; [done|]. intros y Hy. apply F. set_solver. Qed.

Lemma leaves_filter h p t :
  wf_at h p t → filter (λ x, isLeaf h x = true) (flatten t) = leaves t.
Proof.
  revert p. induction t as [r cs IH] using rtree_ind'. intros p.
  rewrite wf_at_unfold. intros (Hr & Hp & Hc & Hcs).
  assert (HL : isLeaf h r = bool_decide (rroot <$> cs = [])).
  { unfold isLeaf. by rewrite Hc. }
  rewrite flatten_unfold, filter_cons.
  destruct cs as [|c cs]; [by rewrite decide_True|].
  rewrite decide_False by (by rewrite HL).
  rewrite leaves_nonempty by done.
  generalize dependent (c :: cs). clear c cs. intros cs IH _ Hcs _.
  induction cs as [|c cs IHcs]; [done|].
  apply Forall_cons in Hcs as [Hwf Hcs]. apply Forall_cons in IH as [Hc' IH].
  simpl. rewrite filter_app. f_equal; [by eapply Hc'|by apply IHcs].
Qed.

(** The tips below a node, as the comparator counts them. *)
Lemma subtree_tips fuel h p rt :
  wf_at h p rt → NoDup (flatten rt) → depth rt ≤ fuel →
  ∃ tips ta h',
    bind (getSubtree fuel (rroot rt)) (λ ta, getTipLabels fuel ta None) h
      = Ok ((tips, ta), h')
    ∧ length tips = tipCount rt
    ∧ heights_within (flatten rt) h h'.
Proof.
  intros Hwf Hnd Hd.
  destruct (computeNodeAges_spec fuel
              (mkTree (rroot rt) None None None None None false) h p rt)
    as (h' & E & Ho & _ & Hout); try done.
  pose proof (heights_only_wf_at _ _ Ho _ _ Hwf) as Hwf'.
  eexists _, _, h'. split; [|split].
  - unfold getSubtree, new_Tree. rewrite (bind_Ok _ _ _ _ _ E).
    unfold getTipLabels.
    erewrite bind_Ok; cycle 1.
    { eapply leafList_fresh; [exact Hwf'|done|done|done]. }
    reflexivity.
  - rewrite length_fmap. by rewrite (leaves_filter _ _ _ Hwf').
  - by split.
Qed.

Lemma ladderCompare_spec fuel h pa pb ta tb :
  wf_at h pa ta → NoDup (flatten ta) → depth ta ≤ fuel →
  wf_at h pb tb → NoDup (flatten tb) → depth tb ≤ fuel →
  ∃ h',
    ladderCompare fuel (rroot ta) (rroot tb) h
      = Ok (Nat.compare (tipCount ta) (tipCount tb), h')
    ∧ heights_within (flatten ta ++ flatten tb) h h'.
Proof.
  intros Hwa Hna Hda Hwb Hnb Hdb.
  destruct (subtree_tips fuel h pa ta) as (tipsA & tA & h1 & E1 & L1 & W1);
    try done.
  destruct (subtree_tips fuel h1 pb tb) as (tipsB & tB & h2 & E2 & L2 & W2);
    try done.
  { apply (heights_only_wf_at _ _ (proj1 W1)). done. }
  exists h2. split.
  - unfold ladderCompare.
    apply bind_inv_Ok in E1 as (ta' & ha & Ea & Ea').
    rewrite (bind_Ok _ _ _ _ _ Ea), (bind_Ok _ _ _ _ _ Ea').
    apply bind_inv_Ok in E2 as (tb' & hb & Eb & Eb').
    rewrite (bind_Ok _ _ _ _ _ Eb), (bind_Ok _ _ _ _ _ Eb').
    unfold ret. by rewrite L1, L2.
  - eapply heights_within_trans.
    + eapply heights_within_mono; [|exact W1]. set_solver.
    + eapply heights_within_mono; [|exact W2]. set_solver.
Qed.

(** *** The sort with a comparator that runs on the store *)

Section SortM.
Context (cmp : nat → nat → M (list Node) comparison).
Context (key : rtree → nat).
Context (I : list Node → Prop).
Context (universe : list rtree).
Context (cmp_ok : ∀ a b h1, a ∈ universe → b ∈ universe → I h1 →
           ∃ h2, cmp (rroot a) (rroot b) h1
                 = Ok (Nat.compare (key a) (key b), h2) ∧ I h2).

Lemma insertM_spec x l h1 :
  x ∈ universe → l ⊆ universe → I h1 →
  ∃ h2, insertM cmp (rroot x) (rroot <$> l) h1
        = Ok (rroot <$> insertBy key x l, h2) ∧ I h2.
Proof using cmp_ok.
  intros Hx. revert h1. induction l as [|y l IH]; intros h1 Hl HI.
  { exists h1. by split. }
  destruct (cmp_ok x y h1) as (h2 & E & HI2); [done|set_solver|done|].
  rewrite fmap_cons. simpl. rewrite (bind_Ok _ _ _ _ _ E).
  destruct (Nat.compare (key x) (key y)).
  - exists h2. by split.
  - exists h2. by split.
  - destruct (IH h2) as (h3 & E3 & HI3); [set_solver|done|].
    exists h3. split; [|done]. by rewrite (bind_Ok _ _ _ _ _ E3).
Qed.

Lemma sortM_spec l h1 :
  l ⊆ universe → I h1 →
  ∃ h2, sortM cmp (rroot <$> l) h1
        = Ok (rroot <$> sortBy key l, h2) ∧ I h2.
Proof using cmp_ok.
  revert h1. induction l as [|x l IH]; intros h1 Hl HI.
  { exists h1. by split. }
  destruct (IH h1) as (h2 & E2 & HI2); [set_solver|done|].
  destruct (insertM_spec x (sortBy key l) h2) as (h3 & E3 & HI3);
    [set_solver| |done|].
  { intros y. rewrite sortBy_perm. set_solver. }
  exists h3. split; [|done].
  rewrite fmap_cons. simpl. by rewrite (bind_Ok _ _ _ _ _ E2).
Qed.

End SortM.

(** *** The pass of [ladderise] *)

Lemma wf_at_frame h h' t : ∀ p,
  length h' = length h →
  (∀ y, y ∈ flatten t → node_at h' y = node_at h y) →
  wf_at h p t → wf_at h' p t.
Proof.
  induction t as [r cs IH] using rtree_ind'. intros p Hlen Hsame.
  rewrite !wf_at_unfold. intros (Hr & Hp & Hc & Hcs).
  rewrite (Hsame r) by apply (rroot_in_flatten (RT r cs)).
  rewrite Hlen. repeat (split; [done|]).
  rewrite Forall_forall in *. intros c Hin. apply IH; [done..| |by apply Hcs].
  intros y Hy. apply Hsame. rewrite flatten_unfold. right.
  apply elem_of_flat_map. eauto.
Qed.

Lemma NoDup_flat_map_elem {A B} (f : A → list B) l c :
  NoDup (flat_map f l) → c ∈ l → NoDup (f c).
Proof.
  induction l as [|x l IH]; [by intros _ ?%elem_of_nil|].
  simpl. intros (H1 & _ & H2)%NoDup_app [->|Hc]%elem_of_cons; [done|].
  by apply IH.
Qed.

Lemma ladder_forest n fuel r cs :
  Forall ladder_pass cs →
  ∀ h,
    Forall (wf_at h (Some r)) cs → NoDup (flat_map flatten cs) →
    Forall (λ c, depth c ≤ n) cs → Forall (λ c, depth c ≤ fuel) cs →
    ∃ res h',
      mapM (applyPreOrder n (sortChildren fuel)) (rroot <$> cs) h
        = Ok (res, h')
      ∧ Forall (wf_at h' (Some r)) (ladder <$> cs)
      ∧ length h' = length h
      ∧ (∀ y, y ∉ flat_map flatten cs → node_at h' y = node_at h y).
Proof.
  induction 1 as [|c cs Hc _ IH]; intros h Hwf Hnd Hdn Hdf.
  { exists [], h. split; [done|]. split; [constructor|]. done. }
  apply Forall_cons in Hwf as [Hwfc Hwf]. apply Forall_cons in Hdn as [Hdnc Hdn].
  apply Forall_cons in Hdf as [Hdfc Hdf].
  simpl in Hnd. apply NoDup_app in Hnd as (Hndc & Hdisj & Hnd).
  destruct (Hc n fuel h (Some r)) as (res1 & h1 & E1 & W1 & L1 & F1); try done.
  destruct (IH h1) as (res2 & h2 & E2 & W2 & L2 & F2); try done.
  { rewrite Forall_forall in *. intros c' Hc'. apply wf_at_frame with h.
    - done.
    - intros y Hy. apply F1. intros Hy'. apply (Hdisj y Hy').
      apply elem_of_flat_map. eauto.
    - by apply Hwf. }
  exists (res1 :: res2), h2. split; [|split; [|split]].
  - rewrite fmap_cons. simpl.
    by rewrite (bind_Ok _ _ _ _ _ E1), (bind_Ok _ _ _ _ _ E2).
  - rewrite fmap_cons. constructor; [|done].
    apply wf_at_frame with h1; [done| |done].
    intros y Hy. apply F2. rewrite flatten_ladder in Hy. by apply Hdisj.
  - congruence.
  - intros y Hy. simpl in Hy. rewrite elem_of_app in Hy.
    rewrite F2, F1 by tauto. done.
Qed.

Lemma ladder_pass_all t : ladder_pass t.
Proof.
  induction t as [r cs IH] using rtree_ind'.
  intros n fuel h p Hwf Hnd Hdn Hdf.
  apply wf_at_unfold in Hwf as (Hr & Hp & Hc & Hcs).
  destruct n as [|n]; [rewrite depth_unfold in Hdn; lia|].
  destruct fuel as [|fuel']; [rewrite depth_unfold in Hdf; lia|].
  set (fuel := S fuel') in *.
  apply depth_le in Hdn, Hdf.
  rewrite flatten_unfold in Hnd. apply NoDup_cons in Hnd as [Hrcs Hnd].
  set (S0 := flat_map flatten cs).
  (* the sort *)
  destruct (sortM_spec (ladderCompare fuel) tipCount
              (λ h1, heights_within S0 h h1) cs) with (l := cs) (h1 := h)
    as (h1 & E1 & W1).
  { intros a b h1 Ha Hb HI. pose proof HI as [Ho Hf].
    rewrite Forall_forall in Hcs, Hdf.
    destruct (ladderCompare_spec fuel h1 (Some r) (Some r) a b)
      as (h2 & E & W).
    - apply (heights_only_wf_at _ _ Ho). by apply Hcs.
    - by eapply NoDup_flat_map_elem.
    - specialize (Hdf a Ha). simpl in Hdf. lia.
    - apply (heights_only_wf_at _ _ Ho). by apply Hcs.
    - by eapply NoDup_flat_map_elem.
    - specialize (Hdf b Hb). simpl in Hdf. lia.
    - exists h2. split; [done|]. eapply heights_within_trans; [exact HI|].
      eapply heights_within_mono; [|exact W].
      intros y [Hy|Hy]%elem_of_app; apply elem_of_flat_map; eauto. }
  { done. }
  { apply heights_within_refl. }
  destruct W1 as [Ho1 F1].
  set (cs' := sortBy tipCount cs) in *.
  assert (Hperm : cs' ≡ₚ cs) by apply sortBy_perm.
  set (h2 := update r (set_children (rroot <$> cs')) h1).
  assert (Hr1 : r < length h1) by (by rewrite (heights_only_length _ _ Ho1)).
  assert (E0 : sortChildren fuel r h = Ok (Some tt, h2)).
  { unfold sortChildren. rewrite (bind_Ok _ _ _ h h) by done.
    rewrite Hc, (bind_Ok _ _ _ _ _ E1). done. }
  (* the children, in the new order *)
  destruct (ladder_forest n fuel r cs') with (h := h2)
    as (res & h3 & E3 & W3 & L3 & F3).
  { rewrite Forall_forall in *. intros c Hin. apply IH. by rewrite <- Hperm. }
  { rewrite Forall_forall in *. intros c Hin. rewrite Hperm in Hin.
    apply wf_at_frame with h1.
    - apply length_update.
    - intros y Hy. unfold h2. rewrite node_at_update_ne; [done|].
      intros ->. apply Hrcs. apply elem_of_flat_map. eauto.
    - apply (heights_only_wf_at _ _ Ho1). by apply Hcs. }
  { by rewrite (flat_map_perm _ _ _ Hperm). }
  { by rewrite Hperm. }
  { rewrite Hperm. eapply Forall_impl; [exact Hdf|]. simpl. intros; lia. }
  assert (Hr3 : r ∉ flat_map flatten cs').
  { by rewrite (flat_map_perm _ _ _ Hperm). }
  eexists _, h3.
  split; [|split; [|split]].
  - simpl applyPreOrder. simpl rroot.
    rewrite (bind_Ok _ _ _ _ _ E0).
    rewrite (bind_Ok _ _ _ h2 h2) by done.
    unfold h2 at 1. rewrite node_at_update by done. simpl children.
    rewrite (bind_Ok _ _ _ _ _ E3). done.
  - rewrite ladder_unfold, ladder_sorted_fmap. fold cs'.
    apply wf_at_unfold.
    rewrite (F3 r Hr3), L3. unfold h2.
    rewrite node_at_update, length_update by done. simpl.
    rewrite (heights_only_parent _ _ Ho1).
    split; [done|]. split; [done|]. split; [|done].
    rewrite <- list_fmap_compose. apply list_fmap_ext. intros i c _.
    simpl. by rewrite rroot_ladder.
  - rewrite L3. unfold h2. by rewrite length_update, (heights_only_length _ _ Ho1).
  - intros y Hy. rewrite flatten_unfold in Hy.
    apply not_elem_of_cons in Hy as [Hyr Hy].
    rewrite F3 by (by rewrite (flat_map_perm _ _ _ Hperm)).
    unfold h2. rewrite node_at_update_ne by done. by apply F1.
Qed.

(** C9: [ladderise] is idempotent.  After one call the children of every
    node are stably sorted by ascending tip count, and a second call
    leaves the children array of every node as it is. *)
Theorem ladderise_idempotent (fuel : nat) (t : Tree) (h : list Node)
    (rt : rtree) :
  is_tree h rt → root t = rroot rt → depth rt ≤ fuel →
  ∃ h1 h2,
    ladderise fuel t h = Ok (tt, h1)
    ∧ ladderise fuel t h1 = Ok (tt, h2)
    ∧ is_tree h1 (ladder rt)
    ∧ (∀ x, children (node_at h2 x) = children (node_at h1 x)).
Proof.
  intros [Hwf Hnd] Hroot Hd.
  destruct (ladder_pass_all rt fuel fuel h None) as (res1 & h1 & E1 & W1 & L1 & F1);
    try done.
  assert (Hnd1 : NoDup (flatten (ladder rt))) by (by rewrite flatten_ladder).
  destruct (ladder_pass_all (ladder rt) fuel fuel h1 None)
    as (res2 & h2 & E2 & W2 & L2 & F2); try done;
    try (by rewrite depth_ladder).
  rewrite ladder_idemp in W2. rewrite rroot_ladder in E2.
  exists h1, h2. split; [|split; [|split]].
  - unfold ladderise. rewrite Hroot. by rewrite (bind_Ok _ _ _ _ _ E1).
  - unfold ladderise. rewrite Hroot. by rewrite (bind_Ok _ _ _ _ _ E2).
  - by split.
  - intros x. destruct (decide (x ∈ flatten (ladder rt))) as [Hx|Hx].
    + revert W1 W2 Hx. generalize (ladder rt) (@None nat). clear.
      intros t. induction t as [r cs IH] using rtree_ind'. intros p.
      rewrite !wf_at_unfold, flatten_unfold.
      intros (_ & _ & Hc1 & Hcs1) (_ & _ & Hc2 & Hcs2) [->|Hx]%elem_of_cons.
      { congruence. }
      apply elem_of_flat_map in Hx as (c & Hc & Hx).
      rewrite Forall_forall in *. by eapply IH; eauto.
    + by rewrite F2.
Qed.

(** ** The ascent of [getMRCA] (C5) *)

Lemma visits_nil x k : visits x k [] = 0.
Proof. done. Qed.

Lemma visits_app x k l1 l2 :
  visits x k (l1 ++ l2) = visits x k l1 + visits x k l2.
Proof. unfold visits. by rewrite filter_app, length_app. Qed.

Lemma visits_cons x k ch l :
  visits x k (ch :: l)
  = (if decide (x ∈ take k ch) then 1 else 0) + visits x k l.
Proof. unfold visits. rewrite filter_cons. by case_decide. Qed.

Lemma visits_zero x chs : visits x 0 chs = 0.
Proof.
  induction chs as [|ch chs IH]; [done|]. rewrite visits_cons, IH.
  rewrite take_0. rewrite decide_False; [done|]. by intros ?%elem_of_nil.
Qed.

Lemma elem_of_take_inv {A} (x : A) k l :
  x ∈ take k l ↔ ∃ i, i < k ∧ l !! i = Some x.
Proof.
  rewrite list_elem_of_lookup. split.
  - intros [i Hi]. pose proof (lookup_lt_Some _ _ _ Hi) as Hlt.
    rewrite length_take in Hlt. exists i. split; [lia|].
    by rewrite lookup_take_lt in Hi by lia.
  - intros (i & Hi & Hx). exists i. by rewrite lookup_take_lt.
Qed.

Lemma elem_of_take_le {A} (x : A) k k' l :
  k ≤ k' → x ∈ take k l → x ∈ take k' l.
Proof.
  rewrite !elem_of_take_inv. intros Hk (i & Hi & Hx). exists i. split; [lia|done].
Qed.

Lemma elem_of_take_elem {A} (x : A) k l : x ∈ take k l → x ∈ l.
Proof.
  rewrite elem_of_take_inv. intros (i & _ & Hx). by eapply list_elem_of_lookup_2.
Qed.

Lemma visits_mono x k chs : visits x k chs ≤ visits x (S k) chs.
Proof.
  induction chs as [|ch chs IH]; [done|]. rewrite !visits_cons.
  destruct (decide (x ∈ take k ch)) as [Hin|Hin]; [|lia].
  rewrite decide_True; [lia|]. eapply elem_of_take_le; [|exact Hin]. lia.
Qed.

Lemma visits_le_length x k chs : visits x k chs ≤ length chs.
Proof. unfold visits. apply length_filter. Qed.

Lemma visits_lt_length x k chs ch :
  ch ∈ chs → x ∉ ch → visits x k chs < length chs.
Proof.
  intros Hin Hx. induction chs as [|c chs IH]; [by apply elem_of_nil in Hin|].
  rewrite visits_cons. simpl. apply elem_of_cons in Hin as [<-|Hin].
  - rewrite decide_False.
    + pose proof (visits_le_length x k chs). lia.
    + intros Hx'. apply Hx. by eapply elem_of_take_elem.
  - specialize (IH Hin). case_decide; lia.
Qed.

Lemma take_S_lookup (ch : list nat) k x :
  ch !! k = Some x → take (S k) ch = take k ch ++ [x].
Proof. intros H. by apply take_S_r. Qed.

Lemma visits_short (x k : nat) (ch : list nat) :
  ch !! k = None → (x ∈ take (S k) ch ↔ x ∈ take k ch).
Proof.
  intros Hk%lookup_ge_None. by rewrite !take_ge by lia.
Qed.

Lemma omap_cons_Some {A B} (f : A → option B) x y l :
  f x = Some y → omap f (x :: l) = y :: omap f l.
Proof. intros H. rewrite omap_cons_option_list, H. done. Qed.

Lemma omap_cons_None {A B} (f : A → option B) x l :
  f x = None → omap f (x :: l) = omap f l.
Proof. intros H. rewrite omap_cons_option_list, H. done. Qed.

Lemma mrcaRound_cons h n node rest vc next :
  mrcaRound h n (node :: rest) vc next
  = if decide (default 0 (vc !! node) + 1 = n) then inl node
    else mrcaRound h n rest (<[node := default 0 (vc !! node) + 1]> vc)
           (match parent (node_at h node) with
            | Some p => next ++ [p]
            | None => next
            end).
Proof. done. Qed.

Lemma mrcaLoop_unfold fuel h n l vc :
  l ≠ [] →
  mrcaLoop (S fuel) h n l vc
  = match mrcaRound h n l vc [] with
    | inl node => Ok (Some node)
    | inr (visitCounts', nextNodes) => mrcaLoop fuel h n nextNodes visitCounts'
    end.
Proof. by destruct l. Qed.

Section Ascent.
Context (h : list Node) (n : nat) (top : nat) (chs : list (list nat)).
Context (Hn : n = length chs).
Context (Hnodup : ∀ ch, ch ∈ chs → NoDup ch).
Context (Hlast : ∀ ch, ch ∈ chs → last ch = Some top).
Context (Hparent : ∀ ch k x, ch ∈ chs → ch !! k = Some x →
                             parent (node_at h x) = ch !! (S k)).
Context (Hother : ∀ x, x ≠ top → ∃ ch, ch ∈ chs ∧ x ∉ ch).

Lemma visits_step (x k : nat) (ch : list nat) :
  ch ∈ chs → ch !! k = Some x →
  (x ∉ take k ch) ∧ (x ∈ take (S k) ch)
  ∧ ∀ y, y ≠ x → (y ∈ take (S k) ch ↔ y ∈ take k ch).
Proof using Hnodup.
  intros Hin Hk. rewrite (take_S_lookup _ _ _ Hk).
  split; [|split].
  - intros Hx. apply elem_of_take_inv in Hx as (i & Hlt & Hi).
    rewrite (NoDup_lookup _ _ _ _ (Hnodup _ Hin) Hi Hk) in Hlt.
    by apply Nat.lt_irrefl in Hlt.
  - apply elem_of_app. right. left.
  - intros y Hy. rewrite elem_of_app, list_elem_of_singleton. tauto.
Qed.

(** One round, from the chains still to process. *)
Lemma mrcaRound_spec k : ∀ chs2 chs1 vc next,
  chs = chs1 ++ chs2 →
  (∀ x, default 0 (vc !! x) = visits x (S k) chs1 + visits x k chs2) →
  mrcaRound h n (omap (λ ch, ch !! k) chs2) vc next = inl top
  ∨ ∃ vc',
      mrcaRound h n (omap (λ ch, ch !! k) chs2) vc next
        = inr (vc', next ++ omap (λ ch, ch !! (S k)) chs2)
      ∧ (∀ x, default 0 (vc' !! x) = visits x (S k) chs)
      ∧ ((∃ ch, ch ∈ chs2 ∧ ch !! k = Some top) → visits top (S k) chs ≠ n).
Proof using All.
  induction chs2 as [|ch chs2 IH]; intros chs1 vc next Hsplit Hvc.
  { right. exists vc. rewrite app_nil_r in *. subst chs1. split; [done|].
    split.
    - intros x. rewrite Hvc, visits_nil. lia.
    - by intros (ch & ?%elem_of_nil & _). }
  assert (Hin : ch ∈ chs) by (rewrite Hsplit; set_solver).
  assert (Hsplit' : chs = (chs1 ++ [ch]) ++ chs2) by (by rewrite <- app_assoc).
  destruct (ch !! k) as [x|] eqn:Hk.
  - destruct (visits_step x k ch Hin Hk) as (Hx1 & Hx2 & Hx3).
    assert (Hcount : default 0 (vc !! x) + 1
                     = visits x (S k) (chs1 ++ [ch]) + visits x k chs2).
    { rewrite Hvc, visits_app, !visits_cons, visits_nil.
      rewrite (decide_True _ _ Hx2), (decide_False _ _ Hx1). lia. }
    rewrite (omap_cons_Some _ _ _ _ Hk), mrcaRound_cons.
    destruct (decide (default 0 (vc !! x) + 1 = n)) as [Hret|Hret].
    + left. destruct (decide (x = top)) as [->|Hne]; [done|]. exfalso.
      destruct (Hother x Hne) as (ch' & Hin' & Hx').
      pose proof (visits_lt_length x (S k) chs ch' Hin' Hx') as Hlt.
      assert (visits x (S k) (chs1 ++ [ch]) + visits x k chs2
              ≤ visits x (S k) chs).
      { rewrite Hsplit', (visits_app _ _ (chs1 ++ [ch]) chs2).
        pose proof (visits_mono x k chs2). lia. }
      lia.
    + rewrite (Hparent ch k x Hin Hk).
      destruct (IH (chs1 ++ [ch])
                  (<[x := default 0 (vc !! x) + 1]> vc)
                  (match ch !! (S k) with
                   | Some p => next ++ [p]
                   | None => next
                   end) Hsplit') as [Hl|(vc' & E & Hvc' & Htop)].
      * intros y. destruct (decide (x = y)) as [<-|Hne].
        -- by rewrite lookup_insert_eq.
        -- rewrite lookup_insert_ne by done.
           rewrite Hvc, visits_app, !visits_cons, visits_nil.
           destruct (decide (y ∈ take k ch)) as [Hy|Hy].
           ++ rewrite decide_True; [lia|]. apply Hx3; [done|done].
           ++ rewrite decide_False; [lia|]. intros Hy'. apply Hy.
              by apply Hx3.
      * by left.
      * right. exists vc'. split; [|split; [done|]].
        -- etrans; [exact E|]. do 2 f_equal.
           destruct (ch !! (S k)) as [y|] eqn:Hk2.
           ++ rewrite (omap_cons_Some _ _ _ _ Hk2). by rewrite <- app_assoc.
           ++ by rewrite (omap_cons_None _ _ _ Hk2).
        -- intros (ch' & [->|Hin']%elem_of_cons & Hk').
           ++ destruct (decide (Exists (λ c, c !! k = Some top) chs2))
                as [Hex|Hnex]; [by apply Htop, Exists_exists|].
              rewrite Exists_exists in Hnex.
              assert (x = top) as -> by congruence.
              assert (Hsame : visits top k chs2 = visits top (S k) chs2).
              { clear -Hnex Hnodup Hsplit'.
                assert (Hall : ∀ c, c ∈ chs2 → c !! k ≠ Some top)
                  by (intros c Hc Hck; apply Hnex; eauto).
                assert (Hsub : ∀ c, c ∈ chs2 → c ∈ chs)
                  by (intros c Hc; rewrite Hsplit'; set_solver).
                clear Hnex Hsplit'.
                induction chs2 as [|c chs2 IHc]; [done|].
                rewrite !visits_cons, IHc by
                  (intros; (apply Hall || apply Hsub); by right).
                f_equal. destruct (c !! k) as [y|] eqn:Hy.
                - destruct (visits_step y k c) as (_ & _ & H3);
                    [apply Hsub; left|done|].
                  assert (top ≠ y) by (intros <-; by apply (Hall c); [left|]).
                  destruct (decide (top ∈ take k c)) as [H1|H1].
                  + rewrite decide_True; [done|]. by apply H3.
                  + rewrite decide_False; [done|]. intros H2. apply H1.
                    by apply H3.
                - destruct (decide (top ∈ take k c)) as [H1|H1].
                  + rewrite decide_True; [done|]. by apply visits_short.
                  + rewrite decide_False; [done|]. intros H2. apply H1.
                    by apply visits_short. }
              rewrite Hsplit', (visits_app _ _ (chs1 ++ [ch]) chs2), <- Hsame.
              lia.
           ++ apply Htop. eauto.
  - rewrite (omap_cons_None _ _ _ Hk).
    destruct (IH (chs1 ++ [ch]) vc next Hsplit')
      as [Hl|(vc' & E & Hvc' & Htop)].
    + intros y. rewrite Hvc, visits_app, !visits_cons, visits_nil.
      destruct (decide (y ∈ take k ch)) as [Hy|Hy].
      * rewrite decide_True; [lia|]. by apply (visits_short y k ch Hk).
      * rewrite decide_False; [lia|]. intros Hy'. apply Hy.
        by apply (visits_short y k ch Hk).
    + by left.
    + right. exists vc'. split; [|split; [done|]].
      * etrans; [exact E|]. do 3 f_equal. rewrite omap_cons_None; [done|].
        apply lookup_ge_None in Hk. apply lookup_ge_None. lia.
      * intros (ch' & [->|Hin']%elem_of_cons & Hk'); [congruence|].
        apply Htop. eauto.
Qed.

(** The whole loop, from round [k] on. *)
Lemma mrcaLoop_spec : ∀ fuel k vc,
  (∀ x, default 0 (vc !! x) = visits x k chs) →
  (∃ ch, ch ∈ chs ∧ k < length ch) →
  (∀ ch, ch ∈ chs → length ch ≤ k + fuel) →
  mrcaLoop fuel h n (omap (λ ch, ch !! k) chs) vc = Ok (Some top).
Proof using All.
  induction fuel as [|fuel IH]; intros k vc Hvc (ch0 & Hin0 & Hlen0) Hfuel.
  { specialize (Hfuel ch0 Hin0). lia. }
  rewrite mrcaLoop_unfold.
  2:{ intros El. destruct (lookup_lt_is_Some_2 ch0 k Hlen0) as [x Hx].
      assert (Hin : x ∈ omap (λ ch, ch !! k) chs)
        by (apply list_elem_of_omap; eauto).
      rewrite El in Hin. by apply elem_of_nil in Hin. }
  destruct (mrcaRound_spec k chs [] vc []) as [->|(vc' & -> & Hvc' & Htop)];
    [done| |done|].
  { intros x. rewrite Hvc, visits_nil. lia. }
  simpl. apply IH; [done| |].
  - (* some chain is longer than k+1 *)
    destruct (decide (Exists (λ ch, S k < length ch) chs)) as [?|Hnone];
      [by apply Exists_exists|].
    rewrite Exists_exists in Hnone. exfalso.
    assert (Hall : ∀ ch, ch ∈ chs → length ch ≤ S k).
    { intros ch Hch. destruct (decide (length ch ≤ S k)); [done|].
      exfalso. apply Hnone. exists ch. split; [done|lia]. }
    apply Htop.
    + exists ch0. split; [done|].
      pose proof (Hlast ch0 Hin0) as Hl. rewrite last_lookup in Hl.
      replace (pred (length ch0)) with k in Hl; [done|].
      specialize (Hall ch0 Hin0). lia.
    + rewrite Hn. unfold visits. f_equal.
      clear -Hall Hlast. induction chs as [|c l IHl]; [done|].
      rewrite filter_cons, decide_True.
      * simpl. f_equal. apply IHl; intros; (apply Hall || apply Hlast); by right.
      * rewrite take_ge by (apply Hall; left).
        pose proof (Hlast c (list_elem_of_here _ _)) as Hl.
        rewrite last_lookup in Hl. by eapply list_elem_of_lookup_2.
  - intros ch Hch. specialize (Hfuel ch Hch). lia.
Qed.

End Ascent.

(** *** The chains of a tree *)

Lemma chains_unfold r cs :
  chains (RT r cs)
  = match cs with
    | [] => [[r]]
    | _ => (λ ch, ch ++ [r]) <$> flat_map chains cs
    end.
Proof. by destruct cs. Qed.

Lemma chains_elem r cs ch :
  ch ∈ chains (RT r cs) →
  (cs = [] ∧ ch = [r])
  ∨ ∃ c ch', c ∈ cs ∧ ch' ∈ chains c ∧ ch = ch' ++ [r].
Proof.
  rewrite chains_unfold. destruct cs as [|c0 cs].
  - intros H. apply list_elem_of_singleton in H as ->. by left.
  - intros (ch' & -> & Hin)%list_elem_of_fmap.
    apply elem_of_flat_map in Hin as (c & Hc & Hin). right. eauto.
Qed.

Lemma chains_nonempty t : chains t ≠ [].
Proof.
  induction t as [r cs IH] using rtree_ind'. rewrite chains_unfold.
  destruct cs as [|c cs]; [done|]. apply Forall_cons in IH as [Hc _].
  simpl. destruct (chains c); [done|]. done.
Qed.

Lemma chain_nonempty t ch : ch ∈ chains t → ch ≠ [].
Proof.
  destruct t as [r cs]. intros [[_ ->]|(c & ch' & _ & _ & ->)]%chains_elem;
    [done|]. by destruct ch'.
Qed.

Lemma chains_last t ch : ch ∈ chains t → last ch = Some (rroot t).
Proof.
  destruct t as [r cs]. intros [[_ ->]|(c & ch' & _ & _ & ->)]%chains_elem;
    [done|]. apply last_snoc.
Qed.

Lemma chains_sub t : ∀ ch x, ch ∈ chains t → x ∈ ch → x ∈ flatten t.
Proof.
  induction t as [r cs IH] using rtree_ind'. intros ch x Hch Hx.
  rewrite flatten_unfold.
  apply chains_elem in Hch as [[_ ->]|(c & ch' & Hc & Hch' & ->)].
  - apply list_elem_of_singleton in Hx as ->. left.
  - apply elem_of_app in Hx as [Hx|Hx];
      [|apply list_elem_of_singleton in Hx as ->; left].
    right. apply elem_of_flat_map. exists c. split; [done|].
    rewrite Forall_forall in IH. by eapply IH.
Qed.

Lemma chains_NoDup t : NoDup (flatten t) → ∀ ch, ch ∈ chains t → NoDup ch.
Proof.
  induction t as [r cs IH] using rtree_ind'. intros Hnd ch Hch.
  rewrite flatten_unfold in Hnd. apply NoDup_cons in Hnd as [Hr Hnd].
  apply chains_elem in Hch as [[_ ->]|(c & ch' & Hc & Hch' & ->)].
  - apply NoDup_singleton.
  - apply NoDup_app. split; [|split; [|apply NoDup_singleton]].
    + rewrite Forall_forall in IH. apply (IH c Hc); [|done].
      by eapply NoDup_flat_map_elem.
    + intros x Hx Hx'. apply list_elem_of_singleton in Hx' as ->. apply Hr.
      apply elem_of_flat_map. exists c. split; [done|]. by eapply chains_sub.
Qed.

Lemma chains_length t : ∀ ch, ch ∈ chains t → length ch ≤ depth t.
Proof.
  induction t as [r cs IH] using rtree_ind'. intros ch Hch.
  rewrite depth_unfold.
  apply chains_elem in Hch as [[_ ->]|(c & ch' & Hc & Hch' & ->)].
  - simpl. lia.
  - rewrite length_app. simpl. rewrite Forall_forall in IH.
    specialize (IH c Hc ch' Hch').
    assert (depth c ≤ max_list (depth <$> cs)); [|lia].
    apply max_list_elem_of_le. by apply list_elem_of_fmap_2.
Qed.

Lemma chains_parent h t : ∀ p ch k x,
  wf_at h p t → ch ∈ chains t → ch !! k = Some x →
  parent (node_at h x) = match ch !! (S k) with Some y => Some y | None => p end.
Proof.
  induction t as [r cs IH] using rtree_ind'. intros p ch k x Hwf Hch Hk.
  apply wf_at_unfold in Hwf as (Hr & Hp & Hc & Hcs).
  apply chains_elem in Hch as [[_ ->]|(c & ch' & Hcin & Hch' & ->)].
  - destruct k as [|k]; [|done]. simpl in Hk. by simplify_eq.
  - rewrite Forall_forall in IH, Hcs.
    destruct (decide (k < length ch')) as [Hlt|Hge].
    + rewrite lookup_app_l in Hk by done.
      rewrite (IH c Hcin (Some r) ch' k x (Hcs c Hcin) Hch' Hk).
      destruct (decide (S k < length ch')) as [Hlt2|Hge2].
      * rewrite lookup_app_l by done.
        by destruct (lookup_lt_is_Some_2 ch' (S k) Hlt2) as [y ->].
      * rewrite (lookup_ge_None_2 ch' (S k)) by lia.
        rewrite lookup_app_r by lia.
        by replace (S k - length ch') with 0 by lia.
    + rewrite lookup_app_r in Hk by lia.
      destruct (k - length ch') as [|i] eqn:Ei; [|done].
      simpl in Hk. simplify_eq.
      rewrite lookup_ge_None_2; [done|]. rewrite length_app. simpl. lia.
Qed.

Lemma chains_heads t : omap (λ ch, ch !! 0) (chains t) = leaves t.
Proof.
  induction t as [r cs IH] using rtree_ind'.
  rewrite chains_unfold, leaves_unfold. destruct cs as [|c0 cs]; [done|].
  generalize dependent (c0 :: cs). clear c0 cs. intros cs IH.
  induction IH as [|c cs Hc _ IHcs]; [done|].
  simpl. rewrite fmap_app, omap_app, IHcs. f_equal.
  rewrite <- Hc. clear. 
  assert (Hne : ∀ ch, ch ∈ chains c → ch ≠ []) by apply chain_nonempty.
  induction (chains c) as [|ch l IHl]; [done|].
  rewrite fmap_cons, !omap_cons_option_list, IHl
    by (intros; apply Hne; by right).
  f_equal. specialize (Hne ch (list_elem_of_here _ _)). by destruct ch.
Qed.

Lemma leaves_length_pos t : 0 < length (leaves t).
Proof.
  induction t as [r cs IH] using rtree_ind'. rewrite leaves_unfold.
  destruct cs as [|c cs]; [simpl; lia|].
  apply Forall_cons in IH as [Hc _]. simpl. rewrite length_app. lia.
Qed.

Lemma chains_count t : length (chains t) = length (leaves t).
Proof.
  induction t as [r cs IH] using rtree_ind'.
  rewrite chains_unfold, leaves_unfold. destruct cs as [|c0 cs]; [done|].
  rewrite length_fmap.
  induction IH as [|c cs' Hc _ IHcs]; [done|].
  simpl. by rewrite !length_app, Hc, IHcs.
Qed.

(** When the root has two children or more, every other node misses the
    chain of some leaf. *)
Lemma chains_avoid r c1 c2 cs x :
  NoDup (flatten (RT r (c1 :: c2 :: cs))) → x ≠ r →
  ∃ ch, ch ∈ chains (RT r (c1 :: c2 :: cs)) ∧ x ∉ ch.
Proof.
  intros Hnd Hx. rewrite flatten_unfold in Hnd.
  apply NoDup_cons in Hnd as [_ Hnd]. simpl in Hnd.
  apply NoDup_app in Hnd as (_ & Hdisj & _).
  destruct (chains c1) as [|ch1 l1] eqn:E1; [by apply chains_nonempty in E1|].
  destruct (chains c2) as [|ch2 l2] eqn:E2; [by apply chains_nonempty in E2|].
  assert (H1 : ch1 ∈ chains c1) by (rewrite E1; left).
  assert (H2 : ch2 ∈ chains c2) by (rewrite E2; left).
  destruct (decide (x ∈ flatten c1)) as [Hin|Hout].
  - exists (ch2 ++ [r]). split.
    + rewrite chains_unfold. apply list_elem_of_fmap. exists ch2. split; [done|].
      apply elem_of_flat_map. exists c2. split; [right; left|done].
    + intros [Hx2|Hx2]%elem_of_app.
      * apply (Hdisj x Hin). apply elem_of_app. left. by eapply chains_sub.
      * by apply list_elem_of_singleton in Hx2.
  - exists (ch1 ++ [r]). split.
    + rewrite chains_unfold. apply list_elem_of_fmap. exists ch1. split; [done|].
      apply elem_of_flat_map. exists c1. split; [left|done].
    + intros [Hx1|Hx1]%elem_of_app.
      * apply Hout. by eapply chains_sub.
      * by apply list_elem_of_singleton in Hx1.
Qed.

(** C5 (amended): on a tree whose root has at least two children,
    [getMRCA] applied to the full leaf list returns the root. *)
Theorem getMRCA_leafList_root (fuel : nat) (t : Tree) (h : list Node)
    (rt : rtree) :
  is_tree h rt → root t = rroot rt → depth rt ≤ fuel → _leafList t = None →
  2 ≤ length (subtrees rt) →
  ∃ ll t',
    leafList fuel t h = Ok ((ll, t'), h)
    ∧ ll = leaves rt
    ∧ 2 ≤ length ll
    ∧ getMRCA fuel ll h = Ok (Some (root t), h).
Proof.
  intros [Hwf Hnd] Hroot Hd Hcache Hkids.
  eexists _, _. split; [by eapply leafList_fresh|].
  rewrite (leaves_filter _ _ _ Hwf). split; [done|].
  destruct rt as [r cs]. simpl in Hkids, Hroot.
  destruct cs as [|c1 [|c2 cs]]; [simpl in Hkids; lia..|].
  assert (Hlen : 2 ≤ length (leaves (RT r (c1 :: c2 :: cs)))).
  { simpl. rewrite !length_app.
    pose proof (leaves_length_pos c1). pose proof (leaves_length_pos c2). lia. }
  split; [done|].
  set (rt := RT r (c1 :: c2 :: cs)) in *.
  assert (Hloop : mrcaLoop fuel h (length (leaves rt))
                    (omap (λ ch, ch !! 0) (chains rt)) ∅ = Ok (Some r)).
  { apply mrcaLoop_spec.
    - by rewrite chains_count.
    - intros ch. by apply chains_NoDup.
    - intros ch. apply (chains_last rt).
    - intros ch k x Hch Hk. rewrite (chains_parent h rt None ch k x); try done.
      by destruct (ch !! S k).
    - intros x Hx. by apply chains_avoid.
    - intros x. by rewrite lookup_empty, visits_zero.
    - destruct (chains rt) as [|ch l] eqn:E; [by apply chains_nonempty in E|].
      exists ch. split; [left|].
      assert (ch ≠ []) by (apply (chain_nonempty rt); rewrite E; left).
      destruct ch; [done|simpl; lia].
    - intros ch Hch. pose proof (chains_length rt ch Hch). simpl. lia. }
  rewrite chains_heads in Hloop.
  unfold getMRCA. destruct (leaves rt) as [|l1 [|l2 ls]]; [simpl in Hlen; lia..|].
  rewrite Hloop, Hroot. done.
Qed.

(** ** Contexts and spines *)

Lemma plug_app t c1 c2 : plug t (c1 ++ c2) = plug (plug t c1) c2.
Proof.
  revert t; induction c1 as [|[x ls rs] c1 IH]; intros t; [done|].
  cbn. apply IH.
Qed.

Lemma rroot_plug t f c : rroot (plug t (c ++ [f])) = fnode f.
Proof. rewrite plug_app. by destruct f. Qed.

Lemma flat_map_app' {A B} (F : A → list B) l1 l2 :
  flat_map F (l1 ++ l2) = flat_map F l1 ++ flat_map F l2.
Proof. induction l1; cbn; [done|]. by rewrite IHl1, app_assoc. Qed.

Lemma Permutation_swap_app {A} (l1 a l2 : list A) :
  l1 ++ a ++ l2 ≡ₚ a ++ l1 ++ l2.
Proof.
  by rewrite !app_assoc, (Permutation_app_comm l1 a).
Qed.

Lemma flatten_plug t c :
  flatten (plug t c) ≡ₚ flatten t ++ flat_map frameNodes c.
Proof.
  revert t; induction c as [|[x ls rs] c IH]; intros t; cbn [plug flat_map].
  - by rewrite app_nil_r.
  - rewrite IH, flatten_unfold. unfold frameNodes at 2. cbn [fnode fkids].
    rewrite !flat_map_app'. cbn [flat_map].
    rewrite <- ?app_assoc. cbn [app]. rewrite <- ?app_assoc.
    rewrite <- Permutation_middle. apply Permutation_cons; [done|].
    rewrite (Permutation_swap_app _ (flatten t)). done.
Qed.

Lemma leaves_plug t c :
  leaves (plug t c)
  ≡ₚ leaves t ++ flat_map (λ f, flat_map leaves (fkids f)) c.
Proof.
  revert t; induction c as [|[x ls rs] c IH]; intros t; cbn [plug flat_map].
  - by rewrite app_nil_r.
  - rewrite IH, leaves_nonempty by (by destruct ls).
    cbn [fkids]. rewrite !flat_map_app'. cbn [flat_map].
    rewrite <- ?app_assoc.
    rewrite (Permutation_swap_app _ (leaves t)). done.
Qed.

(** Every node of a tree is the root of a subtree in some context. *)
Lemma plug_focus rt : ∀ x, x ∈ flatten rt →
  ∃ sub c, rt = plug sub c ∧ rroot sub = x ∧ (c = [] → x = rroot rt).
Proof.
  induction rt as [r cs IH] using rtree_ind'; intros x Hx.
  rewrite flatten_unfold in Hx. apply elem_of_cons in Hx as [->|Hx].
  { by exists (RT r cs), []. }
  apply elem_of_flat_map in Hx as (ci & Hci & Hx).
  apply list_elem_of_split in Hci as (ls & rs & ->).
  rewrite Forall_app, Forall_cons in IH. destruct IH as (_ & IHc & _).
  destruct (IHc x Hx) as (sub & c & -> & Hr & _).
  exists sub, (c ++ [Frame r ls rs]). rewrite plug_app. split; [done|].
  split; [done|]. by destruct c.
Qed.

Lemma wf_plug h t : ∀ c,
  wf_at h None (plug t c) →
  wf_at h (fnode <$> head c) t ∧ ctx_ok h (Some (rroot t)) c.
Proof.
  intros c; revert t; induction c as [|[x ls rs] c IH]; intros t Hwf.
  { done. }
  cbn [plug] in Hwf. apply IH in Hwf as [Hx Hc].
  apply wf_at_unfold in Hx as (Hlt & Hp & Hch & Hall).
  cbn [head fmap option_fmap option_map fnode].
  rewrite Forall_app, Forall_cons in Hall. destruct Hall as (Hl & Ht & Hr).
  split; [done|]. cbn [ctx_ok]. split_and!; try done.
  - by rewrite Hch, fmap_app, fmap_cons.
  - by apply Forall_app.
Qed.

Lemma wf_spine_shape h : ∀ rest p x ks,
  wf_spine h p ((x, ks) :: rest) ↔ wf_at h p (spineShape x ks rest).
Proof.
  induction rest as [|[y ks'] rest IH]; intros p x ks.
  - cbn [wf_spine spineShape head fmap option_fmap option_map option_list].
    rewrite wf_at_unfold, app_nil_r. tauto.
  - cbn [spineShape]. rewrite wf_at_unfold.
    change (wf_spine h p ((x, ks) :: (y, ks') :: rest))
      with (x < length h ∧ parent (node_at h x) = p
            ∧ children (node_at h x) = (rroot <$> ks) ++ [y]
            ∧ Forall (wf_at h (Some x)) ks
            ∧ wf_spine h (Some x) ((y, ks') :: rest)).
    rewrite IH, fmap_app, Forall_app, Forall_singleton.
    assert (rroot (spineShape y ks' rest) = y) as Hy by (by destruct rest as [|[??]?]).
    cbn [fmap list_fmap]. rewrite Hy. tauto.
Qed.

Lemma flatten_spineShape : ∀ rest x ks,
  flatten (spineShape x ks rest)
  ≡ₚ flat_map spineNodes ((x, ks) :: rest).
Proof.
  induction rest as [|[y ks'] rest IH]; intros x ks.
  - cbn. by rewrite app_nil_r.
  - cbn [spineShape]. rewrite flatten_unfold, flat_map_app'.
    cbn [flat_map]. rewrite app_nil_r, IH. done.
Qed.

Lemma leaves_spineShape : ∀ rest x ks,
  (∀ e, last ((x, ks) :: rest) = Some e → e.2 ≠ []) →
  leaves (spineShape x ks rest)
  ≡ₚ flat_map (λ e, flat_map leaves e.2) ((x, ks) :: rest).
Proof.
  induction rest as [|[y ks'] rest IH]; intros x ks Hne.
  - cbn [spineShape flat_map]. rewrite app_nil_r.
    rewrite leaves_nonempty; [done|]. by apply (Hne (x, ks)).
  - cbn [spineShape]. rewrite leaves_nonempty by (by destruct ks).
    rewrite flat_map_app'. cbn [flat_map]. rewrite app_nil_r, IH; [done|].
    intros e He. by apply Hne.
Qed.

(** ** Adding and removing children in the store *)

Lemma node_at_update_dec r f h y :
  node_at (update r f h) y
  = if decide (y = r ∧ r < length h) then f (node_at h y) else node_at h y.
Proof.
  destruct (decide (y = r ∧ r < length h)) as [[-> Hr]|Hn].
  - by apply node_at_update.
  - destruct (decide (r = y)) as [->|Hne]; [|by apply node_at_update_ne].
    assert (length h ≤ y) as Hge by (destruct (decide (y < length h)); [tauto|lia]).
    unfold node_at, update.
    rewrite !list_lookup_total_alt, list_lookup_alter_eq.
    by rewrite (lookup_ge_None_2 h y Hge).
Qed.

Lemma length_addChild p c h : length (addChild p c h) = length h.
Proof. unfold addChild. by rewrite !length_update. Qed.

Lemma length_removeChild p c h : length (removeChild p c h) = length h.
Proof. unfold removeChild. by rewrite !length_update. Qed.

Lemma children_addChild p c h y :
  p < length h →
  children (node_at (addChild p c h) y)
  = if decide (y = p) then children (node_at h p) ++ [c]
    else children (node_at h y).
Proof.
  intros Hp. unfold addChild. rewrite !node_at_update_dec, length_update.
  repeat case_decide; subst; cbn; try done; tauto.
Qed.

Lemma parent_addChild p c h y :
  c < length h →
  parent (node_at (addChild p c h) y)
  = if decide (y = c) then Some p else parent (node_at h y).
Proof.
  intros Hp. unfold addChild. rewrite !node_at_update_dec, length_update.
  repeat case_decide; subst; cbn; try done; tauto.
Qed.

Lemma children_removeChild p c h y :
  p < length h →
  children (node_at (removeChild p c h) y)
  = if decide (y = p) then remove_first c (children (node_at h p))
    else children (node_at h y).
Proof.
  intros Hp. unfold removeChild. rewrite !node_at_update_dec, length_update.
  repeat case_decide; subst; cbn; try done; tauto.
Qed.

Lemma parent_removeChild p c h y :
  c < length h →
  parent (node_at (removeChild p c h) y)
  = if decide (y = c) then None else parent (node_at h y).
Proof.
  intros Hp. unfold removeChild. rewrite !node_at_update_dec, length_update.
  repeat case_decide; subst; cbn; try done; tauto.
Qed.

Lemma branchLength_addChild p c h y :
  branchLength (node_at (addChild p c h) y) = branchLength (node_at h y).
Proof.
  unfold addChild. rewrite !node_at_update_dec, length_update.
  repeat case_decide; subst; cbn; done.
Qed.

Lemma branchLength_removeChild p c h y :
  branchLength (node_at (removeChild p c h) y) = branchLength (node_at h y).
Proof.
  unfold removeChild. rewrite !node_at_update_dec, length_update.
  repeat case_decide; subst; cbn; done.
Qed.

Lemma node_at_addChild_ne p c h y :
  y ≠ p → y ≠ c → node_at (addChild p c h) y = node_at h y.
Proof.
  intros. unfold addChild. rewrite !node_at_update_dec.
  repeat case_decide; subst; cbn; try done; tauto.
Qed.

Lemma node_at_removeChild_ne p c h y :
  y ≠ p → y ≠ c → node_at (removeChild p c h) y = node_at h y.
Proof.
  intros. unfold removeChild. rewrite !node_at_update_dec.
  repeat case_decide; subst; cbn; try done; tauto.
Qed.

Lemma remove_first_middle (l1 l2 : list nat) x :
  x ∉ l1 → remove_first x (l1 ++ x :: l2) = l1 ++ l2.
Proof.
  induction l1 as [|a l1 IH]; intros Hx; cbn.
  - by rewrite decide_True.
  - rewrite not_elem_of_cons in Hx. destruct Hx as [Hne Hx].
    rewrite decide_False by done. by rewrite IH.
Qed.

(** ** Stores that differ in links and branch lengths only *)

Lemma links_only_refl h : links_only h h.
Proof. split; [done|]. intros x. by destruct (node_at h x). Qed.

Lemma links_only_trans h1 h2 h3 :
  links_only h1 h2 → links_only h2 h3 → links_only h1 h3.
Proof.
  intros [L1 E1] [L2 E2]. split; [congruence|]. intros x.
  rewrite (E2 x) at 1. rewrite (E1 x) at 1. done.
Qed.

Lemma links_only_update_children h x v :
  links_only h (update x (λ n, set_children (v n) n) h).
Proof.
  split; [apply length_update|]. intros y. rewrite node_at_update_dec.
  case_decide; by destruct (node_at h y).
Qed.

Lemma links_only_update_parent h x v :
  links_only h (update x (set_parent v) h).
Proof.
  split; [apply length_update|]. intros y. rewrite node_at_update_dec.
  case_decide; by destruct (node_at h y).
Qed.

Lemma links_only_update_branchLength h x v :
  links_only h (update x (set_branchLength v) h).
Proof.
  split; [apply length_update|]. intros y. rewrite node_at_update_dec.
  case_decide; by destruct (node_at h y).
Qed.

Lemma links_only_addChild h p c : links_only h (addChild p c h).
Proof.
  unfold addChild. eapply links_only_trans; [|apply links_only_update_parent].
  apply (links_only_update_children h p (λ n, children n ++ [c])).
Qed.

Lemma links_only_removeChild h p c : links_only h (removeChild p c h).
Proof.
  unfold removeChild. eapply links_only_trans; [|apply links_only_update_parent].
  apply (links_only_update_children h p (λ n, remove_first c (children n))).
Qed.

Section LinksOnly.
Context {h h' : list Node} (H : links_only h h').

Lemma links_only_length : length h' = length h.
Proof using H. apply H. Qed.
Lemma links_only_label x : label (node_at h' x) = label (node_at h x).
Proof using H. destruct H as [_ E]. by rewrite (E x). Qed.
Lemma links_only_id x : id (node_at h' x) = id (node_at h x).
Proof using H. destruct H as [_ E]. by rewrite (E x). Qed.
Lemma links_only_hybridID x : hybridID (node_at h' x) = hybridID (node_at h x).
Proof using H. destruct H as [_ E]. by rewrite (E x). Qed.
End LinksOnly.

(** ** One step up the path *)

Section UpStep.
Variables (x prev : nat) (pnext : option nat) (BL : option JS.num).
Variable h : list Node.
Hypothesis Hx : x < length h.
Hypothesis Hprev : prev < length h.
Hypothesis Hxprev : x ≠ prev.
Hypothesis Hp : ∀ p, pnext = Some p → p < length h ∧ p ≠ prev ∧ p ≠ x.

Lemma upStep_length : length (upStep x pnext prev BL h).1 = length h.
Proof using Type.
  clear Hx Hprev Hxprev Hp.
  unfold upStep. cbn. rewrite length_update, length_addChild.
  destruct pnext; [apply length_removeChild|done].
Qed.

Lemma upStep_carry :
  (upStep x pnext prev BL h).2 = branchLength (node_at h x).
Proof using Type.
  clear Hx Hprev Hxprev Hp.
  unfold upStep. cbn. rewrite branchLength_addChild.
  destruct pnext; [apply branchLength_removeChild|done].
Qed.

Lemma upStep_links : links_only h (upStep x pnext prev BL h).1.
Proof using Type.
  clear Hx Hprev Hxprev Hp.
  unfold upStep. cbn.
  eapply links_only_trans; [|apply links_only_update_branchLength].
  eapply links_only_trans; [|apply links_only_addChild].
  destruct pnext; [apply links_only_removeChild|apply links_only_refl].
Qed.

Lemma upStep_children y :
  children (node_at (upStep x pnext prev BL h).1 y)
  = if decide (y = prev) then children (node_at h prev) ++ [x]
    else if decide (pnext = Some y)
         then remove_first x (children (node_at h y))
         else children (node_at h y).
Proof using Hprev Hp.
  unfold upStep. cbn. rewrite node_at_update_dec.
  assert (∀ n, children (if decide (y = x ∧ x < length
            (addChild prev x
               match pnext with Some p => removeChild p x h | None => h end))
          then set_branchLength BL n else n) = children n) as ->
    by (intros; by case_decide).
  destruct pnext as [p|].
  - destruct (Hp p eq_refl) as (Hpl & Hpp & Hpx).
    rewrite children_addChild by (by rewrite length_removeChild).
    rewrite !children_removeChild by done.
    repeat case_decide; simplify_eq; try done.
  - rewrite children_addChild by done. repeat case_decide; simplify_eq; done.
Qed.

Lemma upStep_parent y :
  parent (node_at (upStep x pnext prev BL h).1 y)
  = if decide (y = x) then Some prev else parent (node_at h y).
Proof using Hx.
  clear Hprev Hxprev Hp.
  unfold upStep. cbn. rewrite node_at_update_dec.
  assert (∀ n, parent (if decide (y = x ∧ x < length
            (addChild prev x
               match pnext with Some p => removeChild p x h | None => h end))
          then set_branchLength BL n else n) = parent n) as ->
    by (intros; by case_decide).
  destruct pnext as [p|].
  - rewrite parent_addChild by (by rewrite length_removeChild).
    rewrite parent_removeChild by done.
    repeat case_decide; simplify_eq; done.
  - rewrite parent_addChild by done. done.
Qed.

Lemma upStep_branchLength y :
  branchLength (node_at (upStep x pnext prev BL h).1 y)
  = if decide (y = x) then BL else branchLength (node_at h y).
Proof using Hx.
  clear Hprev Hxprev Hp.
  unfold upStep. cbn. rewrite node_at_update_dec, length_addChild.
  assert (length match pnext with Some p => removeChild p x h | None => h end
          = length h) as ->
    by (destruct pnext; [apply length_removeChild|done]).
  case_decide as Hd.
  - destruct Hd as [-> _]. by rewrite decide_True.
  - rewrite decide_False by tauto. rewrite branchLength_addChild.
    destruct pnext; [apply branchLength_removeChild|done].
Qed.

Lemma upStep_other y :
  y ≠ x → y ≠ prev → pnext ≠ Some y →
  node_at (upStep x pnext prev BL h).1 y = node_at h y.
Proof using Type.
  clear Hx Hprev Hxprev Hp.
  intros H1 H2 H3. unfold upStep. cbn.
  rewrite node_at_update_ne by done. rewrite node_at_addChild_ne by done.
  destruct pnext as [p|]; [|done].
  apply node_at_removeChild_ne; congruence.
Qed.

End UpStep.

Lemma ctx_ok_frame h h' : ∀ c b,
  length h' = length h →
  (∀ y, y ∈ flat_map frameNodes c → node_at h' y = node_at h y) →
  ctx_ok h b c → ctx_ok h' b c.
Proof.
  induction c as [|[x ls rs] c IH]; intros b Hlen Hsame Hok; [done|].
  cbn [ctx_ok] in *. destruct Hok as (Hx & Hp & Hch & Hall & Hc).
  assert (node_at h' x = node_at h x) as Ex.
  { apply Hsame. cbn. left. }
  rewrite Ex, Hlen. split_and!; try done.
  - rewrite Forall_forall in Hall |- *. intros t Ht.
    eapply wf_at_frame; [done| |by apply Hall].
    intros y Hy. apply Hsame. cbn [flat_map]. apply elem_of_app. left.
    unfold frameNodes. cbn [fnode fkids]. right.
    apply elem_of_flat_map. by exists t.
  - apply IH; [done| |done]. intros y Hy. apply Hsame.
    cbn [flat_map]. apply elem_of_app. by right.
Qed.

(** Disjointness of lists of nodes, the lists taken as they are. *)
Ltac hide_flat_maps :=
  repeat match goal with
  | H : context [flat_map ?f ?l] |- _ =>
      let L := fresh "L" in set (L := flat_map f l) in *; clearbody L
  | |- context [flat_map ?f ?l] =>
      let L := fresh "L" in set (L := flat_map f l) in *; clearbody L
  end.
Ltac disjoint_by := hide_flat_maps; set_solver.

Lemma frameNodes_Frame x ls rs :
  frameNodes (Frame x ls rs) = x :: flat_map flatten (ls ++ rs).
Proof. done. Qed.

Lemma rroot_in_flat_map (l : list rtree) t :
  t ∈ l → rroot t ∈ flat_map flatten l.
Proof.
  intros Ht. apply elem_of_flat_map. exists t. split; [done|].
  apply rroot_in_flatten.
Qed.

Lemma rroots_in_flat_map (l : list rtree) y :
  y ∈ rroot <$> l → y ∈ flat_map flatten l.
Proof.
  intros (t & -> & Ht)%list_elem_of_fmap. by apply rroot_in_flat_map.
Qed.

Lemma upStep_ctx x ls rs c' prev BL h :
  ctx_ok h None (Frame x ls rs :: c') →
  NoDup (flat_map frameNodes (Frame x ls rs :: c')) →
  prev ∉ flat_map frameNodes (Frame x ls rs :: c') →
  prev < length h →
  ctx_ok (upStep x (fnode <$> head c') prev BL h).1 None c'.
Proof.
  intros Hok Hnd Hprev Hpl.
  destruct c' as [|[p lsp rsp] c'']; [done|].
  cbn [ctx_ok] in Hok.
  destruct Hok as (Hx & Hpx & Hchx & Hallx & Hp & Hpp & Hchp & Hallp & Hc'').
  cbn [head fmap option_fmap option_map fnode] in *.
  cbn [flat_map] in Hnd, Hprev. rewrite !frameNodes_Frame in Hnd, Hprev.
  cbn [app] in Hnd, Hprev.
  apply NoDup_cons in Hnd as [Hx1 Hnd].
  apply NoDup_app in Hnd as (_ & _ & Hnd).
  apply NoDup_cons in Hnd as [Hp1 Hnd].
  apply NoDup_app in Hnd as (_ & Hdis & _).
  assert (x ≠ prev ∧ p ≠ prev ∧ p ≠ x) as (Hxprev & Hpprev & Hpx')
    by (clear -Hprev Hx1; disjoint_by).
  assert (∀ q, Some p = Some q → q < length h ∧ q ≠ prev ∧ q ≠ x) as Hside.
  { intros q [= <-]. done. }
  assert (∀ y, y ∈ flat_map flatten (lsp ++ rsp) ++ flat_map frameNodes c'' →
            y ≠ x ∧ y ≠ prev ∧ y ≠ p) as Hout.
  { clear -Hprev Hx1 Hp1. hide_flat_maps. intros y Hy.
    split_and!; intros ->; [apply Hx1|apply Hprev|by apply Hp1];
      repeat (rewrite elem_of_app || rewrite elem_of_cons);
      apply elem_of_app in Hy; tauto. }
  assert (∀ y, y ∈ flat_map flatten (lsp ++ rsp) ++ flat_map frameNodes c'' →
            node_at (upStep x (Some p) prev BL h).1 y = node_at h y) as Hsame.
  { intros y Hy. destruct (Hout y Hy) as (H1 & H2 & H3).
    apply upStep_other; [done..|]. by intros [= ->]. }
  cbn [ctx_ok]. split_and!.
  - by rewrite upStep_length.
  - rewrite upStep_parent by done. by rewrite decide_False.
  - rewrite upStep_children by done.
    rewrite decide_False, decide_True by done.
    rewrite Hchp. cbn [option_list app]. apply remove_first_middle.
    intros Hin. apply rroots_in_flat_map in Hin.
    clear -Hx1 Hin. rewrite !flat_map_app' in Hx1. disjoint_by.
  - rewrite Forall_forall in Hallp |- *. intros t Ht.
    eapply wf_at_frame; [by rewrite upStep_length| |by apply Hallp].
    intros y Hy. apply Hsame. apply elem_of_app. left.
    apply elem_of_flat_map. by exists t.
  - eapply ctx_ok_frame; [by rewrite upStep_length| |exact Hc''].
    intros y Hy. apply Hsame. apply elem_of_app. by right.
Qed.

Lemma wf_spine_prefix h h' sp e1 e1' tail1 tail2 :
  length h' = length h →
  (∀ y, y ∈ flat_map spineNodes sp → node_at h' y = node_at h y) →
  e1'.1 = e1.1 →
  (∀ q, wf_spine h q (e1 :: tail1) → wf_spine h' q (e1' :: tail2)) →
  ∀ q, wf_spine h q (sp ++ e1 :: tail1) → wf_spine h' q (sp ++ e1' :: tail2).
Proof.
  intros Hlen Hsame He Htail.
  induction sp as [|[y ks] sp IH]; intros q Hwf; [by apply Htail|].
  cbn [app wf_spine] in Hwf |- *.
  destruct Hwf as (Hy & Hp & Hch & Hall & Hrest).
  assert (node_at h' y = node_at h y) as Ey by (apply Hsame; cbn; left).
  rewrite Ey, Hlen. split_and!; try done.
  - rewrite Hch. do 2 f_equal. destruct sp; cbn; [by rewrite He|done].
  - rewrite Forall_forall in Hall |- *. intros t Ht.
    eapply wf_at_frame; [done| |by apply Hall].
    intros z Hz. apply Hsame. cbn [flat_map]. apply elem_of_app. left.
    unfold spineNodes. cbn [fst snd]. right.
    apply elem_of_flat_map. by exists t.
  - apply IH; [|done]. intros z Hz. apply Hsame.
    cbn [flat_map]. apply elem_of_app. by right.
Qed.

Lemma upStep_spine x ls rs c' sp prev kprev BL h q :
  wf_spine h q (sp ++ [(prev, kprev)]) →
  ctx_ok h None (Frame x ls rs :: c') →
  NoDup (flat_map spineNodes (sp ++ [(prev, kprev)])
         ++ flat_map frameNodes (Frame x ls rs :: c')) →
  wf_spine (upStep x (fnode <$> head c') prev BL h).1 q
    (sp ++ [(prev, kprev); (x, ls ++ rs)]).
Proof.
  intros Hsp Hok Hnd.
  cbn [ctx_ok] in Hok. destruct Hok as (Hx & Hpx & Hchx & Hallx & Hc').
  rewrite flat_map_app' in Hnd. cbn [flat_map] in Hnd.
  unfold spineNodes at 2 in Hnd. unfold frameNodes at 1 in Hnd.
  cbn [fst snd fnode fkids] in Hnd. rewrite app_nil_r in Hnd.
  assert (∀ p, fnode <$> head c' = Some p →
            p ∈ flat_map frameNodes c' ∧ p < length h) as Hpin.
  { intros p Hp. destruct c' as [|[p' lsp rsp] c'']; [done|].
    injection Hp as <-. split; [cbn; left|]. apply Hc'. }
  apply NoDup_app in Hnd as (Hnd1 & Hdis & Hnd2).
  apply NoDup_app in Hnd1 as (_ & Hdis1 & Hnd1).
  apply NoDup_cons in Hnd1 as [Hprevk _].
  apply NoDup_cons in Hnd2 as [Hxk Hnd2].
  apply NoDup_app in Hnd2 as (_ & Hdis2 & _).
  assert (∀ y, y ∈ flat_map spineNodes sp →
            y ≠ x ∧ y ≠ prev ∧ y ∉ flat_map frameNodes c') as D1
    by (clear -Hdis Hdis1; disjoint_by).
  assert (∀ y, y ∈ flat_map flatten kprev →
            y ≠ x ∧ y ≠ prev ∧ y ∉ flat_map frameNodes c') as D2
    by (clear -Hdis Hprevk; disjoint_by).
  assert (∀ y, y ∈ flat_map flatten (ls ++ rs) →
            y ≠ x ∧ y ≠ prev ∧ y ∉ flat_map frameNodes c') as D3
    by (clear -Hdis Hxk Hdis2; disjoint_by).
  assert (x ≠ prev ∧ (prev ∉ flat_map frameNodes c')
          ∧ (x ∉ flat_map frameNodes c')) as (Hxprev & D4 & D5)
    by (clear -Hdis Hxk; disjoint_by).
  assert (∀ p, fnode <$> head c' = Some p →
            p < length h ∧ p ≠ prev ∧ p ≠ x) as Hside.
  { intros p Hp. destruct (Hpin p Hp) as [Hin Hlt].
    split; [done|]. split; intros ->; done. }
  assert (∀ y, y ≠ x ∧ y ≠ prev ∧ y ∉ flat_map frameNodes c' →
            node_at (upStep x (fnode <$> head c') prev BL h).1 y
            = node_at h y) as Hsame.
  { intros y (H1 & H2 & H3). apply upStep_other; [done..|].
    intros Hp. apply Hpin in Hp as [Hp _]. done. }
  revert q Hsp. apply wf_spine_prefix.
  - apply upStep_length.
  - intros y Hy. by apply Hsame, D1.
  - done.
  - intros q Hq. cbn [wf_spine head fmap option_fmap option_map option_list fst]
      in Hq |- *.
    destruct Hq as (Hprev & Hpp & Hchp & Hallp & _).
    rewrite upStep_length. split_and!; try done.
    + rewrite upStep_parent by done. by rewrite decide_False.
    + rewrite upStep_children by done. rewrite decide_True by done.
      rewrite Hchp. by rewrite app_nil_r.
    + rewrite Forall_forall in Hallp |- *. intros t Ht.
      eapply wf_at_frame; [apply upStep_length| |by apply Hallp].
      intros y Hy.
      apply Hsame, D2. apply elem_of_flat_map. by exists t.
    + rewrite upStep_parent by done. by rewrite decide_True.
    + rewrite upStep_children by done.
      rewrite decide_False by done.
      rewrite decide_False.
      2:{ intros Hp. destruct (Hside x Hp) as (_ & _ & ?). done. }
      rewrite Hchx. cbn [option_list]. by rewrite app_nil_r, fmap_app.
    + rewrite Forall_forall in Hallx |- *. intros t Ht.
      eapply wf_at_frame; [apply upStep_length| |by apply Hallx].
      intros y Hy.
      apply Hsame, D3. apply elem_of_flat_map. by exists t.
Qed.

(** ** The whole path: [upHeap] *)

Lemma sumQ_cons h x l : sumQ h (x :: l) = (blQ h x + sumQ h l)%Qc.
Proof. done. Qed.

Lemma sumQ_ext h h' l :
  (∀ y, y ∈ l → branchLength (node_at h' y) = branchLength (node_at h y)) →
  sumQ h' l = sumQ h l.
Proof.
  induction l as [|x l IH]; intros Hsame; [done|].
  rewrite !sumQ_cons, IH by (intros; apply Hsame; by right).
  unfold blQ. rewrite Hsame by left. done.
Qed.

Lemma asSpine_cons f c : asSpine (f :: c) = (fnode f, fkids f) :: asSpine c.
Proof. done. Qed.

Lemma fnode_in_frameNodes c y : y ∈ fnode <$> c → y ∈ flat_map frameNodes c.
Proof.
  intros (f & -> & Hf)%list_elem_of_fmap. apply elem_of_flat_map.
  exists f. split; [done|]. left.
Qed.

Lemma upHeap_spec : ∀ c sp prev kprev BL h q,
  wf_spine h q (sp ++ [(prev, kprev)]) →
  ctx_ok h None c →
  prev < length h →
  NoDup (flat_map spineNodes (sp ++ [(prev, kprev)])
         ++ flat_map frameNodes c) →
  wf_spine (upHeap c prev BL h).1 q (sp ++ (prev, kprev) :: asSpine c)
  ∧ links_only h (upHeap c prev BL h).1
  ∧ (∀ y, y ∉ fnode <$> c →
       branchLength (node_at (upHeap c prev BL h).1 y)
       = branchLength (node_at h y))
  ∧ (sumQ (upHeap c prev BL h).1 (fnode <$> c) + optQ (upHeap c prev BL h).2
     = sumQ h (fnode <$> c) + optQ BL)%Qc
  ∧ (upHeap c prev BL h).2
    = match last c with
      | Some f => branchLength (node_at h (fnode f))
      | None => BL
      end
  ∧ (finiteOrNone BL →
     (∀ y, y ∈ fnode <$> c → finiteOrNone (branchLength (node_at h y))) →
     ∀ y, y ∈ fnode <$> c →
       finiteOrNone (branchLength (node_at (upHeap c prev BL h).1 y))).
Proof.
  induction c as [|[x ls rs] c' IH]; intros sp prev kprev BL h q Hsp Hok Hprev Hnd.
  { cbn. split_and!; try done. apply links_only_refl. }
  cbn [upHeap fnode].
  pose proof (upStep_spine _ _ _ _ _ _ _ BL _ _ Hsp Hok Hnd) as Hsp3.
  assert (NoDup (flat_map frameNodes (Frame x ls rs :: c'))
          ∧ prev ∉ flat_map frameNodes (Frame x ls rs :: c')) as [Hnd2 Hprev2].
  { clear -Hnd. rewrite flat_map_app' in Hnd. cbn [flat_map] in Hnd.
    rewrite app_nil_r in Hnd. unfold spineNodes at 2 in Hnd. cbn [fst] in Hnd.
    apply NoDup_app in Hnd as (_ & Hdis & Hnd). split; [done|].
    apply Hdis. apply elem_of_app. right. left. }
  pose proof (upStep_ctx _ _ _ _ _ BL _ Hok Hnd2 Hprev2 Hprev) as Hok3.
  assert (x ∉ fnode <$> c') as Hxc.
  { intros Hin%fnode_in_frameNodes. clear -Hnd2 Hin.
    cbn [flat_map] in Hnd2. rewrite frameNodes_Frame in Hnd2.
    cbn [app] in Hnd2. apply NoDup_cons in Hnd2 as [Hx _].
    apply Hx. apply elem_of_app. by right. }
  assert (x < length h) as Hx by apply Hok.
  assert (x ≠ prev) as Hxprev.
  { intros ->. apply Hprev2. cbn [flat_map]. rewrite frameNodes_Frame. left. }
  destruct (upStep x (fnode <$> head c') prev BL h) as [h3 tmpBL] eqn:Estep.
  assert (h3 = (upStep x (fnode <$> head c') prev BL h).1) as Eh3
    by (by rewrite Estep).
  assert (tmpBL = branchLength (node_at h x)) as Etmp.
  { rewrite <- (upStep_carry x prev (fnode <$> head c') BL h).
    by rewrite Estep. }
  assert (links_only h h3) as Hlinks by (rewrite Eh3; apply upStep_links).
  assert (∀ y, branchLength (node_at h3 y)
               = if decide (y = x) then BL else branchLength (node_at h y)) as Hbl3.
  { intros y. rewrite Eh3. by apply upStep_branchLength. }
  cbn [fst snd] in Hsp3, Hok3.
  replace (sp ++ [(prev, kprev); (x, ls ++ rs)])
    with ((sp ++ [(prev, kprev)]) ++ [(x, ls ++ rs)]) in Hsp3
    by (by rewrite <- app_assoc).
  assert (x < length h3) as Hx3 by (by rewrite (links_only_length Hlinks)).
  assert (NoDup (flat_map spineNodes ((sp ++ [(prev, kprev)]) ++ [(x, ls ++ rs)])
                 ++ flat_map frameNodes c')) as Hnd3.
  { clear -Hnd. rewrite (flat_map_app' _ (sp ++ _)). cbn [flat_map] in *.
    rewrite app_nil_r, <- app_assoc. exact Hnd. }
  destruct (IH _ _ _ tmpBL _ q Hsp3 Hok3 Hx3 Hnd3)
    as (IH1 & IH2 & IH3 & IH4 & IH5 & IH6).
  split_and!.
  - rewrite asSpine_cons. cbn [fnode fkids].
    by rewrite <- app_assoc in IH1.
  - by eapply links_only_trans.
  - intros y Hy. rewrite fmap_cons, not_elem_of_cons in Hy.
    destruct Hy as [Hyx Hy]. rewrite IH3 by done.
    rewrite Hbl3. by rewrite decide_False.
  - rewrite fmap_cons. cbn [fnode]. rewrite !sumQ_cons.
    rewrite <- Qcplus_assoc, IH4.
    rewrite (sumQ_ext h h3).
    2:{ intros y Hy. rewrite Hbl3. rewrite decide_False; [done|].
        by intros ->. }
    unfold blQ at 1. rewrite IH3 by done. rewrite Hbl3, decide_True by done.
    rewrite Etmp. fold (optQ BL). fold (optQ (branchLength (node_at h x))).
    unfold blQ. fold (optQ (branchLength (node_at h x))). ring.
  - rewrite IH5. destruct c' as [|f c'']; [done|].
    change (last (Frame x ls rs :: f :: c'')) with (last (f :: c'')).
    destruct (last (f :: c'')) as [g|] eqn:El; [|by apply last_None in El].
    rewrite Hbl3. rewrite decide_False; [done|].
    intros Hg. apply Hxc. rewrite <- Hg. apply list_elem_of_fmap.
    exists g. split; [done|]. by eapply last_Some_elem_of.
  - intros HBL Hfin y Hy. rewrite fmap_cons in Hy.
    apply elem_of_cons in Hy as [->|Hy].
    + rewrite IH3 by done. rewrite Hbl3, decide_True by done. done.
    + apply IH6; [| |done].
      * rewrite Etmp. apply Hfin. left.
      * intros z Hz. rewrite Hbl3. rewrite decide_False by (by intros ->).
        apply Hfin. by right.
Qed.

(** ** [recurseReroot] on a path without hybrid node *)

Lemma upHeap_links c : ∀ prev BL h, links_only h (upHeap c prev BL h).1.
Proof.
  induction c as [|f c IH]; intros prev BL h; [apply links_only_refl|].
  cbn [upHeap].
  destruct (upStep (fnode f) (fnode <$> head c) prev BL h) as [h3 tmpBL] eqn:E.
  eapply links_only_trans; [|apply IH].
  replace h3 with (upStep (fnode f) (fnode <$> head c) prev BL h).1
    by (by rewrite E).
  apply upStep_links.
Qed.

(** The branch of [recurseReroot] on a node not seen before that is not
    a hybrid node when the recursive call returns. *)
Lemma recurseReroot_fresh cur n x prev BL h used seen s2 :
  id (node_at h x) ∉ seen →
  recurseReroot cur n (parent (node_at h x)) x
    (upStep x (parent (node_at h x)) prev BL h).2
    (mkRS (upStep x (parent (node_at h x)) prev BL h).1 used
          ({[id (node_at h x)]} ∪ seen))
  = Ok (tt, s2) →
  hybridID (node_at (rs_heap s2) x) = None →
  recurseReroot cur (S n) (Some x) prev BL (mkRS h used seen) = Ok (tt, s2).
Proof.
  intros Hseen Hrec Hhyb. cbn [recurseReroot].
  unfold bind at 1. unfold get at 1. cbn [rs_heap seenNodes usedHybridIDs].
  rewrite decide_False by done.
  unfold bind at 1. unfold put at 1.
  cbn [rs_heap seenNodes usedHybridIDs].
  unfold upStep in Hrec. cbn [fst snd] in Hrec.
  destruct (parent (node_at h x)) as [p|].
  - unfold bind at 1. unfold onHeap at 1, modify at 1.
    cbn [rs_heap seenNodes usedHybridIDs].
    unfold bind at 1. unfold onHeap at 1, modify at 1.
    cbn [rs_heap seenNodes usedHybridIDs].
    unfold bind at 1. unfold get at 1.
    unfold bind at 1. unfold onHeap at 1, modify at 1.
    cbn [rs_heap seenNodes usedHybridIDs].
    unfold bind at 1. rewrite Hrec.
    unfold bind at 1. unfold get at 1. by rewrite Hhyb.
  - unfold bind at 1. unfold ret at 1.
    unfold bind at 1. unfold onHeap at 1, modify at 1.
    cbn [rs_heap seenNodes usedHybridIDs].
    unfold bind at 1. unfold get at 1.
    unfold bind at 1. unfold onHeap at 1, modify at 1.
    cbn [rs_heap seenNodes usedHybridIDs].
    unfold bind at 1. rewrite Hrec.
    unfold bind at 1. unfold get at 1. by rewrite Hhyb.
Qed.

Lemma recurseReroot_up cur : ∀ c prev BL h used seen fuel,
  ctx_ok h None c →
  NoDup (flat_map frameNodes c) →
  prev ∉ flat_map frameNodes c →
  prev < length h →
  (∀ y, y ∈ fnode <$> c → hybridID (node_at h y) = None) →
  NoDup ((λ y, id (node_at h y)) <$> (fnode <$> c)) →
  (∀ y, y ∈ fnode <$> c → id (node_at h y) ∉ seen) →
  length c < fuel →
  ∃ seen',
    recurseReroot cur fuel (fnode <$> head c) prev BL (mkRS h used seen)
    = Ok (tt, mkRS (upHeap c prev BL h).1 used seen').
Proof.
  induction c as [|[x ls rs] c' IH];
    intros prev BL h used seen fuel Hok Hnd Hprev Hpl Hhyb Hids Hseen Hfuel.
  { destruct fuel as [|n]; [cbn in Hfuel; lia|]. by exists seen. }
  destruct fuel as [|n]; [cbn in Hfuel; lia|].
  cbn [length] in Hfuel.
  pose proof (upStep_ctx _ _ _ _ _ BL _ Hok Hnd Hprev Hpl) as Hok3.
  pose proof Hok as (Hx & Hpx & _).
  cbn [head fmap option_fmap option_map fnode upHeap].
  set (st := upStep x (fnode <$> head c') prev BL h) in *.
  assert (links_only h st.1) as Hlinks by apply upStep_links.
  cbn [flat_map] in Hnd, Hprev. rewrite frameNodes_Frame in Hnd, Hprev.
  cbn [app] in Hnd. apply NoDup_cons in Hnd as [Hxn Hnd].
  apply NoDup_app in Hnd as (_ & _ & Hnd).
  rewrite fmap_cons in Hids. cbn [fnode] in Hids. rewrite fmap_cons in Hids.
  apply NoDup_cons in Hids as [Hidx Hids].
  destruct (IH x st.2 st.1 used ({[id (node_at h x)]} ∪ seen) n)
    as [seen' Hrec]; try done.
  - intros Hin. apply Hxn. apply elem_of_app. by right.
  - by rewrite (links_only_length Hlinks).
  - intros y Hy. rewrite (links_only_hybridID Hlinks). apply Hhyb.
    rewrite fmap_cons. by right.
  - erewrite list_fmap_ext; [exact Hids|]. intros i y _.
    apply (links_only_id Hlinks).
  - intros y Hy. rewrite (links_only_id Hlinks).
    rewrite elem_of_union, elem_of_singleton. intros [Heq|Hin].
    + apply Hidx. rewrite <- Heq. apply list_elem_of_fmap. by exists y.
    + revert Hin. apply Hseen. rewrite fmap_cons. by right.
  - lia.
  - exists seen'. destruct st as [h3 tmpBL] eqn:Est. cbn [fst snd] in *.
    apply recurseReroot_fresh.
    + apply Hseen. rewrite fmap_cons. left.
    + rewrite Hpx. fold st. rewrite Est. exact Hrec.
    + cbn [rs_heap].
      rewrite (links_only_hybridID (upHeap_links c' x tmpBL h3)).
      rewrite (links_only_hybridID Hlinks). apply Hhyb. rewrite fmap_cons. left.
Qed.

(** ** Sums of branch lengths *)

Lemma sumQ_app h l1 l2 : sumQ h (l1 ++ l2) = (sumQ h l1 + sumQ h l2)%Qc.
Proof.
  induction l1 as [|x l1 IH]; cbn [app].
  - unfold sumQ at 2. cbn. ring.
  - rewrite !sumQ_cons, IH. ring.
Qed.

Lemma sumQ_perm h l1 l2 : l1 ≡ₚ l2 → sumQ h l1 = sumQ h l2.
Proof.
  induction 1 as [|x l1 l2 _ IH|x y l|l1 l2 l3 _ IH1 _ IH2].
  - done.
  - by rewrite !sumQ_cons, IH.
  - rewrite !sumQ_cons. ring.
  - congruence.
Qed.

(** Changing the branch lengths of the nodes of [P] only changes the sum
    over a larger list by the change of the sum over [P]. *)
Lemma sumQ_diff h h' l P :
  NoDup P → P ⊆ l → NoDup l →
  (∀ y, y ∈ l → y ∉ P →
     branchLength (node_at h' y) = branchLength (node_at h y)) →
  (sumQ h' l + sumQ h P = sumQ h l + sumQ h' P)%Qc.
Proof.
  intros HP Hsub Hl Hsame.
  assert (P ⊆+ l) as Hm by (by apply NoDup_submseteq).
  apply submseteq_Permutation in Hm as [k Hk].
  rewrite !(sumQ_perm _ _ _ Hk), !sumQ_app.
  rewrite (sumQ_ext h h' k); [ring|].
  intros y Hy. apply Hsame.
  - rewrite Hk. apply elem_of_app. by right.
  - rewrite Hk in Hl. apply NoDup_app in Hl as (_ & Hdis & _).
    intros HyP. by apply (Hdis y).
Qed.

Lemma totalOver_sumQ h l :
  (∀ y, y ∈ l → finiteOrNone (branchLength (node_at h y))) →
  totalOver h l = JS.Fin (sumQ h l).
Proof.
  unfold totalOver.
  assert (∀ acc : Qc,
    (∀ y, y ∈ l → finiteOrNone (branchLength (node_at h y))) →
    foldl (λ totalLength node,
             match branchLength (node_at h node) with
             | Some bl => JS.add totalLength bl
             | None => totalLength
             end) (JS.Fin acc) l = JS.Fin (acc + sumQ h l)%Qc) as Hgen.
  { induction l as [|x l IH]; intros acc Hfin.
    - cbn. f_equal. unfold sumQ. cbn. ring.
    - cbn [foldl]. pose proof (Hfin x ltac:(left)) as Hx.
      rewrite sumQ_cons. unfold blQ.
      destruct (branchLength (node_at h x)) as [[| | |q]|]; try done.
      + cbn [JS.add]. rewrite IH by (intros; apply Hfin; by right).
        f_equal. ring.
      + rewrite IH by (intros; apply Hfin; by right). f_equal. ring.
  }
  intros Hfin. unfold JS.zero. rewrite Hgen by done. f_equal. ring.
Qed.

(** ** Splitting the branch of [edgeBaseNode] *)

Lemma update_same (x : nat) (f : Node → Node) (h : list Node) :
  f (node_at h x) = node_at h x → update x f h = h.
Proof.
  intros Hf. apply list_eq. intros i. unfold update.
  destruct (decide (i = x)) as [->|Hne].
  - rewrite list_lookup_alter_eq.
    destruct (h !! x) as [n|] eqn:E; [|done]. cbn. f_equal.
    unfold node_at in Hf. by rewrite (list_lookup_total_correct _ _ _ E) in Hf.
  - by rewrite list_lookup_alter_ne.
Qed.

Lemma splitBranch_spec e prop h :
  splitBranch e prop h
  = Ok ((splitOf (branchLength (node_at h e)) prop).2,
        update e
          (set_branchLength (splitOf (branchLength (node_at h e)) prop).1) h).
Proof.
  unfold splitBranch, splitOf. unfold bind at 1, get at 1.
  destruct (branchLength (node_at h e)) as [a|] eqn:Ea.
  - destruct prop as [p|]; [destruct (JS.ge p JS.zero && JS.le p (JS.of_nat 1))|];
      done.
  - cbn. unfold ret. do 2 f_equal. symmetry. apply update_same.
    destruct (node_at h e); cbn in *; by subst.
Qed.

Lemma splitOf_sum a prop :
  finiteOrNone a →
  (optQ (splitOf a prop).1 + optQ (splitOf a prop).2 = optQ a)%Qc
  ∧ finiteOrNone (splitOf a prop).1 ∧ finiteOrNone (splitOf a prop).2.
Proof.
  intros Ha. unfold splitOf. destruct a as [[| | |q]|]; try done.
  assert ((q / Q2Qc 2 + q / Q2Qc 2)%Qc = q) as Hhalf.
  { unfold Qcdiv. rewrite <- Qcmult_plus_distr_r.
    assert ((/ Q2Qc 2 + / Q2Qc 2)%Qc = 1%Qc) as -> by (by apply Qc_is_canon).
    apply Qcmult_1_r. }
  destruct prop as [p|]; [|by cbn].
  destruct (JS.ge p JS.zero && JS.le p (JS.of_nat 1)) eqn:E; [|by cbn].
  apply andb_prop in E as [E1 E2].
  destruct p as [| | |r]; try done.
  cbn. split; [ring|done].
Qed.

(** ** Splicing out the old root *)

Section Splice.
Variables (R child P : nat) (v : option JS.num) (h : list Node).
Hypothesis HR : R < length h.
Hypothesis Hchild : child < length h.
Hypothesis HP : P < length h.
Hypothesis HPR : P ≠ R.
Hypothesis HPc : P ≠ child.
Hypothesis HRc : R ≠ child.

Lemma spliceHeap_length : length (spliceHeap R child P v h) = length h.
Proof using Type.
  unfold spliceHeap.
  by rewrite length_update, length_addChild, !length_removeChild.
Qed.

Lemma spliceHeap_links : links_only h (spliceHeap R child P v h).
Proof using Type.
  unfold spliceHeap.
  eapply links_only_trans; [|apply links_only_update_branchLength].
  eapply links_only_trans; [|apply links_only_addChild].
  eapply links_only_trans; [|apply links_only_removeChild].
  apply links_only_removeChild.
Qed.

Lemma spliceHeap_other y :
  y ≠ R → y ≠ child → y ≠ P →
  node_at (spliceHeap R child P v h) y = node_at h y.
Proof using Type.
  intros H1 H2 H3. unfold spliceHeap.
  rewrite node_at_update_ne by done.
  rewrite node_at_addChild_ne by done.
  rewrite node_at_removeChild_ne by done.
  by rewrite node_at_removeChild_ne.
Qed.

Lemma spliceHeap_children y :
  children (node_at (spliceHeap R child P v h) y)
  = if decide (y = P) then remove_first R (children (node_at h P)) ++ [child]
    else if decide (y = R) then remove_first child (children (node_at h R))
         else children (node_at h y).
Proof using All.
  unfold spliceHeap. rewrite node_at_update_dec.
  assert (∀ (b : Prop) `{Decision b} n,
    children (if decide b then set_branchLength v n else n) = children n) as ->
    by (intros; by case_decide).
  rewrite children_addChild by (by rewrite !length_removeChild).
  rewrite !children_removeChild by (by rewrite ?length_removeChild).
  repeat case_decide; simplify_eq; done.
Qed.

Lemma spliceHeap_parent y :
  parent (node_at (spliceHeap R child P v h) y)
  = if decide (y = child) then Some P
    else if decide (y = R) then None else parent (node_at h y).
Proof using All.
  unfold spliceHeap. rewrite node_at_update_dec.
  assert (∀ (b : Prop) `{Decision b} n,
    parent (if decide b then set_branchLength v n else n) = parent n) as ->
    by (intros; by case_decide).
  rewrite parent_addChild by (by rewrite !length_removeChild).
  rewrite !parent_removeChild by (by rewrite ?length_removeChild).
  repeat case_decide; simplify_eq; done.
Qed.

Lemma spliceHeap_branchLength y :
  branchLength (node_at (spliceHeap R child P v h) y)
  = if decide (y = child) then v else branchLength (node_at h y).
Proof using Hchild.
  clear HR HP HPR HPc HRc.
  unfold spliceHeap. rewrite node_at_update_dec.
  rewrite length_addChild, !length_removeChild.
  case_decide as Hd.
  - destruct Hd as [-> _]. by rewrite decide_True.
  - rewrite decide_False by tauto.
    by rewrite branchLength_addChild, !branchLength_removeChild.
Qed.

End Splice.

Lemma remove_first_last (l : list nat) x :
  x ∉ l → remove_first x (l ++ [x]) = l.
Proof.
  intros Hx. rewrite (remove_first_middle l [] x Hx). apply app_nil_r.
Qed.

Lemma splice_spine h sp P kP R ct v q :
  wf_spine h q (sp ++ [(P, kP); (R, [ct])]) →
  NoDup (flat_map spineNodes (sp ++ [(P, kP); (R, [ct])])) →
  wf_spine (spliceHeap R (rroot ct) P v h) q (sp ++ [(P, kP ++ [ct])]).
Proof.
  intros Hwf Hnd. rewrite flat_map_app' in Hnd. cbn [flat_map] in Hnd.
  unfold spineNodes at 2 3 in Hnd. cbn [fst snd flat_map] in Hnd.
  rewrite !app_nil_r in Hnd.
  apply NoDup_app in Hnd as (_ & Hdis & Hnd).
  assert (∀ y, y ∈ flat_map spineNodes sp →
            y ≠ R ∧ y ≠ rroot ct ∧ y ≠ P) as D1.
  { pose proof (rroot_in_flatten ct) as Hc. clear -Hdis Hc.
    intros y Hy. specialize (Hdis y Hy). disjoint_by. }
  apply NoDup_cons in Hnd as [HPn Hnd].
  apply NoDup_app in Hnd as (_ & Hdis2 & Hnd).
  apply NoDup_cons in Hnd as [HRn Hnd].
  assert (∀ y, y ∈ flat_map flatten kP →
            y ≠ R ∧ y ≠ rroot ct ∧ y ≠ P) as D2.
  { pose proof (rroot_in_flatten ct) as Hc. clear -Hdis2 HPn Hc.
    intros y Hy. specialize (Hdis2 y Hy). disjoint_by. }
  assert (P ≠ R ∧ P ≠ rroot ct ∧ R ≠ rroot ct) as (HPR & HPc & HRc).
  { pose proof (rroot_in_flatten ct) as Hc. clear -HPn HRn Hc.
    split_and!; intros Heq; rewrite Heq in *; disjoint_by. }
  revert q Hwf. apply wf_spine_prefix.
  - apply spliceHeap_length.
  - intros y Hy. destruct (D1 y Hy) as (? & ? & ?). by apply spliceHeap_other.
  - done.
  - intros q Hq.
    cbn [wf_spine head fmap option_fmap option_map option_list fst] in Hq |- *.
    destruct Hq as (HP & HpP & HchP & HallP & HR & HpR & HchR & HallR & _).
    rewrite Forall_singleton in HallR.
    destruct ct as [child cs]. cbn [rroot] in *.
    apply wf_at_unfold in HallR as (Hchild & Hpc & Hchc & Hallc).
    rewrite spliceHeap_length. split_and!; try done.
    + rewrite spliceHeap_parent by done. by rewrite !decide_False.
    + rewrite spliceHeap_children by done. rewrite decide_True by done.
      rewrite HchP, app_nil_r, fmap_app. cbn [fmap list_fmap rroot].
      f_equal. apply remove_first_last.
      intros Hin%rroots_in_flat_map. by destruct (D2 R Hin) as (? & _).
    + apply Forall_app. split.
      * rewrite Forall_forall in HallP |- *. intros t Ht.
        eapply wf_at_frame; [apply spliceHeap_length| |by apply HallP].
        intros y Hy. assert (y ∈ flat_map flatten kP) as Hy'
          by (apply elem_of_flat_map; by exists t).
        destruct (D2 y Hy') as (? & ? & ?). by apply spliceHeap_other.
      * apply Forall_singleton. apply wf_at_unfold.
        rewrite spliceHeap_length. split_and!; try done.
        -- rewrite spliceHeap_parent by done. by rewrite decide_True.
        -- rewrite spliceHeap_children by done.
           by rewrite !decide_False by done.
        -- rewrite Forall_forall in Hallc |- *. intros t Ht.
           eapply wf_at_frame; [apply spliceHeap_length| |by apply Hallc].
           intros y Hy. assert (y ∈ flat_map flatten cs) as Hy'
             by (apply elem_of_flat_map; by exists t).
           apply spliceHeap_other.
           ++ intros ->. apply HRn. rewrite flatten_unfold. by right.
           ++ intros ->. rewrite flatten_unfold in Hnd.
              by apply NoDup_cons in Hnd as [? _].
           ++ intros ->. apply HPn. apply elem_of_app. right. right.
              rewrite flatten_unfold. by right.
Qed.

(** ** Stores that differ in ids and heights only *)

Lemma meta_only_refl h : meta_only h h.
Proof. split; [done|]. intros x. by destruct (node_at h x). Qed.

Lemma meta_only_trans h1 h2 h3 :
  meta_only h1 h2 → meta_only h2 h3 → meta_only h1 h3.
Proof.
  intros [L1 E1] [L2 E2]. split; [congruence|]. intros x.
  rewrite (E2 x) at 1. rewrite (E1 x) at 1. done.
Qed.

Lemma heights_only_meta h h' : heights_only h h' → meta_only h h'.
Proof.
  intros [L E]. split; [done|]. intros x. rewrite (E x).
  by destruct (node_at h x).
Qed.

Lemma meta_only_update_id h x v : meta_only h (update x (set_id v) h).
Proof.
  split; [apply length_update|]. intros y. rewrite node_at_update_dec.
  case_decide; by destruct (node_at h y).
Qed.

Section MetaOnly.
Context {h h' : list Node} (H : meta_only h h').

Lemma meta_only_length : length h' = length h.
Proof using H. apply H. Qed.
Lemma meta_only_children x : children (node_at h' x) = children (node_at h x).
Proof using H. destruct H as [_ E]. by rewrite (E x). Qed.
Lemma meta_only_parent x : parent (node_at h' x) = parent (node_at h x).
Proof using H. destruct H as [_ E]. by rewrite (E x). Qed.
Lemma meta_only_branchLength x :
  branchLength (node_at h' x) = branchLength (node_at h x).
Proof using H. destruct H as [_ E]. by rewrite (E x). Qed.
Lemma meta_only_label x : label (node_at h' x) = label (node_at h x).
Proof using H. destruct H as [_ E]. by rewrite (E x). Qed.
Lemma meta_only_hybridID x : hybridID (node_at h' x) = hybridID (node_at h x).
Proof using H. destruct H as [_ E]. by rewrite (E x). Qed.

Lemma meta_only_wf_at t : ∀ p, wf_at h p t → wf_at h' p t.
Proof using H.
  induction t as [r cs IH] using rtree_ind'. intros p.
  rewrite !wf_at_unfold.
  rewrite meta_only_length, meta_only_parent, meta_only_children.
  intros (? & ? & ? & Hall). split_and!; try done.
  rewrite Forall_forall in IH, Hall |- *. intros c Hc.
  apply IH; [done|]. by apply Hall.
Qed.

Lemma meta_only_sumQ l : sumQ h' l = sumQ h l.
Proof using H. apply sumQ_ext. intros. apply meta_only_branchLength. Qed.

End MetaOnly.

(** ** [reassignNodeIDs] *)

Lemma setIds_loop (l : list (nat * nat)) : ∀ h,
  ∃ h', forM_ l (λ '(i, node), modify (update node (set_id i))) h
        = Ok (tt, h')
        ∧ meta_only h h'.
Proof.
  induction l as [|[i node] l IH]; intros h.
  { exists h. split; [done|apply meta_only_refl]. }
  destruct (IH (update node (set_id i) h)) as (h' & E & Hm).
  exists h'. split.
  - cbn [forM_]. unfold bind at 1, modify at 1. exact E.
  - eapply meta_only_trans; [apply meta_only_update_id|exact Hm].
Qed.

Lemma reassignNodeIDs_cached fuel t h nl :
  _nodeList t = Some nl →
  ∃ h', reassignNodeIDs fuel t h = Ok (t, h') ∧ meta_only h h'.
Proof.
  intros Hc. unfold reassignNodeIDs, nodeList. rewrite Hc.
  destruct (setIds_loop (imap (λ i node, (i, node)) nl) h) as (h' & E & Hm).
  exists h'. split; [|done].
  unfold bind at 1, ret at 1. unfold bind at 1. by rewrite E.
Qed.

(** ** [getRecombEdgeMap] without hybrid node *)

Lemma filter_nil_all {A} (P : A → Prop) `{∀ x, Decision (P x)} (l : list A) :
  (∀ x, x ∈ l → ¬ P x) → filter P l = [].
Proof.
  induction l as [|a l IH]; intros Hn; [done|].
  rewrite filter_cons_False by (apply Hn; left).
  apply IH. intros x Hx. apply Hn. by right.
Qed.

Lemma getRecombEdgeMap_no_hybrid fuel t h rt p :
  wf_at h p rt → root t = rroot rt → depth rt ≤ fuel →
  recombEdgeMap t = None →
  (∀ x, x ∈ flatten rt → hybridID (node_at h x) = None) →
  getRecombEdgeMap fuel t h
  = Ok ((Returned ∅, set_recombEdgeMap (Some ∅) t), h).
Proof.
  intros Hwf Hroot Hd Hc Hhyb. unfold getRecombEdgeMap. rewrite Hc.
  erewrite bind_Ok by (by eapply hybridNodeList_spec).
  rewrite filter_nil_all.
  2:{ intros x Hx. unfold isHybrid. rewrite (Hhyb x Hx).
      rewrite bool_decide_eq_true. by intros [? ?]. }
  unfold bind at 1, get at 1. cbn [foldl].
  unfold forInOrder. rewrite !filter_nil. cbn [foldr app groupSources].
  unfold addLeafGroups. rewrite !map_to_list_empty. done.
Qed.

(** ** [spliceOldRoot] *)

Lemma spliceOldRoot_keep h R :
  (∀ c, children (node_at h R) ≠ [c]) → spliceOldRoot R h = Ok (tt, h).
Proof.
  intros Hn. unfold spliceOldRoot. unfold bind at 1, get at 1.
  destruct (children (node_at h R)) as [|c [|c' l]]; try done.
  by destruct (Hn c).
Qed.

Lemma spliceOldRoot_single h R child P :
  children (node_at h R) = [child] →
  hybridID (node_at h R) = None →
  parent (node_at h R) = Some P →
  spliceOldRoot R h
  = match branchLength (node_at h child), branchLength (node_at h R) with
    | Some cbl, Some rbl =>
        Ok (tt, spliceHeap R child P (Some (JS.add cbl rbl)) h)
    | _, _ => Throw (ThrownString "branchLength === undefined")
    end.
Proof.
  intros Hch Hhyb Hp. unfold spliceOldRoot. unfold bind at 1, get at 1.
  rewrite Hch. unfold isHybrid. rewrite Hhyb.
  rewrite bool_decide_eq_false_2 by (by intros [? ?]).
  rewrite Hp.
  unfold bind at 1, modify at 1. unfold bind at 1, modify at 1.
  unfold bind at 1, modify at 1. unfold bind at 1, get at 1.
  rewrite !branchLength_addChild, !branchLength_removeChild.
  destruct (branchLength (node_at h child)) as [cbl|]; [|done].
  destruct (branchLength (node_at h R)) as [rbl|]; done.
Qed.

(** ** The two queries on a tree-shaped store *)

Lemma getTotalBranchLength_spec fuel t h rt p :
  wf_at h p rt → root t = rroot rt → depth rt ≤ fuel →
  _nodeList t = None ∨ _nodeList t = Some (flatten rt) →
  getTotalBranchLength fuel t h
  = Ok ((totalOver h (flatten rt), set__nodeList (Some (flatten rt)) t), h).
Proof.
  intros Hwf Hroot Hd [Hc|Hc]; unfold getTotalBranchLength.
  - erewrite bind_Ok by (by eapply nodeList_fresh). done.
  - unfold nodeList. rewrite Hc. unfold bind at 1, ret at 1.
    unfold bind at 1, get at 1. unfold ret. do 3 f_equal.
    destruct t; cbn in *; by subst.
Qed.

Lemma getTipLabels_spec fuel t h rt p :
  wf_at h p rt → root t = rroot rt → depth rt ≤ fuel →
  _leafList t = None ∨ _leafList t = Some (leaves rt) →
  getTipLabels fuel t None h
  = Ok ((tipLabel h <$> leaves rt, set__leafList (Some (leaves rt)) t), h).
Proof.
  intros Hwf Hroot Hd [Hc|Hc]; unfold getTipLabels.
  - erewrite bind_Ok by (by eapply leafList_fresh).
    rewrite (leaves_filter _ _ _ Hwf). done.
  - unfold leafList. rewrite Hc. unfold bind at 1, ret at 1.
    unfold bind at 1, get at 1. unfold ret. do 3 f_equal.
    destruct t; cbn in *; by subst.
Qed.

(** ** A new node next to a tree *)

Lemma wf_at_alloc h n t : ∀ p, wf_at h p t → wf_at (h ++ [n]) p t.
Proof.
  induction t as [r cs IH] using rtree_ind'. intros p.
  rewrite !wf_at_unfold. intros (Hr & Hp & Hc & Hcs).
  rewrite node_at_alloc_old by done. rewrite length_app. cbn [length].
  split_and!; [lia|done..|].
  rewrite Forall_forall in *. intros c Hin. apply IH; [done|by apply Hcs].
Qed.

Lemma ctx_ok_alloc h n : ∀ c b, ctx_ok h b c → ctx_ok (h ++ [n]) b c.
Proof.
  induction c as [|[x ls rs] c IH]; intros b Hok; [done|].
  cbn [ctx_ok] in *. destruct Hok as (Hx & Hp & Hch & Hall & Hc).
  rewrite node_at_alloc_old by done. rewrite length_app. cbn [length].
  split_and!; [lia|done..| |by apply IH].
  eapply Forall_impl; [exact Hall|]. intros t. apply wf_at_alloc.
Qed.

Lemma wf_spine_app_inv h : ∀ sp tail q,
  wf_spine h q (sp ++ tail) →
  ∃ q', wf_spine h q' tail ∧ (sp = [] → q' = q).
Proof.
  induction sp as [|[x ks] sp IH]; intros tail q Hwf; [by exists q|].
  cbn [app wf_spine] in Hwf. destruct Hwf as (_ & _ & _ & _ & Hrest).
  destruct (IH _ _ Hrest) as (q' & Hq' & _). by exists q'.
Qed.

Lemma flat_map_asSpine c :
  flat_map spineNodes (asSpine c) = flat_map frameNodes c.
Proof. induction c as [|f c IH]; [done|]. cbn. by rewrite <- IH. Qed.

Lemma flat_map_leaves_asSpine c :
  flat_map (λ e, flat_map leaves e.2) (asSpine c)
  = flat_map (λ f, flat_map leaves (fkids f)) c.
Proof. induction c as [|f c IH]; [done|]. cbn. by rewrite <- IH. Qed.

Lemma depth_le_size t : depth t ≤ length (flatten t).
Proof.
  induction t as [r cs IH] using rtree_ind'.
  rewrite depth_unfold, flatten_unfold. cbn [length].
  apply le_n_S. induction cs as [|c cs IHcs]; [done|].
  apply Forall_cons in IH as [Hc Hcs]. specialize (IHcs Hcs).
  rewrite fmap_cons. cbn [max_list flat_map]. rewrite length_app.
  unfold Datatypes.id in *. lia.
Qed.

Lemma snoc_cases {A} (l : list A) : l = [] ∨ ∃ l' x, l = l' ++ [x].
Proof.
  induction l as [|a l IH]; [by left|]. right.
  destruct IH as [->|(l' & x & ->)].
  - by exists [], a.
  - by exists (a :: l'), x.
Qed.

(** ** The store before the path is walked *)

Lemma reversal_ready h sub c newbl :
  wf_at h None (plug sub c) → NoDup (flatten (plug sub c)) →
  let N := length h in
  let h1 := h ++ [new_Node 0] in
  let h4 := (upStep (rroot sub) (fnode <$> head c) N newbl h1).1 in
  wf_spine h4 None ([] ++ [(N, [sub])])
  ∧ ctx_ok h4 None c
  ∧ N < length h4
  ∧ NoDup (flat_map spineNodes ([] ++ [(N, [sub])]) ++ flat_map frameNodes c)
  ∧ links_only h1 h4
  ∧ (∀ y, branchLength (node_at h4 y)
          = if decide (y = rroot sub) then newbl
            else branchLength (node_at h1 y)).
Proof.
  intros Hwf Hnd N h1 h4.
  assert (∀ y, y ∈ flatten (plug sub c) → y < length h) as Hrange
    by (intros y; by eapply wf_at_in_range).
  assert (N ∉ flatten (plug sub c)) as HN.
  { intros Hin%Hrange. unfold N in Hin. lia. }
  rewrite flatten_plug in Hnd, HN.
  destruct (wf_plug _ _ _ Hwf) as [Hsub Hctx].
  destruct sub as [e cs]. cbn [rroot] in *.
  apply wf_at_unfold in Hsub as (He & Hpe & Hche & Halle).
  assert (length h1 = S (length h)) as Hlen1
    by (unfold h1; rewrite length_app; cbn; lia).
  assert (ctx_ok h1 None (Frame e cs [] :: c)) as Hok1.
  { cbn [ctx_ok]. unfold h1. rewrite node_at_alloc_old by done.
    fold h1. split_and!; [lia|done| | |by apply ctx_ok_alloc].
    - rewrite Hche. cbn. by rewrite app_nil_r.
    - rewrite app_nil_r. eapply Forall_impl; [exact Halle|].
      intros t. apply wf_at_alloc. }
  assert (wf_spine h1 None ([] ++ [(N, [])])) as Hsp1.
  { cbn. unfold h1, N. rewrite node_at_alloc. fold h1. split_and!; try done.
    lia. }
  assert (NoDup (flat_map spineNodes ([] ++ [(N, [])])
                 ++ flat_map frameNodes (Frame e cs [] :: c))) as Hnd1.
  { cbn [app flat_map]. rewrite frameNodes_Frame. unfold spineNodes.
    cbn [fst snd flat_map app]. rewrite !app_nil_r.
    apply NoDup_cons. split; [|done]. by rewrite flatten_unfold in HN. }
  pose proof (upStep_spine e cs [] c [] N [] newbl h1 None Hsp1 Hok1 Hnd1)
    as Hsp4.
  assert (NoDup (flat_map frameNodes (Frame e cs [] :: c))
          ∧ N ∉ flat_map frameNodes (Frame e cs [] :: c)) as [Hnd2 HN2].
  { cbn [flat_map]. rewrite frameNodes_Frame, app_nil_r.
    by rewrite flatten_unfold in Hnd, HN. }
  assert (N < length h1) as HN1 by lia.
  pose proof (upStep_ctx e cs [] c N newbl h1 Hok1 Hnd2 HN2 HN1) as Hok4.
  fold h4 in Hsp4, Hok4.
  assert (length h4 = length h1) as Hlen4 by apply upStep_length.
  split_and!.
  - cbn [app wf_spine head fmap option_fmap option_map option_list fst]
      in Hsp4 |- *.
    destruct Hsp4 as (H1 & H2 & H3 & _ & H4 & H5 & H6 & H7 & _).
    rewrite app_nil_r in H6, H7. cbn [fmap list_fmap app] in H3.
    split_and!; try done.
    apply Forall_singleton. apply wf_at_unfold. split_and!; try done.
    by rewrite app_nil_r in H6.
  - done.
  - lia.
  - cbn [app flat_map]. unfold spineNodes. cbn [fst snd flat_map].
    rewrite !app_nil_r. apply NoDup_cons. split; done.
  - apply upStep_links.
  - intros y. apply upStep_branchLength. lia.
Qed.

(** ** The store after the path is walked *)

Lemma rroot_plug_last sub c f :
  last c = Some f → rroot (plug sub c) = fnode f.
Proof.
  intros Hl. destruct (snoc_cases c) as [->|(c' & g & ->)]; [done|].
  rewrite last_snoc in Hl. injection Hl as ->. apply rroot_plug.
Qed.

Lemma Qc_cancel (a b c : Qc) : (a + c = b + c)%Qc → a = b.
Proof.
  intros H. transitivity ((a + c) - c)%Qc; [ring|]. rewrite H. ring.
Qed.

Lemma reversal_spec h sub c newbl BL :
  wf_at h None (plug sub c) → NoDup (flatten (plug sub c)) → c ≠ [] →
  branchLength (node_at h (rroot (plug sub c))) = None →
  (optQ newbl + optQ BL = blQ h (rroot sub))%Qc →
  finiteOrNone newbl → finiteOrNone BL →
  (∀ y, y ∈ flatten (plug sub c) →
     finiteOrNone (branchLength (node_at h y))) →
  let N := length h in
  let h1 := h ++ [new_Node 0] in
  let h4 := (upStep (rroot sub) (fnode <$> head c) N newbl h1).1 in
  let h5 := (upHeap c N BL h4).1 in
  wf_spine h5 None ((N, [sub]) :: asSpine c)
  ∧ links_only h1 h5
  ∧ sumQ h5 (N :: flatten (plug sub c)) = sumQ h (flatten (plug sub c))
  ∧ (∀ y, y ∈ N :: flatten (plug sub c) →
       finiteOrNone (branchLength (node_at h5 y))).
Proof.
  intros Hwf Hnd Hc HblR Hsplit Hfin1 Hfin2 Hfin N h1 h4 h5.
  destruct (reversal_ready h sub c newbl Hwf Hnd)
    as (Hsp4 & Hok4 & HN4 & Hnd4 & Hlinks4 & Hbl4).
  fold N h1 h4 in Hsp4, Hok4, HN4, Hnd4, Hlinks4, Hbl4.
  destruct (upHeap_spec c [] N [sub] BL h4 None Hsp4 Hok4 HN4 Hnd4)
    as (Hsp5 & Hlinks5 & Hbl5 & Hsum5 & Hcarry & Hfin5).
  fold h5 in Hsp5, Hlinks5, Hbl5, Hsum5, Hfin5.
  assert (∀ y, y ∈ flatten (plug sub c) → y < length h) as Hrange
    by (intros y; by eapply wf_at_in_range).
  assert (∀ y, y < length h →
            branchLength (node_at h1 y) = branchLength (node_at h y)) as Hbl1.
  { intros y Hy. unfold h1. by rewrite node_at_alloc_old. }
  assert (branchLength (node_at h1 N) = None) as HblN1.
  { unfold h1, N. by rewrite node_at_alloc. }
  pose proof (flatten_plug sub c) as Hperm.
  assert (rroot sub ∈ flatten (plug sub c)) as Hein.
  { rewrite Hperm. apply elem_of_app. left. apply rroot_in_flatten. }
  assert (∀ y, y ∈ fnode <$> c → y ∈ flatten (plug sub c)) as Hpath.
  { intros y Hy. rewrite Hperm. apply elem_of_app. right.
    by apply fnode_in_frameNodes. }
  assert (NoDup (fnode <$> c) ∧ (rroot sub ∉ fnode <$> c)
          ∧ (N ∉ fnode <$> c) ∧ N ≠ rroot sub) as (Hndp & Hep & HNp & HNe).
  { split_and!.
    - rewrite Hperm in Hnd. apply NoDup_app in Hnd as (_ & _ & Hnd).
      clear -Hnd. induction c as [|[x ls rs] c IH]; [constructor|].
      cbn [flat_map] in Hnd. rewrite frameNodes_Frame in Hnd.
      cbn [app] in Hnd. apply NoDup_cons in Hnd as [Hx Hnd].
      apply NoDup_app in Hnd as (_ & _ & Hnd).
      rewrite fmap_cons. apply NoDup_cons. split; [|by apply IH].
      intros Hin%fnode_in_frameNodes. apply Hx. apply elem_of_app. by right.
    - intros Hin%fnode_in_frameNodes.
      rewrite Hperm in Hnd. apply NoDup_app in Hnd as (_ & Hdis & _).
      apply (Hdis (rroot sub)); [apply rroot_in_flatten|done].
    - intros Hin%Hpath%Hrange. unfold N in Hin. lia.
    - intros Heq. apply Hrange in Hein. unfold N in Heq. lia. }
  destruct (last c) as [fR|] eqn:Elast; [|by apply last_None in Elast].
  rewrite (rroot_plug_last sub c fR Elast) in HblR.
  assert (fnode fR ∈ fnode <$> c) as HRp.
  { apply list_elem_of_fmap. exists fR. split; [done|].
    by eapply last_Some_elem_of. }
  assert (optQ (upHeap c N BL h4).2 = 0%Qc) as Hcarry0.
  { rewrite Hcarry, Hbl4.
    rewrite decide_False by (intros Heq; apply Hep; by rewrite <- Heq).
    rewrite Hbl1 by (by apply Hrange, Hpath). by rewrite HblR. }
  rewrite Hcarry0 in Hsum5.
  split_and!; [done| | |].
  - by eapply links_only_trans.
  - rewrite sumQ_cons. unfold blQ at 1.
    rewrite Hbl5 by done. rewrite Hbl4, decide_False by done.
    rewrite HblN1.
    pose proof (sumQ_diff h4 h5 (flatten (plug sub c)) (fnode <$> c)
                  Hndp Hpath Hnd ltac:(intros; by apply Hbl5)) as D1.
    assert (sumQ h4 (flatten (plug sub c)) + sumQ h [rroot sub]
            = sumQ h (flatten (plug sub c)) + sumQ h4 [rroot sub])%Qc as D2.
    { rewrite <- (sumQ_ext h h1 (flatten (plug sub c)))
        by (intros; by apply Hbl1, Hrange).
      rewrite <- (sumQ_ext h h1 [rroot sub]).
      2:{ intros y ->%list_elem_of_singleton. by apply Hbl1, Hrange. }
      apply sumQ_diff; [apply NoDup_singleton| |done|].
      - intros y ->%list_elem_of_singleton. done.
      - intros y Hy Hne. rewrite Hbl4. rewrite decide_False; [done|].
        intros ->. apply Hne. by apply list_elem_of_singleton. }
    assert (sumQ h4 [rroot sub] = optQ newbl) as D3.
    { unfold sumQ, blQ. cbn [foldr]. rewrite Hbl4, decide_True by done.
      fold (optQ newbl). ring. }
    assert (sumQ h [rroot sub] = blQ h (rroot sub)) as D4.
    { unfold sumQ. cbn [foldr]. ring. }
    rewrite D3, D4, <- Hsplit in D2.
    assert (sumQ h5 (fnode <$> c)
            = sumQ h4 (fnode <$> c) + optQ BL)%Qc as E5
      by (rewrite <- Hsum5; ring).
    rewrite E5 in D1.
    apply (Qc_cancel _ _ (sumQ h4 (fnode <$> c) + optQ newbl)%Qc).
    transitivity ((sumQ h5 (flatten (plug sub c)) + sumQ h4 (fnode <$> c))
                  + optQ newbl)%Qc; [ring|].
    rewrite D1.
    transitivity ((sumQ h4 (flatten (plug sub c)) + (optQ newbl + optQ BL))
                  + sumQ h4 (fnode <$> c))%Qc; [ring|].
    rewrite D2. ring.
  - intros y Hy. destruct (decide (y ∈ fnode <$> c)) as [Hyp|Hyp].
    + apply Hfin5; [done| |done]. intros z Hz.
      rewrite Hbl4. rewrite decide_False by (by intros ->).
      rewrite Hbl1 by (by apply Hrange, Hpath). by apply Hfin, Hpath.
    + rewrite Hbl5 by done. rewrite Hbl4. case_decide; [done|].
      apply elem_of_cons in Hy as [->|Hy]; [by rewrite HblN1|].
      rewrite Hbl1 by (by apply Hrange). by apply Hfin.
Qed.

(** ** The shape after the old root has been treated *)

Lemma rroot_spineShape x ks rest : rroot (spineShape x ks rest) = x.
Proof. by destruct rest as [|[??]?]. Qed.

Lemma spine_nodes_whole N sub c :
  flat_map spineNodes ((N, [sub]) :: asSpine c) ≡ₚ N :: flatten (plug sub c).
Proof.
  cbn [flat_map]. unfold spineNodes at 1. cbn [fst snd flat_map].
  rewrite app_nil_r, flat_map_asSpine, flatten_plug. done.
Qed.

Lemma spine_leaves_whole N sub c :
  flat_map (λ e, flat_map leaves e.2) ((N, [sub]) :: asSpine c)
  ≡ₚ leaves (plug sub c).
Proof.
  cbn [flat_map snd]. rewrite app_nil_r, flat_map_leaves_asSpine, leaves_plug.
  done.
Qed.

Lemma asSpine_app c1 c2 : asSpine (c1 ++ c2) = asSpine c1 ++ asSpine c2.
Proof. apply fmap_app. Qed.

Lemma spineNodes_kid (S : list (nat * list rtree)) x ks t :
  (x, ks) ∈ S → t ∈ ks → rroot t ∈ flat_map spineNodes S.
Proof.
  intros HS Ht. apply elem_of_flat_map. exists (x, ks). split; [done|].
  right. by apply rroot_in_flat_map.
Qed.

Lemma splice_outcome h N sub c :
  wf_spine h None ((N, [sub]) :: asSpine c) →
  NoDup (N :: flatten (plug sub c)) →
  c ≠ [] →
  (∀ f, last c = Some f → fkids f ≠ []) →
  hybridID (node_at h (rroot (plug sub c))) = None →
  (∀ y, y ∈ N :: flatten (plug sub c) →
     finiteOrNone (branchLength (node_at h y))) →
  (∃ e, spliceOldRoot (rroot (plug sub c)) h = Throw e)
  ∨ ∃ h' rt',
      spliceOldRoot (rroot (plug sub c)) h = Ok (tt, h')
      ∧ wf_at h' None rt' ∧ rroot rt' = N ∧ NoDup (flatten rt')
      ∧ flatten rt' ⊆ N :: flatten (plug sub c)
      ∧ length (flatten rt') ≤ S (length (flatten (plug sub c)))
      ∧ leaves rt' ≡ₚ leaves (plug sub c)
      ∧ links_only h h'
      ∧ sumQ h' (flatten rt') = sumQ h (N :: flatten (plug sub c))
      ∧ (∀ y, y ∈ flatten rt' → finiteOrNone (branchLength (node_at h' y))).
Proof.
  intros Hwf Hnd Hc Hkids Hhyb Hfin.
  destruct (snoc_cases c) as [->|(c0 & [R lsR rsR] & ->)]; [done|].
  clear Hc. rewrite rroot_plug in *. cbn [fnode] in *.
  specialize (Hkids (Frame R lsR rsR) (last_snoc _ _)). cbn [fkids] in Hkids.
  set (kR := lsR ++ rsR) in *.
  pose proof (spine_nodes_whole N sub (c0 ++ [Frame R lsR rsR])) as Hnodes.
  pose proof (spine_leaves_whole N sub (c0 ++ [Frame R lsR rsR])) as Hleaves.
  set (U := flatten (plug sub (c0 ++ [Frame R lsR rsR]))) in *.
  set (LV := leaves (plug sub (c0 ++ [Frame R lsR rsR]))) in *.
  rewrite asSpine_app in Hwf, Hnodes, Hleaves.
  change (asSpine [Frame R lsR rsR]) with [(R, kR)] in Hwf, Hnodes, Hleaves.
  destruct (snoc_cases ((N, [sub]) :: asSpine c0))
    as [?|(sp & [P kP] & Epre)]; [done|].
  rewrite app_comm_cons, Epre, <- app_assoc in Hwf, Hnodes, Hleaves.
  cbn [app] in Hwf, Hnodes, Hleaves.
  destruct (wf_spine_app_inv _ _ _ _ Hwf) as (q' & Htail & _).
  cbn [wf_spine head fmap option_fmap option_map option_list fst] in Htail.
  destruct Htail as (HP & _ & HchP & _ & HR & HpR & HchR & _ & _).
  rewrite app_nil_r in HchR.
  assert (NoDup (flat_map spineNodes (sp ++ [(P, kP); (R, kR)]))) as Hnd'
    by (by rewrite Hnodes).
  clearbody kR.
  assert ((∃ ct, kR = [ct]) ∨ ¬ (∃ ct, kR = [ct])) as [[ct Ek]|Hno].
  { destruct kR as [|ct [|ct' kR']]; [right|left|right]; try by intros [? ?].
    by exists ct. }
  - (* the old root is left with one child *)
    rewrite Ek in *. cbn [fmap list_fmap] in HchR.
    rewrite (spliceOldRoot_single h R (rroot ct) P) by done.
    assert (flat_map spineNodes (sp ++ [(P, kP); (R, [ct])])
            ≡ₚ R :: flat_map spineNodes (sp ++ [(P, kP ++ [ct])])) as Hperm.
    { rewrite !flat_map_app'. cbn [flat_map]. unfold spineNodes.
      cbn [fst snd flat_map]. rewrite flat_map_app'. cbn [flat_map].
      rewrite !app_nil_r. rewrite (Permutation_middle _ _ R).
      apply Permutation_app_head. rewrite <- !app_comm_cons.
      rewrite (Permutation_swap P R). apply Permutation_cons; [done|].
      by rewrite <- Permutation_middle. }
    assert (R ∈ N :: U ∧ rroot ct ∈ N :: U) as [HRin Hcin].
    { rewrite <- Hnodes, Hperm. split; [left|]. right.
      apply (spineNodes_kid _ P (kP ++ [ct])); apply elem_of_app; right; left. }
    pose proof (Hfin _ HRin) as HfR. pose proof (Hfin _ Hcin) as Hfc.
    destruct (branchLength (node_at h (rroot ct))) as [cbl|] eqn:Ecbl;
      [|left; by eexists].
    destruct (branchLength (node_at h R)) as [rbl|] eqn:Erbl;
      [|left; by eexists].
    right.
    pose proof (splice_spine h sp P kP R ct (Some (JS.add cbl rbl)) None
                  Hwf Hnd') as Hwf6.
    set (h6 := spliceHeap R (rroot ct) P (Some (JS.add cbl rbl)) h) in *.
    assert (rroot ct < length h) as Hcl.
    { destruct (wf_spine_app_inv _ _ _ _ Hwf) as (q'' & Htail & _).
      cbn [wf_spine] in Htail.
      destruct Htail as (_ & _ & _ & _ & _ & _ & _ & Hall & _).
      rewrite Forall_singleton in Hall. destruct ct.
      by apply wf_at_unfold in Hall as (? & _). }
    assert (∀ y, branchLength (node_at h6 y)
                 = if decide (y = rroot ct) then Some (JS.add cbl rbl)
                   else branchLength (node_at h y)) as Hbl6
      by (intros y; by apply spliceHeap_branchLength).
    assert (∃ k0 rest0, sp ++ [(P, kP ++ [ct])] = (N, k0) :: rest0)
      as (k0 & rest0 & ES).
    { destruct sp as [|e0 sp'].
      - cbn [app] in Epre. injection Epre as <- <- _. by eexists _, _.
      - cbn [app] in Epre. injection Epre as <- _. by eexists _, _. }
    rewrite ES in Hwf6, Hperm.
    assert (NoDup (R :: flat_map spineNodes ((N, k0) :: rest0))) as Hnd6
      by (by rewrite <- Hperm).
    apply NoDup_cons in Hnd6 as [HRnot Hnd6].
    exists h6, (spineShape N k0 rest0).
    assert (rroot ct ∈ flat_map spineNodes ((N, k0) :: rest0)) as Hcin6.
    { rewrite <- ES.
      apply (spineNodes_kid _ P (kP ++ [ct])); apply elem_of_app; right; left. }
    split_and!.
    + done.
    + by apply wf_spine_shape.
    + apply rroot_spineShape.
    + by rewrite flatten_spineShape.
    + intros y Hy. rewrite flatten_spineShape in Hy.
      rewrite <- Hnodes, Hperm. by right.
    + rewrite flatten_spineShape.
      assert (length (flat_map spineNodes (sp ++ [(P, kP); (R, [ct])]))
              = S (length U)) as HlenU by (by rewrite Hnodes).
      rewrite Hperm in HlenU. cbn [length] in HlenU. lia.
    + rewrite leaves_spineShape.
      2:{ rewrite <- ES. rewrite last_snoc. intros e [= <-]. cbn.
          by destruct kP. }
      rewrite <- Hleaves, <- ES, !flat_map_app'. cbn [flat_map snd].
      rewrite flat_map_app'. cbn [flat_map]. by rewrite !app_nil_r.
    + apply spliceHeap_links.
    + rewrite (sumQ_perm _ _ _ (flatten_spineShape rest0 N k0)).
      rewrite <- (sumQ_perm _ _ _ Hnodes), (sumQ_perm _ _ _ Hperm), sumQ_cons.
      pose proof (sumQ_diff h h6 (flat_map spineNodes ((N, k0) :: rest0))
                    [rroot ct] (NoDup_singleton _)) as D.
      destruct cbl as [| | |a]; try done. destruct rbl as [| | |b]; try done.
      apply (Qc_cancel _ _ (sumQ h [rroot ct])).
      rewrite D; [| |done|].
      * unfold sumQ at 2 4, blQ. cbn [foldr].
        rewrite Hbl6, decide_True, Ecbl, Erbl by done. cbn [JS.add]. ring.
      * by intros y ->%list_elem_of_singleton.
      * intros y _ Hy. rewrite Hbl6. rewrite decide_False; [done|].
        intros ->. apply Hy. by apply list_elem_of_singleton.
    + intros y Hy. rewrite Hbl6. case_decide.
      * destruct cbl as [| | |a]; try done. by destruct rbl.
      * apply Hfin. rewrite flatten_spineShape in Hy.
        rewrite <- Hnodes, Hperm. by right.
  - (* the old root keeps several children *)
    right. exists h, (spineShape N [sub] (asSpine c0 ++ [(R, kR)])).
    assert ((N, [sub]) :: asSpine c0 ++ [(R, kR)] = sp ++ [(P, kP); (R, kR)])
      as ES by (by rewrite app_comm_cons, Epre, <- app_assoc).
    rewrite <- ES in Hwf, Hnodes, Hleaves, Hnd'.
    split_and!.
    + apply spliceOldRoot_keep. intros ch Hch. rewrite HchR in Hch.
      apply Hno. destruct kR as [|ct [|ct' kR']]; try done. by exists ct.
    + by apply wf_spine_shape.
    + apply rroot_spineShape.
    + by rewrite flatten_spineShape.
    + intros y Hy. rewrite flatten_spineShape in Hy. by rewrite <- Hnodes.
    + rewrite flatten_spineShape, Hnodes. done.
    + rewrite leaves_spineShape; [done|].
      rewrite app_comm_cons, last_snoc. by intros e [= <-].
    + apply links_only_refl.
    + by rewrite (sumQ_perm _ _ _ (flatten_spineShape _ _ _)),
        (sumQ_perm _ _ _ Hnodes).
    + intros y Hy. apply Hfin. rewrite flatten_spineShape in Hy.
      by rewrite <- Hnodes.
Qed.

Lemma reroot_unfold fuel t e prop h x1 t1 cur BL h4 h5 :
  getRecombEdgeMap fuel (set_recombEdgeMap None t) h
  = Ok ((Returned cur, t1), h) →
  parent (node_at (h ++ [new_Node 0]) e) = Some x1 →
  splitBranch e prop
    (addChild (length h) e (removeChild x1 e (h ++ [new_Node 0])))
  = Ok (BL, h4) →
  runClosure (recurseReroot cur fuel (Some x1) (length h) BL) (dom cur) h4
  = Ok (tt, h5) →
  reroot fuel t e prop h
  = (spliceOldRoot (root t1) ;;
     let* t3 := computeNodeAges fuel (clearCaches (set_root (length h) t1)) in
     let* t4 := reassignNodeIDs fuel t3 in
     let* (called, t5) := getRecombEdgeMap fuel t4 in
     let* m := propagate called in
     forM_ (map_to_list m) (λ '(_, group), matchHybridHeights group) ;;
     ret t5) h5.
Proof.
  intros E0 Hp Esplit Erec. unfold reroot.
  rewrite (bind_Ok _ _ _ _ _ E0).
  unfold bind at 1, propagate at 1, ret at 1.
  unfold bind at 1, get at 1. unfold alloc.
  unfold bind at 1, put at 1. rewrite Hp.
  unfold bind at 1, modify at 1. unfold bind at 1, modify at 1.
  rewrite (bind_Ok _ _ _ _ _ Esplit).
  rewrite (bind_Ok _ _ _ _ _ Erec). done.
Qed.

Lemma reroot_finish fuel t1 N h rt :
  wf_at h None rt → NoDup (flatten rt) → rroot rt = N → depth rt ≤ fuel →
  (∀ y, y ∈ flatten rt → hybridID (node_at h y) = None) →
  ∃ t' h',
    (let* t3 := computeNodeAges fuel (clearCaches (set_root N t1)) in
     let* t4 := reassignNodeIDs fuel t3 in
     let* (called, t5) := getRecombEdgeMap fuel t4 in
     let* m := propagate called in
     forM_ (map_to_list m) (λ '(_, group), matchHybridHeights group) ;;
     ret t5) h = Ok (t', h')
    ∧ meta_only h h' ∧ root t' = N
    ∧ _nodeList t' = Some (flatten rt) ∧ _leafList t' = None.
Proof.
  intros Hwf Hnd Hroot Hdepth Hhyb.
  destruct (computeNodeAges_spec fuel (clearCaches (set_root N t1)) h None rt)
    as (h7 & E7 & Ho7 & _); try done.
  set (t3 := set__nodeList (Some (flatten rt))
               (set_isTimeTree (timeTreeFlag h rt)
                  (clearCaches (set_root N t1)))) in *.
  destruct (reassignNodeIDs_cached fuel t3 h7 (flatten rt) eq_refl)
    as (h8 & E8 & Hm8).
  assert (meta_only h h8) as Hm
    by (eapply meta_only_trans; [by apply heights_only_meta|done]).
  assert (getRecombEdgeMap fuel t3 h8
          = Ok ((Returned ∅, set_recombEdgeMap (Some ∅) t3), h8)) as E9.
  { apply (getRecombEdgeMap_no_hybrid fuel t3 h8 rt None); try done.
    - by apply (meta_only_wf_at Hm).
    - intros y Hy. rewrite (meta_only_hybridID Hm). by apply Hhyb. }
  exists (set_recombEdgeMap (Some ∅) t3), h8. split_and!; try done.
  rewrite (bind_Ok _ _ _ _ _ E7), (bind_Ok _ _ _ _ _ E8),
    (bind_Ok _ _ _ _ _ E9).
  unfold bind at 1, propagate at 1, ret at 1.
  by rewrite map_to_list_empty.
Qed.

(** ** [reroot] on a tree without hybrid node *)

Lemma length_frameNodes c : length c ≤ length (flat_map frameNodes c).
Proof.
  induction c as [|f c IH]; [done|]. cbn [flat_map length].
  rewrite length_app. unfold frameNodes at 1. cbn [length]. lia.
Qed.

Lemma NoDup_fmap_sub {A B} (f : A → B) (l k : list A) :
  NoDup l → l ⊆ k → NoDup (f <$> k) → NoDup (f <$> l).
Proof.
  intros Hl Hsub Hk.
  assert (l ⊆+ k) as Hm by (by apply NoDup_submseteq).
  apply submseteq_Permutation in Hm as [k' Hk'].
  rewrite Hk', fmap_app in Hk. by apply NoDup_app in Hk as (? & _).
Qed.

Lemma last_frame_kids sub c f :
  2 ≤ length (subtrees (plug sub c)) → last c = Some f → fkids f ≠ [].
Proof.
  intros Hkids Hf.
  destruct (snoc_cases c) as [->|(c0 & g & ->)]; [done|].
  rewrite last_snoc in Hf. injection Hf as <-.
  rewrite plug_app in Hkids. destruct g as [R lsR rsR].
  cbn [plug subtrees fkids] in *.
  rewrite length_app in Hkids. cbn [length] in Hkids.
  intros Hnil. apply (f_equal length) in Hnil.
  rewrite length_app in Hnil. cbn [length] in Hnil. lia.
Qed.

Lemma reroot_core fuel t h rt edgeBaseNode prop :
  is_tree h rt → root t = rroot rt →
  (∀ x, x ∈ flatten rt → hybridID (node_at h x) = None) →
  NoDup ((λ x, id (node_at h x)) <$> flatten rt) →
  branchLength (node_at h (rroot rt)) = None →
  2 ≤ length (subtrees rt) →
  (∀ x, x ∈ flatten rt → finiteOrNone (branchLength (node_at h x))) →
  edgeBaseNode ∈ flatten rt → edgeBaseNode ≠ rroot rt →
  length (flatten rt) < fuel →
  (∃ e, reroot fuel t edgeBaseNode prop h = Throw e)
  ∨ ∃ t' h' rt',
      reroot fuel t edgeBaseNode prop h = Ok (t', h')
      ∧ wf_at h' None rt' ∧ root t' = rroot rt' ∧ depth rt' ≤ fuel
      ∧ _nodeList t' = Some (flatten rt') ∧ _leafList t' = None
      ∧ leaves rt' ≡ₚ leaves rt
      ∧ (∀ y, y < length h → label (node_at h' y) = label (node_at h y))
      ∧ sumQ h' (flatten rt') = sumQ h (flatten rt)
      ∧ (∀ y, y ∈ flatten rt' →
           finiteOrNone (branchLength (node_at h' y))).
Proof.
  intros [Hwf Hnd] Hroot Hhyb Hids HblR Hkids Hfin Hein Hene Hfuel.
  destruct (plug_focus rt edgeBaseNode Hein) as (sub & c & -> & He & Hc0).
  assert (c ≠ []) as Hc by (intros ->%Hc0; done). clear Hc0.
  subst edgeBaseNode.
  set (rt := plug sub c) in *.
  set (e := rroot sub) in *.
  assert (depth rt ≤ fuel) as Hdepth
    by (pose proof (depth_le_size rt); lia).
  assert (∀ y, y ∈ flatten rt → y < length h) as Hrange
    by (intros y; by eapply wf_at_in_range).
  (* the first hybrid-edge map is empty *)
  pose proof (getRecombEdgeMap_no_hybrid fuel (set_recombEdgeMap None t)
                h rt None Hwf Hroot Hdepth eq_refl Hhyb) as E0.
  set (t1 := set_recombEdgeMap (Some ∅) (set_recombEdgeMap None t)) in *.
  (* the stores *)
  set (N := length h).
  set (h1 := h ++ [new_Node 0]).
  set (a := branchLength (node_at h e)).
  set (newbl := (splitOf a prop).1).
  set (BL := (splitOf a prop).2).
  set (h4 := (upStep e (fnode <$> head c) N newbl h1).1).
  set (h5 := (upHeap c N BL h4).1).
  destruct (splitOf_sum a prop (Hfin e Hein)) as (Hsplit & Hfnew & HfBL).
  fold newbl BL in Hsplit, Hfnew, HfBL.
  destruct (reversal_ready h sub c newbl Hwf Hnd)
    as (_ & Hok4 & HN4 & Hnd4 & Hlinks4 & Hbl4).
  fold N h1 e h4 in Hok4, HN4, Hnd4, Hlinks4, Hbl4.
  destruct (reversal_spec h sub c newbl BL Hwf Hnd Hc HblR Hsplit Hfnew HfBL Hfin)
    as (Hsp5 & Hlinks5 & Hsum5 & Hfin5).
  fold N h1 e h4 h5 rt in Hsp5, Hlinks5, Hsum5, Hfin5.
  assert (∀ y, y < length h → node_at h1 y = node_at h y) as Hold
    by (intros y Hy; unfold h1; by rewrite node_at_alloc_old).
  assert (node_at h1 N = new_Node 0) as Hnew
    by (unfold h1, N; by rewrite node_at_alloc).
  destruct (wf_plug _ _ _ Hwf) as [Hsub Hctx]. fold e in Hctx.
  assert (∃ x1, fnode <$> head c = Some x1) as [x1 Ehead].
  { clear -Hc. destruct c as [|f c']; [done|]. by exists (fnode f). }
  assert (parent (node_at h1 e) = Some x1) as Hpe.
  { rewrite Hold by (by apply Hrange). rewrite <- Ehead.
    destruct sub. by apply wf_at_unfold in Hsub as (_ & ? & _). }
  (* the branch is split *)
  assert (splitBranch e prop (addChild N e (removeChild x1 e h1))
          = Ok (BL, h4)) as Esplit.
  { rewrite splitBranch_spec.
    rewrite branchLength_addChild, branchLength_removeChild.
    rewrite Hold by (by apply Hrange). fold a newbl BL.
    unfold h4. by rewrite Ehead. }
  (* the path is walked *)
  pose proof (flatten_plug sub c) as Hperm. fold rt in Hperm.
  assert (∀ y, y ∈ fnode <$> c → y ∈ flatten rt) as Hpath.
  { intros y Hy. rewrite Hperm. apply elem_of_app. right.
    by apply fnode_in_frameNodes. }
  assert (NoDup (flat_map frameNodes c) ∧ N ∉ flat_map frameNodes c)
    as [Hndc HNc].
  { split.
    - rewrite Hperm in Hnd. by apply NoDup_app in Hnd as (_ & _ & ?).
    - intros Hin. assert (N ∈ flatten rt) as Hin'
        by (rewrite Hperm; apply elem_of_app; by right).
      apply Hrange in Hin'. unfold N in Hin'. lia. }
  assert (links_only h1 h4 ∧ links_only h1 h5) as [_ Hl15] by done.
  assert (NoDup (fnode <$> c)) as Hndp.
  { clear -Hndc. induction c as [|[x ls rs] c IH]; [constructor|].
    cbn [flat_map] in Hndc. rewrite frameNodes_Frame in Hndc.
    cbn [app] in Hndc. apply NoDup_cons in Hndc as [Hx Hndc].
    apply NoDup_app in Hndc as (_ & _ & Hndc).
    rewrite fmap_cons. apply NoDup_cons. split; [|by apply IH].
    intros Hin%fnode_in_frameNodes. apply Hx. apply elem_of_app. by right. }
  destruct (recurseReroot_up ∅ c N BL h4 (dom (∅ : gmap JS.num (list nat)))
              ∅ fuel) as [seen' Erec]; try done.
  { intros y Hy. rewrite (links_only_hybridID Hlinks4).
    rewrite Hold by (by apply Hrange, Hpath). by apply Hhyb, Hpath. }
  { erewrite list_fmap_ext.
    - apply (NoDup_fmap_sub (λ y, id (node_at h y)) _ _ Hndp Hpath Hids).
    - intros i y Hy. cbn beta. rewrite (links_only_id Hlinks4).
      rewrite Hold; [done|]. apply Hrange, Hpath.
      by eapply list_elem_of_lookup_2. }
  { pose proof (length_frameNodes c) as L1.
    assert (length (flatten rt) = length (flatten sub ++ flat_map frameNodes c))
      as L2 by (by rewrite Hperm).
    rewrite length_app in L2. lia. }
  rewrite Ehead in Erec.
  assert (runClosure (recurseReroot ∅ fuel (Some x1) N BL)
            (dom (∅ : gmap JS.num (list nat))) h4 = Ok (tt, h5)) as Erun.
  { unfold runClosure. by rewrite Erec. }
  rewrite (reroot_unfold fuel t e prop h x1 t1 ∅ BL h4 h5 E0 Hpe Esplit Erun).
  (* the old root *)
  assert (NoDup (N :: flatten rt)) as HndN.
  { apply NoDup_cons. split; [|done]. intros Hin%Hrange. unfold N in Hin. lia. }
  assert (∀ y, y ∈ N :: flatten rt → hybridID (node_at h5 y) = None) as Hhyb5.
  { intros y Hy. rewrite (links_only_hybridID Hl15).
    apply elem_of_cons in Hy as [->|Hy]; [by rewrite Hnew|].
    rewrite Hold by (by apply Hrange). by apply Hhyb. }
  assert (root t1 = rroot rt) as Hroot1 by done.
  rewrite Hroot1.
  destruct (splice_outcome h5 N sub c Hsp5 HndN) as
    [[ex Ethrow]|(h6 & rt' & E6 & Hwf6 & Hroot6 & Hnd6 & Hsub6 & Hlen6
                  & Hleaves6 & Hlinks6 & Hsum6 & Hfin6)]; try done.
  { intros f Hf. by apply (last_frame_kids sub c). }
  { apply Hhyb5. right. apply rroot_in_flatten. }
  { left. exists ex. by rewrite (bind_Throw _ _ _ _ Ethrow). }
  right. rewrite (bind_Ok _ _ _ _ _ E6).
  assert (depth rt' ≤ fuel) as Hdepth6
    by (pose proof (depth_le_size rt'); fold rt in Hlen6; lia).
  destruct (reroot_finish fuel t1 N h6 rt' Hwf6 Hnd6 Hroot6 Hdepth6)
    as (t' & h' & E & Hm & Hroot' & Hnl' & Hll').
  { intros y Hy%Hsub6. rewrite (links_only_hybridID Hlinks6).
    by apply Hhyb5. }
  exists t', h', rt'. split_and!; try done.
  - by apply (meta_only_wf_at Hm).
  - by rewrite Hroot'.
  - intros y Hy. rewrite (meta_only_label Hm), (links_only_label Hlinks6),
      (links_only_label Hl15). by rewrite Hold.
  - by rewrite (meta_only_sumQ Hm), Hsum6.
  - intros y Hy. rewrite (meta_only_branchLength Hm). by apply Hfin6.
Qed.

(** ** Reroot conservation (C1) *)

Lemma tipLabel_labelled h h' x :
  label (node_at h' x) = label (node_at h x) →
  is_Some (label (node_at h x)) →
  tipLabel h' x = tipLabel h x.
Proof. intros E [l Hl]. unfold tipLabel. by rewrite E, Hl. Qed.

(** C1 (amended): on a tree without hybrid node, with pairwise distinct
    node ids, whose root has no branch length and at least two children,
    whose leaves are all labelled and whose defined branch lengths are
    finite (exact rationals), a call [reroot(edgeBaseNode, prop)] at a
    non-root node never exhausts the recursion bound of the model once
    that bound exceeds the number of nodes; and whenever the call returns
    normally, [getTotalBranchLength] gives the same sum before and after
    the call, and the tip labels after the call are a rearrangement of the
    tip labels before it. *)
Theorem reroot_conserves fuel t h rt edgeBaseNode prop :
  is_tree h rt → root t = rroot rt → caches_agree rt t →
  (∀ x, x ∈ flatten rt → hybridID (node_at h x) = None) →
  NoDup ((λ x, id (node_at h x)) <$> flatten rt) →
  branchLength (node_at h (rroot rt)) = None →
  2 ≤ length (subtrees rt) →
  (∀ x, x ∈ leaves rt → is_Some (label (node_at h x))) →
  (∀ x, x ∈ flatten rt → finiteOrNone (branchLength (node_at h x))) →
  edgeBaseNode ∈ flatten rt → edgeBaseNode ≠ rroot rt →
  length (flatten rt) < fuel →
  reroot fuel t edgeBaseNode prop h ≠ OutOfFuel
  ∧ ∀ t' h', reroot fuel t edgeBaseNode prop h = Ok (t', h') →
      ∃ total tips tips' ta tb tc td,
        getTotalBranchLength fuel t h = Ok ((total, ta), h)
        ∧ getTotalBranchLength fuel t' h' = Ok ((total, tb), h')
        ∧ getTipLabels fuel t None h = Ok ((tips, tc), h)
        ∧ getTipLabels fuel t' None h' = Ok ((tips', td), h')
        ∧ tips' ≡ₚ tips.
Proof.
  intros Htree Hroot [Hcn Hcl] Hhyb Hids HblR Hkids Hlab Hfin Hein Hene Hfuel.
  destruct (reroot_core fuel t h rt edgeBaseNode prop)
    as [[ex E]|(t1 & h1 & rt' & E & Hwf' & Hroot' & Hdepth' & Hnl' & Hll'
                & Hleaves & Hlabel & Hsum & Hfin')]; try done.
  { rewrite E. split; [done|]. intros t' h' [=]. }
  rewrite E. split; [done|]. intros t' h' [= <- <-].
  destruct Htree as [Hwf Hnd].
  assert (depth rt ≤ fuel) as Hdepth
    by (pose proof (depth_le_size rt); lia).
  eexists _, _, _, _, _, _, _. split_and!.
  - by apply (getTotalBranchLength_spec fuel t h rt None).
  - rewrite (getTotalBranchLength_spec fuel t1 h1 rt' None) by auto.
    rewrite (totalOver_sumQ h1) by done.
    rewrite (totalOver_sumQ h) by done. by rewrite Hsum.
  - by apply (getTipLabels_spec fuel t h rt None).
  - apply (getTipLabels_spec fuel t1 h1 rt' None); auto.
  - rewrite Hleaves.
    assert (tipLabel h1 <$> leaves rt = tipLabel h <$> leaves rt) as ->;
      [|done].
    apply list_fmap_ext. intros i x Hx. apply list_elem_of_lookup_2 in Hx.
    apply tipLabel_labelled; [|by apply Hlab].
    apply Hlabel. eapply wf_at_in_range; [exact Hwf|].
    clear -Hx. induction rt as [r cs IH] using rtree_ind'.
    rewrite flatten_unfold. rewrite leaves_unfold in Hx.
    destruct cs as [|c cs]; [apply list_elem_of_singleton in Hx as ->; left|].
    right. apply elem_of_flat_map in Hx as (c' & Hc' & Hx).
    apply elem_of_flat_map. exists c'. split; [done|].
    rewrite Forall_forall in IH. by apply IH.
Qed.

(** ** [reroot]: the calls that fail or fall back *)

(** On a tree-shaped store [getRecombEdgeMap] leaves the store alone:
    the call returns a map, or ends with the error on hybrid groups. *)
Lemma getRecombEdgeMap_tree fuel t h rt p :
  wf_at h p rt → root t = rroot rt → depth rt ≤ fuel →
  recombEdgeMap t = None →
  (∃ m, getRecombEdgeMap fuel t h
        = Ok ((Returned m, set_recombEdgeMap (Some m) t), h))
  ∨ (∃ partial, getRecombEdgeMap fuel t h
       = Ok ((Thrown (ThrownString
                "Extended Newick error: hybrid nodes must come in groups of 2 or more."),
              set_recombEdgeMap (Some partial) t), h)).
Proof.
  intros Hwf Hroot Hd Hc. unfold getRecombEdgeMap. rewrite Hc.
  erewrite bind_Ok by (by eapply hybridNodeList_spec).
  unfold bind, get. cbv beta iota.
  rewrite foldl_fileSourceKey_filter.
  destruct (foldl (fileHybrid h) _ _) as [src dest].
  destruct (sourceKeys_spec h (flatten rt)) as [Hkn _].
  set (created := foldl (fileSourceKey h) [] (flatten rt)) in *.
  assert (NoDup (forInOrder created)) as Hnk by (by rewrite forInOrder_perm).
  pose proof (groupSources_run src dest (forInOrder created) ∅ Hnk) as Hrun.
  destruct (groupSources src dest (forInOrder created) ∅) as [[u|e] m0].
  - left. by eexists.
  - right. destruct Hrun as (-> & _). by eexists.
Qed.

(** X1: rerooting at a node without parent (the root of a tree) never
    succeeds: the call throws, with the message [edgeBaseNodeP ===
    undefined] unless the hybrid groups of the tree are already
    rejected. *)
Theorem reroot_at_root_throws fuel t h rt prop :
  is_tree h rt → root t = rroot rt → depth rt ≤ fuel →
  reroot fuel t (rroot rt) prop h
  = Throw (ThrownString "edgeBaseNodeP === undefined")
  ∨ reroot fuel t (rroot rt) prop h
    = Throw (ThrownString
        "Extended Newick error: hybrid nodes must come in groups of 2 or more.").
Proof.
  intros [Hwf Hnd] Hroot Hd.
  destruct (getRecombEdgeMap_tree fuel (set_recombEdgeMap None t) h rt None)
    as [[m E]|[partial E]]; try done.
  - left. unfold reroot. rewrite (bind_Ok _ _ _ _ _ E).
    unfold bind at 1, propagate at 1, ret at 1.
    unfold bind at 1, get at 1. unfold alloc.
    unfold bind at 1, put at 1.
    assert (rroot rt < length h) as Hr
      by (eapply wf_at_in_range; [done|apply rroot_in_flatten]).
    rewrite node_at_alloc_old by done.
    destruct rt as [r cs]. apply wf_at_unfold in Hwf as (_ & Hp & _).
    cbn [rroot]. by rewrite Hp.
  - right. unfold reroot. by rewrite (bind_Ok _ _ _ _ _ E).
Qed.

(** X2: a [prop] outside the interval from 0 to 1, [NaN] included, is
    treated as no [prop] at all: the branch of [edgeBaseNode] is cut in
    the middle. *)
Theorem reroot_prop_out_of_range fuel t h edgeBaseNode p :
  JS.ge p JS.zero && JS.le p (JS.of_nat 1) = false →
  reroot fuel t edgeBaseNode (Some p) h = reroot fuel t edgeBaseNode None h.
Proof.
  intros Hp.
  assert (∀ h0, splitBranch edgeBaseNode (Some p) h0
                = splitBranch edgeBaseNode None h0) as Hsplit.
  { intros h0. unfold splitBranch, bind, get. cbv beta iota.
    destruct (branchLength (node_at h0 edgeBaseNode)); [|done].
    by rewrite Hp. }
  unfold reroot, bind.
  destruct (getRecombEdgeMap fuel (set_recombEdgeMap None t) h)
    as [[[[cur|e] t1] h1]|e|]; [|done..].
  unfold propagate, ret, get, alloc, put. cbv beta iota.
  destruct (parent (node_at (h1 ++ [new_Node 0]) edgeBaseNode)) as [x1|];
    [|done].
  unfold modify. cbv beta iota. by rewrite Hsplit.
Qed.

(** ** [readNewick]: the branch length of the root *)


(** ** [computeNodeAges] run again *)

Lemma specHeights_heights_only h h' rt :
  heights_only h h' → specHeights h' rt = specHeights h rt.
Proof.
  intros Ho. unfold specHeights. f_equal.
  induction (subtrees rt) as [|c cs IH]; [done|].
  cbn [flat_map]. by rewrite IH, (heights_only_heightsBelow h h' Ho).
Qed.

(** X4: [computeNodeAges] is idempotent on a tree: a second run leaves
    the heights, the flag [isTimeTree] and the cached node list as the
    first run set them. *)
Theorem computeNodeAges_idempotent fuel t h rt :
  is_tree h rt → root t = rroot rt → depth rt ≤ fuel →
  _nodeList t = None ∨ _nodeList t = Some (flatten rt) →
  ∃ t1 h1,
    computeNodeAges fuel t h = Ok (t1, h1)
    ∧ computeNodeAges fuel t1 h1 = Ok (t1, h1).
Proof.
  intros [Hwf Hnd] Hroot Hd Hcache.
  destruct (computeNodeAges_cached fuel t h None rt)
    as (h1 & E1 & Ho1 & Hh1 & Hout1); try done.
  set (t1 := set__nodeList (Some (flatten rt))
               (set_isTimeTree (timeTreeFlag h rt) t)) in *.
  assert (wf_at h1 None rt) as Hwf1 by (by apply (heights_only_wf_at h h1)).
  destruct (computeNodeAges_cached fuel t1 h1 None rt)
    as (h2 & E2 & Ho2 & Hh2 & Hout2); try done; [by right|].
  assert (passHeights h1 rt = passHeights h rt) as Hpass.
  { rewrite !passHeights_is_tree by done.
    by apply specHeights_heights_only. }
  assert (timeTreeFlag h1 rt = timeTreeFlag h rt) as Hflag.
  { unfold timeTreeFlag.
    by rewrite Hpass, (heights_only_branchLength h h1 Ho1). }
  exists t1, h1. split; [done|]. rewrite E2. do 2 f_equal.
  - rewrite Hflag. unfold t1. by destruct t.
  - apply heap_ext; [apply (heights_only_length _ _ Ho2)|].
    intros y. destruct (decide (y ∈ flatten rt)) as [Hy|Hy];
      [|by apply Hout2].
    destruct Ho2 as [_ Hall]. rewrite (Hall y).
    assert (height (node_at h2 y) = height (node_at h1 y)) as ->.
    { rewrite Hpass, <- Hh1 in Hh2.
      apply list_elem_of_lookup_1 in Hy as [i Hi].
      apply (f_equal (λ l, l !! i)) in Hh2.
      rewrite !list_lookup_fmap, Hi in Hh2. by injection Hh2. }
    by destruct (node_at h1 y).
Qed.

(** ** The tips below a node *)

Lemma tipLabel_heights_only h h' x :
  heights_only h h' → tipLabel h' x = tipLabel h x.
Proof.
  intros Ho. unfold tipLabel.
  by rewrite (heights_only_label h h' Ho), (heights_only_id h h' Ho).
Qed.

(** X5: [getTipLabels(node)] returns the labels of the leaves below
    [node] in pre-order (the id in place of a missing label).  It is not
    a pure query: the subtree view recomputes the heights of the nodes
    below [node]; nothing else in the store changes. *)
Theorem getTipLabels_of_node fuel t h p rt :
  wf_at h p rt → NoDup (flatten rt) → depth rt ≤ fuel →
  ∃ h',
    getTipLabels fuel t (Some (rroot rt)) h
    = Ok ((tipLabel h <$> leaves rt, t), h')
    ∧ heights_within (flatten rt) h h'.
Proof.
  intros Hwf Hnd Hd.
  destruct (computeNodeAges_spec fuel
              (mkTree (rroot rt) None None None None None false) h p rt)
    as (h' & E & Ho & _ & Hout); try done.
  exists h'. split; [|by split].
  assert (wf_at h' p rt) as Hwf' by (by apply (heights_only_wf_at h h')).
  unfold getTipLabels, getSubtree, new_Tree.
  rewrite (bind_Ok _ _ _ _ _ E).
  erewrite bind_Ok by (by eapply leafList_fresh).
  unfold bind, get, ret. rewrite (leaves_filter _ _ _ Hwf').
  do 3 f_equal. apply list_fmap_ext. intros i x _.
  by apply tipLabel_heights_only.
Qed.

(** ** What the traversals keep *)

Lemma mapM_rel {A B} (R : list Node → list Node → Prop)
    (F : A → M (list Node) B) (l : list A) :
  (∀ h, R h h) → (∀ h1 h2 h3, R h1 h2 → R h2 h3 → R h1 h3) →
  (∀ x h b h', x ∈ l → F x h = Ok (b, h') → R h h') →
  ∀ h res h', mapM F l h = Ok (res, h') → R h h'.
Proof.
  intros Hrefl Htrans. induction l as [|x l IH]; intros HF h res h' E.
  { cbn in E. injection E as <- <-. apply Hrefl. }
  cbn [mapM] in E.
  apply bind_inv_Ok in E as (y & h1 & E1 & E).
  apply bind_inv_Ok in E as (ys & h2 & E2 & E).
  injection E as <- <-.
  eapply Htrans; [eapply HF; [left|done]|].
  eapply IH; [|done]. intros z hz b hz' Hz. apply HF. by right.
Qed.

Lemma forM_rel {A} (R : list Node → list Node → Prop)
    (F : A → M (list Node) unit) (l : list A) :
  (∀ h, R h h) → (∀ h1 h2 h3, R h1 h2 → R h2 h3 → R h1 h3) →
  (∀ x h b h', F x h = Ok (b, h') → R h h') →
  ∀ h res h', forM_ l F h = Ok (res, h') → R h h'.
Proof.
  intros Hrefl Htrans HF. induction l as [|x l IH]; intros h res h' E.
  { cbn in E. injection E as <- <-. apply Hrefl. }
  cbn [forM_] in E.
  apply bind_inv_Ok in E as (y & h1 & E1 & E).
  eapply Htrans; [by eapply HF|by eapply IH].
Qed.

Lemma applyPreOrder_rel {A} (R : list Node → list Node → Prop)
    (f : nat → M (list Node) (option A)) :
  (∀ h, R h h) → (∀ h1 h2 h3, R h1 h2 → R h2 h3 → R h1 h3) →
  (∀ x h a h', f x h = Ok (a, h') → R h h') →
  ∀ fuel r h res h', applyPreOrder fuel f r h = Ok (res, h') → R h h'.
Proof.
  intros Hrefl Htrans Hf. induction fuel as [|fuel IH]; intros r h res h' E;
    [done|].
  cbn [applyPreOrder] in E.
  apply bind_inv_Ok in E as (a & h1 & E1 & E).
  unfold bind at 1, get at 1 in E.
  apply bind_inv_Ok in E as (rest & h2 & E2 & E).
  injection E as <- <-.
  eapply Htrans; [by eapply Hf|].
  eapply (mapM_rel R); [done..| |exact E2].
  intros x hx b hx' _. apply IH.
Qed.

Lemma nodeList_store fuel t h p h' :
  nodeList fuel t h = Ok (p, h') → h' = h.
Proof.
  unfold nodeList. destruct (_nodeList t); [by intros [= <- <-]|].
  intros E. apply bind_inv_Ok in E as (l & h1 & E1 & E).
  injection E as <- <-. symmetry.
  eapply (applyPreOrder_rel eq); [done|congruence| |exact E1].
  by intros x hx a hx' [= <- <-].
Qed.

Lemma leafList_store fuel t h p h' :
  leafList fuel t h = Ok (p, h') → h' = h.
Proof.
  unfold leafList. destruct (_leafList t); [by intros [= <- <-]|].
  intros E. apply bind_inv_Ok in E as (l & h1 & E1 & E).
  injection E as <- <-. symmetry.
  eapply (applyPreOrder_rel eq); [done|congruence| |exact E1].
  by intros x hx a hx' [= <- <-].
Qed.

Lemma computeNodeAges_heights_only fuel t h t' h' :
  computeNodeAges fuel t h = Ok (t', h') → heights_only h h'.
Proof.
  unfold computeNodeAges. intros E.
  apply bind_inv_Ok in E as (heights & h1 & E1 & E).
  unfold bind at 1, get at 1 in E.
  apply bind_inv_Ok in E as ([nl t2] & h2 & E2 & E).
  apply nodeList_store in E2 as ->.
  apply bind_inv_Ok in E as ([] & h3 & E3 & E). injection E as <- <-.
  eapply heights_only_trans.
  - eapply (applyPreOrder_rel heights_only);
      [apply heights_only_refl|apply heights_only_trans| |exact E1].
    intros x hx a hx' [= <- <-]. apply heights_only_update.
  - eapply (forM_rel heights_only);
      [apply heights_only_refl|apply heights_only_trans| |exact E3].
    intros x hx b hx'. unfold shiftHeight. unfold bind at 1, get at 1.
    destruct (height (node_at hx x)); intros [= <- <-].
    + apply heights_only_update.
    + apply heights_only_refl.
Qed.

Lemma ladderCompare_heights_only fuel a b h c h' :
  ladderCompare fuel a b h = Ok (c, h') → heights_only h h'.
Proof.
  unfold ladderCompare. intros E.
  apply bind_inv_Ok in E as (ta & h1 & E1 & E).
  apply bind_inv_Ok in E as ([tipsA ta'] & h2 & E2 & E).
  apply bind_inv_Ok in E as (tb & h3 & E3 & E).
  apply bind_inv_Ok in E as ([tipsB tb'] & h4 & E4 & E).
  injection E as <- <-.
  assert (∀ t0 hx r hx', getTipLabels fuel t0 None hx = Ok (r, hx') → hx' = hx)
    as Htips.
  { intros t0 hx r hx' Et. unfold getTipLabels in Et.
    apply bind_inv_Ok in Et as ([ll t0'] & hy & Ey & Et).
    apply leafList_store in Ey as ->.
    unfold bind, get, ret in Et. by injection Et as <- <-. }
  apply Htips in E2 as ->. apply Htips in E4 as ->.
  eapply heights_only_trans; by eapply computeNodeAges_heights_only.
Qed.

Lemma insertM_perm cmp x : ∀ l h r h',
  (∀ a b hx c hx', cmp a b hx = Ok (c, hx') → heights_only hx hx') →
  insertM cmp x l h = Ok (r, h') → heights_only h h' ∧ r ≡ₚ x :: l.
Proof.
  induction l as [|y l IH]; intros h r h' Hcmp E.
  { injection E as <- <-. split; [apply heights_only_refl|done]. }
  cbn [insertM] in E. apply bind_inv_Ok in E as (c & h1 & E1 & E).
  apply Hcmp in E1.
  destruct c; try (injection E as <- <-; by split).
  apply bind_inv_Ok in E as (r' & h2 & E2 & E). injection E as <- <-.
  destruct (IH _ _ _ Hcmp E2) as [Ho Hp]. split.
  - by eapply heights_only_trans.
  - rewrite Hp. apply Permutation_swap.
Qed.

Lemma sortM_perm cmp : ∀ l h r h',
  (∀ a b hx c hx', cmp a b hx = Ok (c, hx') → heights_only hx hx') →
  sortM cmp l h = Ok (r, h') → heights_only h h' ∧ r ≡ₚ l.
Proof.
  induction l as [|x l IH]; intros h r h' Hcmp E.
  { injection E as <- <-. split; [apply heights_only_refl|done]. }
  cbn [sortM] in E. apply bind_inv_Ok in E as (s & h1 & E1 & E).
  destruct (IH _ _ _ Hcmp E1) as [Ho Hp].
  destruct (insertM_perm _ _ _ _ _ _ Hcmp E) as [Ho' Hp']. split.
  - by eapply heights_only_trans.
  - by rewrite Hp', Hp.
Qed.

Lemma reordered_refl h : reordered h h.
Proof. split; [done|]. intros x. split; [|done]. by destruct (node_at h x). Qed.

Lemma reordered_trans h1 h2 h3 :
  reordered h1 h2 → reordered h2 h3 → reordered h1 h3.
Proof.
  intros [L1 E1] [L2 E2]. split; [congruence|]. intros x.
  destruct (E1 x) as [A1 P1]. destruct (E2 x) as [A2 P2]. split.
  - rewrite A2 at 1. rewrite A1 at 1. done.
  - by rewrite P2.
Qed.

Lemma heights_only_reordered h h' : heights_only h h' → reordered h h'.
Proof.
  intros [L E]. split; [done|]. intros x. split.
  - rewrite (E x). by destruct (node_at h x).
  - by rewrite (E x).
Qed.

Lemma sortChildren_reordered fuel x h a h' :
  sortChildren fuel x h = Ok (a, h') → reordered h h'.
Proof.
  unfold sortChildren. unfold bind at 1, get at 1. intros E.
  apply bind_inv_Ok in E as (sorted & h1 & E1 & E).
  unfold bind, modify, ret in E. injection E as <- <-.
  destruct (sortM_perm _ _ _ _ _ (ladderCompare_heights_only fuel) E1)
    as [Ho Hp].
  eapply reordered_trans; [by apply heights_only_reordered|].
  split; [apply length_update|]. intros y. rewrite node_at_update_dec.
  case_decide as Hd.
  - destruct Hd as [-> _]. cbn. split; [by destruct (node_at h1 x)|].
    by rewrite Hp, (heights_only_children h h1 Ho).
  - split; [by destruct (node_at h1 y)|done].
Qed.

Lemma laddered_unfold r cs :
  laddered (RT r cs) ↔ sortedBy tipCount cs ∧ Forall laddered cs.
Proof.
  cbn [laddered]. apply and_iff_compat_l.
  induction cs as [|c cs IH]; [by rewrite Forall_nil|].
  by rewrite Forall_cons, IH.
Qed.

Lemma laddered_ladder t : laddered (ladder t).
Proof.
  induction t as [r cs IH] using rtree_ind'.
  rewrite ladder_unfold. apply laddered_unfold. split.
  - apply sortBy_sorted.
  - rewrite Forall_forall in IH |- *. intros c Hc.
    rewrite sortBy_perm in Hc.
    apply list_elem_of_fmap in Hc as (c0 & -> & Hc0). by apply IH.
Qed.

(** X6: [ladderise] on a tree leaves the store in the shape in which, at
    every node, the children are stably sorted by the number of tips
    below them.  The nodes keep their parent, label, branch length, id,
    hybrid id and annotation; only the order of children changes, and the
    heights, which the comparisons recompute. *)
Theorem ladderise_sorts fuel t h rt :
  is_tree h rt → root t = rroot rt → depth rt ≤ fuel →
  ∃ h1,
    ladderise fuel t h = Ok (tt, h1)
    ∧ is_tree h1 (ladder rt)
    ∧ laddered (ladder rt)
    ∧ reordered h h1.
Proof.
  intros [Hwf Hnd] Hroot Hd.
  destruct (ladder_pass_all rt fuel fuel h None)
    as (res1 & h1 & E1 & W1 & L1 & F1); try done.
  exists h1. split_and!.
  - unfold ladderise. rewrite Hroot. by rewrite (bind_Ok _ _ _ _ _ E1).
  - split; [done|]. by rewrite flatten_ladder.
  - apply laddered_ladder.
  - eapply (applyPreOrder_rel reordered);
      [apply reordered_refl|apply reordered_trans| |exact E1].
    intros x hx a hx'. apply sortChildren_reordered.
Qed.

(** ** The hybrid-edge map in full *)

(** X7: [getRecombEdgeMap] on a tree fails exactly when some hybrid id
    is carried by an internal node and by no leaf; it then throws the
    error on hybrid groups. *)
Theorem getRecombEdgeMap_throws_iff fuel t h rt :
  is_tree h rt → root t = rroot rt → depth rt ≤ fuel →
  recombEdgeMap t = None →
  ∃ called t',
    getRecombEdgeMap fuel t h = Ok ((called, t'), h)
    ∧ (called
       = Thrown (ThrownString
           "Extended Newick error: hybrid nodes must come in groups of 2 or more.")
       ↔ ∃ k, hasSource h k (flatten rt) ∧ destGroup h k (flatten rt) = [])
    ∧ ((∃ m, called = Returned m)
       ↔ ∀ k, hasSource h k (flatten rt) → destGroup h k (flatten rt) ≠ []).
Proof.
  intros Htree Hroot Hd Hc.
  destruct (getRecombEdgeMap_cases fuel t h rt Htree Hroot Hd Hc)
    as [(m & E & _ & Hok)|(partial & E & (k & Hk & Hn) & _)];
    eexists _, _; (split; [exact E|]).
  - split; (split; [done|]).
    + intros (k & Hk & Hn). by destruct (Hok k Hk).
    + by eauto.
  - split; split.
    + intros _. by exists k.
    + done.
    + by intros [m [=]].
    + intros Hall. by destruct (Hall k Hk).
Qed.

(** X8: when [getRecombEdgeMap] returns, the group of a hybrid id is its
    source, the last internal node in pre-order that carries the id,
    followed by the leaves that carry it, in pre-order; an id carried by
    no node has no entry, and the store is left alone. *)
Theorem getRecombEdgeMap_groups fuel t h rt m t' h' :
  is_tree h rt → root t = rroot rt → depth rt ≤ fuel →
  recombEdgeMap t = None →
  getRecombEdgeMap fuel t h = Ok ((Returned m, t'), h') →
  h' = h ∧ recombEdgeMap t' = Some m
  ∧ ∀ k, m !! k = groupOf h k (flatten rt).
Proof.
  intros Htree Hroot Hd Hc E.
  destruct (getRecombEdgeMap_cases fuel t h rt Htree Hroot Hd Hc)
    as [(m0 & E0 & Hm & _)|(partial & E0 & _)]; rewrite E0 in E; [|done].
  by injection E as <- <- <-.
Qed.

(** ** [getNode] and [reassignNodeIDs] *)







Lemma ids_only_refl h : ids_only h h.
Proof. split; [done|]. intros x. by destruct (node_at h x). Qed.

Lemma ids_only_trans h1 h2 h3 :
  ids_only h1 h2 → ids_only h2 h3 → ids_only h1 h3.
Proof.
  intros [L1 E1] [L2 E2]. split; [congruence|]. intros x.
  rewrite (E2 x) at 1. rewrite (E1 x) at 1. done.
Qed.

Lemma ids_only_update h x v : ids_only h (update x (set_id v) h).
Proof.
  split; [apply length_update|]. intros y. rewrite node_at_update_dec.
  case_decide; by destruct (node_at h y).
Qed.


Lemma setIds_spec (l : list nat) : ∀ k h,
  NoDup l → (∀ x, x ∈ l → x < length h) →
  ∃ h', forM_ (imap (λ i node, (k + i, node)) l)
          (λ '(i, node), modify (update node (set_id i))) h
        = Ok (tt, h')
        ∧ ids_only h h'
        ∧ (∀ i x, l !! i = Some x → id (node_at h' x) = k + i)
        ∧ (∀ y, y ∉ l → node_at h' y = node_at h y).
Proof.
  induction l as [|x l IH]; intros k h Hnd Hrange.
  { exists h. split_and!; [done|apply ids_only_refl|done|done]. }
  apply NoDup_cons in Hnd as [Hx Hnd].
  destruct (IH (S k) (update x (set_id (k + 0)) h) Hnd)
    as (h' & E & Ho & Hid & Hout).
  { intros y Hy. rewrite length_update. apply Hrange. by right. }
  exists h'. split_and!.
  - cbn [imap forM_]. unfold bind at 1, modify at 1.
    rewrite <- E. f_equal. apply imap_ext. intros i y _. cbn. f_equal. lia.
  - eapply ids_only_trans; [apply ids_only_update|done].
  - intros [|i] y Hi.
    + injection Hi as <-. rewrite (Hout x Hx).
      rewrite node_at_update by (apply Hrange; left). done.
    + cbn in Hi. rewrite (Hid i y Hi). lia.
  - intros y Hy. rewrite not_elem_of_cons in Hy. destruct Hy as [Hne Hy].
    rewrite (Hout y Hy). by apply node_at_update_ne.
Qed.

Lemma reassignNodeIDs_tree fuel t h rt :
  is_tree h rt → root t = rroot rt → depth rt ≤ fuel →
  _nodeList t = None ∨ _nodeList t = Some (flatten rt) →
  ∃ h',
    reassignNodeIDs fuel t h
    = Ok (set__nodeList (Some (flatten rt)) t, h')
    ∧ ids_only h h'
    ∧ (∀ i x, flatten rt !! i = Some x → id (node_at h' x) = i)
    ∧ (∀ y, y ∉ flatten rt → node_at h' y = node_at h y).
Proof.
  intros [Hwf Hnd] Hroot Hd Hcache.
  assert (nodeList fuel t h
          = Ok ((flatten rt, set__nodeList (Some (flatten rt)) t), h)) as Enl.
  { destruct Hcache as [Hc|Hc]; [by eapply nodeList_fresh|].
    unfold nodeList. rewrite Hc. unfold ret. do 3 f_equal.
    destruct t; cbn in *; by subst. }
  destruct (setIds_spec (flatten rt) 0 h Hnd) as (h' & E & Ho & Hid & Hout).
  { intros x Hx. by eapply wf_at_in_range. }
  exists h'. split_and!; try done.
  unfold reassignNodeIDs. rewrite (bind_Ok _ _ _ _ _ Enl).
  unfold bind at 1. cbn [Nat.add] in E. by rewrite E.
Qed.

(** X10: [reassignNodeIDs] on a tree numbers the nodes 0, 1, 2, ... in
    the order of the pre-order node list, and changes nothing else in
    the store. *)
Theorem reassignNodeIDs_preorder fuel t h rt :
  is_tree h rt → root t = rroot rt → depth rt ≤ fuel →
  _nodeList t = None ∨ _nodeList t = Some (flatten rt) →
  ∃ t' h',
    reassignNodeIDs fuel t h = Ok (t', h')
    ∧ ids_only h h'
    ∧ (λ x, id (node_at h' x)) <$> flatten rt = seq 0 (length (flatten rt))
    ∧ (∀ y, y ∉ flatten rt → node_at h' y = node_at h y).
Proof.
  intros Htree Hroot Hd Hcache.
  destruct (reassignNodeIDs_tree fuel t h rt Htree Hroot Hd Hcache)
    as (h' & E & Ho & Hid & Hout).
  eexists _, h'. split_and!; try done.
  apply list_eq. intros i. rewrite list_lookup_fmap.
  destruct (flatten rt !! i) as [x|] eqn:Ei; cbn.
  - rewrite (Hid i x Ei). symmetry. apply lookup_seq. split; [done|].
    by eapply lookup_lt_Some.
  - symmetry. apply lookup_ge_None_2. rewrite length_seq.
    by apply lookup_ge_None_1.
Qed.


(** ** The lexer: what it rejects *)

Import Lexer.

(** Evaluates the string literals of the statement at hand. *)
Ltac eval_str :=
  repeat match goal with
  | |- context [str ?s] =>
      let l := eval vm_compute in (str s) in change (str s) with l
  | |- context [cu ?c] =>
      let l := eval vm_compute in (cu c) in change (cu c) with l
  | H : context [str ?s] |- _ =>
      let l := eval vm_compute in (str s) in change (str s) with l in H
  | H : context [cu ?c] |- _ =>
      let l := eval vm_compute in (cu c) in change (cu c) with l in H
  end.

Lemma firstMatch_None rules lexMode s :
  firstMatch rules lexMode s = None →
  ∀ r, r ∈ rules → rule_mode r = None ∨ rule_mode r = Some lexMode →
       rule_match r s = None.
Proof.
  induction rules as [|r0 rules IH]; intros Hf r Hr Hm;
    [by apply elem_of_nil in Hr|].
  cbn [firstMatch] in Hf. apply elem_of_cons in Hr as [->|Hr].
  - rewrite bool_decide_eq_true_2 in Hf by done.
    by destruct (rule_match r0 s).
  - apply IH; [|done..]. case_bool_decide; [|done].
    by destruct (rule_match r0 s).
Qed.

Lemma matchLiteral_char (c : N) rest :
  matchLiteral [c] (c :: rest) = Some 1.
Proof. unfold matchLiteral. cbn. by rewrite N.eqb_refl. Qed.

Lemma tokens_literal k (c : N) :
  mkRule k (matchLiteral [c]) false None ∈ tokens →
  ∀ lexMode rest, firstMatch tokens lexMode (c :: rest) ≠ None.
Proof.
  intros Hin lexMode rest Hf.
  pose proof (firstMatch_None _ _ _ Hf _ Hin (or_introl eq_refl)) as H.
  cbn [rule_match] in H. by rewrite matchLiteral_char in H.
Qed.

(** Where no rule applies, the input starts with an opening bracket
    that no ampersand follows. *)
Lemma firstMatch_fails lexMode c rest :
  lexMode = 0 ∨ lexMode = 1 →
  firstMatch tokens lexMode (c :: rest) = None →
  c = cu "[" ∧ rest !! 0 ≠ Some (cu "&").
Proof.
  intros Hmode Hf.
  assert (∀ k, mkRule k (matchLiteral [c]) false None ∈ tokens → False)
    as Hlit.
  { intros k Hin. by apply (tokens_literal k c Hin lexMode rest). }
  assert (c = cu "[") as ->.
  { destruct Hmode as [-> | ->].
    - assert (matchBareDefault (c :: rest) = None) as Hb.
      { apply (firstMatch_None _ _ _ Hf
                 (mkRule STRING matchBareDefault true (Some 0)));
          [unfold tokens; repeat constructor|by right]. }
      unfold matchBareDefault in Hb. cbn [spanLength] in Hb.
      destruct (charIn _ c) eqn:Ec.
      2:{ cbn [negb] in Hb. by repeat case_match. }
      unfold charIn in Ec. apply bool_decide_eq_true in Ec. eval_str.
      repeat (apply elem_of_cons in Ec as [->|Ec]);
        first [ done
              | by apply elem_of_nil in Ec
              | exfalso; eapply Hlit; unfold tokens; eval_str;
                repeat constructor ].
    - assert (matchBareAnnotation (c :: rest) = None) as Hb.
      { apply (firstMatch_None _ _ _ Hf
                 (mkRule STRING matchBareAnnotation true (Some 1)));
          [unfold tokens; repeat constructor|by right]. }
      unfold matchBareAnnotation in Hb. cbn [spanLength] in Hb.
      destruct (charIn _ c) eqn:Ec.
      2:{ cbn [negb] in Hb. done. }
      unfold charIn in Ec. apply bool_decide_eq_true in Ec. eval_str.
      repeat (apply elem_of_cons in Ec as [->|Ec]);
        first [ done
              | by apply elem_of_nil in Ec
              | exfalso; eapply Hlit; unfold tokens; eval_str;
                repeat constructor ]. }
  split; [done|].
  assert (matchLiteral (str "[&") (cu "[" :: rest) = None) as Ha.
  { apply (firstMatch_None _ _ _ Hf
             (mkRule OPENA (matchLiteral (str "[&")) false None));
      [unfold tokens; repeat constructor|by left]. }
  unfold matchLiteral in Ha. eval_str.
  destruct rest as [|c2 rest']; [done|]. cbn. intros [= ->].
  by cbn in Ha.
Qed.

Lemma nextMode_01 k lexMode :
  lexMode = 0 ∨ lexMode = 1 → nextMode k lexMode = 0 ∨ nextMode k lexMode = 1.
Proof. destruct k; cbn; auto. Qed.

Lemma lexLoop_outcome rest : ∀ skip idx lexMode tokenList,
  lexMode = 0 ∨ lexMode = 1 →
  (∃ out, lexLoop rest skip idx lexMode tokenList = Ok out)
  ∨ (∃ j, lexLoop rest skip idx lexMode tokenList
          = Throw (ParseException (ErrorReadingCharacter (cu "[") (idx + j)))
        ∧ rest !! j = Some (cu "[")
        ∧ rest !! S j ≠ Some (cu "&")).
Proof.
  induction rest as [|c rest IH]; intros skip idx lexMode tokenList Hmode;
    [left; by eexists|].
  assert (∀ skip' lexMode' tokenList',
            lexMode' = 0 ∨ lexMode' = 1 →
            (∃ out, lexLoop rest skip' (S idx) lexMode' tokenList' = Ok out)
            ∨ (∃ j, lexLoop rest skip' (S idx) lexMode' tokenList'
                    = Throw (ParseException
                               (ErrorReadingCharacter (cu "[") (idx + j)))
                  ∧ (c :: rest) !! j = Some (cu "[")
                  ∧ (c :: rest) !! S j ≠ Some (cu "&"))) as Hnext.
  { intros skip' lexMode' tokenList' Hmode'.
    destruct (IH skip' (S idx) lexMode' tokenList' Hmode')
      as [?|(j & E & ? & ?)]; [by left|].
    right. exists (S j). split; [|done].
    rewrite E. do 3 f_equal. lia. }
  cbn [lexLoop]. destruct skip as [|skip']; [|by apply Hnext].
  destruct (isWhitespace c); [by apply Hnext|].
  destruct (firstMatch tokens lexMode (c :: rest)) as [[r len]|] eqn:Ef.
  - by apply Hnext, nextMode_01.
  - apply firstMatch_fails in Ef as [-> Hamp]; [|done].
    right. exists 0. rewrite Nat.add_0_r. done.
Qed.

(** X12: the lexer fails on no character but an opening square bracket,
    and on one only when no ampersand follows it: every input either
    lexes to a token list, or the exception names the character "[" and
    a position of the input that holds a "[" whose successor is not
    "&". *)
Theorem doLex_fails_only_on_bracket newick :
  (∃ tokenList, doLex newick = Ok tokenList)
  ∨ (∃ j, doLex newick
          = Throw (ParseException (ErrorReadingCharacter (cu "[") j))
        ∧ newick !! j = Some (cu "[")
        ∧ newick !! S j ≠ Some (cu "&")).
Proof. apply (lexLoop_outcome newick 0 0 0 []). by left. Qed.

(** ** The lexer: labels without quotes *)

Lemma lexLoop_skip rest : ∀ skip idx lexMode tokenList,
  length rest ≤ skip →
  lexLoop rest skip idx lexMode tokenList = Ok tokenList.
Proof.
  induction rest as [|c rest IH]; intros skip idx lexMode tokenList Hlen;
    [done|].
  cbn [length] in Hlen. destruct skip as [|skip]; [lia|].
  cbn [lexLoop]. apply IH. lia.
Qed.

Lemma spanLength_all P s : allChars P s = true → spanLength P s = length s.
Proof.
  induction s as [|c s IH]; [done|]. cbn. destruct (P c); [|done].
  cbn. intros H. by rewrite IH.
Qed.

Lemma dropString_all s : dropString (length s) s = [].
Proof. by induction s. Qed.

Lemma takeString_all s : takeString (length s) s = s.
Proof. induction s as [|c s IH]; [done|]. cbn. by rewrite IH. Qed.

Lemma undouble_absent q s :
  allChars (λ c, negb (N.eqb c q)) s = true → undouble q s = s.
Proof.
  induction s as [|c s IH]; [done|]. cbn [allChars undouble].
  intros [Hc Hs]%andb_prop. destruct s as [|c2 r]; [done|].
  apply negb_true_iff in Hc. rewrite Hc. cbn [andb]. by rewrite IH.
Qed.

Lemma allChars_impl (P Q : N → bool) s :
  (∀ c, P c = true → Q c = true) → allChars P s = true → allChars Q s = true.
Proof.
  intros HPQ. induction s as [|c s IH]; [done|]. cbn.
  intros [Hc Hs]%andb_prop. by rewrite (HPQ _ Hc), IH.
Qed.

Lemma plainChar_not c q :
  q ∈ str ",():;[]#'" ++ [dquote] →
  plainChar c = true → N.eqb c q = false.
Proof.
  intros Hq Hc. apply N.eqb_neq. intros ->.
  unfold plainChar, charIn in Hc. by rewrite bool_decide_eq_true_2 in Hc.
Qed.

Lemma matchLiteral_other q lit c s :
  c ≠ q → matchLiteral (q :: lit) (c :: s) = None.
Proof.
  intros Hne. unfold matchLiteral. cbn [startsWith].
  by rewrite (proj2 (N.eqb_neq q c)).
Qed.

Lemma matchQuoted_other q c s : c ≠ q → matchQuoted q (c :: s) = None.
Proof.
  intros Hne. unfold matchQuoted. by rewrite (proj2 (N.eqb_neq c q)).
Qed.

(** X13: a text of ordinary characters -- none of [,():;[]#] and no
    quote; blanks are allowed inside and at the end -- that does not
    start with a blank or with one of the annotation characters [{}=] is
    one [STRING] token at position 0 whose text is the input, character
    for character. *)
Theorem doLex_plain_label c s :
  isWhitespace c = false →
  c ∉ str "{}=" →
  allChars plainChar (c :: s) = true →
  doLex (c :: s) = Ok [(STRING, c :: s, 0)].
Proof.
  intros Hws Hc Hall.
  pose proof Hall as [Hpc Hps]%andb_prop.
  assert (matchBareDefault (c :: s) = Some (S (length s))) as Hb.
  { unfold matchBareDefault.
    rewrite (spanLength_all _ (c :: s)).
    - cbn [length dropString]. by rewrite dropString_all.
    - revert Hall. apply allChars_impl. intros x Hx.
      unfold plainChar, charIn in *.
      apply negb_true_iff, bool_decide_eq_false in Hx.
      apply negb_true_iff, bool_decide_eq_false.
      intros Hin. apply Hx. revert Hin. eval_str. clear.
      rewrite !elem_of_app, !elem_of_cons, !elem_of_nil. tauto. }
  assert (∀ q, q ∈ str "():,;[]{}=#'" ++ [dquote] → c ≠ q) as Hne.
  { intros q Hq ->. unfold plainChar, charIn in Hpc.
    apply negb_true_iff, bool_decide_eq_false in Hpc.
    revert Hq Hc Hpc. eval_str. unfold dquote. clear.
    rewrite !elem_of_app, !elem_of_cons, !elem_of_nil. tauto. }
  assert (firstMatch tokens 0 (c :: s)
          = Some (mkRule STRING matchBareDefault true (Some 0),
                  S (length s))) as Hf.
  { unfold tokens. cbn [firstMatch rule_mode rule_match].
    rewrite !bool_decide_eq_true_2 by (by left).
    rewrite bool_decide_eq_true_2 by (by right).
    assert (∀ q, q ∈ str "():,;[]{}=#'" ++ [dquote] → c ≠ q) as Hne'
      by exact Hne.
    revert Hne'. eval_str. unfold dquote. intros Hne'.
    rewrite !matchLiteral_other
      by (apply Hne'; rewrite !elem_of_app, !elem_of_cons; tauto).
    rewrite !matchQuoted_other
      by (apply Hne'; rewrite !elem_of_app, !elem_of_cons; tauto).
    by rewrite Hb. }
  unfold doLex. cbn [lexLoop]. rewrite Hws, Hf.
  cbn [rule_value rule_kind andb pred nextMode app].
  rewrite bool_decide_eq_true_2 by done.
  rewrite lexLoop_skip by done.
  cbn [takeString]. rewrite takeString_all. do 3 f_equal.
  assert (∀ q, q ∈ [cu "'"; dquote] →
               allChars (λ x, negb (N.eqb x q)) (c :: s) = true) as Hq.
  { intros q Hin. revert Hall. apply allChars_impl. intros x Hx.
    rewrite (plainChar_not x q); [done| |done].
    revert Hin. eval_str. unfold dquote. clear.
    rewrite !elem_of_app, !elem_of_cons, !elem_of_nil. tauto. }
  unfold stringValue, stripQuotes.
  rewrite (proj2 (N.eqb_neq c dquote)), (proj2 (N.eqb_neq c (cu "'")));
    [|apply Hne; eval_str; unfold dquote;
      rewrite !elem_of_app, !elem_of_cons; tauto..].
  rewrite (undouble_absent (cu "'")) by (apply Hq; by left).
  by rewrite (undouble_absent dquote) by (apply Hq; right; left).
Qed.

Lemma splitLast_snoc s q : splitLast (s ++ [q]) = Some (s, q).
Proof.
  induction s as [|c s IH]; [done|].
  cbn [app splitLast]. rewrite IH. by destruct s.
Qed.

Lemma quotedBody_closing q s : ∀ items,
  allChars (λ c, negb (N.eqb c q)) s = true →
  0 < items + length s →
  quotedBody q items (s ++ [q]) = Some (S (length s)).
Proof.
  induction s as [|c s IH]; intros items Hall Hlen.
  - cbn [app quotedBody]. rewrite N.eqb_refl. cbn in Hlen.
    by destruct items; [lia|].
  - cbn [allChars] in Hall. apply andb_prop in Hall as [Hc Hs].
    apply negb_true_iff in Hc.
    cbn [app quotedBody]. rewrite Hc, IH; [done|done|lia].
Qed.

(** X14: quoting protects a label.  A non-empty text without quotes and
    line terminators, put between two single or two double quotes, is
    one [STRING] token whose text is the text between the quotes --
    whatever else it holds: commas, parentheses, colons, brackets. *)
Theorem doLex_quoted_label q s :
  q = cu "'" ∨ q = dquote →
  s ≠ [] →
  allChars quotableChar s = true →
  doLex (q :: s ++ [q]) = Ok [(STRING, s, 0)].
Proof.
  intros Hq Hs Hall.
  assert (∀ q', q' = cu "'" ∨ q' = dquote →
            allChars (λ x, negb (N.eqb x q')) s = true) as Hno.
  { intros q' Hq'. revert Hall. apply allChars_impl. intros x Hx.
    unfold quotableChar, charIn in Hx.
    apply andb_prop in Hx as [Hx _].
    apply negb_true_iff, bool_decide_eq_false in Hx.
    apply negb_true_iff, N.eqb_neq. intros ->. apply Hx.
    rewrite !elem_of_cons. tauto. }
  assert (allChars (λ c, negb (isLineTerminator c)) s = true) as Hlt.
  { revert Hall. apply allChars_impl. intros x Hx.
    unfold quotableChar in Hx. by apply andb_prop in Hx as [_ Hx]. }
  assert (0 < length s) as Hpos.
  { destruct s; [done|cbn; lia]. }
  assert (matchQuoted q (q :: s ++ [q]) = Some (S (S (length s)))) as Hm.
  { unfold matchQuoted. rewrite N.eqb_refl.
    rewrite quotedBody_closing; [done|by apply Hno|lia]. }
  assert (isWhitespace q = false) as Hws.
  { by destruct Hq as [-> | ->]. }
  assert (∃ r, firstMatch tokens 0 (q :: s ++ [q])
               = Some (r, S (S (length s)))
               ∧ rule_kind r = STRING ∧ rule_value r = true)
    as (r & Hf & Hk & Hv).
  { unfold tokens. cbn [firstMatch rule_mode rule_match].
    rewrite !bool_decide_eq_true_2 by (by left).
    eval_str. unfold dquote in *.
    destruct Hq as [-> | ->].
    - rewrite !matchLiteral_other by done.
      rewrite (matchQuoted_other 34%N) by done.
      rewrite Hm. by eexists.
    - rewrite !matchLiteral_other by done.
      rewrite Hm. by eexists. }
  unfold doLex. cbn [lexLoop]. rewrite Hws, Hf, Hk, Hv.
  cbn [andb pred nextMode app]. rewrite bool_decide_eq_true_2 by done.
  rewrite lexLoop_skip by (rewrite length_app; cbn; lia).
  replace (takeString (S (S (length s))) (q :: s ++ [q]))
    with (q :: s ++ [q]).
  2:{ rewrite <- (takeString_all (q :: _)) at 1.
      cbn [length]. rewrite length_app. cbn [length].
      by rewrite Nat.add_1_r. }
  do 3 f_equal. unfold stringValue.
  assert (stripQuotes (cu "'") (stripQuotes dquote (q :: s ++ [q])) = s)
    as ->.
  { destruct Hq as [-> | ->].
    - assert (N.eqb (cu "'") dquote = false) as Hd by done.
      unfold stripQuotes at 2. rewrite Hd.
      unfold stripQuotes. rewrite N.eqb_refl, splitLast_snoc.
      by rewrite N.eqb_refl, Hlt.
    - unfold stripQuotes at 2. rewrite N.eqb_refl, splitLast_snoc.
      rewrite N.eqb_refl, Hlt. cbn [andb].
      unfold stripQuotes. destruct s as [|c s']; [done|].
      pose proof (Hno (cu "'") (or_introl eq_refl)) as Hc.
      cbn [allChars] in Hc. apply andb_prop in Hc as [Hc _].
      apply negb_true_iff in Hc. by rewrite Hc. }
  rewrite (undouble_absent (cu "'")) by (apply Hno; by left).
  by rewrite (undouble_absent dquote) by (apply Hno; by right).
Qed.

(** ** The parser: its outcomes *)

Section ParserOutcome.

Variable Number : jsstring → JS.num.
Variable tokenList : list Token.

Lemma advances_bind {A B} (m : M PState A) (k : A → M PState B) s :
  advances tokenList s (m s) →
  (∀ a s1, m s = Ok (a, s1) → idx s ≤ idx s1 ≤ length tokenList →
           advances tokenList s1 (k a s1)) →
  advances tokenList s (bind m k s).
Proof.
  unfold bind. destruct (m s) as [[a s1]|e|]; [|done..].
  cbn. intros H1 H2. specialize (H2 a s1 eq_refl H1).
  destruct (k a s1) as [[b s2]|e|]; [|done..]. cbn in *. lia.
Qed.

Lemma advances_ret {A} (a : A) s :
  idx s ≤ length tokenList → advances tokenList s (ret a s).
Proof. cbn. lia. Qed.

Lemma acceptToken_true token mandatory s s' :
  acceptToken tokenList token mandatory s = Ok (true, s') →
  s' = mkPS (S (idx s)) (thisNodeID s) (ps_heap s)
  ∧ idx s < length tokenList.
Proof.
  unfold acceptToken. destruct (tokenList !! idx s) as [t|] eqn:Ht.
  - apply lookup_lt_Some in Ht. repeat case_match; naive_solver.
  - by case_match.
Qed.

Lemma acceptToken_false token mandatory s s' :
  acceptToken tokenList token mandatory s = Ok (false, s') → s' = s.
Proof.
  unfold acceptToken. destruct (tokenList !! idx s) as [t|];
    repeat case_match; naive_solver.
Qed.

Lemma acceptToken_mandatory token s b s' :
  acceptToken tokenList token true s = Ok (b, s') → b = true.
Proof.
  unfold acceptToken. destruct (tokenList !! idx s) as [t|];
    repeat case_match; naive_solver.
Qed.

Lemma acceptToken_advances token mandatory s :
  idx s ≤ length tokenList →
  advances tokenList s (acceptToken tokenList token mandatory s).
Proof.
  intros Hs. unfold acceptToken.
  destruct (tokenList !! idx s) as [t|] eqn:Ht.
  - apply lookup_lt_Some in Ht. repeat case_match; cbn in *; lia.
  - case_match; cbn; [done|lia].
Qed.

Lemma lastText_Ok s :
  0 < idx s ≤ length tokenList →
  ∃ text, lastText tokenList s = Ok (text, s).
Proof.
  intros Hs. unfold lastText.
  destruct (lookup_lt_is_Some_2 tokenList (pred (idx s))) as [t ->]; [lia|].
  by eexists.
Qed.

Lemma onNodes_advances f s :
  idx s ≤ length tokenList → advances tokenList s (onNodes f s).
Proof. cbn. lia. Qed.

(** After a token has been taken, the text of that token is there. *)
Local Ltac taken E :=
  apply acceptToken_true in E as [-> ?].

Local Ltac step :=
  first
    [ apply advances_ret; cbn in *; lia
    | apply onNodes_advances; cbn in *; lia
    | apply acceptToken_advances; cbn in *; lia
    | apply advances_bind;
      [|let a := fresh "a" in let s := fresh "s" in
        let E := fresh "E" in let Hi := fresh "Hi" in
        intros a s E Hi] ].

Lemma lastText_bind {B} (k : jsstring → M PState B) s :
  0 < idx s ≤ length tokenList →
  (∀ text, advances tokenList s (k text s)) →
  advances tokenList s (bind (lastText tokenList) k s).
Proof.
  intros Hs Hk. destruct (lastText_Ok s Hs) as [text E].
  rewrite (bind_Ok _ _ _ _ _ E). apply Hk.
Qed.

Lemma ruleQW_advances n :
  (∀ s, idx s ≤ length tokenList → length tokenList - idx s < n →
        advances tokenList s (ruleQ tokenList n s))
  ∧ (∀ s, idx s ≤ length tokenList → length tokenList - idx s < n →
          advances tokenList s (ruleW tokenList n s)).
Proof.
  induction n as [|n [IHQ IHW]]; [split; intros; lia|].
  split; intros s Hs Hn; cbn [ruleQ ruleW].
  - step; [step|]. destruct a.
    + taken E. apply lastText_bind; [cbn in *; lia|]. intros text. step.
    + apply acceptToken_false in E as ->.
      step; [step|]. destruct a.
      * taken E. step; [apply IHQ; cbn in *; lia|].
        step; [apply IHW; cbn in *; lia|].
        step; [step|]. step.
      * apply acceptToken_false in E as ->. step.
  - step; [step|]. destruct a.
    + taken E. step; [apply IHQ; cbn in *; lia|].
      step; [apply IHW; cbn in *; lia|]. step.
    + apply acceptToken_false in E as ->. step.
Qed.

Lemma ruleD_advances n node s :
  idx s ≤ length tokenList → length tokenList - idx s ≤ n →
  advances tokenList s (ruleD tokenList n node s).
Proof.
  intros Hs Hn. unfold ruleD.
  step; [step|]. pose proof (acceptToken_mandatory _ _ _ _ E) as ->.
  taken E. apply lastText_bind; [cbn in *; lia|]. intros key.
  step; [step|]. pose proof (acceptToken_mandatory _ _ _ _ E) as ->.
  taken E. step; [apply ruleQW_advances; cbn in *; lia|].
  destruct (isStringOrStringArrayOrNull a); step.
Qed.

Lemma ruleE_advances n : ∀ node s,
  idx s ≤ length tokenList → length tokenList - idx s < n →
  advances tokenList s (ruleE tokenList n node s).
Proof.
  induction n as [|n IH]; intros node s Hs Hn; [lia|]. cbn [ruleE].
  step; [step|]. destruct a.
  - taken E. step; [apply ruleD_advances; cbn in *; lia|].
    apply IH; cbn in *; lia.
  - apply acceptToken_false in E as ->. step.
Qed.

Lemma ruleA_advances n node s :
  idx s ≤ length tokenList → length tokenList - idx s < n →
  advances tokenList s (ruleA tokenList n node s).
Proof.
  intros Hs Hn. unfold ruleA. step; [step|]. destruct a.
  - taken E. step; [apply ruleD_advances; cbn in *; lia|].
    step; [apply ruleE_advances; cbn in *; lia|].
    step; [step|]. step.
  - apply acceptToken_false in E as ->. step.
Qed.

Lemma suffixRun_le kinds : suffixRun kinds ≤ length kinds.
Proof.
  enough (suffixRun kinds ≤ length kinds
          ∧ ∀ k, suffixRun (k :: kinds) ≤ S (length kinds)) as [H _] by done.
  induction kinds as [|a l [IH1 IH2]].
  - split; [done|]. intros k. destruct k; cbn in *; lia.
  - split; [apply IH2|]. intros k. specialize (IH2 a).
    destruct k; try (cbn in *; lia). destruct a; cbn [suffixRun length] in *; lia.
Qed.

Lemma ruleR_advances n s :
  idx s ≤ length tokenList → length tokenList - idx s < n →
  advances tokenList s (ruleR tokenList n s).
Proof.
  intros Hs Hn. rewrite ruleR_spec by done. cbn.
  pose proof (suffixRun_le (tok_kind <$> drop (idx s) tokenList)) as Hle.
  rewrite length_fmap, length_drop in Hle. lia.
Qed.

Lemma ruleB_advances n node s :
  idx s ≤ length tokenList → length tokenList - idx s < n →
  advances tokenList s (ruleB Number tokenList n node s).
Proof.
  intros Hs Hn. unfold ruleB. step; [step|]. destruct a.
  - taken E. step; [step|]. pose proof (acceptToken_mandatory _ _ _ _ E) as ->.
    taken E. apply lastText_bind; [cbn in *; lia|]. intros text.
    step.
    { destruct (JS.isNaN (Number text)); [done|step]. }
    step; [apply ruleR_advances; cbn in *; lia|].
    apply ruleA_advances; cbn in *; lia.
  - apply acceptToken_false in E as ->. step.
Qed.

Lemma ruleL_advances node s :
  idx s ≤ length tokenList →
  advances tokenList s (ruleL tokenList node s).
Proof.
  intros Hs. unfold ruleL. step; [step|]. destruct a.
  - taken E. apply lastText_bind; [cbn in *; lia|]. intros text. step.
  - apply acceptToken_false in E as ->. step.
Qed.

Lemma ruleH_advances node s :
  idx s ≤ length tokenList →
  advances tokenList s (ruleH Number tokenList node s).
Proof.
  intros Hs. unfold ruleH. step; [step|]. destruct a.
  - taken E. step; [step|]. pose proof (acceptToken_mandatory _ _ _ _ E) as ->.
    taken E. apply lastText_bind; [cbn in *; lia|]. intros text. step.
  - apply acceptToken_false in E as ->. step.
Qed.

Lemma newNode_advances s :
  idx s ≤ length tokenList → advances tokenList s (newNode s).
Proof. unfold newNode, alloc. cbn. lia. Qed.

Lemma newNode_idx s r s' : newNode s = Ok (r, s') → idx s' = idx s.
Proof. unfold newNode, alloc. by intros [= <- <-]. Qed.

(** The budget of the three mutually recursive rules: three calls nest
    between two tokens. *)
Lemma ruleNCM_advances n :
  (∀ parent s, idx s ≤ length tokenList →
     3 * (length tokenList - idx s) + 3 ≤ n →
     advances tokenList s (ruleN Number tokenList n parent s))
  ∧ (∀ node s, idx s ≤ length tokenList →
     3 * (length tokenList - idx s) + 2 ≤ n →
     advances tokenList s (ruleC Number tokenList n node s))
  ∧ (∀ node s, idx s ≤ length tokenList →
     3 * (length tokenList - idx s) + 1 ≤ n →
     advances tokenList s (ruleM Number tokenList n node s)).
Proof.
  induction (lt_wf n) as [n _ IH].
  assert (∀ m parent s, m < n → idx s ≤ length tokenList →
            3 * (length tokenList - idx s) + 3 ≤ m →
            advances tokenList s (ruleN Number tokenList m parent s)) as IHN.
  { intros m parent s Hm. by apply (IH m Hm). }
  assert (∀ m node s, m < n → idx s ≤ length tokenList →
            3 * (length tokenList - idx s) + 2 ≤ m →
            advances tokenList s (ruleC Number tokenList m node s)) as IHC.
  { intros m node s Hm. by apply (IH m Hm). }
  assert (∀ m node s, m < n → idx s ≤ length tokenList →
            3 * (length tokenList - idx s) + 1 ≤ m →
            advances tokenList s (ruleM Number tokenList m node s)) as IHM.
  { intros m node s Hm. by apply (IH m Hm). }
  clear IH. destruct n as [|n]; [repeat split; intros; lia|].
  repeat split.
  - intros parent s Hs Hn. cbn [ruleN].
    step; [by apply newNode_advances|].
    apply newNode_idx in E as Ei.
    step. { destruct parent; step. }
    step. { apply IHC; [lia|lia|]. cbn in *. lia. }
    step. { apply ruleL_advances. lia. }
    step. { apply ruleH_advances. lia. }
    step. { apply ruleA_advances; lia. }
    step. { apply ruleB_advances; lia. }
    step.
  - intros node s Hs Hn. cbn [ruleC]. step; [step|]. destruct a.
    + taken E. step. { apply IHN; cbn in *; lia. }
      step. { apply IHM; cbn in *; lia. }
      step; [step|]. step.
    + apply acceptToken_false in E as ->. step.
  - intros node s Hs Hn. cbn [ruleM]. step; [step|]. destruct a.
    + taken E. step. { apply IHN; cbn in *; lia. }
      apply IHM; cbn in *; lia.
    + apply acceptToken_false in E as ->. step.
Qed.

Lemma ruleT_advances s :
  idx s ≤ length tokenList →
  3 * (length tokenList - idx s) + 3 ≤ parseBudget tokenList →
  advances tokenList s (ruleT Number tokenList (parseBudget tokenList) s).
Proof.
  intros Hs Hn. unfold ruleT.
  step. { by apply ruleNCM_advances. }
  step; [step|].
  step. { destruct a0; step. }
  destruct a1; [done|step].
Qed.

End ParserOutcome.

(** X15: [doParse] ends on every token list, with a node or with a
    [ParseException]: the rules never read a token that is not there, and
    the budget of the embedding is never used up. *)
Theorem doParse_outcome Number tokenList h :
  (∃ rootNode h', doParse Number tokenList h = Ok (rootNode, h'))
  ∨ (∃ m, doParse Number tokenList h = Throw (ParseException m)).
Proof.
  unfold doParse.
  pose proof (ruleT_advances Number tokenList (mkPS 0 0 h)) as H.
  cbn [idx] in H. specialize (H ltac:(lia)).
  unfold parseBudget in H at 1. specialize (H ltac:(lia)).
  destruct (ruleT _ _ _ _) as [[r s]|[]|]; try done.
  - left. by eexists _, _.
  - right. by eexists.
Qed.

(** ** The parser: the store it builds *)

Lemma decorates_refl node h : decorates node h h.
Proof. by repeat split. Qed.

Lemma decorates_trans node h1 h2 h3 :
  decorates node h1 h2 → decorates node h2 h3 → decorates node h1 h3.
Proof.
  intros (L1 & O1 & I1 & C1 & P1 & H1) (L2 & O2 & I2 & C2 & P2 & H2).
  split_and!; try congruence. intros x Hx. by rewrite O2, O1.
Qed.

Lemma decorates_update node f h :
  (∀ nd, id (f nd) = id nd ∧ children (f nd) = children nd
         ∧ parent (f nd) = parent nd ∧ height (f nd) = height nd) →
  decorates node h (update node f h).
Proof.
  intros Hf. split; [apply length_update|].
  split; [intros x Hx; by apply node_at_update_ne|].
  destruct (decide (node < length h)) as [Hlt|Hge].
  - rewrite node_at_update by done. apply Hf.
  - unfold node_at, update.
    rewrite !list_lookup_total_alt, list_lookup_alter_eq.
    by rewrite lookup_ge_None_2 by lia.
Qed.

Lemma wf_at_grow h h' t : ∀ p,
  length h ≤ length h' →
  (∀ y, y ∈ flatten t → node_at h' y = node_at h y) →
  wf_at h p t → wf_at h' p t.
Proof.
  induction t as [r cs IH] using rtree_ind'. intros p Hlen Hsame.
  rewrite !wf_at_unfold. intros (Hr & Hp & Hc & Hcs).
  rewrite (Hsame r) by apply (rroot_in_flatten (RT r cs)).
  split_and!; [lia|done..|].
  rewrite Forall_forall in *. intros c Hin. apply IH; [done..| |by apply Hcs].
  intros y Hy. apply Hsame. rewrite flatten_unfold. right.
  apply elem_of_flat_map. eauto.
Qed.

Section ParserShape.

Variable Number : jsstring → JS.num.
Variable tokenList : list Token.

(** The rule leaves the counter alone and touches [node] only, and on
    it no link. *)
Local Abbreviation decorated node s s' :=
  (thisNodeID s' = thisNodeID s ∧ decorates node (ps_heap s) (ps_heap s')).

Lemma decorated_trans node s1 s2 s3 :
  decorated node s1 s2 → decorated node s2 s3 → decorated node s1 s3.
Proof.
  intros [I1 D1] [I2 D2]. split; [congruence|by eapply decorates_trans].
Qed.

Lemma acceptToken_store token mandatory s b s' :
  acceptToken tokenList token mandatory s = Ok (b, s') →
  thisNodeID s' = thisNodeID s ∧ ps_heap s' = ps_heap s.
Proof.
  unfold acceptToken. intros H.
  destruct (tokenList !! idx s); repeat case_match; by simplify_eq.
Qed.

Lemma acceptToken_decorated node token mandatory s b s' :
  acceptToken tokenList token mandatory s = Ok (b, s') → decorated node s s'.
Proof.
  intros [? E]%acceptToken_store. split; [done|]. rewrite E.
  apply decorates_refl.
Qed.

Lemma onNodes_decorated node f s u s' :
  (∀ nd, id (f nd) = id nd ∧ children (f nd) = children nd
         ∧ parent (f nd) = parent nd ∧ height (f nd) = height nd) →
  onNodes (update node f) s = Ok (u, s') → decorated node s s'.
Proof.
  intros Hf [= <- <-]. cbn. split; [done|]. by apply decorates_update.
Qed.

Lemma ret_decorated {A} node (a b : A) s s' :
  ret a s = Ok (b, s') → decorated node s s'.
Proof. intros [= <- <-]. split; [done|apply decorates_refl]. Qed.

Lemma ruleQW_store n :
  (∀ s q s', ruleQ tokenList n s = Ok (q, s') →
     thisNodeID s' = thisNodeID s ∧ ps_heap s' = ps_heap s)
  ∧ (∀ s q s', ruleW tokenList n s = Ok (q, s') →
     thisNodeID s' = thisNodeID s ∧ ps_heap s' = ps_heap s).
Proof.
  induction n as [|n [IHQ IHW]]; [done|]. split; intros s q s' H; simpl in H.
  - apply bind_inv_Ok in H as ([] & s1 & E1 & H).
    + apply bind_inv_Ok in H as (x & s2 & E2 & H).
      apply lastText_state in E2 as ->. unfold ret in H. simplify_eq.
      by eapply acceptToken_store.
    + apply bind_inv_Ok in H as ([] & s2 & E2 & H).
      * inv_bind H. unfold ret in H. simplify_eq.
        apply acceptToken_store in E1 as [], E2 as [], E3 as [].
        apply IHQ in E as []. apply IHW in E0 as []. split; congruence.
      * unfold ret in H. simplify_eq.
        apply acceptToken_store in E1 as [], E2 as []. split; congruence.
  - apply bind_inv_Ok in H as ([] & s1 & E1 & H).
    + inv_bind H. unfold ret in H. simplify_eq.
      apply acceptToken_store in E1 as []. apply IHQ in E as [].
      apply IHW in E0 as []. split; congruence.
    + unfold ret in H. simplify_eq. by eapply acceptToken_store.
Qed.

Lemma ruleD_decorated n node s u s' :
  ruleD tokenList n node s = Ok (u, s') → decorated node s s'.
Proof.
  unfold ruleD. intros H. inv_bind H.
  apply (acceptToken_decorated node) in E, E1.
  apply lastText_state in E0 as ->.
  apply (proj1 (ruleQW_store n)) in E2 as [E2 E3].
  eapply decorated_trans; [exact E|]. eapply decorated_trans; [exact E1|].
  rewrite <- E2, <- E3.
  destruct (isStringOrStringArrayOrNull a2).
  - by eapply onNodes_decorated; [|exact H].
  - by eapply ret_decorated.
Qed.

Lemma ruleE_decorated n : ∀ node s u s',
  ruleE tokenList n node s = Ok (u, s') → decorated node s s'.
Proof.
  induction n as [|n IH]; [done|]. intros node s u s' H. simpl in H.
  apply bind_inv_Ok in H as ([] & s1 & E1 & H);
    apply (acceptToken_decorated node) in E1.
  - inv_bind H. apply ruleD_decorated in E. apply IH in H.
    eauto using decorated_trans.
  - apply (ret_decorated node) in H. eauto using decorated_trans.
Qed.

Lemma ruleA_decorated n node s u s' :
  ruleA tokenList n node s = Ok (u, s') → decorated node s s'.
Proof.
  unfold ruleA. intros H.
  apply bind_inv_Ok in H as ([] & s1 & E1 & H);
    apply (acceptToken_decorated node) in E1.
  - inv_bind H. apply ruleD_decorated in E. apply ruleE_decorated in E0.
    apply (acceptToken_decorated node) in E2. apply (ret_decorated node) in H.
    eauto using decorated_trans.
  - apply (ret_decorated node) in H. eauto using decorated_trans.
Qed.

Lemma ruleR_decorated n : ∀ node s u s',
  ruleR tokenList n s = Ok (u, s') → decorated node s s'.
Proof.
  induction n as [|n IH]; [done|]. intros node s u s' H. simpl in H.
  apply bind_inv_Ok in H as ([] & s1 & E1 & H);
    apply (acceptToken_decorated node) in E1.
  - inv_bind H. apply (acceptToken_decorated node) in E.
    apply (IH node) in H. eauto using decorated_trans.
  - apply (ret_decorated node) in H. eauto using decorated_trans.
Qed.

Lemma ruleB_decorated n node s u s' :
  ruleB Number tokenList n node s = Ok (u, s') → decorated node s s'.
Proof.
  unfold ruleB. intros H.
  apply bind_inv_Ok in H as ([] & s1 & E1 & H);
    apply (acceptToken_decorated node) in E1.
  - apply bind_inv_Ok in H as (b2 & s2 & E2 & H).
    apply bind_inv_Ok in H as (text & s3 & E3 & H).
    apply bind_inv_Ok in H as (u4 & s4 & E4 & H).
    apply bind_inv_Ok in H as (u5 & s5 & E5 & H).
    apply (acceptToken_decorated node) in E2.
    apply lastText_state in E3 as ->.
    apply (ruleR_decorated _ node) in E5. apply ruleA_decorated in H.
    assert (decorated node s2 s4) as E6.
    { destruct (JS.isNaN (Number text)); [done|].
      by eapply onNodes_decorated; [|exact E4]. }
    eauto using decorated_trans.
  - apply (ret_decorated node) in H. eauto using decorated_trans.
Qed.

Lemma ruleL_decorated node s u s' :
  ruleL tokenList node s = Ok (u, s') → decorated node s s'.
Proof.
  unfold ruleL. intros H.
  apply bind_inv_Ok in H as ([] & s1 & E1 & H);
    apply (acceptToken_decorated node) in E1.
  - inv_bind H. apply lastText_state in E as ->.
    eapply decorated_trans; [exact E1|].
    by eapply onNodes_decorated; [|exact H].
  - apply (ret_decorated node) in H. eauto using decorated_trans.
Qed.

Lemma ruleH_decorated node s u s' :
  ruleH Number tokenList node s = Ok (u, s') → decorated node s s'.
Proof.
  unfold ruleH. intros H.
  apply bind_inv_Ok in H as ([] & s1 & E1 & H);
    apply (acceptToken_decorated node) in E1.
  - inv_bind H. apply (acceptToken_decorated node) in E.
    apply lastText_state in E0 as ->.
    eapply decorated_trans; [exact E1|]. eapply decorated_trans; [exact E|].
    by eapply onNodes_decorated; [|exact H].
  - apply (ret_decorated node) in H. eauto using decorated_trans.
Qed.


Lemma allocated_range h h' i new x :
  allocated h h' i new → x ∈ new → length h ≤ x < length h'.
Proof.
  intros (Hn & Hl & _) Hx. rewrite Hn in Hx. apply elem_of_seq in Hx. lia.
Qed.

(** A node with its subtrees, once the rules for its label and its
    branch have run. *)
Lemma node_shape h i parent h3 h7 cs :
  let node := length h in
  let h1 := h ++ [new_Node i] in
  let h2 := match parent with
            | Some p => addChild p node h1
            | None => h1
            end in
  (∀ p, parent = Some p → p < length h) →
  Forall (wf_at h3 (Some node)) cs →
  allocated h2 h3 (S i) (flat_map flatten cs) →
  adopted h2 h3 (Some node) (rroot <$> cs) →
  decorates node h3 h7 →
  wf_at h7 parent (RT node cs)
  ∧ allocated h h7 i (flatten (RT node cs))
  ∧ adopted h h7 parent [node].
Proof.
  intros node h1 h2 Hp Hwf Hal Had (Dl & Do & Di & Dc & Dp & _).
  assert (length h2 = S (length h)) as Hl2.
  { unfold h2, h1, addChild. destruct parent;
      rewrite ?length_update, length_app; cbn; lia. }
  assert (node_at h2 node = set_parent parent (new_Node i)) as Hnode.
  { unfold h2. destruct parent as [p|].
    - specialize (Hp p eq_refl). unfold addChild.
      rewrite node_at_update by (rewrite length_update; unfold h1;
                                 rewrite length_app; cbn; lia).
      rewrite node_at_update_ne by (unfold node; lia).
      unfold h1, node. by rewrite node_at_alloc.
    - unfold h1, node. by rewrite node_at_alloc. }
  assert (adopted h h2 parent [node]) as Hold.
  { intros x Hx. unfold h2. destruct parent as [p|].
    - specialize (Hp p eq_refl). unfold addChild.
      rewrite node_at_update_ne by (unfold node; lia).
      destruct (decide (Some p = Some x)) as [[= ->]|Hne].
      + rewrite node_at_update by (unfold h1; rewrite length_app; cbn; lia).
        unfold h1. by rewrite node_at_alloc_old.
      + rewrite node_at_update_ne by congruence.
        unfold h1. by rewrite node_at_alloc_old.
    - rewrite decide_False by done. unfold h1. by rewrite node_at_alloc_old. }
  assert (node_at h3 node
          = set_children (rroot <$> cs) (set_parent parent (new_Node i)))
    as Hnode3.
  { rewrite (Had node) by lia. rewrite decide_True by done.
    by rewrite Hnode. }
  assert (∀ x, x ∈ flat_map flatten cs → S (length h) ≤ x < length h3) as Hnew.
  { intros x Hx. rewrite <- Hl2. by eapply allocated_range. }
  destruct Hal as (Hseq & Hlen & Hids). rewrite Hl2 in Hseq, Hlen.
  split_and!.
  - apply wf_at_unfold. rewrite Dl, Dp, Dc, Hnode3. split_and!; [lia|done..|].
    rewrite Forall_forall in *. intros c Hc.
    apply (wf_at_frame h3); [done| |by apply Hwf].
    intros y Hy. apply Do.
    assert (y ∈ flat_map flatten cs) as Hy' by (apply elem_of_flat_map; eauto).
    apply Hnew in Hy'. unfold node. lia.
  - rewrite flatten_unfold. split_and!.
    + cbn [length seq]. unfold node. by rewrite <- Hseq.
    + rewrite Dl, Hlen. cbn [length]. lia.
    + cbn [fmap list_fmap length seq]. f_equal.
      * by rewrite Di, Hnode3.
      * rewrite <- Hids. apply list_fmap_ext. intros ? y Hy%list_elem_of_lookup_2.
        rewrite Do; [done|]. apply Hnew in Hy. unfold node. lia.
  - intros x Hx. rewrite Do by (unfold node; lia).
    rewrite (Had x) by lia.
    rewrite (decide_False (P := Some node = Some x))
      by (unfold node; intros [=]; lia).
    by apply Hold.
Qed.

(** A further subtree in front of a forest below [node]. *)
Lemma forest_cons h h1 h2 node i rt cs :
  node < length h →
  wf_at h1 (Some node) rt →
  allocated h h1 i (flatten rt) →
  adopted h h1 (Some node) [rroot rt] →
  Forall (wf_at h2 (Some node)) cs →
  allocated h1 h2 (i + length (flatten rt)) (flat_map flatten cs) →
  adopted h1 h2 (Some node) (rroot <$> cs) →
  Forall (wf_at h2 (Some node)) (rt :: cs)
  ∧ allocated h h2 i (flat_map flatten (rt :: cs))
  ∧ adopted h h2 (Some node) (rroot <$> rt :: cs).
Proof.
  intros Hnode Hwf (S1 & L1 & I1) A1 Hcs (S2 & L2 & I2) A2.
  assert (∀ x, x ∈ flatten rt → node_at h2 x = node_at h1 x) as Hsame.
  { intros x Hx. rewrite S1 in Hx. apply elem_of_seq in Hx.
    rewrite (A2 x) by lia. rewrite decide_False; [done|]. intros [=]. lia. }
  split_and!.
  - constructor; [|done]. apply (wf_at_grow h1); [lia|done|done].
  - unfold allocated. cbn [flat_map]. rewrite length_app. split_and!.
    + rewrite seq_app. rewrite <- S1. f_equal. rewrite S2 at 1.
      f_equal. lia.
    + lia.
    + rewrite fmap_app, seq_app. f_equal; [|done].
      rewrite <- I1. apply list_fmap_ext.
      intros ? y Hy%list_elem_of_lookup_2. by rewrite Hsame.
  - intros x Hx. rewrite (A2 x) by lia. rewrite (A1 x) by done.
    destruct (decide (Some node = Some x)); [|done].
    cbn. by rewrite <- app_assoc.
Qed.

Lemma forest_nil h i node : 
  Forall (wf_at h (Some node)) []
  ∧ allocated h h i (flat_map flatten [])
  ∧ adopted h h (Some node) (rroot <$> []).
Proof.
  split_and!; [done|by repeat split; cbn; try lia|].
  intros x Hx. case_decide; [|done]. cbn. rewrite app_nil_r.
  by destruct (node_at h x).
Qed.

Lemma ruleNCM_shape n :
  (∀ parent s node s',
     ruleN Number tokenList n parent s = Ok (node, s') →
     (∀ p, parent = Some p → p < length (ps_heap s)) →
     ∃ rt, rroot rt = node
       ∧ wf_at (ps_heap s') parent rt
       ∧ allocated (ps_heap s) (ps_heap s') (thisNodeID s) (flatten rt)
       ∧ thisNodeID s' = thisNodeID s + length (flatten rt)
       ∧ adopted (ps_heap s) (ps_heap s') parent [node])
  ∧ (∀ node s u s',
       ruleC Number tokenList n node s = Ok (u, s') →
       node < length (ps_heap s) →
       ∃ cs, Forall (wf_at (ps_heap s') (Some node)) cs
         ∧ allocated (ps_heap s) (ps_heap s') (thisNodeID s)
                     (flat_map flatten cs)
         ∧ thisNodeID s' = thisNodeID s + length (flat_map flatten cs)
         ∧ adopted (ps_heap s) (ps_heap s') (Some node) (rroot <$> cs))
  ∧ (∀ node s u s',
       ruleM Number tokenList n node s = Ok (u, s') →
       node < length (ps_heap s) →
       ∃ cs, Forall (wf_at (ps_heap s') (Some node)) cs
         ∧ allocated (ps_heap s) (ps_heap s') (thisNodeID s)
                     (flat_map flatten cs)
         ∧ thisNodeID s' = thisNodeID s + length (flat_map flatten cs)
         ∧ adopted (ps_heap s) (ps_heap s') (Some node) (rroot <$> cs)).
Proof.
  induction n as [|n (IHN & IHC & IHM)]; [done|].
  assert (∀ node s b s1 u s3,
            acceptToken tokenList b false s = Ok (true, s1) →
            (ruleN Number tokenList n (Some node);; ruleM Number tokenList n node) s1
            = Ok (u, s3) →
            node < length (ps_heap s) →
            ∃ cs, Forall (wf_at (ps_heap s3) (Some node)) cs
              ∧ allocated (ps_heap s) (ps_heap s3) (thisNodeID s)
                          (flat_map flatten cs)
              ∧ thisNodeID s3 = thisNodeID s + length (flat_map flatten cs)
              ∧ adopted (ps_heap s) (ps_heap s3) (Some node) (rroot <$> cs))
    as Hforest.
  { intros node s b s1 u s3 E1 H Hnode.
    apply acceptToken_store in E1 as [Ei Eh]. rewrite <- Ei, <- Eh in *.
    apply bind_inv_Ok in H as (c & s2 & E2 & H).
    apply IHN in E2 as (rt & Hr & Hwf & Hal & Hid & Had);
      [|by intros ? [= <-]].
    apply IHM in H as (cs & Hcs & Hal2 & Hid2 & Had2).
    2:{ destruct Hal as (_ & -> & _). lia. }
    exists (rt :: cs). rewrite Hid in Hal2. subst c.
    destruct (forest_cons _ _ _ _ _ _ _ Hnode Hwf Hal Had Hcs Hal2 Had2)
      as (? & ? & ?).
    split_and!; [done..| |done].
    cbn [flat_map]. rewrite length_app. lia. }
  split_and!.
  - intros parent s node s' H Hp. cbn [ruleN] in H.
    apply bind_inv_Ok in H as (node0 & s1 & E1 & H).
    apply bind_inv_Ok in H as (u2 & s2 & E2 & H).
    apply bind_inv_Ok in H as (u3 & s3 & E3 & H).
    apply bind_inv_Ok in H as (u4 & s4 & E4 & H).
    apply bind_inv_Ok in H as (u5 & s5 & E5 & H).
    apply bind_inv_Ok in H as (u6 & s6 & E6 & H).
    apply bind_inv_Ok in H as (u7 & s7 & E7 & H).
    unfold ret in H. injection H as -> ->.
    unfold newNode, alloc in E1. injection E1 as <- <-.
    assert (s2 = mkPS (idx s) (S (thisNodeID s))
                   (match parent with
                    | Some p => addChild p (length (ps_heap s))
                                  (ps_heap s ++ [new_Node (thisNodeID s)])
                    | None => ps_heap s ++ [new_Node (thisNodeID s)]
                    end)) as ->.
    { destruct parent; cbn in E2; by injection E2 as <-. }
    clear E2.
    apply IHC in E3 as (cs & Hwf & Hal & Hid & Had).
    2:{ cbn. destruct parent; unfold addChild;
          rewrite ?length_update, length_app; cbn; lia. }
    cbn [ps_heap thisNodeID] in *.
    apply ruleL_decorated in E4. apply ruleH_decorated in E5.
    apply ruleA_decorated in E6. apply ruleB_decorated in E7.
    pose proof (decorated_trans _ _ _ _ E4
                  (decorated_trans _ _ _ _ E5
                     (decorated_trans _ _ _ _ E6 E7))) as [Di Dd].
    destruct (node_shape _ _ _ _ _ _ Hp Hwf Hal Had Dd) as (? & ? & ?).
    exists (RT (length (ps_heap s)) cs).
    split_and!; [done..| |done].
    rewrite flatten_unfold. cbn [length]. lia.
  - intros node s u s' H Hnode. cbn [ruleC] in H.
    apply bind_inv_Ok in H as ([] & s1 & E1 & H).
    + apply bind_inv_Ok in H as (c & s2 & E2 & H).
      apply bind_inv_Ok in H as (u3 & s3 & E3 & H).
      apply bind_inv_Ok in H as (u4 & s4 & E4 & H).
      unfold ret in H. injection H as _ ->.
      apply acceptToken_store in E4 as [-> ->].
      eapply (Hforest node s _ s1 u3 s3); [done| |done].
      rewrite (bind_Ok (ruleN Number tokenList n (Some node))
                 (λ _, ruleM Number tokenList n node) s1 c s2 E2).
      exact E3.
    + apply acceptToken_store in E1 as [Ei Eh].
      unfold ret in H. injection H as _ ->. rewrite Ei, Eh.
      exists []. destruct (forest_nil (ps_heap s) (thisNodeID s) node)
        as (? & ? & ?).
      split_and!; [done..|cbn; lia|done].
  - intros node s u s' H Hnode. cbn [ruleM] in H.
    apply bind_inv_Ok in H as ([] & s1 & E1 & H).
    + by eapply (Hforest node s _ s1 u s').
    + apply acceptToken_store in E1 as [Ei Eh].
      unfold ret in H. injection H as _ ->. rewrite Ei, Eh.
      exists []. destruct (forest_nil (ps_heap s) (thisNodeID s) node)
        as (? & ? & ?).
      split_and!; [done..|cbn; lia|done].
Qed.

End ParserShape.

Lemma adopted_none_take h h' :
  length h ≤ length h' → adopted h h' None [] → take (length h) h' = h.
Proof.
  intros Hlen Had. apply list_eq. intros x.
  destruct (decide (x < length h)) as [Hx|Hx].
  - rewrite lookup_take_lt by done. specialize (Had x Hx).
    rewrite decide_False in Had by done. unfold node_at in Had.
    destruct (lookup_lt_is_Some_2 h x Hx) as [a Ha].
    destruct (lookup_lt_is_Some_2 h' x ltac:(lia)) as [b Hb].
    rewrite (list_lookup_total_correct _ _ _ Ha) in Had.
    rewrite (list_lookup_total_correct _ _ _ Hb) in Had. congruence.
  - rewrite lookup_take_ge by lia. by rewrite lookup_ge_None_2 by lia.
Qed.

(** The store after [doParse], from the rules. *)
Lemma doParse_shape Number tokenList h rootNode h' :
  doParse Number tokenList h = Ok (rootNode, h') →
  ∃ rt, rroot rt = rootNode
    ∧ is_tree h' rt
    ∧ flatten rt = seq (length h) (length (flatten rt))
    ∧ length h' = length h + length (flatten rt)
    ∧ take (length h) h' = h
    ∧ (λ x, id (node_at h' x)) <$> flatten rt = seq 0 (length (flatten rt)).
Proof.
  unfold doParse. intros H.
  destruct (ruleT _ _ _ _) as [[r s]| |] eqn:ET; [|done..].
  injection H as -> <-. unfold ruleT in ET.
  apply bind_inv_Ok in ET as (node & s1 & E1 & ET).
  apply bind_inv_Ok in ET as (semi & s2 & E2 & ET).
  apply bind_inv_Ok in ET as (comma & s3 & E3 & ET).
  destruct comma; [done|]. unfold ret in ET. injection ET as -> ->.
  apply acceptToken_store in E2 as [_ E2].
  assert (ps_heap s = ps_heap s2) as E4.
  { destruct semi; [by injection E3 as <-|].
    by apply acceptToken_store in E3 as [_ E3]. }
  rewrite E4, E2.
  apply (proj1 (ruleNCM_shape Number tokenList _)) in E1
    as (rt & Hr & Hwf & (Hseq & Hlen & Hids) & _ & Had); [|done].
  cbn [ps_heap thisNodeID] in *.
  exists rt. split_and!; try done.
  - split; [done|]. rewrite Hseq. apply NoDup_seq.
  - apply adopted_none_take; [lia|]. intros x Hx.
    rewrite (Had x Hx). by rewrite !decide_False.
Qed.

(** X16: the store that [doParse] returns holds a tree below the node
    it returns.  The nodes of this tree are new -- they follow the nodes
    of the store as it was, which are untouched --, one after the other
    in pre-order, and their ids count 0, 1, 2, ... in pre-order. *)
Theorem doParse_builds_tree Number tokenList h rootNode h' :
  doParse Number tokenList h = Ok (rootNode, h') →
  ∃ rt, rroot rt = rootNode
    ∧ is_tree h' rt
    ∧ flatten rt = seq (length h) (length (flatten rt))
    ∧ length h' = length h + length (flatten rt)
    ∧ take (length h) h' = h
    ∧ (λ x, id (node_at h' x)) <$> flatten rt = seq 0 (length (flatten rt)).
Proof. apply doParse_shape. Qed.

(** ** The reader: parser and tree constructor together *)

Lemma decorates_links node h h' x :
  decorates node h h' →
  id (node_at h' x) = id (node_at h x)
  ∧ children (node_at h' x) = children (node_at h x)
  ∧ parent (node_at h' x) = parent (node_at h x).
Proof.
  intros (_ & Ho & Hi & Hc & Hp & _).
  destruct (decide (x = node)) as [->|Hne]; [done|]. by rewrite Ho.
Qed.

Lemma links_wf_at h h' t :
  length h' = length h →
  (∀ x, children (node_at h' x) = children (node_at h x)
        ∧ parent (node_at h' x) = parent (node_at h x)) →
  ∀ p, wf_at h p t → wf_at h' p t.
Proof.
  intros Hlen Hsame. induction t as [r cs IH] using rtree_ind'. intros p.
  rewrite !wf_at_unfold. intros (Hr & Hp & Hc & Hcs).
  destruct (Hsame r) as [-> ->]. rewrite Hlen. split_and!; [done..|].
  rewrite Forall_forall in *. intros c Hin. apply IH; [done|by apply Hcs].
Qed.

Lemma computeNodeAges_root fuel t h t' h' :
  computeNodeAges fuel t h = Ok (t', h') → root t' = root t.
Proof.
  unfold computeNodeAges. intros H.
  apply bind_inv_Ok in H as (heights & s1 & E1 & H).
  apply bind_inv_Ok in H as (h1 & s2 & E2 & H).
  apply bind_inv_Ok in H as ([nl t2] & s3 & E3 & H).
  apply bind_inv_Ok in H as (u & s4 & E4 & H).
  unfold ret in H. injection H as <- <-.
  unfold nodeList in E3. cbn [_nodeList set_isTimeTree] in E3.
  destruct (_nodeList t).
  - unfold ret in E3. by injection E3 as <- <- <-.
  - apply bind_inv_Ok in E3 as (l & s5 & E5 & E3).
    unfold ret in E3. by injection E3 as <- <- <-.
Qed.

Lemma take_same h h' :
  length h ≤ length h' →
  (∀ x, x < length h → node_at h' x = node_at h x) →
  take (length h) h' = h.
Proof.
  intros Hlen Hsame. apply adopted_none_take; [done|].
  intros x Hx. rewrite decide_False by done. by apply Hsame.
Qed.

(** A pass that ends has not run out of depth: the tree is no deeper
    than the bound. *)
Lemma applyPreOrder_depth {A} (f : nat → M (list Node) (option A)) :
  (∀ x h a h', f x h = Ok (a, h') → heights_only h h') →
  ∀ fuel t h p res h',
    wf_at h p t → applyPreOrder fuel f (rroot t) h = Ok (res, h') →
    depth t ≤ fuel.
Proof.
  intros Hf. induction fuel as [|fuel IH]; intros [r cs] h p res h' Hwf H;
    [done|].
  cbn [applyPreOrder rroot] in H.
  apply bind_inv_Ok in H as (a & h1 & E1 & H).
  unfold bind at 1, get at 1 in H.
  apply bind_inv_Ok in H as (rest & h2 & E2 & H).
  apply Hf in E1. apply (heights_only_wf_at h h1 E1) in Hwf.
  apply wf_at_unfold in Hwf as (_ & _ & Hc & Hcs). rewrite Hc in E2.
  rewrite depth_unfold. apply le_n_S.
  clear Hc H E1 a res h p. revert h1 rest h2 E2 Hcs.
  induction cs as [|c cs IHcs]; intros h1 rest h2 E2 Hcs; [cbn; lia|].
  apply Forall_cons in Hcs as [Hc Hcs]. cbn [fmap list_fmap mapM] in E2.
  apply bind_inv_Ok in E2 as (y & h3 & E3 & E2).
  apply bind_inv_Ok in E2 as (ys & h4 & E4 & E2).
  assert (heights_only h1 h3) as Hho.
  { eapply (applyPreOrder_rel heights_only);
      [apply heights_only_refl|apply heights_only_trans|exact Hf|exact E3]. }
  apply (IH _ _ _ _ _ Hc) in E3.
  apply IHcs in E4.
  - rewrite fmap_cons. cbn [max_list max_list_with]. unfold Datatypes.id at 1. lia.
  - eapply Forall_impl; [exact Hcs|]. intros t. by apply heights_only_wf_at.
Qed.

(** The store after [readNewick], from the parser and the constructor. *)
Lemma readNewick_shape Number fuel newick h t h' :
  readNewick Number fuel newick h = Ok (t, h') →
  ∃ rt, root t = rroot rt
    ∧ is_tree h' rt
    ∧ flatten rt = seq (length h) (length (flatten rt))
    ∧ length h' = length h + length (flatten rt)
    ∧ take (length h) h' = h
    ∧ (λ x, id (node_at h' x)) <$> flatten rt = seq 0 (length (flatten rt)).
Proof.
  unfold readNewick. intros H.
  destruct (Lexer.doLex newick) as [tokenList| |]; [|done..].
  apply bind_inv_Ok in H as (rootNode & h1 & E1 & H).
  apply bind_inv_Ok in H as (tree & h2 & E2 & H).
  apply bind_inv_Ok in H as (h3 & h4 & E3 & H).
  apply bind_inv_Ok in H as (u & h5 & E4 & H).
  unfold ret in H. injection H as <- <-.
  unfold get in E3. injection E3 as <- <-.
  apply doParse_shape in E1
    as (rt & Hr & [Hwf Hnd] & Hseq & Hlen & Htake & Hids).
  unfold new_Tree in E2. pose proof (computeNodeAges_root _ _ _ _ _ E2) as Hroot.
  apply computeNodeAges_heights_only in E2 as Hho.
  cbn [root] in Hroot.
  assert (∀ y, y ∉ flatten rt → node_at h2 y = node_at h1 y) as Hframe.
  { assert (depth rt ≤ fuel) as Hd.
    { unfold computeNodeAges in E2. cbn [root] in E2.
      apply bind_inv_Ok in E2 as (heights & h6 & E6 & _).
      rewrite <- Hr in E6.
      eapply (applyPreOrder_depth setHeight); [|exact Hwf|exact E6].
      intros x hx a hx' [= <- <-]. apply heights_only_update. }
    destruct (computeNodeAges_spec fuel
                (mkTree rootNode None None None None None false)
                h1 None rt Hwf Hnd Hd (eq_sym Hr) eq_refl)
      as (h2' & E5 & _ & _ & Hout).
    rewrite E2 in E5. by injection E5 as _ <-. }
  assert (decorates (root tree) h2 h5) as Hdec.
  { destruct (branchLength (node_at h2 (root tree))) as [bl|].
    - destruct (JS.strict_eq bl JS.zero).
      + unfold modify in E4. injection E4 as _ <-.
        by apply decorates_update.
      + unfold ret in E4. injection E4 as _ <-. apply decorates_refl.
    - unfold ret in E4. injection E4 as _ <-. apply decorates_refl. }
  assert (length h5 = length h + length (flatten rt)) as Hlen5.
  { destruct Hdec as [-> _]. destruct Hho as [-> _]. done. }
  exists rt. split_and!.
  - congruence.
  - split; [|done]. apply (links_wf_at h2).
    + apply Hdec.
    + intros x. by destruct (decorates_links _ _ _ x Hdec) as (_ & ? & ?).
    + by apply (heights_only_wf_at h1).
  - done.
  - done.
  - apply take_same; [lia|]. intros x Hx.
    assert (x ∉ flatten rt) as Hnot.
    { rewrite Hseq. intros Hin%elem_of_seq. lia. }
    destruct Hdec as (_ & Ho & _). rewrite Ho.
    + rewrite Hframe by done.
      unfold node_at. rewrite !list_lookup_total_alt. f_equal.
      transitivity (take (length h) h1 !! x); [|by rewrite Htake].
      by rewrite lookup_take_lt.
    + intros ->. apply Hnot. rewrite Hroot, <- Hr. apply rroot_in_flatten.
  - rewrite <- Hids. apply list_fmap_ext. intros ? x _.
    destruct (decorates_links _ _ _ x Hdec) as (-> & _).
    by rewrite (heights_only_id h1 h2).
Qed.

(** X17: what [readNewick] returns is a tree: the store holds a tree
    below the root of the [Tree] object, made of new nodes -- the nodes
    that were in the store before are untouched -- whose ids count
    0, 1, 2, ... in pre-order. *)
Theorem readNewick_builds_tree Number fuel newick h t h' :
  readNewick Number fuel newick h = Ok (t, h') →
  ∃ rt, root t = rroot rt
    ∧ is_tree h' rt
    ∧ flatten rt = seq (length h) (length (flatten rt))
    ∧ length h' = length h + length (flatten rt)
    ∧ take (length h) h' = h
    ∧ (λ x, id (node_at h' x)) <$> flatten rt = seq 0 (length (flatten rt)).
Proof. apply readNewick_shape. Qed.

(** ** [getSubtree] *)

(** X18: [getSubtree] copies nothing.  The tree it returns is rooted at
    the node it was given, in the same store, where this node keeps its
    parent and its descendants; the call rewrites the heights of the
    nodes below and at this node, and nothing else in the store. *)
Theorem getSubtree_shares fuel h p rt :
  wf_at h p rt → NoDup (flatten rt) → depth rt ≤ fuel →
  ∃ t' h',
    getSubtree fuel (rroot rt) h = Ok (t', h')
    ∧ root t' = rroot rt
    ∧ _nodeList t' = Some (flatten rt)
    ∧ wf_at h' p rt
    ∧ heights_within (flatten rt) h h'.
Proof.
  intros Hwf Hnd Hd.
  destruct (computeNodeAges_spec fuel
              (mkTree (rroot rt) None None None None None false)
              h p rt Hwf Hnd Hd eq_refl eq_refl)
    as (h' & E & Hho & _ & Hout).
  eexists _, h'. split; [exact E|]. split_and!; [done|done| |by split].
  by apply (heights_only_wf_at h).
Qed.

(** ** [readTreesFromNewick] *)

Lemma take_take_le {A} (l : list A) n m : n ≤ m → take n (take m l) = take n l.
Proof. intros Hnm. rewrite take_take. f_equal. lia. Qed.

Lemma node_at_take h h' x :
  take (length h) h' = h → x < length h → node_at h' x = node_at h x.
Proof.
  intros Ht Hx. unfold node_at. rewrite !list_lookup_total_alt. f_equal.
  transitivity (take (length h) h' !! x); [|by rewrite Ht].
  by rewrite lookup_take_lt.
Qed.

Lemma readLines_trees Number fuel lines : ∀ trees h trees' h',
  readLines Number fuel lines trees h = Ok (trees', h') →
  ∃ new rts,
    trees' = trees ++ new
    ∧ Forall2 (λ t rt,
         root t = rroot rt ∧ is_tree h' rt
         ∧ (λ x, id (node_at h' x)) <$> flatten rt
           = seq 0 (length (flatten rt))) new rts
    ∧ flat_map flatten rts = seq (length h) (length (flat_map flatten rts))
    ∧ length h' = length h + length (flat_map flatten rts)
    ∧ take (length h) h' = h.
Proof.
  induction lines as [|line lines IH]; intros trees h trees' h' H.
  { injection H as <- <-. exists [], []. rewrite app_nil_r.
    split_and!; [done|constructor|done|cbn; lia|].
    by rewrite firstn_all. }
  cbn [readLines] in H.
  destruct (length (trim line) =? 0)%nat; [by apply IH|].
  destruct (readNewick Number fuel (trim line) h) as [[t h1]|e|] eqn:E.
  2:{ destruct e; discriminate H. }
  2:{ discriminate H. }
  apply readNewick_shape in E
    as (rt & Hroot & [Hwf Hnd] & Hseq & Hlen & Htake & Hids).
  apply IH in H as (new & rts & -> & Hall & Hseq2 & Hlen2 & Htake2).
  assert (∀ x, x ∈ flatten rt → node_at h' x = node_at h1 x) as Hsame.
  { intros x Hx. apply node_at_take; [done|].
    rewrite Hseq in Hx. apply elem_of_seq in Hx. lia. }
  exists (t :: new), (rt :: rts). split_and!.
  - by rewrite <- app_assoc.
  - constructor; [|done]. split_and!; [done| |].
    + split; [|done]. apply (wf_at_grow h1); [lia|done|done].
    + rewrite <- Hids. apply list_fmap_ext.
      intros ? x Hx%list_elem_of_lookup_2. by rewrite Hsame.
  - cbn [flat_map]. rewrite length_app, seq_app. f_equal; [done|].
    rewrite Hseq2 at 1. f_equal. lia.
  - cbn [flat_map]. rewrite length_app. lia.
  - transitivity (take (length h) (take (length h1) h'));
      [by rewrite take_take_le by lia|by rewrite Htake2].
Qed.

(** X19: the trees of [readTreesFromNewick] lie one after the other in
    the store.  The nodes added to the store are the nodes of the trees
    returned, tree by tree and in pre-order within a tree; what was in
    the store is untouched; and the ids start again from 0 in every
    tree. *)
Theorem readTreesFromNewick_trees Number fuel newick h trees h' :
  readTreesFromNewick Number fuel newick h = Ok (trees, h') →
  ∃ rts,
    Forall2 (λ t rt,
       root t = rroot rt ∧ is_tree h' rt
       ∧ (λ x, id (node_at h' x)) <$> flatten rt
         = seq 0 (length (flatten rt))) trees rts
    ∧ flat_map flatten rts = seq (length h) (length h' - length h)
    ∧ take (length h) h' = h.
Proof.
  intros H. unfold readTreesFromNewick in H.
  destruct (readLines_trees _ _ _ _ _ _ _ H)
    as (new & rts & Hnew & Hall & Hseq & Hlen & Htake).
  cbn [app] in Hnew. subst new.
  exists rts. split; [exact Hall|]. split; [|exact Htake].
  etransitivity; [exact Hseq|]. f_equal. lia.
Qed.

Lemma sepRun_no_line_feed s :
  Lexer.allChars (λ c, negb (N.eqb c 10)) s = true → sepRun s = None.
Proof.
  induction s as [|c s IH]; [done|]. cbn [Lexer.allChars sepRun].
  intros [Hc Hs]%andb_prop. apply negb_true_iff in Hc.
  rewrite (IH Hs), Hc. by destruct (Lexer.isWhitespace c).
Qed.

Lemma splitLines_no_line_feed s : ∀ cur,
  Lexer.allChars (λ c, negb (N.eqb c 10)) s = true →
  splitLines s 0 cur = [cur ++ s].
Proof.
  induction s as [|c s IH]; intros cur Hall.
  { cbn. by rewrite app_nil_r. }
  cbn [Lexer.allChars] in Hall. apply andb_prop in Hall as [Hc Hs].
  cbn [splitLines]. rewrite (sepRun_no_line_feed s Hs).
  rewrite (IH _ Hs), <- app_assoc. by destruct (N.eqb c (cu ";")).
Qed.

(** X20: nothing is split where there is no line feed.  A text without
    line feed is read as one tree, from the text without the whitespace
    around it -- whatever semicolons it holds --, and as no tree when
    it is blank. *)
Theorem readTreesFromNewick_one_line Number fuel newick h :
  Lexer.allChars (λ c, negb (N.eqb c 10)) newick = true →
  readTreesFromNewick Number fuel newick h
  = match trim newick with
    | [] => Ok ([], h)
    | _ :: _ =>
        match readNewick Number fuel (trim newick) h with
        | Ok (t, h') => Ok ([t], h')
        | Throw e => Throw e
        | OutOfFuel => OutOfFuel
        end
    end.
Proof.
  intros Hall. unfold readTreesFromNewick.
  rewrite (splitLines_no_line_feed newick [] Hall).
  cbn [app readLines].
  destruct (trim newick) as [|c s] eqn:Et; [done|].
  cbn [length Nat.eqb].
  destruct (readNewick Number fuel (c :: s) h) as [[t h1]|e|];
    [reflexivity|by destruct e|reflexivity].
Qed.

(** ** The theorems on concrete inputs *)

Section Witnesses.
Import Examples.



Lemma min_height_zero_iff_witness :
  ∃ t' h',
    computeNodeAges 3 (treeAt 0) (parsed timed) = Ok (t', h')
    ∧ minHeight h' timedShape = JS.zero.
Proof.
  destruct (min_height_zero_iff 3 (treeAt 0) (parsed timed) timedShape)
    as (t' & h' & E & _ & Hall & _).
  - apply is_treeb_correct. vm_compute. reflexivity.
  - reflexivity.
  - left. reflexivity.
  - vm_compute. lia.
  - exists t', h'. split; [exact E|]. apply Hall.
    apply (proj1 (Forall_forall
             (λ x, ∃ q, branchLength (node_at (parsed timed) x) = Some (JS.Fin q))
             (flat_map flatten (subtrees timedShape)))).
    repeat (apply Forall_cons; split; [vm_compute; eexists; reflexivity|]).
    apply Forall_nil_2.
Defined.

(** On a tree without branch lengths the heights are all [NaN]. *)
Lemma min_height_counterexample :
  is_tree (parsed bare) bareShape
  ∧ ∃ t' h',
      computeNodeAges 2 (treeAt 0) (parsed bare) = Ok (t', h')
      ∧ minHeight h' bareShape = JS.NaN
      ∧ minHeight h' bareShape ≠ JS.zero.
Proof.
  split; [apply is_treeb_correct; vm_compute; reflexivity|].
  eexists _, _. split; [vm_compute; reflexivity|].
  split; [vm_compute; reflexivity|]. vm_compute. discriminate.
Qed.

Lemma isTimeTree_iff_witness :
  ∃ t' h',
    computeNodeAges 3 (treeAt 0) (parsed timed) = Ok (t', h')
    ∧ isTimeTree t' = true.
Proof.
  destruct (isTimeTree_iff 3 (treeAt 0) (parsed timed) timedShape)
    as (t' & h' & E & _ & Hiff).
  - apply is_treeb_correct. vm_compute. reflexivity.
  - reflexivity.
  - reflexivity.
  - vm_compute. lia.
  - exists t', h'. split; [exact E|]. apply Hiff. split.
    + vm_compute. reflexivity.
    + left. vm_compute. lia.
Defined.

Lemma getMRCA_leafList_root_witness :
  ∃ ll t',
    leafList 3 (treeAt 0) (parsed timed) = Ok ((ll, t'), parsed timed)
    ∧ ll = leaves timedShape
    ∧ 2 ≤ length ll
    ∧ getMRCA 3 ll (parsed timed) = Ok (Some 0, parsed timed).
Proof.
  apply (getMRCA_leafList_root 3 (treeAt 0) (parsed timed) timedShape).
  - apply is_treeb_correct. vm_compute. reflexivity.
  - reflexivity.
  - vm_compute. lia.
  - reflexivity.
  - vm_compute. lia.
Defined.

(** On a tree whose root has a single child, the result is that child. *)
Lemma getMRCA_leafList_counterexample :
  is_tree (parsed unaryRoot) unaryRootShape
  ∧ ∃ ll t',
      leafList 3 (treeAt 0) (parsed unaryRoot) = Ok ((ll, t'), parsed unaryRoot)
      ∧ 2 ≤ length ll
      ∧ getMRCA 3 ll (parsed unaryRoot) = Ok (Some 1, parsed unaryRoot)
      ∧ getMRCA 3 ll (parsed unaryRoot)
        ≠ Ok (Some (root (treeAt 0)), parsed unaryRoot).
Proof.
  split; [apply is_treeb_correct; vm_compute; reflexivity|].
  eexists _, _. split; [vm_compute; reflexivity|].
  split; [vm_compute; lia|]. split; [vm_compute; reflexivity|].
  vm_compute. discriminate.
Qed.

Lemma multiple_roots_rejected_witness :
  readNewick Decimal.Number 1 (str twoRoots) []
  = Throw (ParseException MultipleRoots).
Proof.
  eapply (multiple_roots_rejected Decimal.Number 1 (str twoRoots)
            (tokensOf twoRoots) []).
  - vm_compute. reflexivity.
  - vm_compute. reflexivity.
  - vm_compute. reflexivity.
Defined.

Lemma branch_length_block_witness :
  ruleB Decimal.Number (tokensOf suffixed) 12 1
        (mkPS 2 2 [new_Node 0; new_Node 1])
  = ruleA (tokensOf suffixed) 12 1
      (mkPS 6 2 (update 1 (set_branchLength (Some (Decimal.Number (str "1.5"))))
                        [new_Node 0; new_Node 1]))
  ∧ ruleB Decimal.Number (tokensOf suffixed) 12 2
          (mkPS 8 3 [new_Node 0; new_Node 1; new_Node 2])
    = Throw (ParseException (ExpectedNumericalBranchLength (str "x"))).
Proof.
  split.
  - pose proof (branch_length_block Decimal.Number (tokensOf suffixed) 12 1
                  (mkPS 2 2 [new_Node 0; new_Node 1]) (str "1.5") 3) as H.
    destruct H as [_ Hnum].
    + simpl. lia.
    + vm_compute. reflexivity.
    + vm_compute. reflexivity.
    + vm_compute. lia.
    + destruct (Hnum eq_refl) as (_ & HB & _). exact HB.
  - pose proof (branch_length_block Decimal.Number (tokensOf suffixed) 12 2
                  (mkPS 8 3 [new_Node 0; new_Node 1; new_Node 2]) (str "x") 12) as H.
    destruct H as [Hnan _].
    + simpl. lia.
    + vm_compute. reflexivity.
    + vm_compute. reflexivity.
    + vm_compute. lia.
    + apply Hnan. reflexivity.
Defined.

Lemma ladderise_idempotent_witness :
  ∃ h1 h2,
    ladderise 3 (treeAt 0) (parsed unladdered) = Ok (tt, h1)
    ∧ ladderise 3 (treeAt 0) h1 = Ok (tt, h2)
    ∧ is_tree h1 (ladder unladderedShape)
    ∧ (∀ x, children (node_at h2 x) = children (node_at h1 x)).
Proof.
  apply (ladderise_idempotent 3 (treeAt 0) (parsed unladdered) unladderedShape).
  - apply is_treeb_correct. vm_compute. reflexivity.
  - reflexivity.
  - vm_compute. lia.
Defined.

Lemma readNewick_blank_witness :
  ∃ t h',
    readNewick Decimal.Number 1 [8232; 32; 12288; 10; 65279]%N [] = Ok (t, h')
    ∧ h' = [] ++ [set_height (Some JS.zero) (new_Node 0)]
    ∧ root t = 0
    ∧ root t < length h'
    ∧ _nodeList t = Some [root t]
    ∧ id (node_at h' (root t)) = 0
    ∧ label (node_at h' (root t)) = None
    ∧ children (node_at h' (root t)) = []
    ∧ branchLength (node_at h' (root t)) = None
    ∧ parent (node_at h' (root t)) = None
    ∧ (∀ x, x < 0 → node_at h' x = node_at [] x).
Proof.
  apply (readNewick_blank Decimal.Number 1 [8232; 32; 12288; 10; 65279]%N []).
  - reflexivity.
  - lia.
Defined.

(** A branch length on the root is lost; tips without label are named by
    ids that change; a root with a single child stays behind as a tip; a
    hybrid group changes the total. *)
Lemma reroot_conserves_counterexample :
  (is_tree (parsed rootBranch) timedShape
   ∧ ∃ t' h' total total' ta tb,
       reroot 9 (treeAt 0) 3 None (parsed rootBranch) = Ok (t', h')
       ∧ getTotalBranchLength 9 (treeAt 0) (parsed rootBranch)
         = Ok ((total, ta), parsed rootBranch)
       ∧ getTotalBranchLength 9 t' h' = Ok ((total', tb), h')
       ∧ JS.eqb total (JS.of_nat 9) = true
       ∧ JS.eqb total' (JS.of_nat 4) = true
       ∧ total ≠ total')
  ∧ (is_tree (parsed unlabelled) unlabelledShape
     ∧ ∃ t' h' tc td,
         reroot 9 (treeAt 0) 4 None (parsed unlabelled) = Ok (t', h')
         ∧ getTipLabels 9 (treeAt 0) None (parsed unlabelled)
           = Ok ((str <$> ["1"; "2"; "4"; "5"]%string, tc), parsed unlabelled)
         ∧ getTipLabels 9 t' None h'
           = Ok ((str <$> ["1"; "3"; "5"; "6"]%string, td), h'))
  ∧ (is_tree (parsed unaryTimed) unaryRootShape
     ∧ ∃ t' h' tc td,
         reroot 9 (treeAt 0) 1 None (parsed unaryTimed) = Ok (t', h')
         ∧ getTipLabels 9 (treeAt 0) None (parsed unaryTimed)
           = Ok ((str <$> ["A"; "B"]%string, tc), parsed unaryTimed)
         ∧ getTipLabels 9 t' None h'
           = Ok ((str <$> ["A"; "B"; "4"]%string, td), h'))
  ∧ (is_tree (parsed network) leafHybridsShape
     ∧ ∃ t' h' total total' ta tb,
         reroot 9 (treeAt 0) 2 None (parsed network) = Ok (t', h')
         ∧ getTotalBranchLength 9 (treeAt 0) (parsed network)
           = Ok ((total, ta), parsed network)
         ∧ getTotalBranchLength 9 t' h' = Ok ((total', tb), h')
         ∧ JS.eqb total (JS.of_nat 6) = true
         ∧ JS.eqb total' (JS.of_nat 7) = true
         ∧ total ≠ total').
Proof.
  split_and!.
  - apply is_treeb_correct; vm_compute; reflexivity.
  - eexists _, _, _, _, _, _. split_and!; try (vm_compute; reflexivity).
    vm_compute. intros H. injection H as H. discriminate H.
  - apply is_treeb_correct; vm_compute; reflexivity.
  - eexists _, _, _, _. split_and!; vm_compute; reflexivity.
  - apply is_treeb_correct; vm_compute; reflexivity.
  - eexists _, _, _, _. split_and!; vm_compute; reflexivity.
  - apply is_treeb_correct; vm_compute; reflexivity.
  - eexists _, _, _, _, _, _. split_and!; try (vm_compute; reflexivity).
    vm_compute. intros H. injection H as H. discriminate H.
Qed.

Lemma reroot_conserves_witness :
  ∃ t' h' total tips tips' ta tb tc td,
    reroot 9 (treeAt 0) 3 None (parsed timed) = Ok (t', h')
    ∧ getTotalBranchLength 9 (treeAt 0) (parsed timed)
      = Ok ((total, ta), parsed timed)
    ∧ getTotalBranchLength 9 t' h' = Ok ((total, tb), h')
    ∧ getTipLabels 9 (treeAt 0) None (parsed timed)
      = Ok ((tips, tc), parsed timed)
    ∧ getTipLabels 9 t' None h' = Ok ((tips', td), h')
    ∧ tips' ≡ₚ tips.
Proof.
  destruct (reroot_conserves 9 (treeAt 0) (parsed timed) timedShape 3 None)
    as [_ H].
  - apply is_treeb_correct. vm_compute. reflexivity.
  - reflexivity.
  - split; left; reflexivity.
  - apply (proj1 (Forall_forall
             (λ x, hybridID (node_at (parsed timed) x) = None)
             (flatten timedShape))).
    repeat (apply Forall_cons; split; [vm_compute; reflexivity|]).
    apply Forall_nil_2.
  - vm_compute. repeat constructor; vm_compute; intros H;
      repeat (apply elem_of_cons in H as [H|H]; [discriminate H|]);
      by apply elem_of_nil in H.
  - vm_compute. reflexivity.
  - vm_compute. lia.
  - apply (proj1 (Forall_forall
             (λ x, is_Some (label (node_at (parsed timed) x)))
             (leaves timedShape))).
    repeat (apply Forall_cons; split; [vm_compute; eexists; reflexivity|]).
    apply Forall_nil_2.
  - apply (proj1 (Forall_forall
             (λ x, finiteOrNone (branchLength (node_at (parsed timed) x)))
             (flatten timedShape))).
    repeat (apply Forall_cons; split; [vm_compute; done|]).
    apply Forall_nil_2.
  - vm_compute. repeat constructor.
  - vm_compute. lia.
  - vm_compute. lia.
  - assert (∃ t' h', reroot 9 (treeAt 0) 3 None (parsed timed) = Ok (t', h'))
      as (t' & h' & E) by (vm_compute; eauto).
    destruct (H t' h' E) as (total & tips & tips' & ta & tb & tc & td & HH).
    exists t', h', total, tips, tips', ta, tb, tc, td. split; [exact E|exact HH].
Defined.

Lemma reroot_at_root_throws_witness :
  reroot 3 (treeAt 0) (rroot timedShape) None (parsed timed)
  = Throw (ThrownString "edgeBaseNodeP === undefined")
  ∨ reroot 3 (treeAt 0) (rroot timedShape) None (parsed timed)
    = Throw (ThrownString
        "Extended Newick error: hybrid nodes must come in groups of 2 or more.").
Proof.
  apply (reroot_at_root_throws 3 (treeAt 0) (parsed timed) timedShape None).
  - apply is_treeb_correct. vm_compute. reflexivity.
  - reflexivity.
  - vm_compute. lia.
Defined.

Lemma reroot_prop_out_of_range_witness :
  reroot 9 (treeAt 0) 3 (Some (JS.of_nat 2)) (parsed timed)
  = reroot 9 (treeAt 0) 3 None (parsed timed).
Proof.
  apply (reroot_prop_out_of_range 9 (treeAt 0) (parsed timed) 3 (JS.of_nat 2)).
  vm_compute. reflexivity.
Defined.


Lemma computeNodeAges_idempotent_witness :
  ∃ t1 h1,
    computeNodeAges 3 (treeAt 0) (parsed timed) = Ok (t1, h1)
    ∧ computeNodeAges 3 t1 h1 = Ok (t1, h1).
Proof.
  apply (computeNodeAges_idempotent 3 (treeAt 0) (parsed timed) timedShape).
  - apply is_treeb_correct. vm_compute. reflexivity.
  - reflexivity.
  - vm_compute. lia.
  - left. reflexivity.
Defined.

Lemma getTipLabels_of_node_witness :
  ∃ h',
    getTipLabels 3 (treeAt 0) (Some 2) (parsed timed)
    = Ok ((tipLabel (parsed timed) <$> [3; 4], treeAt 0), h')
    ∧ heights_within [2; 3; 4] (parsed timed) h'.
Proof.
  apply (getTipLabels_of_node 3 (treeAt 0) (parsed timed) (Some 0)
           (RT 2 [RT 3 []; RT 4 []])).
  - apply wf_atb_correct. vm_compute. reflexivity.
  - apply (bool_decide_unpack (NoDup _)). vm_compute. exact I.
  - vm_compute. lia.
Defined.

Lemma ladderise_sorts_witness :
  ∃ h1,
    ladderise 3 (treeAt 0) (parsed unladdered) = Ok (tt, h1)
    ∧ is_tree h1 (ladder unladderedShape)
    ∧ laddered (ladder unladderedShape)
    ∧ reordered (parsed unladdered) h1.
Proof.
  apply (ladderise_sorts 3 (treeAt 0) (parsed unladdered) unladderedShape).
  - apply is_treeb_correct. vm_compute. reflexivity.
  - reflexivity.
  - vm_compute. lia.
Defined.

Lemma getRecombEdgeMap_throws_iff_witness :
  ∃ called t',
    getRecombEdgeMap 3 (treeAt 0) (parsed strandedSource)
    = Ok ((called, t'), parsed strandedSource)
    ∧ (called
       = Thrown (ThrownString
           "Extended Newick error: hybrid nodes must come in groups of 2 or more.")
       ↔ ∃ k, hasSource (parsed strandedSource) k (flatten strandedSourceShape)
              ∧ destGroup (parsed strandedSource) k
                          (flatten strandedSourceShape) = [])
    ∧ ((∃ m, called = Returned m)
       ↔ ∀ k, hasSource (parsed strandedSource) k (flatten strandedSourceShape)
              → destGroup (parsed strandedSource) k
                          (flatten strandedSourceShape) ≠ []).
Proof.
  apply (getRecombEdgeMap_throws_iff 3 (treeAt 0) (parsed strandedSource)
           strandedSourceShape).
  - apply is_treeb_correct. vm_compute. reflexivity.
  - reflexivity.
  - vm_compute. lia.
  - reflexivity.
Defined.

Lemma getRecombEdgeMap_groups_witness :
  ∃ m t',
    getRecombEdgeMap 3 (treeAt 0) (parsed network)
    = Ok ((Returned m, t'), parsed network)
    ∧ recombEdgeMap t' = Some m
    ∧ m !! JS.of_nat 1 = Some [4; 3]
    ∧ ∀ k, m !! k
           = groupOf (parsed network) k
               (flatten (RT 0 [RT 1 [RT 2 []; RT 3 []];
                               RT 4 [RT 5 []; RT 6 []]])).
Proof.
  edestruct (getRecombEdgeMap_groups 3 (treeAt 0) (parsed network)
               (RT 0 [RT 1 [RT 2 []; RT 3 []]; RT 4 [RT 5 []; RT 6 []]]))
    as (_ & Hc & Hk).
  - apply is_treeb_correct. vm_compute. reflexivity.
  - reflexivity.
  - vm_compute. lia.
  - reflexivity.
  - vm_compute. reflexivity.
  - eexists _, _. split; [vm_compute; reflexivity|].
    split; [exact Hc|]. split; [vm_compute; reflexivity|exact Hk].
Defined.


Lemma reassignNodeIDs_preorder_witness :
  ∃ t' h',
    reassignNodeIDs 3 (treeAt 0) (parsed timed) = Ok (t', h')
    ∧ ids_only (parsed timed) h'
    ∧ (λ x, id (node_at h' x)) <$> flatten timedShape
      = seq 0 (length (flatten timedShape))
    ∧ (∀ y, y ∉ flatten timedShape → node_at h' y = node_at (parsed timed) y).
Proof.
  apply (reassignNodeIDs_preorder 3 (treeAt 0) (parsed timed) timedShape).
  - apply is_treeb_correct. vm_compute. reflexivity.
  - reflexivity.
  - vm_compute. lia.
  - left. reflexivity.
Defined.


Lemma doLex_plain_label_witness :
  Lexer.doLex (str "Homo sapiens ")
  = Ok [(STRING, str "Homo sapiens ", 0)].
Proof.
  apply (doLex_plain_label (cu "H") (str "omo sapiens ")).
  - reflexivity.
  - apply (bool_decide_unpack (_ ∉ _)). vm_compute. exact I.
  - reflexivity.
Defined.

Lemma doLex_quoted_label_witness :
  Lexer.doLex (str "'a,b(c):d'") = Ok [(STRING, str "a,b(c):d", 0)].
Proof.
  apply (doLex_quoted_label (cu "'") (str "a,b(c):d")).
  - left. reflexivity.
  - discriminate.
  - reflexivity.
Defined.

Lemma doParse_builds_tree_witness :
  ∃ rt, rroot rt = 0
    ∧ is_tree (parsed unaryRoot) rt
    ∧ flatten rt = seq (length (@nil Node)) (length (flatten rt))
    ∧ length (parsed unaryRoot) = length (@nil Node) + length (flatten rt)
    ∧ take (length (@nil Node)) (parsed unaryRoot) = []
    ∧ (λ x, id (node_at (parsed unaryRoot) x)) <$> flatten rt
      = seq 0 (length (flatten rt)).
Proof.
  apply (doParse_builds_tree Decimal.Number (tokensOf unaryRoot) [] 0
           (parsed unaryRoot)).
  vm_compute. reflexivity.
Defined.

Lemma readNewick_builds_tree_witness :
  ∃ t h',
    readNewick Decimal.Number 3 (str timed) [] = Ok (t, h')
    ∧ ∃ rt, root t = rroot rt
        ∧ is_tree h' rt
        ∧ flatten rt = seq (length (@nil Node)) (length (flatten rt))
        ∧ length h' = length (@nil Node) + length (flatten rt)
        ∧ take (length (@nil Node)) h' = []
        ∧ (λ x, id (node_at h' x)) <$> flatten rt
          = seq 0 (length (flatten rt)).
Proof.
  eexists _, _. split; [vm_compute; reflexivity|].
  apply (readNewick_builds_tree Decimal.Number 3 (str timed) []).
  vm_compute. reflexivity.
Defined.

Lemma getSubtree_shares_witness :
  ∃ t' h',
    getSubtree 3 2 (parsed timed) = Ok (t', h')
    ∧ root t' = 2
    ∧ _nodeList t' = Some [2; 3; 4]
    ∧ wf_at h' (Some 0) (RT 2 [RT 3 []; RT 4 []])
    ∧ heights_within [2; 3; 4] (parsed timed) h'.
Proof.
  apply (getSubtree_shares 3 (parsed timed) (Some 0) (RT 2 [RT 3 []; RT 4 []])).
  - apply wf_atb_correct. vm_compute. reflexivity.
  - apply (bool_decide_unpack (NoDup _)). vm_compute. exact I.
  - vm_compute. lia.
Defined.

Lemma readTreesFromNewick_trees_witness :
  ∃ trees h',
    readTreesFromNewick Decimal.Number 3
      (str "(A,B);" ++ [10%N] ++ str " " ++ [10%N] ++ str "((C,D),E);") []
    = Ok (trees, h')
    ∧ length trees = 2
    ∧ ∃ rts,
        Forall2 (λ t rt,
           root t = rroot rt ∧ is_tree h' rt
           ∧ (λ x, id (node_at h' x)) <$> flatten rt
             = seq 0 (length (flatten rt))) trees rts
        ∧ flat_map flatten rts
          = seq (length (@nil Node)) (length h' - length (@nil Node))
        ∧ take (length (@nil Node)) h' = [].
Proof.
  eexists _, _. split; [vm_compute; reflexivity|].
  split; [reflexivity|].
  apply (readTreesFromNewick_trees Decimal.Number 3
           (str "(A,B);" ++ [10%N] ++ str " " ++ [10%N] ++ str "((C,D),E);") []).
  vm_compute. reflexivity.
Defined.

Lemma readTreesFromNewick_one_line_witness :
  ∃ t h',
    readTreesFromNewick Decimal.Number 3 (str " (A,B);(C,D); ") []
    = Ok ([t], h')
    ∧ length h' = 3.
Proof.
  eexists _, _.
  rewrite (readTreesFromNewick_one_line Decimal.Number 3
             (str " (A,B);(C,D); ") []) by reflexivity.
  split; vm_compute; reflexivity.
Defined.

End Witnesses.
